(** * 1c-buddy chat UI: the document rendering pipeline

    A shallow embedding of
      - [app/chat/static/markdown.js] (the Markdown renderer and, in the
        same file, the BSL highlighter),
      - [app/chat/static/xml.js] (the XML highlighter),
      - [sanitizeMermaidCode] of [app/chat/static/app.js],
    and the properties of the rendering pipeline proved about it.

    JavaScript strings are sequences of UTF-16 code units; regular
    expressions without the [u] flag and [code[i]] work on code units.
    A string is therefore a [list N] here.

    Comments quote the patterns of the sources; where a pattern has a star
    next to a parenthesis, the quotation puts a space between the two. *)

From Stdlib Require Import String Ascii.
From Stdlib Require Import List NArith ZArith Bool Arith Lia DecimalNat.
Import ListNotations.

Set Implicit Arguments.

(* ================================================================== *)
(** * Strings of UTF-16 code units *)
(* ================================================================== *)

Definition char := N.
Bind Scope N_scope with char.
Definition str := list char.

(** The string literals of this file are UTF-8 byte strings; [u] turns one
    into the code units the JavaScript engine sees. *)

Fixpoint bytes_of_string (s : string) : list N :=
  match s with
  | EmptyString => []
  | String a s' => N_of_ascii a :: bytes_of_string s'
  end.

Definition cont (b : N) : N := N.land b 63.

(** A code point as one code unit or a surrogate pair. *)
Definition units_of_code_point (cp : N) : str :=
  if (cp <? 65536)%N then [cp]
  else let v := (cp - 65536)%N in
       [(55296 + N.shiftr v 10)%N; (56320 + N.land v 1023)%N].

Fixpoint utf16_of_utf8 (bs : list N) : str :=
  match bs with
  | [] => []
  | b0 :: t0 =>
    if (b0 <? 128)%N then b0 :: utf16_of_utf8 t0
    else match t0 with
    | [] => []
    | b1 :: t1 =>
      if (b0 <? 224)%N then
        (N.shiftl (N.land b0 31) 6 + cont b1)%N :: utf16_of_utf8 t1
      else match t1 with
      | [] => []
      | b2 :: t2 =>
        if (b0 <? 240)%N then
          (N.shiftl (N.land b0 15) 12 + N.shiftl (cont b1) 6 + cont b2)%N
            :: utf16_of_utf8 t2
        else match t2 with
        | [] => []
        | b3 :: t3 =>
          units_of_code_point
            (N.shiftl (N.land b0 7) 18 + N.shiftl (cont b1) 12
             + N.shiftl (cont b2) 6 + cont b3)%N ++ utf16_of_utf8 t3
        end
      end
    end
  end.

Definition u (s : string) : str := utf16_of_utf8 (bytes_of_string s).

Definition ch (a : ascii) : char := N_of_ascii a.
Arguments ch : simpl never.

Definition c_tab : char := 9%N.
Definition c_nl : char := 10%N.
Definition c_cr : char := 13%N.
Definition c_dquote : char := 34%N.
Definition c_squote : char := 39%N.
Definition c_sect : char := 167%N.        (* the section sign of the markers *)

Definition ceqb (a b : char) : bool := N.eqb a b.
Arguments ceqb : simpl never.
Definition in_range (lo hi c : char) : bool := (lo <=? c)%N && (c <=? hi)%N.

Fixpoint str_eqb (a b : str) : bool :=
  match a, b with
  | [], [] => true
  | x :: a', y :: b' => ceqb x y && str_eqb a' b'
  | _, _ => false
  end.

Definition opt_ceqb (a b : option char) : bool :=
  match a, b with
  | Some x, Some y => ceqb x y
  | None, None => true
  | _, _ => false
  end.

(** A string in a condition: the empty string is falsy. *)
Definition truthy (s : str) : bool :=
  match s with
  | [] => false
  | _ :: _ => true
  end.

(** [code[i]]: [None] stands for [undefined]. *)
Definition idx (code : str) (i : nat) : option char := nth_error code i.

(** [code[i] === c] *)
Definition idx_is (code : str) (i : nat) (c : char) : bool :=
  opt_ceqb (idx code i) (Some c).

(** [s.slice(i, j)] for [0 <= i], [0 <= j]. *)
Definition slice (s : str) (i j : nat) : str := firstn (j - i) (skipn i s).


Fixpoint starts_with (p s : str) : bool :=
  match p, s with
  | [], _ => true
  | x :: p', y :: s' => ceqb x y && starts_with p' s'
  | _ :: _, [] => false
  end.

(** [true] when [p] occurs in [s] as a substring. *)
Fixpoint includes (p s : str) : bool :=
  starts_with p s ||
  match s with
  | [] => false
  | _ :: s' => includes p s'
  end.

(** [s.indexOf(p, from)] on the suffix [rest] that starts at [from]. *)
Fixpoint index_from (p rest : str) (from : nat) : option nat :=
  if starts_with p rest then Some from
  else match rest with
       | [] => None
       | _ :: rest' => index_from p rest' (S from)
       end.

Definition indexOf (s p : str) (from : nat) : option nat :=
  index_from p (skipn from s) from.

(** ** Character classes of the engine *)

(** WhiteSpace and LineTerminator code units: [\s] and [trim]. *)
Definition isSpace (c : char) : bool :=
  in_range 9 13 c || ceqb c 32 || ceqb c 160 || ceqb c 5760
  || in_range 8192 8202 c || ceqb c 8232 || ceqb c 8233 || ceqb c 8239
  || ceqb c 8287 || ceqb c 12288 || ceqb c 65279.

Arguments isSpace : simpl never.

Definition isLineTerminator (c : char) : bool :=
  ceqb c 10 || ceqb c 13 || ceqb c 8232 || ceqb c 8233.

Definition isDigit (c : char) : bool := in_range 48 57 c.

(** [\w] *)
Definition isAsciiWord (c : char) : bool :=
  in_range 65 90 c || in_range 97 122 c || isDigit c || ceqb c 95.

(** [toUpperCase] and [toLowerCase] of one code unit, on the letters the
    sources use: Latin and the Cyrillic block (with the small letters of
    Cyrillic Extended-C whose capital is in the basic block); every other
    code unit is left as it is. *)
Definition toUpper1 (c : char) : char :=
  if in_range 97 122 c then (c - 32)%N
  else if in_range 1072 1103 c then (c - 32)%N
  else if in_range 1104 1119 c then (c - 80)%N
  else if ceqb c 7296 then 1042%N
  else if ceqb c 7297 then 1044%N
  else if ceqb c 7298 then 1054%N
  else if ceqb c 7299 then 1057%N
  else if ceqb c 7300 then 1058%N
  else if ceqb c 7301 then 1058%N
  else if ceqb c 7302 then 1066%N
  else c.

Definition toLower1 (c : char) : char :=
  if in_range 65 90 c then (c + 32)%N
  else if in_range 1040 1071 c then (c + 32)%N
  else if in_range 1024 1039 c then (c + 80)%N
  else c.

Definition toLowerCase (s : str) : str := map toLower1 s.
Definition toUpperCase (s : str) : str := map toUpper1 s.

(** [s.trim()], [s.trimEnd()] *)
Fixpoint trimStart (s : str) : str :=
  match s with
  | c :: s' => if isSpace c then trimStart s' else s
  | [] => []
  end.

Definition trimEnd (s : str) : str := rev (trimStart (rev s)).
Definition trim (s : str) : str := trimEnd (trimStart s).

(** [parts.join(sep)] *)
Fixpoint join (sep : str) (parts : list str) : str :=
  match parts with
  | [] => []
  | [p] => p
  | p :: rest => p ++ sep ++ join sep rest
  end.

(** [s.split(c)] for a one-character separator. *)
Fixpoint split_char_aux (c : char) (cur : str) (s : str) : list str :=
  match s with
  | [] => [rev cur]
  | x :: s' => if ceqb x c then rev cur :: split_char_aux c [] s'
               else split_char_aux c (x :: cur) s'
  end.

Definition split_char (c : char) (s : str) : list str := split_char_aux c [] s.

(** [s.replace(/c/g, r)] for a one-character pattern and a replacement
    without [$]. *)
Definition replace_char (c : char) (r : str) (s : str) : str :=
  flat_map (fun x => if ceqb x c then r else [x]) s.

(** [String(n)] for a non-negative integer index: its decimal digits. *)
Fixpoint chars_of_uint (d : Decimal.uint) : str :=
  match d with
  | Decimal.Nil => []
  | Decimal.D0 d' => 48%N :: chars_of_uint d'
  | Decimal.D1 d' => 49%N :: chars_of_uint d'
  | Decimal.D2 d' => 50%N :: chars_of_uint d'
  | Decimal.D3 d' => 51%N :: chars_of_uint d'
  | Decimal.D4 d' => 52%N :: chars_of_uint d'
  | Decimal.D5 d' => 53%N :: chars_of_uint d'
  | Decimal.D6 d' => 54%N :: chars_of_uint d'
  | Decimal.D7 d' => 55%N :: chars_of_uint d'
  | Decimal.D8 d' => 56%N :: chars_of_uint d'
  | Decimal.D9 d' => 57%N :: chars_of_uint d'
  end.

Definition string_of_nat (n : nat) : str := chars_of_uint (Nat.to_uint n).

(* ================================================================== *)
(** * Regular expressions

    The regular expressions of the sources, as syntax trees, and the
    backtracking matcher of the JavaScript engine for them (no [u] flag:
    code units; [i] compares canonicalized code units; [m] lets [^] and
    [$] match at line terminators). *)
(* ================================================================== *)

Definition ranges := list (char * char).

Inductive regex : Type :=
| REmpty
| RChar (c : char)
| RSet (neg : bool) (rs : ranges)            (* [...] and [^...] *)
| RDot                                        (* . *)
| RSeq (a b : regex)
| RAlt (a b : regex)
| RRep (greedy : bool) (min : nat) (max : option nat) (a : regex)
| RGroup (n : nat) (a : regex)               (* the n-th capturing group *)
| RBol                                        (* ^ *)
| REol                                        (* $ *)
| RWordB                                      (* \b *)
| RAhead (neg : bool) (a : regex)            (* (?=a) and (?!a) *)
| RBehind (neg : bool) (rs : ranges).        (* (?<=[...]) and (?<![...]) *)

Record flags : Type := { icase : bool; multiline : bool }.

Definition f_none : flags := {| icase := false; multiline := false |}.
Definition f_i : flags := {| icase := true; multiline := false |}.
Definition f_m : flags := {| icase := false; multiline := true |}.

Definition in_ranges (rs : ranges) (c : char) : bool :=
  existsb (fun r => in_range (fst r) (snd r) c) rs.
Arguments in_ranges : simpl never.

(** Small letters outside the basic block whose capital is in it. *)
Definition extended_c (U : char) : list char :=
  if ceqb U 1042 then [7296%N]
  else if ceqb U 1044 then [7297%N]
  else if ceqb U 1054 then [7298%N]
  else if ceqb U 1057 then [7299%N]
  else if ceqb U 1058 then [7300%N; 7301%N]
  else if ceqb U 1066 then [7302%N]
  else [].

(** The code units with the canonical form of [c] under the [i] flag. *)
Definition variants (c : char) : list char :=
  let U := toUpper1 c in U :: toLower1 U :: extended_c U.

Definition char_match (fl : flags) (x y : char) : bool :=
  if icase fl then ceqb (toUpper1 x) (toUpper1 y) else ceqb x y.

Definition set_match (fl : flags) (neg : bool) (rs : ranges) (y : char) : bool :=
  xorb neg (if icase fl then existsb (in_ranges rs) (variants y)
            else in_ranges rs y).

(** Captures: group number and the slice it matched last. *)
Definition caps := list (nat * (nat * nat)).

Definition mres := option (nat * caps).

Section Matcher.
Variable fl : flags.
Variable input : str.

Definition kont := nat -> caps -> mres.

(** The iterations of [a{min,}] past the mandatory ones. An iteration
    that matches the empty string is refused. *)
Fixpoint loopRep (body : nat -> caps -> kont -> mres) (greedy : bool)
         (fuel : nat) (max : option nat) (i : nat) (c : caps) (k : kont)
  : mres :=
  match fuel with
  | O => k i c
  | S fuel' =>
    match max with
    | Some O => k i c
    | _ =>
      let max' := match max with Some n => Some (pred n) | None => None end in
      let again (_ : unit) :=
        body i c (fun j c' =>
          if j <=? i then None else loopRep body greedy fuel' max' j c' k) in
      if greedy then
        match again tt with
        | Some r => Some r
        | None => k i c
        end
      else
        match k i c with
        | Some r => Some r
        | None => again tt
        end
    end
  end.

Fixpoint minRep (body : nat -> caps -> kont -> mres) (min : nat)
         (i : nat) (c : caps) (k : kont) : mres :=
  match min with
  | O => k i c
  | S min' => body i c (fun j c' => minRep body min' j c' k)
  end.

Definition isWordAt (i : nat) : bool :=
  match idx input i with
  | Some y => isAsciiWord y
  | None => false
  end.

Definition isWordBefore (i : nat) : bool :=
  match i with
  | O => false
  | S p => isWordAt p
  end.

Definition atBol (i : nat) : bool :=
  match i with
  | O => true
  | S p => multiline fl &&
           match idx input p with
           | Some y => isLineTerminator y
           | None => false
           end
  end.

Definition atEol (i : nat) : bool :=
  match idx input i with
  | None => true
  | Some y => multiline fl && isLineTerminator y
  end.

Definition behind (neg : bool) (rs : ranges) (i : nat) : bool :=
  match i with
  | O => neg
  | S p => match idx input p with
           | Some y => xorb neg (set_match fl false rs y)
           | None => neg
           end
  end.

Fixpoint rmatch (r : regex) (i : nat) (c : caps) (k : kont) : mres :=
  match r with
  | REmpty => k i c
  | RChar x =>
    match idx input i with
    | Some y => if char_match fl x y then k (S i) c else None
    | None => None
    end
  | RSet neg rs =>
    match idx input i with
    | Some y => if set_match fl neg rs y then k (S i) c else None
    | None => None
    end
  | RDot =>
    match idx input i with
    | Some y => if isLineTerminator y then None else k (S i) c
    | None => None
    end
  | RSeq a b => rmatch a i c (fun j c' => rmatch b j c' k)
  | RAlt a b =>
    match rmatch a i c k with
    | Some r => Some r
    | None => rmatch b i c k
    end
  | RRep greedy min max a =>
    minRep (rmatch a) min i c (fun j c' =>
      loopRep (rmatch a) greedy (S (length input - j))
              (match max with Some n => Some (n - min) | None => None end)
              j c' k)
  | RGroup n a => rmatch a i c (fun j c' => k j ((n, (i, j)) :: c'))
  | RBol => if atBol i then k i c else None
  | REol => if atEol i then k i c else None
  | RWordB => if xorb (isWordBefore i) (isWordAt i) then k i c else None
  | RAhead neg a =>
    match rmatch a i c (fun j c' => Some (j, c')) with
    | Some (_, c') => if neg then None else k i c'
    | None => if neg then k i c else None
    end
  | RBehind neg rs => if behind neg rs i then k i c else None
  end.

(** A match that starts at [i]: its end and its captures. *)
Definition match_at (r : regex) (i : nat) : mres :=
  rmatch r i [] (fun j c => Some (j, c)).

(** The first match at or after [i] (one call of [exec]). *)
Fixpoint search (r : regex) (fuel i : nat) : option (nat * nat * caps) :=
  match fuel with
  | O => None
  | S fuel' =>
    match match_at r i with
    | Some (j, c) => Some (i, j, c)
    | None => search r fuel' (S i)
    end
  end.

Definition exec (r : regex) (from : nat) : option (nat * nat * caps) :=
  search r (S (length input) - from) from.

(** All matches of a global regular expression, left to right; after an
    empty match the scan moves on by one code unit. The positions to try
    are [0 .. length input], at most [fuel] many. *)
Fixpoint scan (r : regex) (fuel i : nat) : list (nat * nat * caps) :=
  match fuel with
  | O => []
  | S fuel' =>
    if length input <? i then []
    else match match_at r i with
         | Some (j, c) => (i, j, c) :: scan r fuel' (if j =? i then S i else j)
         | None => scan r fuel' (S i)
         end
  end.

Definition scan_all (r : regex) : list (nat * nat * caps) :=
  scan r (S (length input)) 0.
End Matcher.

(** [r.test(s)] *)
Definition test (fl : flags) (r : regex) (s : str) : bool :=
  match exec fl s r 0 with
  | Some _ => true
  | None => false
  end.

(** ** Matches as the replacement functions see them *)

Record rmatch_info : Type :=
  { m_start : nat; m_end : nat; m_groups : list (option str) }.

Fixpoint cap_lookup (c : caps) (n : nat) : option (nat * nat) :=
  match c with
  | [] => None
  | (g, se) :: c' => if g =? n then Some se else cap_lookup c' n
  end.

Fixpoint group_count (r : regex) : nat :=
  match r with
  | RSeq a b | RAlt a b => Nat.max (group_count a) (group_count b)
  | RRep _ _ _ a | RAhead _ a => group_count a
  | RGroup n a => Nat.max n (group_count a)
  | _ => 0
  end.

Definition groups_of (s : str) (n : nat) (c : caps) : list (option str) :=
  map (fun g => match cap_lookup c g with
                | Some (a, b) => Some (slice s a b)
                | None => None
                end) (seq 1 n).

Definition info_of (s : str) (r : regex) (m : nat * nat * caps) : rmatch_info :=
  let '(a, b, c) := m in
  {| m_start := a; m_end := b; m_groups := groups_of s (group_count r) c |}.

(** The [n]-th group as a string; an unmatched group is [undefined]. *)
Definition group (mi : rmatch_info) (n : nat) : option str :=
  match n with
  | O => None
  | S p => nth p (m_groups mi) None
  end.

Definition group_str (mi : rmatch_info) (n : nat) : str :=
  match group mi n with
  | Some g => g
  | None => []
  end.

Definition matched (s : str) (mi : rmatch_info) : str :=
  slice s (m_start mi) (m_end mi).

Definition all_matches (fl : flags) (r : regex) (s : str) : list rmatch_info :=
  map (info_of s r) (scan_all fl s r).

(** [s.match(r)] for a regular expression without the [g] flag. *)
Definition match_first (fl : flags) (r : regex) (s : str) : option rmatch_info :=
  match exec fl s r 0 with
  | Some m => Some (info_of s r m)
  | None => None
  end.

(** ** [String.prototype.replace] *)

(** The matches are found first, then the replacement function is called
    for each, in order; [St] is what the function reads and updates
    outside of itself. *)
Fixpoint build (St : Type) (f : St -> rmatch_info -> str * St) (s : str)
         (pos : nat) (ms : list rmatch_info) (st : St) : str * St :=
  match ms with
  | [] => (skipn pos s, st)
  | mi :: ms' =>
    let '(r, st1) := f st mi in
    let '(rest, st2) := build f s (m_end mi) ms' st1 in
    (slice s pos (m_start mi) ++ r ++ rest, st2)
  end.

(** [s.replace(r, function ...)] with [r] global. *)
Definition replace_st (St : Type) (fl : flags) (r : regex)
           (f : St -> rmatch_info -> str * St) (s : str) (st : St) : str * St :=
  build f s 0 (all_matches fl r s) st.

Definition replace_fn (fl : flags) (r : regex) (f : rmatch_info -> str) (s : str)
  : str :=
  fst (replace_st fl r (fun (_ : unit) mi => (f mi, tt)) s tt).

Definition c_dollar : char := 36%N.

(** GetSubstitution: the [$] patterns of a replacement string. [grp] are
    the captures, [before] and [after] the text around the match. *)
Fixpoint expand (tpl : str) (mt before after : str) (grp : list (option str))
  : str :=
  let capture (n : nat) : option str :=
    match n with
    | O => None
    | S p => match nth_error grp p with
             | Some (Some g) => Some g
             | Some None => Some []
             | None => None
             end
    end in
  let digit (d : char) : nat := N.to_nat (d - 48) in
  match tpl with
  | [] => []
  | c :: t =>
    if negb (ceqb c c_dollar) then c :: expand t mt before after grp
    else match t with
    | [] => [c]
    | d :: t' =>
      if ceqb d c_dollar then c_dollar :: expand t' mt before after grp
      else if ceqb d (ch "&") then mt ++ expand t' mt before after grp
      else if ceqb d (ch "`") then before ++ expand t' mt before after grp
      else if ceqb d c_squote then after ++ expand t' mt before after grp
      else if isDigit d then
        let one (_ : unit) :=
          match capture (digit d) with
          | Some g => g ++ expand t' mt before after grp
          | None => c :: d :: expand t' mt before after grp
          end in
        match t' with
        | d2 :: t'' =>
          if isDigit d2 then
            match capture (10 * digit d + digit d2) with
            | Some g => g ++ expand t'' mt before after grp
            | None => one tt
            end
          else one tt
        | [] => one tt
        end
      else c :: expand t mt before after grp
    end
  end.

(** [s.replace(r, "template")] with [r] global. *)
Definition replace_tpl (fl : flags) (r : regex) (tpl : str) (s : str) : str :=
  replace_fn fl r
    (fun mi => expand tpl (matched s mi) (firstn (m_start mi) s)
                      (skipn (m_end mi) s) (m_groups mi)) s.

(** [s.replace(r, "template")] with [r] not global: the first match. *)
Definition replace_first_tpl (fl : flags) (r : regex) (tpl : str) (s : str) : str :=
  match match_first fl r s with
  | Some mi =>
    firstn (m_start mi) s
    ++ expand tpl (matched s mi) (firstn (m_start mi) s)
              (skipn (m_end mi) s) (m_groups mi)
    ++ skipn (m_end mi) s
  | None => s
  end.

(** [s.replace(pat, html)] with a string pattern [pat]: the first
    occurrence, and the replacement string is a template all the same. *)
Definition replace_string (pat html : str) (s : str) : str :=
  match indexOf s pat 0 with
  | Some p =>
    let before := firstn p s in
    let after := skipn (p + length pat) s in
    before ++ expand html pat before after [] ++ after
  | None => s
  end.

(** [s.split(r)] for a regular expression without groups. *)
Fixpoint split_loop (fl : flags) (r : regex) (s : str) (fuel p q : nat)
  : list str :=
  match fuel with
  | O => [skipn p s]
  | S fuel' =>
    if length s <=? q then [skipn p s]
    else match match_at fl s r q with
         | None => split_loop fl r s fuel' p (S q)
         | Some (e, _) =>
           let e := Nat.min e (length s) in
           if e =? p then split_loop fl r s fuel' p (S q)
           else slice s p q :: split_loop fl r s fuel' e e
         end
  end.

Definition split_re (fl : flags) (r : regex) (s : str) : list str :=
  match s with
  | [] => match match_at fl s r 0 with
          | Some _ => []
          | None => [s]
          end
  | _ => split_loop fl r s (S (length s)) 0 0
  end.

(** ** Notation for the syntax trees *)

Fixpoint lit (s : str) : regex :=
  match s with
  | [] => REmpty
  | [c] => RChar c
  | c :: s' => RSeq (RChar c) (lit s')
  end.

Fixpoint seqs (l : list regex) : regex :=
  match l with
  | [] => REmpty
  | [r] => r
  | r :: l' => RSeq r (seqs l')
  end.

Fixpoint alts (l : list regex) : regex :=
  match l with
  | [] => REmpty
  | [r] => r
  | r :: l' => RAlt r (alts l')
  end.

Definition one (c : char) : ranges := [(c, c)].
Definition chars (s : str) : ranges := map (fun c => (c, c)) s.
Definition rng (a b : ascii) : ranges := [(ch a, ch b)].

Definition r_space : ranges :=
  [(9, 13); (32, 32); (160, 160); (5760, 5760); (8192, 8202); (8232, 8233);
   (8239, 8239); (8287, 8287); (12288, 12288); (65279, 65279)]%N.
Definition r_digit : ranges := [(48, 57)%N].
Definition r_word : ranges := [(65, 90); (97, 122); (48, 57); (95, 95)]%N.
Definition r_any : ranges := [(0, 65535)%N].          (* [\s\S] *)
Definition r_blank : ranges := [(32, 32); (9, 9)]%N.  (* [ \t] *)

Definition star (a : regex) : regex := RRep true 0 None a.
Definition plus (a : regex) : regex := RRep true 1 None a.
Definition opt (a : regex) : regex := RRep true 0 (Some 1) a.
Definition lazy_star (a : regex) : regex := RRep false 0 None a.
Definition times (n : nat) (a : regex) : regex := RRep true n (Some n) a.
Definition at_least (n : nat) (a : regex) : regex := RRep true n None a.
Definition set (rs : ranges) : regex := RSet false rs.
Definition nset (rs : ranges) : regex := RSet true rs.

(** [\r?\n] *)
Definition r_eol : regex := RSeq (opt (RChar c_cr)) (RChar c_nl).

(* ================================================================== *)
(** * Spans: the output unit of the two tokenizers *)
(* ================================================================== *)

(** [esc] of the highlighters: three replacements, one after the other. *)
Definition esc (s : str) : str :=
  replace_char (ch ">") (u "&gt;")
    (replace_char (ch "<") (u "&lt;")
       (replace_char (ch "&") (u "&amp;") s)).

(** What one [out += ...] of a tokenizer appends: the text [sp_text] of
    the source, wrapped in a [span] element of class [sp_class] or, without
    a class, as escaped text. *)
Record span : Type := { sp_class : option str; sp_text : str }.

Definition tok (cls : string) (text : str) : span :=
  {| sp_class := Some (u cls); sp_text := text |}.
Definition plain (text : str) : span :=
  {| sp_class := None; sp_text := text |}.

Definition render_span (sp : span) : str :=
  match sp_class sp with
  | Some cls =>
    u "<span class=" ++ [c_dquote] ++ cls ++ [c_dquote] ++ u ">"
      ++ esc (sp_text sp) ++ u "</span>"
  | None => esc (sp_text sp)
  end.

Definition render_spans (l : list span) : str := flat_map render_span l.

(** The source text the spans cover. *)
Definition spans_text (l : list span) : str := flat_map sp_text l.

(** [while (j < len && p(code[j])) j++] *)
Fixpoint span_len (p : char -> bool) (rest : str) : nat :=
  match rest with
  | c :: rest' => if p c then S (span_len p rest') else 0
  | [] => 0
  end.

Definition scanWhile (p : char -> bool) (code : str) (j : nat) : nat :=
  j + span_len p (skipn j code).

(** [while (k >= 0 && p(code[k])) k--], with [k1] for [k + 1]. *)
Fixpoint scanBack (p : char -> bool) (code : str) (k1 : nat) : nat :=
  match k1 with
  | O => O
  | S k => match idx code k with
           | Some c => if p c then scanBack p code k else k1
           | None => k1
           end
  end.

(** [/[...]/.test(code[j])] for a class [p]: an index past the end gives
    [undefined], which [test] reads as the string "undefined". *)
Definition test_at (p : char -> bool) (code : str) (j : nat) : bool :=
  match idx code j with
  | Some c => p c
  | None => existsb p (u "undefined")
  end.

(* ================================================================== *)
(** * The BSL highlighter (second part of markdown.js) *)
(* ================================================================== *)

Module BSL.

(** [/[A-Za-z_А-яЁё]/] *)
Definition isWordStart (c : char) : bool :=
  in_range 65 90 c || in_range 97 122 c || ceqb c 95
  || in_range 1040 1103 c || ceqb c 1025 || ceqb c 1105.

(** [/[A-Za-z0-9_А-яЁё]/] *)
Definition isWordChar (c : char) : bool :=
  in_range 65 90 c || in_range 97 122 c || in_range 48 57 c || ceqb c 95
  || in_range 1040 1103 c || ceqb c 1025 || ceqb c 1105.

Definition KEYWORDS_RU : list string := [
  "процедура"; "функция"; "конецпроцедуры"; "конецфункции"; "перем";
  "экспорт"; "если"; "тогда"; "иначе"; "иначеесли"; "конецесли"; "для";
  "каждого"; "каждый"; "из"; "по"; "пока"; "цикл"; "конеццикла"; "возврат";
  "прервать"; "продолжить"; "попытка"; "исключение"; "конецпопытки";
  "вызватьисключение"; "новый"; "перейти"; "и"; "или"; "не"; "истина";
  "ложь"; "неопределено"; "null"; "этотобъект"; "как"; "разрешенные";
  "различные"; "первые"; "пустаятаблица"; "поместить"; "уничтожить";
  "индексировать"; "выразить"; "подобно"; "escape"; "ссылка"; "datetime";
  "иерархии"; "автоупорядочивание"; "периодами"; "только"; "иерархия";
  "внутреннее"; "левое"; "правое"; "полное"; "соединение"; "где";
  "сгруппировать"; "имеющие"; "объединить"; "упорядочить";
  "автоупорядочивание"; "итоги"; "общие"; "только"; "иерархия"; "для";
  "изменения"; "в"; "количество"; "сумма"; "среднее"; "максимум"; "минимум";
  "есть"; "между"; "в"; "содержит"; "начинаетсяс"; "заканчиваетсяна"; "возр";
  "убыв"; "всего"
]%string.

Definition KEYWORDS_EN : list string := [
  "procedure"; "function"; "endprocedure"; "endfunction"; "var"; "export";
  "if"; "then"; "else"; "elseif"; "endif"; "for"; "each"; "in"; "to";
  "while"; "do"; "enddo"; "return"; "break"; "continue"; "try"; "except";
  "endtry"; "raise"; "new"; "goto"; "and"; "or"; "not"; "true"; "false";
  "undefined"; "null"; "thisobject"; "as"; "allowed"; "distinct"; "top";
  "emptytable"; "into"; "drop"; "index"; "cast"; "like"; "escape"; "refs";
  "value"; "datetime"; "hierarchies"; "autoorder"; "periods"; "only";
  "hierarchy"; "inner"; "left"; "right"; "full"; "join"; "where"; "group";
  "by"; "having"; "union"; "order"; "autoorder"; "totals"; "overall"; "only";
  "hierarchy"; "for"; "update"; "of"; "count"; "sum"; "avg"; "max"; "min";
  "is"; "between"; "in"; "contains"; "beginswith"; "endswith"; "asc"; "desc";
  "total"
]%string.

Definition TYPES_RU : list string := [
  "httpсоединение"; "httpзапрос"; "httpответ"; "ftpсоединение"; "wsпрокси";
  "интернетпрокси"; "защищенноесоединениеopenssl"; "таблицазначений";
  "колонкатаблицызначений"; "коллекциязначений"; "соответствие"; "массив";
  "структура"; "фиксированныймассив"; "фиксированнаяструктура";
  "списокзначений"; "деревозначений"; "строкадеревазначений"; "запрос";
  "выборка"; "построительзапроса"; "построительотчета"; "схемазапроса";
  "менеджервременныхтаблиц"; "описаниетипов"; "квалификаторыстроки";
  "квалификаторычисла"; "квалификаторыдаты"; "квалификаторыдвоичныхданных";
  "оборотыдт"; "оборотыдткт"; "обороты"; "остатки"; "остаткиивороты";
  "границы"; "срезпервых"; "срезпоследних"; "записьрегистра"; "наборзаписей";
  "менеджерзаписи"; "строка"; "число"; "дата"; "булево"; "тип";
  "хранилищезначения"; "двоичныеданные"; "буфердвоичныхданных"; "xmlчтение";
  "xmlзапись"; "чтениеjson"; "записьjson"; "чтениеданных"; "записьданных";
  "чтениетекста"; "записьтекста"; "текстовыйдокумент";
  "форматированныйдокумент"; "табличныйдокумент";
  "построительтабличногодокумента"; "файл"; "файловыйпоток"; "каталог";
  "поискфайлов"; "zipфайл"; "управляемаяформа"; "формаклиентскогоприложения";
  "командаформы"; "элементформы"; "таблицаформы"; "группаформы";
  "кнопкаформы"; "полеформы"; "соединение"; "comобъект"; "фоновоезадание";
  "wsссылка"; "wsопределения"; "сериализаторxdto"; "фабрикаxdto";
  "объектxdto"; "уникальныйидентификатор"; "граница"; "точкавовремени";
  "форматированнаястрока"; "картинка"; "шрифт"; "цвет"; "хешированиеданных";
  "шифрованиеданных"; "электроннаяподпись"; "сертификатклиента";
  "сообщениепользователю"; "диалогвыборафайла";
  "диалогредактированияформатированнойстроки"
]%string.

Definition TYPES_EN : list string := [
  "httpconnection"; "httprequest"; "httpresponse"; "ftpconnection";
  "wsproxy"; "array"; "structure"; "fixedarray"; "fixedstructure"; "map";
  "valuetable"; "valuetree"; "valuelist"; "query"; "querybuilder";
  "queryschema"; "selection"; "type"; "typedescription"; "file";
  "binarydata"; "textreader"; "textwriter"; "xmlreader"; "xmlwriter";
  "jsonreader"; "jsonwriter"; "uuid"; "boundary"; "formatstring"; "picture"
]%string.

Definition BUILTINS_RU : list string := [
  "стрдлина"; "стрнайти"; "стрполучитьстроку"; "стрразделить";
  "стрсоединить"; "стрзаменить"; "стршаблон"; "стрначинаетсяс";
  "стрзаканчиваетсяна"; "сокрл"; "сокрп"; "сокрлп"; "врег"; "нрег"; "трег";
  "симв"; "кодсимв"; "пустаястрока"; "стрсравнить"; "стрчислострок";
  "стрчисловхождений"; "стрповторить"; "подстрока"; "представление";
  "стрзаканчиваетсяна"; "лев"; "прав"; "сред"; "нстр";
  "стрсоответствуетшаблону"; "стрнайтирегулярноевыражение";
  "стрзаменитьрегулярноевыражение"; "стрразделитьрегулярноевыражение";
  "число"; "цел"; "окр"; "округлить"; "макс"; "мин"; "формат"; "pow"; "sqrt";
  "log"; "log10"; "exp"; "sin"; "cos"; "tan"; "asin"; "acos"; "atan"; "abs";
  "случайноечисло"; "дата"; "год"; "месяц"; "день"; "час"; "минута";
  "секунда"; "деньгода"; "деньнедели"; "неделягода"; "началогода";
  "началомесяца"; "началоквартала"; "началонедели"; "началодня";
  "началочаса"; "началоминуты"; "конецгода"; "конецмесяца"; "конецквартала";
  "конецнедели"; "конецдня"; "конецчаса"; "конецминуты"; "добавитьмесяц";
  "добавитькдате"; "текущаядата"; "текущаядатасеанса"; "рабочаядата";
  "универсальноевремя"; "тип"; "типзнч"; "строка"; "булево"; "xmlтип";
  "xmlтипзнч"; "xmlзначение"; "xmlстрока"; "сообщить"; "вопрос";
  "предупреждение"; "оповестить"; "оповеститьобизменении";
  "установитьзаголовокклиентскогоприложения"; "состояние";
  "активизироватьокно"; "активноеокно"; "ввестидату"; "ввестизначение";
  "ввестистроку"; "ввестичисло"; "показатьвводдаты"; "показатьвводзначения";
  "показатьвводстроки"; "показатьвводчисла"; "показатьпредупреждение";
  "показатьоповещениепользователя"; "показатьинформациюобошибке";
  "открытьформу"; "открытьзначение"; "открытьформумодально"; "получитьформу";
  "получитьнавигационнуюссылку"; "открытьсправку"; "закрытьсправку";
  "открытьсодержаниесправки"; "открытьиндекссправки"; "сигнал";
  "обработкапрерыванияпользователя"; "краткоепредставлениеошибки";
  "подробноепредставлениеошибки"; "описатьошибку"; "новый"; "значение";
  "значениезаполнено"; "заполнитьзначениясвойств"; "скопироватьзначения";
  "значениевстрокувнутр"; "значениеизстрокивнутр"; "значениевфайл";
  "значениеизфайла"; "восстановитьзначение"; "сохранитьзначение";
  "очиститьнастройкипользователя"; "удалитьнастройкипользователя";
  "прочитатьjson"; "записатьjson"; "xdtoсериализатор"; "xdtoфабрика";
  "прочитатьxml"; "записатьxml"; "возможностьчтенияxml";
  "найтинедопустимыесимволыxml"; "получитьxmlтип"; "изxmlтипа";
  "импортмоделиxdto"; "создатьфабрикуxdto"; "объединитьпути";
  "разъединитьпути"; "каталогвременныхфайлов"; "каталогдокументов";
  "каталогпрограммы"; "получитьимявременногофайла"; "разделитьфайл";
  "объединитьфайлы"; "файлсуществует"; "найтифайлы"; "копироватьфайл";
  "переместитьфайл"; "удалитьфайлы"; "создатькаталог"; "получитьфайл";
  "получитьфайлы"; "поместитьфайл"; "поместитьфайлы";
  "получитьизвременногохранилища"; "поместитьвовременноехранилище";
  "этоадресвременногохранилища"; "получитьвременноехранилище";
  "подключитьрасширениеработысфайлами"; "установитьрасширениеработысфайлами";
  "запроситьразрешениепользователя"; "началотранзакции";
  "зафиксироватьтранзакцию"; "отменитьтранзакцию";
  "заблокироватьданныедляредактирования";
  "разблокироватьданныедляредактирования"; "получитьблокировкусеансов";
  "установитьблокировкусеансов"; "получитьвремяожиданияблокировкиданных";
  "установитьвремяожиданияблокировкиданных"; "установитьмонопольныйрежим";
  "монопольныйрежим"; "установитьпривилегированныйрежим";
  "привилегированныйрежим"; "пользователиинформационнойбазы"; "рольдоступна";
  "правоДоступа"; "безопасныйрежим"; "установитьбезопасныйрежим";
  "кодлокализацииинформационнойбазы"; "конфигурацияизменена";
  "конфигурациябазыданныхизмененадинамически";
  "необходимостьзавершениясоединения"; "номерсеансаинформационнойбазы";
  "номерсоединенияинформационнойбазы"; "обновитьнумерациюобъектов";
  "обновитьповторноиспользуемыезначения"; "получитьсеансыинформационнойбазы";
  "получитьсоединенияинформационнойбазы";
  "получитьчасовойпоясинформационнойбазы";
  "установитьчасовойпоясинформационнойбазы";
  "получитьминимальнуюдлинупаролейпользователей";
  "установитьминимальнуюдлинупаролейпользователей";
  "получитьпроверкусложностипаролейпользователей";
  "установитьпроверкусложностипаролейпользователей";
  "получитьоперативнуюотметкувремени"; "получитьданныевыбора";
  "разорватьсоединениесвнешнимисточникомданных";
  "установитьсоединениесвнешнимисточникомданных";
  "удалитьизвременногохранилища"; "выгрузитьжурналрегистрации";
  "получитьзначенияотборажурналарегистрации";
  "получитьиспользованиежурналарегистрации";
  "получитьиспользованиесобытияжурналарегистрации";
  "представлениесобытияжурналарегистрации";
  "установитьиспользованиежурналарегистрации";
  "установитьиспользованиесобытияжурналарегистрации";
  "записатьвбезопасноехранилище"; "прочитатьизбезопасногохранилища";
  "удалитьизбезопасногохранилища"; "запуститьприложение"; "командасистемы";
  "получитьcomобъект"; "пользовательос"; "данныеформывзначение";
  "значениевданныеформы"; "копироватьданныеформы";
  "получитьсоответствиеобъектаиформы"; "установитьсоответствиеобъектаиформы";
  "обновитьинтерфейс"; "получитьфункциональнуюопцию";
  "получитьфункциональнуюопциюинтерфейса";
  "получитьпараметрфункциональныхопцийинтерфейса";
  "установитьпараметрыфункциональныхопцийинтерфейса";
  "выполнитьпроверкуправдоступа"; "заблокироватьработупользователя";
  "запуститьсистему"; "отключитьобработчикожидания";
  "отключитьобработчикоповещения"; "подключитьобработчикожидания";
  "подключитьобработчикоповещения"; "параметрдоступа";
  "полноеимяпользователя"; "получитьскоростьклиентскогосоединения";
  "получитьсообщенияпользователю"; "представлениеприва";
  "представлениеприложения"; "прекратитьработусистемы";
  "строкасоединенияинформационнойбазы"; "текущийкодлокализации";
  "текущийрежимзапуска"; "текущийязык"; "установитьчасовойпояссеанса";
  "часовойпояссеанса"; "вычислить"; "выполнить"; "eval"; "спящийрежим";
  "завершитьработусистемы"; "имякомпьютера"; "имяпользователя"; "строка";
  "формат"; "base64значение"; "base64строка"; "получитьобщиймакет";
  "получитьобщуюформу"; "получитьполноеимяпредопределенногозначения";
  "предопределенноезначение"; "установитьвнешнююкомпоненту";
  "подключитьвнешнююкомпоненту"; "найтипомеченныенаудаление"; "найтиссылки";
  "периодстроки"; "выполнитьобработкузаданий"; "информацияобошибке";
  "описаниеошибки"; "местноевремя"; "текущаяуниверсальнаядата";
  "часовойпояс"; "смещениелетнеговремени"; "смещениестандартноговремени";
  "получитьдопустимыекодылокализации"; "получитьдопустимыечасовыепояса";
  "представлениекодалокализации"; "представлениечасовогопояса";
  "найтиокнопонавигационнойссылке"; "перейтипонавигационнойссылке";
  "получитьокна"; "получитьпредставлениенавигационнойссылок";
  "получитьмакетоформления"
]%string.

Definition BUILTINS_EN : list string := [
  "strlen"; "strfind"; "strgetline"; "strsplit"; "strconcat"; "strreplace";
  "strtemplate"; "trimall"; "triml"; "trimr"; "upper"; "lower"; "title";
  "emptystring"; "strcompare"; "strlinecount"; "number"; "format"; "int";
  "round"; "max"; "min"; "pow"; "sqrt"; "log"; "exp"; "sin"; "cos"; "tan";
  "date"; "year"; "month"; "day"; "hour"; "minute"; "second"; "currentdate";
  "begofyear"; "begofmonth"; "begofday"; "endofyear"; "endofmonth";
  "endofday"; "addmonth"; "type"; "typeof"; "string"; "boolean"; "xmltype";
  "xmlvalue"; "xmlstring"; "message"; "alert"; "question"; "notify";
  "status"; "new"; "isfilled"; "fillpropertyvalues"; "eval"; "execute"
]%string.

Definition lower_set (a b : list string) : list str :=
  map toLowerCase (map u (a ++ b)).

Definition KEYWORDS : list str := Eval vm_compute in lower_set KEYWORDS_RU KEYWORDS_EN.
Definition TYPES : list str := Eval vm_compute in lower_set TYPES_RU TYPES_EN.
Definition BUILTINS : list str := Eval vm_compute in lower_set BUILTINS_RU BUILTINS_EN.

Definition UPPERCASE_ONLY_KEYWORDS : list str :=
  Eval vm_compute in map u ["выбрать"; "выбор"; "когда"; "конец"]%string.

(** [set.has(w)] *)
Definition has (set : list str) (w : str) : bool := existsb (str_eqb w) set.

(** ** likelyBSL *)

Definition word_re (l : list string) : regex :=
  seqs [RWordB; RGroup 1 (alts (map (fun w => lit (u w)) l)); RWordB].

(** [/'[0-9]{8}([0-9]{6})?'/] *)
Definition re_date : regex :=
  seqs [RChar c_squote; times 8 (set r_digit);
        opt (RGroup 1 (times 6 (set r_digit))); RChar c_squote].

(** [/&\s*На(Клиенте|Сервере|СервереВКлиенте|СервереБезКонтекста)/] *)
Definition re_attr_ru : regex :=
  seqs [RChar (ch "&"); star (set r_space); lit (u "На");
        RGroup 1 (alts (map (fun w => lit (u w))
          ["Клиенте"; "Сервере"; "СервереВКлиенте"; "СервереБезКонтекста"]%string))].

(** [/&\s*At(Client|Server|ServerNoContext)/] *)
Definition re_attr_en : regex :=
  seqs [RChar (ch "&"); star (set r_space); lit (u "At");
        RGroup 1 (alts (map (fun w => lit (u w))
          ["Client"; "Server"; "ServerNoContext"]%string))].

(** [/#(Если|Область|If|Region)\b/] *)
Definition re_preproc : regex :=
  seqs [RChar (ch "#");
        RGroup 1 (alts (map (fun w => lit (u w))
          ["Если"; "Область"; "If"; "Region"]%string));
        RWordB].

Definition hit (fl : flags) (r : regex) (text : str) (n : nat) : nat :=
  if test fl r text then n else 0.

Definition hit2 (r1 r2 : regex) (text : str) : nat :=
  if test f_i r1 text && test f_i r2 text then 1 else 0.

Definition score (text : str) : nat :=
  hit f_i (word_re ["Процедура"; "Procedure"]%string) text 2
  + hit f_i (word_re ["Функция"; "Function"]%string) text 2
  + hit f_i (word_re ["КонецПроцедуры"; "EndProcedure"]%string) text 2
  + hit f_i (word_re ["КонецФункции"; "EndFunction"]%string) text 2
  + hit2 (word_re ["Если"; "If"]%string) (word_re ["Тогда"; "Then"]%string) text
  + hit2 (word_re ["Для"; "For"]%string) (word_re ["Каждого"; "Each"]%string) text
  + hit f_i (word_re ["Цикл"; "Do"]%string) text 1
  + hit f_i (word_re ["КонецЦикла"; "EndDo"]%string) text 1
  + hit f_i (word_re ["Запрос"; "Query"]%string) text 1
  + hit f_i (word_re ["ТаблицаЗначений"; "ValueTable"]%string) text 1
  + hit f_i (word_re ["Выборка"; "Selection"]%string) text 1
  + hit f_i (word_re ["Соответствие"; "Map"]%string) text 1
  + hit f_i re_attr_ru text 2
  + hit f_i re_attr_en text 2
  + hit f_i re_preproc text 1
  + hit f_i (word_re ["Сообщить"; "Message"; "ТекущаяДата"; "CurrentDate"]%string) text 1
  + hit f_i (word_re ["СтрДлина"; "StrLen"; "СтрНайти"; "StrFind"]%string) text 1
  + hit f_none re_date text 1.

Definition likelyBSL (text : str) : bool := 2 <=? score text.

(** ** highlightBSL *)

(** [/^'[0-9]{8}([0-9]{6})?'$/] *)
Definition re_date_literal : regex := seqs [RBol; re_date; REol].

(** [/[ \t\r\n]/] *)
Definition isBlank (c : char) : bool :=
  ceqb c 32 || ceqb c c_tab || ceqb c c_cr || ceqb c c_nl.

(** The end of the string literal that opens at [j - 1] with [quote]; a
    doubled quote does not close it. [rest] is [code] from [j] on. *)
Fixpoint stringEnd (quote : char) (rest : str) (j : nat) : nat :=
  match rest with
  | [] => j
  | c :: rest' =>
    if ceqb c quote then
      match rest' with
      | c2 :: rest'' =>
        if ceqb c2 quote then stringEnd quote rest'' (j + 2) else j + 1
      | [] => j + 1
      end
    else stringEnd quote rest' (j + 1)
  end.

(** The end of the number literal that starts at [i]. *)
Definition numberEnd (code : str) (i : nat) : nat :=
  let j := if idx_is code i (ch "-") then i + 1 else i in
  let j := scanWhile isDigit code j in
  let j := if idx_is code j (ch ".") && test_at isDigit code (j + 1)
           then scanWhile isDigit code (j + 1) else j in
  if (idx_is code j (ch "e") || idx_is code j (ch "E"))
     && test_at (fun c => isDigit c || ceqb c (ch "+") || ceqb c (ch "-"))
                code (j + 1)
  then
    let j := j + 1 in
    let j := if idx_is code j (ch "+") || idx_is code j (ch "-")
             then j + 1 else j in
    scanWhile isDigit code j
  else j.

(** [prev]: the character before [i], or the empty string. *)
Definition prevChar (code : str) (i : nat) : str :=
  match i with
  | O => []
  | S k => match idx code k with
           | Some c => [c]
           | None => []
           end
  end.

Definition isNumberStart (code : str) (i : nat) (c : char) : bool :=
  (isDigit c || (ceqb c (ch "-") && test_at isDigit code (i + 1)))
  && negb (existsb isWordChar (prevChar code i))
  && negb (existsb (fun p => ceqb p (ch ".") || ceqb p (ch ")"))
                   (prevChar code i)).

(** A dot right before [i], no whitespace between. *)
Definition isAfterDot (code : str) (i : nat) : bool :=
  match i with
  | O => false
  | S k => idx_is code k (ch ".")
  end.

(** The word before [i], whitespace skipped, in lower case; empty after
    a dot or a character that is not a word character. *)
Definition prevWord (code : str) (i : nat) : str :=
  let k1 := scanBack isBlank code i in
  if (0 <? k1) && negb (isAfterDot code i) then
    if idx_is code (k1 - 1) (ch ".") then []
    else if test_at isWordChar code (k1 - 1) then
      toLowerCase (slice code (scanBack isWordChar code k1) k1)
    else []
  else [].

Definition isBeforeParen (code : str) (j : nat) : bool :=
  let afterIdx := scanWhile isBlank code j in
  (afterIdx <? length code) && idx_is code afterIdx (ch "(").

Definition s_new : str := Eval vm_compute in u "новый".

(** The class of the identifier [code.slice(i, j)]. *)
Definition classify (code : str) (i j : nat) : option str :=
  let word := slice code i j in
  let lw := toLowerCase word in
  let afterDot := isAfterDot code i in
  if has UPPERCASE_ONLY_KEYWORDS lw && negb afterDot
     && str_eqb word (toUpperCase word) then Some (u "tok-k")
  else if has KEYWORDS lw && negb afterDot then Some (u "tok-k")
  else if has TYPES lw && str_eqb (prevWord code i) s_new then Some (u "tok-type")
  else if has BUILTINS lw && negb afterDot
          && (str_eqb lw s_new || isBeforeParen code j) then Some (u "tok-builtin")
  else None.

Definition isOperator (c : char) : bool :=
  existsb (ceqb c) (u "+-*/%=<>").

(** One turn of the main loop at [i], where [code[i]] is [c]: the span it
    appends and the next value of [i]. *)
Definition step (code : str) (i : nat) (c : char) : span * nat :=
  if ceqb c c_dquote || ceqb c c_squote then
    let j := stringEnd c (skipn (i + 1) code) (i + 1) in
    let content := slice code i j in
    let isDate := ceqb c c_squote && test f_none re_date_literal content in
    (tok (if isDate then "tok-num" else "tok-str") content, j)
  else if ceqb c (ch "/") && idx_is code (i + 1) (ch "/") then
    let j := scanWhile (fun x => negb (ceqb x c_nl)) code (i + 2) in
    (tok "tok-com" (slice code i j), j)
  else if ceqb c (ch "#") then
    let j := scanWhile isWordStart code (i + 1) in
    (tok "tok-preproc" (slice code i j), j)
  else if ceqb c (ch "&") then
    let j := scanWhile isWordStart code (i + 1) in
    (tok "tok-attr" (slice code i j), j)
  else if isNumberStart code i c then
    let j := numberEnd code i in
    (tok "tok-num" (slice code i j), j)
  else if isWordStart c then
    let j := scanWhile isWordChar code (i + 1) in
    ({| sp_class := classify code i j; sp_text := slice code i j |}, j)
  else if isOperator c then
    let j := i + 1 in
    let j := if (ceqb c (ch "<") || ceqb c (ch ">")) && idx_is code j (ch "=")
             then j + 1
             else if ceqb c (ch "<") && idx_is code j (ch ">") then j + 1
             else j in
    (tok "tok-op" (slice code i j), j)
  else (plain [c], i + 1).

(** [while (i < len) ...]; [None] when [fuel] turns of the loop are not
    enough. *)
Fixpoint loop (fuel : nat) (code : str) (i : nat) (out : list span)
  : option (list span) :=
  match fuel with
  | O => None
  | S fuel' =>
    match idx code i with
    | None => Some out
    | Some c => let '(sp, j) := step code i c in
                loop fuel' code j (out ++ [sp])
    end
  end.

Definition tokenize (fuel : nat) (code : str) : option (list span) :=
  loop fuel code 0 [].

(** The loop ends within [length code + 1] turns (theorem
    [tokenize_total]), so the value below is the one the loop returns. *)
Definition spans (code : str) : list span :=
  match tokenize (S (length code)) code with
  | Some l => l
  | None => []
  end.

Definition highlightBSL (code : str) : str := render_spans (spans code).

(** [/^(bsl|1c)$/i] *)
Definition re_lang : regex :=
  seqs [RBol; RGroup 1 (RAlt (lit (u "bsl")) (lit (u "1c"))); REol].

(** [!!(lang && /^(bsl|1c)$/i.test(lang))]: [lang] is a string or
    [undefined]. *)
Definition force (lang : option str) : bool :=
  match lang with
  | Some l => truthy l && test f_i re_lang l
  | None => false
  end.

(** [BSL.highlight(code, lang)]: [None] is [null]. *)
Definition highlight (code : str) (lang : option str) : option str :=
  if negb (force lang) && negb (likelyBSL code) then None
  else Some (highlightBSL code).

(** ** Notions used to state the properties *)

(** The classes of the vocabulary: keyword, type, builtin. *)
Definition isVocabClass (cls : option str) : bool :=
  match cls with
  | Some k => str_eqb k (u "tok-k") || str_eqb k (u "tok-type")
              || str_eqb k (u "tok-builtin")
  | None => false
  end.

(** [lang] is [bsl] or [1c], letter case ignored. *)
Definition lang_is_bsl (lang : option str) : Prop :=
  exists l, lang = Some l /\ (toLowerCase l = u "bsl" \/ toLowerCase l = u "1c").

End BSL.

(* ================================================================== *)
(** * The XML highlighter (xml.js) *)
(* ================================================================== *)

Module XML.

(** [/[a-zA-Z0-9:._-]/] *)
Definition isName (c : char) : bool :=
  in_range 97 122 c || in_range 65 90 c || in_range 48 57 c
  || existsb (ceqb c) (u ":._-").

(** [/[a-zA-Z/]/] *)
Definition isTagStart (c : char) : bool :=
  in_range 97 122 c || in_range 65 90 c || ceqb c (ch "/").

(** [/[0-9a-fA-F]/] *)
Definition isHex (c : char) : bool :=
  in_range 48 57 c || in_range 97 102 c || in_range 65 70 c.

(** [/[a-zA-Z0-9]/] *)
Definition isAlnum (c : char) : bool :=
  in_range 97 122 c || in_range 65 90 c || in_range 48 57 c.

(** [j = code.indexOf(term, from); if (j === -1) j = len; else j += n] *)
Definition closeAt (code term : str) (from : nat) : nat :=
  match indexOf code term from with
  | Some j => j + length term
  | None => length code
  end.

(** The DOCTYPE scan: [while (j < len && depth > 0)], [rest] is [code]
    from [j] on. *)
Fixpoint doctypeEnd (rest : str) (depth j : nat) : nat :=
  match rest with
  | [] => j
  | c :: rest' =>
    if depth =? 0 then j
    else if ceqb c (ch "<") then doctypeEnd rest' (S depth) (S j)
    else if ceqb c (ch ">") then doctypeEnd rest' (pred depth) (S j)
    else doctypeEnd rest' depth (S j)
  end.

(** [/^<\?xml\s/i] *)
Definition re_xml_decl : regex := seqs [RBol; lit (u "<?xml"); set r_space].

(** [while (j < len && /\s/.test(code[j])) { out += esc(code[j]); j++; }] *)
Definition skipSpace (code : str) (j : nat) : list span * nat :=
  let j' := scanWhile isSpace code j in
  (map (fun c => plain [c]) (slice code j j'), j').

(** The attribute value that may follow the [=] at [j]. *)
Definition attrValue (code : str) (j : nat) : list span * nat :=
  if idx_is code j (ch "=") then
    let j1 := j + 1 in
    let '(ws, j2) := skipSpace code j1 in
    match idx code j2 with
    | Some quote =>
      if ceqb quote c_dquote || ceqb quote c_squote then
        let k := scanWhile (fun c => negb (ceqb c quote)) code (j2 + 1) in
        let k := if k <? length code then k + 1 else k in
        (plain (u "=") :: ws ++ [tok "tok-xml-val" (slice code j2 k)], k)
      else (plain (u "=") :: ws, j2)
    | None => (plain (u "=") :: ws, j2)
    end
  else ([], j).

(** One turn of the attribute loop. *)
Definition attrStep (code : str) (j : nat) : list span * nat :=
  let attrStart := j in
  let j1 := scanWhile isName code j in
  let name := if attrStart <? j1
              then [tok "tok-xml-attr" (slice code attrStart j1)] else [] in
  let '(ws1, j2) := skipSpace code j1 in
  let '(val, j3) := attrValue code j2 in
  let '(ws2, j4) := skipSpace code j3 in
  (name ++ ws1 ++ val ++ ws2, j4).

(** [j < len && code[j] !== ">" && !(code[j] === "/" && code[j + 1] === ">")] *)
Definition inAttrs (code : str) (j : nat) : bool :=
  (j <? length code) && negb (idx_is code j (ch ">"))
  && negb (idx_is code j (ch "/") && idx_is code (j + 1) (ch ">")).

(** The attribute loop; [None] when [fuel] turns are not enough. *)
Fixpoint attrs (fuel : nat) (code : str) (j : nat) (out : list span)
  : option (list span * nat) :=
  match fuel with
  | O => None
  | S fuel' =>
    if inAttrs code j then
      let '(o, j') := attrStep code j in attrs fuel' code j' (out ++ o)
    else Some (out, j)
  end.

(** The tag that opens at [i]. *)
Definition tag (fuel : nat) (code : str) (i : nat) : option (list span * nat) :=
  let j := i + 1 in
  let isClosing := idx_is code j (ch "/") in
  let j := if isClosing then j + 1 else j in
  let tagStart := j in
  let j := scanWhile isName code j in
  let tagName := slice code tagStart j in
  let head :=
    tok "tok-xml-tag" (u "<" ++ (if isClosing then u "/" else []) ++ tagName) in
  let '(ws, j) := skipSpace code j in
  match (if isClosing then Some ([], j) else attrs fuel code j []) with
  | None => None
  | Some (ats, j) =>
    if idx_is code j (ch "/") && idx_is code (j + 1) (ch ">") then
      Some (head :: ws ++ ats ++ [tok "tok-xml-tag" (u "/>")], j + 2)
    else if idx_is code j (ch ">") then
      Some (head :: ws ++ ats ++ [tok "tok-xml-tag" (u ">")], j + 1)
    else Some (head :: ws ++ ats, j)
  end.

(** The end of the entity that opens at [i], when a [;] closes it. *)
Definition entityEnd (code : str) (i : nat) : option nat :=
  let j := i + 1 in
  let j :=
    if idx_is code j (ch "#") then
      let j := j + 1 in
      if idx_is code j (ch "x") || idx_is code j (ch "X")
      then scanWhile isHex code (j + 1)
      else scanWhile isDigit code j
    else scanWhile isAlnum code j in
  if idx_is code j (ch ";") then Some (j + 1) else None.

(** One turn of the main loop at [i], where [code[i]] is [c]. *)
Definition step (fuel : nat) (code : str) (i : nat) (c : char)
  : option (list span * nat) :=
  let lt := ceqb c (ch "<") in
  if lt && str_eqb (slice code i (i + 4)) (u "<!--") then
    let j := closeAt code (u "-->") (i + 4) in
    Some ([tok "tok-com" (slice code i j)], j)
  else if lt && str_eqb (slice code i (i + 9)) (u "<![CDATA[") then
    let j := closeAt code (u "]]>") (i + 9) in
    Some ([tok "tok-xml-cdata" (slice code i j)], j)
  else if lt && str_eqb (toUpperCase (slice code i (i + 9))) (u "<!DOCTYPE") then
    let j := doctypeEnd (skipn (i + 9) code) 1 (i + 9) in
    Some ([tok "tok-xml-doctype" (slice code i j)], j)
  else if lt && idx_is code (i + 1) (ch "?") then
    let j := closeAt code (u "?>") (i + 2) in
    let pi := slice code i j in
    let isXmlDecl := test f_i re_xml_decl pi in
    Some ([tok (if isXmlDecl then "tok-xml-decl" else "tok-xml-pi") pi], j)
  else if lt && test_at isTagStart code (i + 1) then tag fuel code i
  else
    match (if ceqb c (ch "&") then entityEnd code i else None) with
    | Some j => Some ([tok "tok-xml-entity" (slice code i j)], j)
    | None => Some ([plain [c]], i + 1)
    end.

(** [while (i < len) ...]; [None] when [fuel] turns of a loop are not
    enough. *)
Fixpoint loop (fuel : nat) (code : str) (i : nat) (out : list span)
  (n : nat) : option (list span) :=
  match n with
  | O => None
  | S n' =>
    match idx code i with
    | None => Some out
    | Some c =>
      match step fuel code i c with
      | Some (sps, j) => loop fuel code j (out ++ sps) n'
      | None => None
      end
    end
  end.

(** The spans of [code], with [fuel] turns for the main loop and for
    each run of the attribute loop. *)
Definition tokenize (fuel : nat) (code : str) : option (list span) :=
  loop fuel code 0 [] fuel.

Definition highlightXML (fuel : nat) (code : str) : option str :=
  match tokenize fuel code with
  | Some l => Some (render_spans l)
  | None => None
  end.

(** A tag whose interior holds a character that is no name character, no
    whitespace, no [=] and no [>]. *)
Definition stuck_input : str := u "<a !>".

End XML.

(* ================================================================== *)
(** * The Markdown renderer (first part of markdown.js) *)
(* ================================================================== *)

(** A literal in which ['] stands for the double quote. *)
Definition q (s : string) : str :=
  map (fun c => if ceqb c c_squote then c_dquote else c) (u s).

Definition qs (l : list string) : str := flat_map q l.

Definition c (a : ascii) : regex := RChar (ch a).
Definition bt3 : regex := lit (u "```").
Definition blanks : regex := star (set r_blank).          (* [ \t]* *)
Definition any_lazy : regex := lazy_star (set r_any).     (* [\s\S]*? *)
Definition bol_or_nl : regex := RAlt RBol (RChar c_nl).   (* (?:^|\n) *)
Definition nl_or_eol : regex := RAlt (RChar c_nl) REol.   (* (?:\n|$) *)

Module Markdown.

(** [escapeHTML]: five replacements, one after the other. *)
Definition escapeHTML (s : str) : str :=
  replace_char c_squote (u "&#39;")
    (replace_char c_dquote (u "&quot;")
       (replace_char (ch ">") (u "&gt;")
          (replace_char (ch "<") (u "&lt;")
             (replace_char (ch "&") (u "&amp;") s)))).

(** ** Diagram blocks *)

(** [/(\w+)\{([^{}\[\]()]*?)\]/g] and its two siblings: a node that opens
    with [o] and closes with [cl]. *)
Definition re_typo (o cl : ascii) : regex :=
  seqs [RGroup 1 (plus (set r_word)); c o;
        RGroup 2 (lazy_star (nset (chars (u "{}[]()")))); c cl].

(** [/(subgraph\s+[^\r\n(]+)\(([^)]+)\)/g] *)
Definition re_subgraph : regex :=
  seqs [RGroup 1 (seqs [lit (u "subgraph"); plus (set r_space);
                        plus (nset ((c_cr, c_cr) :: (c_nl, c_nl) :: chars (u "(")))]);
        c "("; RGroup 2 (plus (nset (chars (u ")")))); c ")"].

(** [/^(\w+)([\[\{\(])/] *)
Definition re_node : regex :=
  seqs [RBol; RGroup 1 (plus (set r_word)); RGroup 2 (set (chars (u "[{(")))].

(** The scan of a bracket inside a node of another shape:
    [while (i < line.length && depth > 0)]; [rest] is [line] from [i] on. *)
Fixpoint innerScan (o cl : char) (rest : str) (depth i : nat) (content : str)
  : str * nat :=
  match rest with
  | [] => (content, i)
  | x :: rest' =>
    if depth =? 0 then (content, i)
    else
      let depth' := if ceqb x o then S depth
                    else if ceqb x cl then pred depth else depth in
      innerScan o cl rest' depth' (S i)
                (if 0 <? depth' then content ++ [x] else content)
  end.

Definition closerOf (o : char) : char :=
  if ceqb o (ch "[") then ch "]" else if ceqb o (ch "{") then ch "}" else ch ")".

(** The scan of one node from its opening bracket at [i]; every turn moves
    [i] on, so [length line] turns are enough. *)
Fixpoint nodeScan (fuel : nat) (line : str) (openChar closeChar : char)
         (i : nat) (depth : Z) (nodeText : str) : str * nat :=
  match fuel with
  | O => (nodeText, i)
  | S fuel' =>
    match idx line i with
    | None => (nodeText, i)
    | Some x =>
      if ceqb x openChar then
        let depth := (depth + 1)%Z in
        let nodeText :=
          if (depth =? 1)%Z then nodeText ++ [x]
          else nodeText ++ (if ceqb openChar (ch "[") then u "⦋"
                            else if ceqb openChar (ch "{") then u "{"
                            else u "⦅") in
        nodeScan fuel' line openChar closeChar (S i) depth nodeText
      else if ceqb x closeChar then
        let depth := (depth - 1)%Z in
        if (depth =? 0)%Z then (nodeText ++ [x], S i)
        else
          nodeScan fuel' line openChar closeChar (S i) depth
            (nodeText ++ (if ceqb closeChar (ch "]") then u "⦌"
                          else if ceqb closeChar (ch "}") then u "}"
                          else u "⦆"))
      else if ceqb openChar (ch "[") && ceqb x (ch "(") then
        let '(parenContent, i') :=
          innerScan (ch "(") (ch ")") (skipn (S i) line) 1 (S i) [] in
        nodeScan fuel' line openChar closeChar i' depth
                 (nodeText ++ u "⦅" ++ parenContent ++ u "⦆")
      else if ceqb openChar (ch "{") && (ceqb x (ch "[") || ceqb x (ch "(")) then
        let innerOpen := x in
        let innerClose := if ceqb x (ch "[") then ch "]" else ch ")" in
        let '(innerContent, i') :=
          innerScan innerOpen innerClose (skipn (S i) line) 1 (S i) [] in
        nodeScan fuel' line openChar closeChar i' depth
                 (nodeText ++ (if ceqb innerOpen (ch "[") then u "⦋" else u "⦅")
                  ++ innerContent
                  ++ (if ceqb innerClose (ch "]") then u "⦌" else u "⦆"))
      else nodeScan fuel' line openChar closeChar (S i) depth (nodeText ++ [x])
    end
  end.

(** The line-by-line pass: [while (i < line.length)]; every turn moves [i]
    on. *)
Fixpoint fixLine (fuel : nat) (line : str) (i : nat) (result : str) : str :=
  match fuel with
  | O => result
  | S fuel' =>
    match idx line i with
    | None => result
    | Some x =>
      match match_first f_none re_node (skipn i line) with
      | Some nodeMatch =>
        let nodeId := group_str nodeMatch 1 in
        let openChar := hd 0%N (group_str nodeMatch 2) in
        let closeChar := closerOf openChar in
        let i := i + length nodeId in
        let '(nodeText, i) :=
          nodeScan (length line) line openChar closeChar i 0%Z [] in
        fixLine fuel' line i
                (result ++ nodeId ++ replace_char c_dquote (u "″") nodeText)
      | None => fixLine fuel' line (S i) (result ++ [x])
      end
    end
  end.

(** [fixedCode] of [processMermaidBlock]. *)
Definition fixMermaid (code : str) : str :=
  let fixedCode := trim code in
  let fixedCode := replace_tpl f_none (re_typo "{" "]") (u "$1{$2}") fixedCode in
  let fixedCode := replace_tpl f_none (re_typo "[" "}") (u "$1[$2]") fixedCode in
  let fixedCode := replace_tpl f_none (re_typo "(" "]") (u "$1($2)") fixedCode in
  let fixedCode := replace_tpl f_none re_subgraph (u "$1- $2") fixedCode in
  join [c_nl]
       (map (fun line => fixLine (length line) line 0 [])
            (split_char c_nl fixedCode)).

(** The value written into [data-mermaid-code]. *)
Definition mermaidAttr (fixedCode : str) : str :=
  let safeCode :=
    replace_char (ch ">") (u "&gt;")
      (replace_char (ch "<") (u "&lt;")
         (replace_char (ch "&") (u "&amp;") fixedCode)) in
  replace_char c_dquote (u "&quot;") safeCode.

Definition mermaid_head : str := Eval vm_compute in qs [
    "<div class='mermaid-wrapper' style='position:relative;' data-zoom='1'>";
    "<div class='mermaid-controls' style='position:absolute;top:8px;right:8px;display:flex;gap:4px;z-index:1;'>";
    "<button type='button' class='mermaid-fullscreen-btn' title='Развернуть на весь экран' aria-label='Развернуть' data-fullscreen ";
    "style='padding:4px 8px;border-radius:6px;border:1px solid rgba(255,255,255,0.18);";
    "background:rgba(255,255,255,0.06);color:inherit;cursor:pointer;font-size:14px;line-height:1;opacity:.85;'>⛶</button>";
    "</div>";
    "<div class='mermaid-controls-bottom' style='position:absolute;bottom:8px;right:8px;z-index:1;display:flex;gap:4px;'>";
    "<button type='button' class='mermaid-save-btn' title='Сохранить как PNG' aria-label='Сохранить' data-save-mermaid ";
    "style='padding:4px 8px;border-radius:6px;border:1px solid rgba(255,255,255,0.18);";
    "background:rgba(255,255,255,0.06);color:inherit;cursor:pointer;font-size:12px;line-height:1;opacity:.85;'>🖫</button>";
    "<button type='button' class='mermaid-copy-btn' title='Скопировать' aria-label='Скопировать' data-copy-mermaid ";
    "style='padding:4px 8px;border-radius:6px;border:1px solid rgba(255,255,255,0.18);";
    "background:rgba(255,255,255,0.06);color:inherit;cursor:pointer;font-size:12px;line-height:1;opacity:.85;'>⧉</button>";
    "</div>";
    "<div class='mermaid-content' style='transform-origin:center center;transition:transform 0.2s ease;width:100%;'>";
    "<div class='mermaid' data-mermaid-code='"
  ]%string.

Definition mermaid_tail : str := Eval vm_compute in qs [
    "'></div>";
    "</div>";
    "</div>"
  ]%string.

Definition mermaidHTML (code : str) : str :=
  mermaid_head ++ mermaidAttr (fixMermaid code) ++ mermaid_tail.

(** ** The placeholder store of one call of [render] *)

(** The three arrays of [render]; [minted] records, in order, the marker
    every extraction returned (it is not a variable of the source). *)
Record store : Type :=
  { mermaidBlocks : list str;
    codeBlocks : list str;
    inlineCodes : list str;
    minted : list str }.

Definition empty_store : store :=
  {| mermaidBlocks := []; codeBlocks := []; inlineCodes := []; minted := [] |}.

Definition s_sect2 : str := Eval vm_compute in u "§§".

Definition marker (kind : string) (i : nat) : str :=
  s_sect2 ++ u kind ++ string_of_nat i ++ s_sect2.

Definition processMermaidBlock (st : store) (code : str) : str * store :=
  let html := mermaidHTML code in
  let token := marker "MERMAID" (length (mermaidBlocks st)) in
  (token, {| mermaidBlocks := mermaidBlocks st ++ [html];
             codeBlocks := codeBlocks st;
             inlineCodes := inlineCodes st;
             minted := minted st ++ [token] |}).

Definition code_head : str := Eval vm_compute in qs [
    "<pre class='code-block' style='position:relative;padding-right:42px;'>";
    "<button type='button' class='code-copy-btn' title='Скопировать' aria-label='Скопировать' data-copy-code ";
    "style='position:absolute;bottom:8px;right:8px;padding:4px 8px;border-radius:6px;";
    "border:1px solid rgba(255,255,255,0.18);background:rgba(255,255,255,0.06);";
    "color:inherit;cursor:pointer;font-size:12px;line-height:1;opacity:.85;z-index:1;'>⧉</button>"
  ]%string.

Definition codeHTML (lang code : str) : str :=
  let cls := if truthy lang
             then q " class='lang-" ++ toLowerCase lang ++ [c_dquote] else [] in
  code_head ++ u "<code" ++ cls ++ u ">" ++ escapeHTML code
    ++ u "</code>" ++ u "</pre>".

Definition pushCode (st : store) (lang code : str) : str * store :=
  let html := codeHTML lang code in
  let token := marker "CODEBLOCK" (length (codeBlocks st)) in
  (token, {| mermaidBlocks := mermaidBlocks st;
             codeBlocks := codeBlocks st ++ [html];
             inlineCodes := inlineCodes st;
             minted := minted st ++ [token] |}).

Definition pushInline (st : store) (code : str) : str * store :=
  let token := marker "INLINECODE" (length (inlineCodes st)) in
  (token, {| mermaidBlocks := mermaidBlocks st;
             codeBlocks := codeBlocks st;
             inlineCodes := inlineCodes st
                              ++ [u "<code>" ++ escapeHTML code ++ u "</code>"];
             minted := minted st ++ [token] |}).


(** ** The regular expressions of [render] *)

Definition code_open : regex := lit (u "<code>").

(** [/```[ \t]*\r?\n[ \t]*```/g] *)
Definition re_empty_fence : regex := seqs [bt3; blanks; r_eol; blanks; bt3].

(** [/```1[Сс]\r?\n/g] *)
Definition re_1c : regex := seqs [lit (u "```1"); set (chars (u "Сс")); r_eol].

(** [/```<code>\r?\n/g] *)
Definition re_v1 : regex := seqs [bt3; code_open; r_eol].

(** [/```[ \t]*\r?\n[ \t]*<code>[ \t]*\r?\n[ \t]*```/g] *)
Definition re_v2a : regex :=
  seqs [bt3; blanks; r_eol; blanks; code_open; blanks; r_eol; blanks; bt3].

(** [/```[ \t]*\r?\n[ \t]*<code>[ \t]*\r?\n([\s\S]*?)\r?\n[ \t]*<\/code>[ \t]*\r?\n[ \t]*```/g] *)
Definition re_v2b : regex :=
  seqs [bt3; blanks; r_eol; blanks; code_open; blanks; r_eol;
        RGroup 1 any_lazy; r_eol; blanks; lit (u "</code>"); blanks; r_eol;
        blanks; bt3].

(** [/```[ \t]*\r?\n[ \t]*<code>[ \t]*\r?\n([\s\S]*?)```/g] *)
Definition re_v2c : regex :=
  seqs [bt3; blanks; r_eol; blanks; code_open; blanks; r_eol;
        RGroup 1 any_lazy; bt3].

(** [/```code\r?\n/g] *)
Definition re_v3 : regex := seqs [lit (u "```code"); r_eol].

(** [/<code>[ \t]*\r?\n([\s\S]*?)\r?\n?<\/code>/g] *)
Definition re_v4a : regex :=
  seqs [code_open; blanks; r_eol; RGroup 1 any_lazy;
        opt (RChar c_cr); opt (RChar c_nl); lit (u "</code>")].

(** [\d+\.] *)
Definition r_number_dot : regex := seqs [plus (set r_digit); c "."].

(** [/<code>[ \t]*\r?\n([\s\S]*?)(?=\r?\n[ \t]*(?:[#\*\-]|\d+\.|>)|(?:\r?\n){2,}|$)/g] *)
Definition re_v4b : regex :=
  seqs [code_open; blanks; r_eol; RGroup 1 any_lazy;
        RAhead false
          (alts [seqs [r_eol; blanks;
                       alts [set (chars (u "#*-")); r_number_dot; c ">"]];
                 at_least 2 r_eol;
                 REol])].

(** [/(?<!`)``(?!`)/g] *)
Definition re_two_ticks : regex :=
  seqs [RBehind true (chars (u "`")); lit (u "``"); RAhead true (c "`")].

(** [/```\r?\nmermaid\r?\n([\s\S]*?)```/g] *)
Definition re_mermaid1 : regex :=
  seqs [bt3; r_eol; lit (u "mermaid"); r_eol; RGroup 1 any_lazy; bt3].

(** [/```mermaid\r?\n([\s\S]*?)```/g] *)
Definition re_mermaid2 : regex :=
  seqs [lit (u "```mermaid"); r_eol; RGroup 1 any_lazy; bt3].

(** [/```([\w+-]* )\r?\n([\s\S]*?)```/g] *)
Definition re_fence : regex :=
  seqs [bt3; RGroup 1 (star (set (r_word ++ chars (u "+-")))); r_eol;
        RGroup 2 any_lazy; bt3].

(** [/`([^`]+)`/g] *)
Definition re_inline : regex :=
  seqs [c "`"; RGroup 1 (plus (nset (chars (u "`")))); c "`"].

(** [/^(?:---+|\*\*\*+|___+)$/gm] *)
Definition re_hr : regex :=
  seqs [RBol;
        alts [seqs [lit (u "--"); plus (c "-")];
              seqs [lit (u "**"); plus (c "*")];
              seqs [lit (u "__"); plus (c "_")]];
        REol].

(** [/(?:^|\n)((?:^>.*$(?:\n|$))+)/gm] *)
Definition re_quote : regex :=
  seqs [bol_or_nl;
        RGroup 1 (plus (seqs [RBol; c ">"; star RDot; REol; nl_or_eol]))].

(** [/^>\s?/] *)
Definition re_quote_mark : regex := seqs [RBol; c ">"; opt (set r_space)].

(** [/^#{n} (.* )$/gm] *)
Definition re_heading (n : nat) : regex :=
  seqs [RBol; lit (repeat (ch "#") n ++ u " "); RGroup 1 (star RDot); REol].

(** [https?:\/\/] *)
Definition r_scheme : regex := seqs [lit (u "http"); opt (c "s"); lit (u "://")].

(** [/\[([^\]]+)\]\((https?:\/\/[^\s)]+)\)/g] *)
Definition re_link : regex :=
  seqs [c "["; RGroup 1 (plus (nset (chars (u "]")))); lit (u "](");
        RGroup 2 (seqs [r_scheme; plus (nset (r_space ++ chars (u ")")))]);
        c ")"].

(** [/(?<!["'\(>])(https?:\/\/[^\s<]+[^\s<.,;:!?'")\]])/g] *)
Definition re_autolink : regex :=
  seqs [RBehind true ((c_dquote, c_dquote) :: chars (u "'(>"));
        RGroup 1 (seqs [r_scheme; plus (nset (r_space ++ chars (u "<")));
                        nset (r_space ++ chars (u "<.,;:!?')]")
                              ++ [(c_dquote, c_dquote)])])].

(** [/~~([^~]+)~~/g], [/\*\*([^*]+)\*\*/g], [/__([^_]+)__/g] *)
Definition re_pair2 (a : ascii) : regex :=
  seqs [c a; c a; RGroup 1 (plus (nset [(ch a, ch a)])); c a; c a].

(** [/_([^_]+)_/g] *)
Definition re_em : regex :=
  seqs [c "_"; RGroup 1 (plus (nset (chars (u "_")))); c "_"].

(** [[\*\-]] and [\d+\.]: the markers of list items. *)
Definition r_bullet : regex := set (chars (u "*-")).
Definition r_marker : regex := RAlt r_bullet r_number_dot.

(** [/(?:^|\n)((?:[ \t]*[\*\-]\s+.+(?:\n|$))+)/g] and the same with
    [\d+\.] for the marker. *)
Definition re_list (mark : regex) : regex :=
  seqs [bol_or_nl;
        RGroup 1 (plus (seqs [blanks; mark; plus (set r_space); plus RDot;
                              nl_or_eol]))].

(** [/^([ \t]* )([\*\-]|\d+\.)\s+(.+)$/] *)
Definition re_item : regex :=
  seqs [RBol; RGroup 1 blanks; RGroup 2 r_marker; plus (set r_space);
        RGroup 3 (plus RDot); REol].

(** [/^([ \t]* )([\*\-]|\d+\.)\s+/] *)
Definition re_item_head : regex :=
  seqs [RBol; RGroup 1 blanks; RGroup 2 r_marker; plus (set r_space)].

(** [/^[ \t]*([\*\-]|\d+\.)\s+/] *)
Definition re_nested_head : regex :=
  seqs [RBol; blanks; RGroup 1 r_marker; plus (set r_space)].

(** [/^\d+\.$/] *)
Definition re_ordered : regex := seqs [RBol; r_number_dot; REol].

(** [/(?:^|\n)(\|.+\|\n\|[\s\-:|]+\|\n(?:\|.+\|\n?)+)/gm] *)
Definition re_table : regex :=
  seqs [bol_or_nl;
        RGroup 1
          (seqs [c "|"; plus RDot; c "|"; RChar c_nl;
                 c "|"; plus (set (r_space ++ chars (u "-:|"))); c "|";
                 RChar c_nl;
                 plus (seqs [c "|"; plus RDot; c "|"; opt (RChar c_nl)])])].

(** [/\n/] and [/\n{2,}/] *)
Definition re_nl : regex := RChar c_nl.
Definition re_blank_lines : regex := at_least 2 (RChar c_nl).

(** [/^<h[1-6]|^<pre|^<ul|^<ol|^<blockquote|^<hr|^<table|^<div class="mermaid-wrapper"|^§§MERMAID/i] *)
Definition re_block : regex :=
  alts (seqs [RBol; lit (u "<h"); set (rng "1" "6")]
        :: map (fun w => RSeq RBol (lit w))
               [u "<pre"; u "<ul"; u "<ol"; u "<blockquote"; u "<hr"; u "<table";
                q "<div class='mermaid-wrapper'"; u "§§MERMAID"]).

(** ** Lists *)

(** The lines after an item that are list lines with a deeper indent. *)
Fixpoint nestedLines (indentLevel : nat) (lines : list str) : list str * list str :=
  match lines with
  | [] => ([], [])
  | nextLine :: rest =>
    match match_first f_none re_item_head nextLine with
    | None => ([], lines)
    | Some nextMatch =>
      if length (group_str nextMatch 1) <=? indentLevel then ([], lines)
      else let '(n, r) := nestedLines indentLevel rest in (nextLine :: n, r)
    end
  end.

(** [parseList(lines)]; a call recurses on fewer lines than it was given,
    so [length lines] levels are enough. *)
Fixpoint parseList (fuel : nat) (lines : list str) : str :=
  match fuel with
  | O => []
  | S fuel' =>
    match lines with
    | [] => []
    | line :: rest =>
      match match_first f_none re_item line with
      | None => []
      | Some m =>
        let content := group_str m 3 in
        let indentLevel := length (group_str m 1) in
        let '(nested, rest') := nestedLines indentLevel rest in
        let itemHTML :=
          match nested with
          | [] => content
          | first :: _ =>
            let nestedIsOrdered :=
              match match_first f_none re_nested_head first with
              | Some fm => test f_none re_ordered (group_str fm 1)
              | None => false
              end in
            let nestedTag := if nestedIsOrdered then u "ol" else u "ul" in
            content ++ u "<" ++ nestedTag ++ u ">" ++ parseList fuel' nested
                    ++ u "</" ++ nestedTag ++ u ">"
          end in
        u "<li>" ++ itemHTML ++ u "</li>" ++ parseList fuel' rest'
      end
    end
  end.

Definition listHTML (tag : string) (m : rmatch_info) : str :=
  let lines := split_re f_none re_nl (trim (group_str m 1)) in
  let items := parseList (length lines) lines in
  [c_nl] ++ u "<" ++ u tag ++ u ">" ++ items ++ u "</" ++ u tag ++ u ">" ++ [c_nl].

(** ** Tables *)

(** [line.split('|').slice(1, -1)] *)
Definition cells (line : str) : list str :=
  match split_char (ch "|") line with
  | [] => []
  | _ :: t => removelast t
  end.

Definition ends_with (p s : str) : bool := starts_with (rev p) (rev s).

Definition alignment (cell : str) : str :=
  let trimmed := trim cell in
  if starts_with (u ":") trimmed && ends_with (u ":") trimmed then u "center"
  else if ends_with (u ":") trimmed then u "right"
  else if starts_with (u ":") trimmed then u "left"
  else [].

(** One row: [tag] is [th] or [td]. *)
Fixpoint rowCells (tag : str) (alignments : list str) (i : nat) (cs : list str)
  : str :=
  match cs with
  | [] => []
  | cell :: cs' =>
    let a := nth i alignments [] in
    let align := if truthy a then q " align='" ++ a ++ [c_dquote] else [] in
    u "<" ++ tag ++ align ++ u ">" ++ cell ++ u "</" ++ tag ++ u ">"
      ++ rowCells tag alignments (S i) cs'
  end.

Definition tableHTML (m : rmatch_info) : str :=
  let tableContent := group_str m 1 in
  let lines := split_re f_none re_nl (trim tableContent) in
  if length lines <? 2 then tableContent
  else
    let headerCells := map trim (cells (nth 0 lines [])) in
    let alignments := map alignment (cells (nth 1 lines [])) in
    [c_nl] ++ u "<table><thead><tr>" ++ rowCells (u "th") alignments 0 headerCells
      ++ u "</tr></thead>" ++ u "<tbody>"
      ++ flat_map (fun line =>
                     u "<tr>" ++ rowCells (u "td") alignments 0 (map trim (cells line))
                       ++ u "</tr>")
                  (skipn 2 lines)
      ++ u "</tbody></table>" ++ [c_nl].

(** ** The stages of [render] *)

Definition fenced (code : str) (tail : str) : str :=
  u "```bsl" ++ [c_nl] ++ code ++ [c_nl] ++ u "```" ++ tail.

(** Stages 0 and 0.5: the code-fence spellings of the upstream. *)
Definition normalize (md : str) : str :=
  let md := replace_tpl f_none re_empty_fence [] md in
  let md := replace_tpl f_none re_1c (u "```1c" ++ [c_nl]) md in
  let md := replace_tpl f_none re_v1 (u "```bsl" ++ [c_nl]) md in
  let md := replace_tpl f_none re_v2a [] md in
  let md := replace_fn f_none re_v2b
              (fun m => fenced (trim (group_str m 1)) [c_nl; c_nl]) md in
  let md := replace_fn f_none re_v2c
              (fun m => fenced (trim (group_str m 1)) []) md in
  let md := replace_tpl f_none re_v3 (u "```bsl" ++ [c_nl]) md in
  let md := replace_fn f_none re_v4a
              (fun m => fenced (trim (group_str m 1)) [c_nl; c_nl]) md in
  let md := replace_fn f_none re_v4b
              (fun m => fenced (trimEnd (group_str m 1)) [c_nl; c_nl]) md in
  replace_tpl f_none re_two_ticks (u "```") md.

(** Stages 1, 2 and 1.5: diagrams, fenced code and inline code go to the
    store, a marker takes their place. *)
Definition extract (md : str) : str * store :=
  let '(md, st) :=
    replace_st f_none re_mermaid1
      (fun st m => processMermaidBlock st (trim (group_str m 1))) md empty_store in
  let '(md, st) :=
    replace_st f_none re_mermaid2
      (fun st m => processMermaidBlock st (trim (group_str m 1))) md st in
  let '(md, st) :=
    replace_st f_none re_fence
      (fun st m => pushCode st (group_str m 1) (group_str m 2)) md st in
  replace_st f_none re_inline (fun st m => pushInline st (group_str m 1)) md st.

Definition quoteHTML (m : rmatch_info) : str :=
  let content :=
    join (u "<br>")
      (map (replace_first_tpl f_none re_quote_mark [])
           (split_re f_none re_nl (trim (group_str m 1)))) in
  [c_nl] ++ u "<blockquote>" ++ content ++ u "</blockquote>" ++ [c_nl].

Definition a_tail : str :=
  Eval vm_compute in q "' target='_blank' rel='noopener noreferrer nofollow'>".

(** Stages 3 to 12, on the escaped text. *)
Definition blocks (md : str) : str :=
  let md := replace_tpl f_m re_hr (u "<hr>") md in
  let md := replace_fn f_m re_quote quoteHTML md in
  let md := replace_tpl f_m (re_heading 6) (u "<h6>$1</h6>") md in
  let md := replace_tpl f_m (re_heading 5) (u "<h5>$1</h5>") md in
  let md := replace_tpl f_m (re_heading 4) (u "<h4>$1</h4>") md in
  let md := replace_tpl f_m (re_heading 3) (u "<h3>$1</h3>") md in
  let md := replace_tpl f_m (re_heading 2) (u "<h2>$1</h2>") md in
  let md := replace_tpl f_m (re_heading 1) (u "<h1>$1</h1>") md in
  let md := replace_tpl f_none re_link
              (q "<a href='$2" ++ a_tail ++ u "$1</a>") md in
  let md := replace_tpl f_none re_autolink
              (q "<a href='$1" ++ a_tail ++ u "$1</a>") md in
  let md := replace_tpl f_none (re_pair2 "~") (u "<del>$1</del>") md in
  let md := replace_tpl f_none (re_pair2 "*") (u "<strong>$1</strong>") md in
  let md := replace_tpl f_none (re_pair2 "_") (u "<strong>$1</strong>") md in
  let md := replace_tpl f_none re_em (u "<em>$1</em>") md in
  let md := replace_fn f_none (re_list r_bullet) (listHTML "ul") md in
  let md := replace_fn f_none (re_list r_number_dot) (listHTML "ol") md in
  replace_fn f_m re_table tableHTML md.

(** Stage 13 *)
Definition paragraph (block : str) : str :=
  let trimmed := trim block in
  if negb (truthy trimmed) then []
  else if test f_i re_block trimmed then trimmed
  else u "<p>" ++ replace_char c_nl (u "<br>") trimmed ++ u "</p>".

Definition paragraphs (md : str) : str :=
  join [c_nl] (map paragraph (split_re f_none re_blank_lines md)).

(** Stages 14 to 16: [blocks.forEach((html, i) => md = md.replace(...))] *)
Fixpoint restore (kind : string) (i : nat) (htmls : list str) (md : str) : str :=
  match htmls with
  | [] => md
  | html :: rest => restore kind (S i) rest (replace_string (marker kind i) html md)
  end.

Definition restoreAll (st : store) (md : str) : str :=
  let md := restore "CODEBLOCK" 0 (codeBlocks st) md in
  let md := restore "MERMAID" 0 (mermaidBlocks st) md in
  restore "INLINECODE" 0 (inlineCodes st) md.

(** [render(md)] and the store at its end. *)
Definition render_st (md : str) : str * store :=
  if negb (truthy md) then ([], empty_store)
  else
    let '(md, st) := extract (normalize md) in
    (restoreAll st (paragraphs (blocks (escapeHTML md))), st).

Definition render (md : str) : str := fst (render_st md).

(** The markers minted by one call of [render]. *)
Definition markers (md : str) : list str := minted (snd (render_st md)).

(** ** Notions used to state the properties *)

(** Every marker minted so far carries an index below the length of the
    array of its kind, and no marker was minted twice. *)
Definition minted_ok (st : store) : Prop :=
  NoDup (minted st)
  /\ forall m, In m (minted st) ->
       (exists i, i < length (mermaidBlocks st) /\ m = marker "MERMAID" i)
       \/ (exists i, i < length (codeBlocks st) /\ m = marker "CODEBLOCK" i)
       \/ (exists i, i < length (inlineCodes st) /\ m = marker "INLINECODE" i).

End Markdown.

(* ================================================================== *)
(** * sanitizeMermaidCode (app.js) *)
(* ================================================================== *)

Module App.

(** What the browser does when the source asks it to decode a string:
    [textarea.innerHTML = code; textarea.value], and [getAttribute] on
    parsed markup. The browser is not part of the repository; the model
    decodes the character references that the escapers of this pipeline
    write and leaves every other character as it is. *)
Fixpoint decode (skip : nat) (s : str) : str :=
  match s with
  | [] => []
  | x :: s' =>
    match skip with
    | S k => decode k s'
    | O =>
      if starts_with (u "&amp;") s then ch "&" :: decode 4 s'
      else if starts_with (u "&lt;") s then ch "<" :: decode 3 s'
      else if starts_with (u "&gt;") s then ch ">" :: decode 3 s'
      else if starts_with (u "&quot;") s then c_dquote :: decode 5 s'
      else if starts_with (u "&#39;") s then c_squote :: decode 4 s'
      else x :: decode 0 s'
    end
  end.

Definition decodeEntities (s : str) : str := decode 0 s.

(** [div.getAttribute('data-mermaid-code')] on the markup of a diagram
    block: the value of that attribute, up to its closing double quote,
    decoded. *)
Definition getMermaidCode (html : str) : str :=
  let key := q "data-mermaid-code='" in
  match indexOf html key 0 with
  | Some p =>
    let from := p + length key in
    decodeEntities
      (slice html from (scanWhile (fun x => negb (ceqb x c_dquote)) html from))
  | None => []
  end.

Definition r_ident : ranges :=
  [(1040, 1071); (1072, 1103); (65, 90); (97, 122); (95, 95); (48, 57)]%N.

(** [/([А-Яа-яA-Za-z_0-9]+)\[([^\]]+)\]/g] *)
Definition re_index : regex :=
  seqs [RGroup 1 (plus (set r_ident)); c "[";
        RGroup 2 (plus (nset (chars (u "]")))); c "]"].

(** [/([А-Яа-яA-Za-z_0-9]+)\(\)/g] *)
Definition re_call : regex := seqs [RGroup 1 (plus (set r_ident)); lit (u "()")].

(** [/([А-Яа-яA-Za-z_0-9]+)\.([А-Яа-яA-Za-z_0-9]+)/g] *)
Definition re_dot : regex :=
  seqs [RGroup 1 (plus (set r_ident)); c "."; RGroup 2 (plus (set r_ident))].

(** [/<br\s*\/?>/gi] *)
Definition re_br : regex :=
  seqs [lit (u "<br"); star (set r_space); opt (c "/"); c ">"].

(** [/\s*op\s*/g] *)
Definition re_op (op : string) : regex :=
  seqs [star (set r_space); lit (u op); star (set r_space)].

(** [/\{([^}]+)\}/g] *)
Definition re_braces : regex :=
  seqs [c "{"; RGroup 1 (plus (nset (chars (u "}")))); c "}"].

(** The text of a condition node, between its braces. *)
Definition cleanCondition (conditionText : str) : str :=
  let cleaned := conditionText in
  let cleaned := replace_tpl f_i re_br (u " ") cleaned in
  let cleaned := replace_tpl f_none re_index (u "$1_$2") cleaned in
  let cleaned := replace_tpl f_none re_call (u "$1") cleaned in
  let cleaned := replace_tpl f_none (re_op "<=") (u " ≤ ") cleaned in
  let cleaned := replace_tpl f_none (re_op ">=") (u " ≥ ") cleaned in
  let cleaned := replace_tpl f_none (re_op "<") (u " ‹ ") cleaned in
  let cleaned := replace_tpl f_none (re_op ">") (u " › ") cleaned in
  let cleaned := replace_tpl f_none (re_op "!=") (u " ≠ ") cleaned in
  let cleaned := replace_tpl f_none (re_op "==") (u " = ") cleaned in
  trim (replace_tpl f_none (plus (set r_space)) (u " ") cleaned).

Definition sanitizeMermaidCode (code : str) : str :=
  let sanitized := decodeEntities code in
  let lines := split_char c_nl sanitized in
  let sanitized :=
    join [c_nl]
      (map (fun line =>
              if includes (u "-->") line || includes (u "--->") line
                 || includes (u "-.->") line
              then replace_char c_dquote [] line else line) lines) in
  let sanitized :=
    replace_fn f_none re_braces
      (fun m => u "{" ++ cleanCondition (group_str m 1) ++ u "}") sanitized in
  let sanitized := replace_char (ch ";") [] sanitized in
  let sanitized := replace_tpl f_none re_call (u "$1") sanitized in
  let sanitized := replace_tpl f_none re_dot (u "$1_$2") sanitized in
  trim sanitized.

(** The sanitization chain of a diagram block: the markup that
    [processMermaidBlock] builds for [code], the attribute read back from
    it, [sanitizeMermaidCode] on that. *)
Definition sanitizeChain (code : str) : str :=
  sanitizeMermaidCode (getMermaidCode (Markdown.mermaidHTML code)).

End App.

(* ================================================================== *)
(** * What a match of the engine tells about the input

    [matches fl s r i c j c'] holds of every run of the matcher on [r]
    that starts at [i] with the captures [c] and ends at [j] with the
    captures [c']: it records the code units the run went over and the
    groups it closed. It does not record the order in which the engine
    tries the alternatives, and it leaves out what a negative lookahead
    saw. *)
(* ================================================================== *)

Definition step_rel : Type := nat -> caps -> nat -> caps -> Prop.

Fixpoint iter (n : nat) (R : step_rel) (i : nat) (c : caps) (j : nat) (c' : caps)
  : Prop :=
  match n with
  | O => j = i /\ c' = c
  | S n' => exists m c1, R i c m c1 /\ iter n' R m c1 j c'
  end.

Fixpoint matches (fl : flags) (s : str) (r : regex) (i : nat) (c : caps)
         (j : nat) (c' : caps) : Prop :=
  match r with
  | REmpty => j = i /\ c' = c
  | RChar x =>
    exists y, idx s i = Some y /\ char_match fl x y = true /\ j = S i /\ c' = c
  | RSet neg rs =>
    exists y, idx s i = Some y /\ set_match fl neg rs y = true
              /\ j = S i /\ c' = c
  | RDot =>
    exists y, idx s i = Some y /\ isLineTerminator y = false
              /\ j = S i /\ c' = c
  | RSeq a b => exists m c1, matches fl s a i c m c1 /\ matches fl s b m c1 j c'
  | RAlt a b => matches fl s a i c j c' \/ matches fl s b i c j c'
  | RRep _ min _ a => exists n, min <= n /\ iter n (matches fl s a) i c j c'
  | RGroup n a => exists c1, matches fl s a i c j c1 /\ c' = (n, (i, j)) :: c1
  | RBol => atBol fl s i = true /\ j = i /\ c' = c
  | REol => atEol fl s i = true /\ j = i /\ c' = c
  | RWordB => j = i /\ c' = c
  | RAhead neg a =>
    j = i /\ (if neg then c' = c else exists m, matches fl s a i c m c')
  | RBehind neg rs => behind fl s neg rs i = true /\ j = i /\ c' = c
  end.

(** A list of code units: [has_char ps s] when [s] holds one of them. *)
Definition one_of (ps : str) (y : char) : bool := existsb (ceqb y) ps.
Definition has_char (ps : str) (s : str) : bool := existsb (one_of ps) s.

(** [adjacent P Q s]: somewhere in [s] a code unit in [P] is followed by
    one in [Q]. *)
Fixpoint adjacent (P Q : char -> bool) (s : str) : bool :=
  match s with
  | x :: (y :: _) as t => (P x && Q y) || adjacent P Q t
  | _ => false
  end.

(** A sufficient test that every match of [r] (no [i] flag) holds one of
    the code units [ps]. *)
Fixpoint needs (ps : str) (r : regex) : bool :=
  match r with
  | RChar x => one_of ps x
  | RSet false rs => forallb (fun lh => ceqb (fst lh) (snd lh) && one_of ps (fst lh)) rs
                     && negb (match rs with [] => true | _ => false end)
  | RSeq a b => needs ps a || needs ps b
  | RAlt a b => needs ps a && needs ps b
  | RRep _ min _ a => (0 <? min) && needs ps a
  | RGroup _ a => needs ps a
  | _ => false
  end.

(* ================================================================== *)
(** * Plain text

    A text without Markdown syntax, as the round trip needs it, condition
    by condition:
    - no backtick and no [<];
    - no two slashes, two tildes, two asterisks or two line feeds in a
      row;
    - at most one underscore;
    - no line whose first code unit after its indentation (spaces and
      tabs) is [#], [|], [-] or [*], and no line that has, after its
      indentation, digits and then a period; a line starts at the start
      of the text and after every line terminator;
    - not only white space, and, white space apart, not starting with the
      section sign of the markers. *)
(* ================================================================== *)

Definition isDot (x : char) : bool := ceqb x (ch ".").
Definition isNl (x : char) : bool := ceqb x c_nl.
Definition isSlash (x : char) : bool := ceqb x (ch "/").
Definition isTilde (x : char) : bool := ceqb x (ch "~").
Definition isStar (x : char) : bool := ceqb x (ch "*").
Definition isUnderscore (x : char) : bool := ceqb x (ch "_").
Definition isTabOrSpace (x : char) : bool := ceqb x (ch " ") || ceqb x c_tab.

(** Where a code unit stands in its line: in the indentation, in the
    digits that follow the indentation, or further on. *)
Inductive place : Type := Indent | Number | Inside.

(** The place of the next code unit, after [x] at the place [p]. *)
Definition next_place (p : place) (x : char) : place :=
  if isLineTerminator x then Indent
  else match p with
       | Indent => if isTabOrSpace x then Indent
                   else if isDigit x then Number else Inside
       | Number => if isDigit x then Number else Inside
       | Inside => Inside
       end.

(** The first code units of the block syntax: [#] (heading), [|] (table),
    [-] and [*] (rule, list item). *)
Definition line_marks : str := Eval vm_compute in u "#|-*".

(** [x] at the place [p] opens a block: a mark right after the
    indentation, or the period of a numbered item. *)
Definition opens_block (p : place) (x : char) : bool :=
  match p with
  | Indent => one_of line_marks x
  | Number => isDot x
  | Inside => false
  end.

(** Some code unit of [s] opens a block, [s] being read from the place
    [p]. *)
Fixpoint block_start (p : place) (s : str) : bool :=
  match s with
  | [] => false
  | x :: t => opens_block p x || block_start (next_place p x) t
  end.

(** The place of the code unit [k] of [s]. *)
Definition place_at (s : str) (k : nat) : place :=
  fold_left next_place (firstn k s) Indent.

Definition plain_text (md : str) : bool :=
  negb (has_char (u "`<") md)
  && negb (adjacent isSlash isSlash md)
  && negb (adjacent isTilde isTilde md)
  && negb (adjacent isStar isStar md)
  && (length (filter isUnderscore md) <=? 1)
  && negb (adjacent isNl isNl md)
  && negb (block_start Indent md)
  && truthy (trim md)
  && negb (starts_with [c_sect] (trim md)).

(** [escapeHTML] on one code unit. *)
Definition esc1 (x : char) : str :=
  if ceqb x (ch "&") then u "&amp;"
  else if ceqb x (ch "<") then u "&lt;"
  else if ceqb x (ch ">") then u "&gt;"
  else if ceqb x c_dquote then u "&quot;"
  else if ceqb x c_squote then u "&#39;"
  else [x].

Definition isSpecial (x : char) : bool :=
  ceqb x (ch "&") || ceqb x (ch "<") || ceqb x (ch ">") || ceqb x c_dquote
  || ceqb x c_squote.

(** The code units of the five entities. *)
Definition entity_chars : str := Eval vm_compute in u "&amp;&lt;&gt;&quot;&#39;".

(** The code units that the patterns before the escaping need. *)
Definition fence_chars : str := Eval vm_compute in u "`<".

(* ================================================================== *)
(** * The tags of the renderer

    [render] writes the tags [a], [blockquote], [br], [button], [code],
    [del], [div], [em], [h1] to [h6], [hr], [li], [ol], [p], [pre],
    [strong], [table], [tbody], [td], [th], [thead], [tr] and [ul].
    [tags_ok s] holds when every [<] of [s] is followed by [/] or by the
    first letters of one of them: one letter, or two for [h] and [s]. *)
(* ================================================================== *)

Definition c_lt : char := 60%N.

Definition tag_initials : str := Eval vm_compute in u "/adeluotpbc".

Definition isHeadingTail (x : char) : bool :=
  in_range 49 54 x || ceqb x (ch "r").

Definition opens_tag (t : str) : bool :=
  match t with
  | x :: t' =>
    one_of tag_initials x
    || (ceqb x (ch "h")
        && match t' with y :: _ => isHeadingTail y | [] => false end)
    || (ceqb x (ch "s")
        && match t' with y :: _ => ceqb y (ch "t") | [] => false end)
  | [] => false
  end.

Fixpoint tags_ok (s : str) : bool :=
  match s with
  | [] => true
  | x :: t => (if ceqb x c_lt then opens_tag t else true) && tags_ok t
  end.

(** A text that does not go on a tag opened before it. *)
Definition closed (b : str) : bool :=
  negb (opens_tag b)
  && match b with
     | x :: _ => negb (isHeadingTail x || ceqb x (ch "t"))
     | [] => true
     end.

(** The code units that no opening of a tag holds. *)
Definition clean (x : char) : bool :=
  negb (one_of tag_initials x || ceqb x (ch "h") || ceqb x (ch "s")
        || ceqb x (ch "t") || isHeadingTail x).

(** The code units after which a text can be cut. *)
Definition settled (x : char) : bool :=
  negb (ceqb x c_lt || ceqb x (ch "h") || ceqb x (ch "s")).

(** ** A diagram whose label holds a [$] pattern

    A fenced diagram with the node [A[$']], and a bare link after it. *)
Definition injection_link : str := u "http://x/onmouseover=alert(1)//".

Definition injection_input : str :=
  u "```mermaid" ++ [c_nl] ++ u "A[$']" ++ [c_nl] ++ u "```" ++ [c_nl]
    ++ injection_link.

(** The anchor that the autolink stage writes for the link. *)
Definition injection_anchor : str :=
  [c_nl] ++ q "<a href='" ++ injection_link ++ Markdown.a_tail
    ++ injection_link ++ u "</a>".

(** The groups of a match, and its captures as slices of the text. *)
Definition group_ok (g : option str) : bool :=
  match g with
  | Some t => tags_ok t
  | None => true
  end.

Definition caps_ok (s : str) (c : caps) : bool :=
  forallb (fun e => tags_ok (slice s (fst (snd e)) (snd (snd e)))) c.

(** What the stages show of each match of [r] in [s]: the text before
    it, the match and the captures are texts with these tags only. *)
Definition sites_ok (fl : flags) (r : regex) (s : str) : Prop :=
  forall i j c, matches fl s r i [] j c ->
                tags_ok (firstn i s) = true
                /\ tags_ok (slice s i j) = true
                /\ caps_ok s c = true.

(** No [<] from position [a] up to position [b]. *)
Definition lt_free (s : str) (a b : nat) : Prop :=
  a <= b /\ forall k y, a <= k < b -> idx s k = Some y -> ceqb y c_lt = false.

(** The blocks kept for the restoration. *)
Definition store_ok (st : Markdown.store) : Prop :=
  Forall (fun t => tags_ok t = true) (Markdown.mermaidBlocks st)
  /\ Forall (fun t => tags_ok t = true) (Markdown.codeBlocks st)
  /\ Forall (fun t => tags_ok t = true) (Markdown.inlineCodes st).

(* ================================================================== *)
(** * Notions used to state further properties *)
(* ================================================================== *)

(** [a-zA-Z] *)
Definition isAsciiLetter (x : char) : bool :=
  in_range 97 122 x || in_range 65 90 x.

Definition isLt (x : char) : bool := ceqb x (ch "<").

(** The markup of the highlighters: [only_span_tags s] holds when every
    [<] of [s] opens a [span] element with a [tok-] class or closes a
    [span] element. *)
Definition span_open : str := Eval vm_compute in q "span class='tok-".
Definition span_close : str := Eval vm_compute in u "/span>".

Fixpoint only_span_tags (s : str) : bool :=
  match s with
  | [] => true
  | x :: t =>
    (if isLt x then starts_with span_open t || starts_with span_close t
     else true)
    && only_span_tags t
  end.

(** A class of a span: it begins with [tok-] and holds no [<], no [>] and
    no double quote. *)
Definition class_ok (cls : option str) : bool :=
  match cls with
  | Some k => starts_with (u "tok-") k
              && negb (existsb (fun x => isLt x || ceqb x (ch ">")
                                         || ceqb x c_dquote) k)
  | None => true
  end.

(** The text that the browser shows for a markup, [textContent]: the
    tags, from [<] to the next [>], are left out, and the character
    references are decoded. *)
Fixpoint strip_tags (in_tag : bool) (s : str) : str :=
  match s with
  | [] => []
  | x :: t =>
    if in_tag then strip_tags (negb (ceqb x (ch ">"))) t
    else if isLt x then strip_tags true t
    else x :: strip_tags false t
  end.

Definition textContent (html : str) : str :=
  App.decodeEntities (strip_tags false html).

(** The code units that the HTML parser hands on as they are written: it
    turns a carriage return (with the line feed after it, if there is
    one) into a line feed before it reads the markup, and a NUL inside an
    attribute value into U+FFFD. *)
Definition keptByParser (x : char) : bool :=
  negb (ceqb x c_cr) && negb (ceqb x 0%N).

(* ================================================================== *)
(** * likelyXML and XML.highlight (xml.js) *)
(* ================================================================== *)

Module XMLDetect.

Definition r_alpha : ranges := [(97, 122); (65, 90)]%N.        (* [a-zA-Z] *)
Definition r_name : ranges := r_word ++ chars (u ":.-").      (* [\w:.-] *)
Definition r_ncname : ranges := r_word ++ chars (u ".-").     (* [\w.-] *)
Definition r_hex : ranges := [(48, 57); (97, 102); (65, 70)]%N.

(** [/^<\?xml\s/i] *)
Definition re_decl : regex := seqs [RBol; lit (u "<?xml"); set r_space].

(** [/<!\[CDATA\[/] *)
Definition re_cdata : regex := lit (u "<![CDATA[").

(** [/<!DOCTYPE\s/i] *)
Definition re_doctype : regex := seqs [lit (u "<!DOCTYPE"); set r_space].

(** [/<(NAME)/g], with [NAME] for [[a-zA-Z][\w:.-]*] *)
Definition re_open : regex :=
  seqs [c "<"; RGroup 1 (seqs [set r_alpha; star (set r_name)])].

(** [/<\/(NAME)/g] *)
Definition re_close : regex :=
  seqs [lit (u "</"); RGroup 1 (seqs [set r_alpha; star (set r_name)])].

(** [/<[a-zA-Z][\w:.-]*[^>]*\/>/] *)
Definition re_selfclosing : regex :=
  seqs [c "<"; set r_alpha; star (set r_name); star (nset (chars (u ">")));
        lit (u "/>")].

(** [/xmlns(:NCNAME)?=/], with [NCNAME] for [[a-zA-Z][\w.-]*] *)
Definition re_xmlns : regex :=
  seqs [lit (u "xmlns");
        opt (RGroup 1 (seqs [c ":"; set r_alpha; star (set r_ncname)]));
        c "="].

(** [/<\?[a-zA-Z][\w.-]*/] *)
Definition re_pi : regex :=
  seqs [lit (u "<?"); set r_alpha; star (set r_ncname)].

(** [/<!--[\s\S]*?-->/] *)
Definition re_comment : regex :=
  seqs [lit (u "<!--"); lazy_star (set r_any); lit (u "-->")].

(** [/\sNAME\s*=\s*Q/], with [Q] for the class of the two quotes *)
Definition re_attribute : regex :=
  seqs [set r_space; set r_alpha; star (set r_name); star (set r_space);
        c "="; star (set r_space);
        set [(c_dquote, c_dquote); (c_squote, c_squote)]].

(** [/&(#\d+|#x[0-9a-fA-F]+|[a-zA-Z]+);/] *)
Definition re_entity : regex :=
  seqs [c "&";
        RGroup 1 (alts [seqs [c "#"; plus (set r_digit)];
                        seqs [lit (u "#x"); plus (set r_hex)];
                        plus (set r_alpha)]);
        c ";"].

Definition hit (fl : flags) (r : regex) (text : str) (n : nat) : nat :=
  if test fl r text then n else 0.

(** [text.match(r) || []] for a global [r]: the matches. *)
Definition found (r : regex) (text : str) : list rmatch_info :=
  all_matches f_none r text.

Definition score (text : str) : nat :=
  hit f_i re_decl (trim text) 3
  + hit f_none re_cdata text 2
  + hit f_i re_doctype text 2
  + (if (0 <? length (found re_open text))
        && (0 <? length (found re_close text)) then 2 else 0)
  + hit f_none re_selfclosing text 1
  + hit f_none re_xmlns text 2
  + hit f_none re_pi text 1
  + hit f_none re_comment text 1
  + hit f_none re_attribute text 1
  + hit f_none re_entity text 1.

Definition likelyXML (text : str) : bool := 2 <=? score text.

(** [/^xml$/i] *)
Definition re_lang : regex := seqs [RBol; lit (u "xml"); REol].

(** [!!(lang && /^xml$/i.test(lang))]: [lang] is a string or
    [undefined]. *)
Definition force (lang : option str) : bool :=
  match lang with
  | Some l => truthy l && test f_i re_lang l
  | None => false
  end.

(** [XML.highlight(code, lang)]: [Some None] is [null], and [None] a
    scan that does not return within [fuel] turns. *)
Definition highlight (fuel : nat) (code : str) (lang : option str)
  : option (option str) :=
  if negb (force lang) && negb (likelyXML code) then Some None
  else match XML.highlightXML fuel code with
       | Some html => Some (Some html)
       | None => None
       end.

End XMLDetect.

(* ================================================================== *)
(** * The conversations (conversations.js) and their history (app.js)

    The manager keeps the list of the conversations and the identifier of
    the active one; the history of each conversation is kept in
    [localStorage] under a key made from its identifier. What the code
    reads from outside is passed in: the clock, the digits drawn for a
    new identifier, and whether the browser accepts a write. *)
(* ================================================================== *)

Module Conversations.

Definition default_title : str := Eval vm_compute in u "Новая беседа".

(** [generateId()]: [now] is [Date.now()] and [rnd] stands for
    [Math.random().toString(36).substring(2, 9)]. *)
Definition generateId (now : nat) (rnd : str) : str :=
  u "conv_" ++ string_of_nat now ++ u "_" ++ rnd.

(** [generateTitle(firstMessage)] *)
Definition generateTitle (firstMessage : str) : str :=
  if negb (truthy firstMessage) then default_title
  else
    let cleaned := trim firstMessage in
    if length cleaned <=? 50 then cleaned
    else firstn 47 cleaned ++ u "...".

(** [formatRelativeTime(timestamp)], with [now] for [Date.now()], both
    in milliseconds; [None] stands for the date that the browser formats
    with [toLocaleDateString]. *)
Definition formatRelativeTime (now timestamp : Z) : option str :=
  let diff := (now - timestamp)%Z in
  let seconds := (diff / 1000)%Z in
  let minutes := (seconds / 60)%Z in
  let hours := (minutes / 60)%Z in
  let days := (hours / 24)%Z in
  if (seconds <? 60)%Z then Some (u "Только что")
  else if (minutes <? 60)%Z
       then Some (string_of_nat (Z.to_nat minutes) ++ u " мин назад")
  else if (hours <? 24)%Z
       then Some (string_of_nat (Z.to_nat hours) ++ u " ч назад")
  else if (days =? 1)%Z then Some (u "Вчера")
  else if (days <? 7)%Z
       then Some (string_of_nat (Z.to_nat days) ++ u " дн назад")
  else None.

Record conversation : Type :=
  { id : str;
    title : str;
    created_at : nat;
    updated_at : nat;
    message_count : nat;
    conversation_id : option str }.

(** A message of a history: the fields that the manager reads. *)
Record message : Type := { role : str; text : str }.

(** [this.conversations], [this.activeId] ([None] is [null]) and the
    histories in [localStorage], by the identifier of the conversation. *)
Record manager : Type :=
  { conversations : list conversation;
    activeId : option str;
    histories : list (str * list message) }.

(** What one call of [createConversation] reads from outside: the clock
    for the identifier, the digits drawn, the clock for [created_at] and
    for [updated_at]. *)
Record fresh : Type :=
  { id_now : nat; id_rnd : str; created_now : nat; updated_now : nat }.

Definition has_id (cid : str) (c : conversation) : bool := str_eqb (id c) cid.

(** [this.conversations.find(c => c.id === conversationId)] *)
Definition getById (cid : str) (st : manager) : option conversation :=
  find (has_id cid) (conversations st).

(** [getActive()] *)
Definition getActive (st : manager) : option conversation :=
  match activeId st with
  | Some a => getById a st
  | None => None
  end.

(** [this.conversations[0]?.id || null] *)
Definition firstId (l : list conversation) : option str :=
  match l with
  | c :: _ => if truthy (id c) then Some (id c) else None
  | [] => None
  end.

(** [createConversation(title)]: the new conversation goes to the front. *)
Definition createConversation (ttl : str) (fr : fresh) (st : manager)
  : conversation * manager :=
  let conv := {| id := generateId (id_now fr) (id_rnd fr);
                 title := ttl;
                 created_at := created_now fr;
                 updated_at := updated_now fr;
                 message_count := 0;
                 conversation_id := None |} in
  (conv, {| conversations := conv :: conversations st;
            activeId := activeId st;
            histories := histories st |}).

(** [l.splice(index, 1)] after [findIndex]: the first element with the
    identifier is removed. *)
Fixpoint removeFirst (cid : str) (l : list conversation)
  : option (list conversation) :=
  match l with
  | [] => None
  | c :: l' =>
    if has_id cid c then Some l'
    else match removeFirst cid l' with
         | Some r => Some (c :: r)
         | None => None
         end
  end.

(** [localStorage.removeItem(this.getHistoryKey(id))] *)
Definition removeHistory (cid : str) (h : list (str * list message))
  : list (str * list message) :=
  filter (fun e => negb (str_eqb (fst e) cid)) h.

Definition same_id (a : option str) (cid : str) : bool :=
  match a with
  | Some x => str_eqb x cid
  | None => false
  end.

(** [deleteConversation(conversationId)] *)
Definition deleteConversation (cid : str) (fr : fresh) (st : manager)
  : bool * manager :=
  match removeFirst cid (conversations st) with
  | None => (false, st)
  | Some rest =>
    let st1 := {| conversations := rest;
                  activeId := activeId st;
                  histories := removeHistory cid (histories st) |} in
    if same_id (activeId st) cid then
      match firstId rest with
      | Some a =>
        (true, {| conversations := rest; activeId := Some a;
                  histories := histories st1 |})
      | None =>
        let '(newConv, st2) :=
          createConversation default_title fr
            {| conversations := rest; activeId := None;
               histories := histories st1 |} in
        (true, {| conversations := conversations st2;
                  activeId := Some (id newConv);
                  histories := histories st2 |})
      end
    else (true, st1)
  end.

(** [setActive(conversationId)] *)
Definition setActive (cid : str) (st : manager) : bool * manager :=
  match getById cid st with
  | None => (false, st)
  | Some _ => (true, {| conversations := conversations st;
                        activeId := Some cid;
                        histories := histories st |})
  end.

(** The first conversation with the identifier is the object that
    [find] returns; [f] is what the code assigns to its fields. *)
Fixpoint updateFirst (cid : str) (f : conversation -> conversation)
         (l : list conversation) : list conversation :=
  match l with
  | [] => []
  | c :: l' => if has_id cid c then f c :: l' else c :: updateFirst cid f l'
  end.

(** [renameConversation(conversationId, newTitle)] *)
Definition renameConversation (cid newTitle : str) (st : manager)
  : bool * manager :=
  match getById cid st with
  | None => (false, st)
  | Some _ =>
    let t := trim newTitle in
    let t := if truthy t then t else default_title in
    (true, {| conversations :=
                updateFirst cid
                  (fun c => {| id := id c; title := t;
                               created_at := created_at c;
                               updated_at := updated_at c;
                               message_count := message_count c;
                               conversation_id := conversation_id c |})
                  (conversations st);
              activeId := activeId st;
              histories := histories st |})
  end.

(** [updateApiConversationId(localId, apiConversationId)] *)
Definition updateApiConversationId (localId apiId : str) (st : manager)
  : manager :=
  {| conversations :=
       updateFirst localId
         (fun c => {| id := id c; title := title c;
                      created_at := created_at c;
                      updated_at := updated_at c;
                      message_count := message_count c;
                      conversation_id := Some apiId |})
         (conversations st);
     activeId := activeId st;
     histories := histories st |}.

(** [loadHistory(conversationId)]: no entry gives the empty list. *)
Definition loadHistory (cid : str) (st : manager) : list message :=
  match find (fun e => str_eqb (fst e) cid) (histories st) with
  | Some e => snd e
  | None => []
  end.

Definition isUser (m : message) : bool := str_eqb (role m) (u "user").

(** [saveHistory(conversationId, history)]: [ok] tells whether the
    browser accepts the write; when it does not, [setItem] throws and the
    rest of the [try] block is skipped. *)
Definition saveHistory (cid : str) (history : list message) (now : nat)
           (ok : bool) (st : manager) : manager :=
  if negb ok then st
  else
    {| conversations :=
         updateFirst cid
           (fun c =>
              {| id := id c;
                 title :=
                   if str_eqb (title c) default_title && (0 <? length history)
                   then match find isUser history with
                        | Some firstUserMsg => generateTitle (text firstUserMsg)
                        | None => title c
                        end
                   else title c;
                 created_at := created_at c;
                 updated_at := now;
                 message_count := length history;
                 conversation_id := conversation_id c |})
           (conversations st);
       activeId := activeId st;
       histories := (cid, history) :: removeHistory cid (histories st) |}.

(** [clearAll()] *)
Definition clearAll (fr : fresh) (st : manager) : manager :=
  let cleared :=
    fold_left (fun h c => removeHistory (id c) h) (conversations st)
              (histories st) in
  let '(newConv, st1) :=
    createConversation default_title fr
      {| conversations := []; activeId := activeId st; histories := cleared |} in
  {| conversations := conversations st1;
     activeId := Some (id newConv);
     histories := histories st1 |}.

(** [new ConversationsManager()]: [loaded] is what [loadConversations]
    returns, [stored] the identifier kept under the key of the active
    conversation, [h] the histories in [localStorage]. *)
Definition construct (loaded : list conversation) (stored : option str)
           (h : list (str * list message)) (fr : fresh) : manager :=
  let st := {| conversations := loaded; activeId := stored; histories := h |} in
  let st :=
    match loaded with
    | [] =>
      let '(defaultConv, st1) := createConversation default_title fr st in
      {| conversations := conversations st1;
         activeId := Some (id defaultConv);
         histories := histories st1 |}
    | _ :: _ => st
    end in
  let known :=
    match activeId st with
    | Some a =>
      truthy a && match getById a st with
                  | Some _ => true
                  | None => false
                  end
    | None => false
    end in
  if known then st
  else {| conversations := conversations st;
          activeId := firstId (conversations st);
          histories := histories st |}.

(** ** The history of the active conversation (app.js) *)

Definition HISTORY_LIMIT : nat := 500.

(** [loadHistory()] of [app.js] *)
Definition loadActiveHistory (st : manager) : list message :=
  match getActive st with
  | Some activeConv => loadHistory (id activeConv) st
  | None => []
  end.

(** [saveHistory(arr)] of [app.js] *)
Definition saveActiveHistory (arr : list message) (now : nat) (ok : bool)
           (st : manager) : manager :=
  match getActive st with
  | Some activeConv => saveHistory (id activeConv) arr now ok st
  | None => st
  end.

(** [saveMessageToHistory(msg)]: [arr.splice(0, n)] takes the first [n]
    messages away. *)
Definition saveMessageToHistory (msg : message) (now : nat) (ok : bool)
           (st : manager) : manager :=
  let arr := loadActiveHistory st ++ [msg] in
  let arr := if HISTORY_LIMIT <? length arr
             then skipn (length arr - HISTORY_LIMIT) arr else arr in
  saveActiveHistory arr now ok st.

(** ** The calls that change the manager *)

Inductive call : Type :=
| Create (ttl : str) (fr : fresh)
| Delete (cid : str) (fr : fresh)
| Activate (cid : str)
| Rename (cid newTitle : str)
| SetApiId (localId apiId : str)
| SaveHistory (cid : str) (history : list message) (now : nat) (ok : bool)
| SaveMessage (msg : message) (now : nat) (ok : bool)
| ClearAll (fr : fresh).

Definition perform (st : manager) (k : call) : manager :=
  match k with
  | Create ttl fr => snd (createConversation ttl fr st)
  | Delete cid fr => snd (deleteConversation cid fr st)
  | Activate cid => snd (setActive cid st)
  | Rename cid newTitle => snd (renameConversation cid newTitle st)
  | SetApiId localId apiId => updateApiConversationId localId apiId st
  | SaveHistory cid history now ok => saveHistory cid history now ok st
  | SaveMessage msg now ok => saveMessageToHistory msg now ok st
  | ClearAll fr => clearAll fr st
  end.

(** The conversations read from [localStorage] have identifiers that
    are not empty. *)
Definition ids_ok (l : list conversation) : bool :=
  forallb (fun c => truthy (id c)) l.

(** A manager in which the identifiers are not empty and the active
    identifier names a conversation of the list. *)
Definition well_formed (st : manager) : Prop :=
  ids_ok (conversations st) = true /\ exists c, getActive st = Some c.

(** A conversation with one message, for the examples. *)
Definition example_conversation : conversation :=
  {| id := u "conv_1_a"; title := default_title;
     created_at := 1; updated_at := 1; message_count := 1;
     conversation_id := None |}.

Definition example_message : message := {| role := u "user"; text := u "hi" |}.

Definition example_manager : manager :=
  {| conversations := [example_conversation];
     activeId := Some (u "conv_1_a");
     histories := [(u "conv_1_a", [example_message])] |}.

Definition example_fresh : fresh :=
  {| id_now := 2; id_rnd := u "b"; created_now := 2; updated_now := 2 |}.

End Conversations.

(* ================================================================== *)
(** * The foldable blocks of a module (code-folding.js)

    [parseProceduresAndFunctions] and the functions it calls, as
    functions of the text of the code element. *)
(* ================================================================== *)

Module Folding.

(** [[A-Za-zА-Яа-яЁё_]] and [[A-Za-zА-Яа-яЁё0-9_]] *)
Definition r_identStart : ranges :=
  [(65, 90); (97, 122); (1040, 1071); (1072, 1103); (1025, 1025);
   (1105, 1105); (95, 95)]%N.
Definition r_identChar : ranges :=
  [(65, 90); (97, 122); (1040, 1071); (1072, 1103); (1025, 1025);
   (1105, 1105); (48, 57); (95, 95)]%N.

(** [/^\s*(ru|en)\s+(NAME)/i], with [NAME] for an identifier *)
Definition re_start (ru en : string) : regex :=
  seqs [RBol; star (set r_space); RGroup 1 (RAlt (lit (u ru)) (lit (u en)));
        plus (set r_space);
        RGroup 2 (seqs [set r_identStart; star (set r_identChar)])].

(** [/^\s*(ru|en)\s*$/i] *)
Definition re_end (ru en : string) : regex :=
  seqs [RBol; star (set r_space); RGroup 1 (RAlt (lit (u ru)) (lit (u en)));
        star (set r_space); REol].

Definition procedureStartRegex : regex := re_start "Процедура" "Procedure".
Definition functionStartRegex : regex := re_start "Функция" "Function".
Definition procedureEndRegex : regex := re_end "КонецПроцедуры" "EndProcedure".
Definition functionEndRegex : regex := re_end "КонецФункции" "EndFunction".

(** [/^\s*\/\//] *)
Definition commentRegex : regex := seqs [RBol; star (set r_space); lit (u "//")].

(** [/^\s*&\w+/] *)
Definition directiveRegex : regex :=
  seqs [RBol; star (set r_space); c "&"; plus (set r_word)].

(** [/Экспорт|Export/i] *)
Definition exportRegex : regex := RAlt (lit (u "Экспорт")) (lit (u "Export")).

(** [lines[i]], for [i] below the number of lines. *)
Definition lineAt (lines : list str) (i : nat) : str := nth i lines [].

(** ** extractSignature *)

(** [while (directiveStartLine >= 0 && directiveRegex.test(...))], with
    [k1] for [directiveStartLine + 1]; [unshift] puts a line in front. *)
Fixpoint directivesAbove (lines : list str) (k1 : nat) (directives : list str)
  : list str :=
  match k1 with
  | O => directives
  | S k =>
    if test f_none directiveRegex (lineAt lines k)
    then directivesAbove lines k (trim (lineAt lines k) :: directives)
    else directives
  end.

(** Whether a line completes the declaration. *)
Definition declarationComplete (line : str) (atStart : bool) : bool :=
  let trimmedLine := trim line in
  if test f_i exportRegex trimmedLine then true
  else if includes (u ")") trimmedLine then
    let afterParen :=
      trim (skipn (match indexOf trimmedLine (u ")") 0 with
                   | Some p => p + 1
                   | None => 0
                   end) trimmedLine) in
    if negb (truthy afterParen) || negb (test f_i exportRegex afterParen)
    then true
    else if test f_i exportRegex afterParen then true else false
  else if atStart && negb (includes (u "(") trimmedLine) then true
  else false.

(** The lines of the declaration: the loop stops at the end of the
    lines, at a line that completes the declaration, and after 21 lines. *)
Fixpoint declaration (fuel : nat) (lines : list str) (startLine currentLine : nat)
         (declarationLines : list str) : list str :=
  match fuel with
  | O => declarationLines
  | S fuel' =>
    match nth_error lines currentLine with
    | None => declarationLines
    | Some line =>
      let declarationLines := declarationLines ++ [line] in
      if 20 <? length declarationLines then declarationLines
      else if declarationComplete line (currentLine =? startLine)
           then declarationLines
           else declaration fuel' lines startLine (S currentLine)
                            declarationLines
    end
  end.

Definition extractSignature (lines : list str) (startLine : nat) : str :=
  if length lines <=? startLine then []
  else
    let directives := directivesAbove lines startLine [] in
    let signature :=
      match directives with
      | [] => []
      | _ :: _ => join (u " ") directives ++ u " "
      end in
    signature ++ trim (join (u " ") (declaration 21 lines startLine startLine [])).

(** ** parseProceduresAndFunctions *)

Inductive kind : Type := procedure | function.

Record block : Type :=
  { type : kind; startLine : nat; endLine : nat; signature : str }.

(** [currentBlock]: the block that is open, its [endLine] still [null]. *)
Definition current : Type := option (kind * nat * str).

Definition isOpen (cur : current) : bool :=
  match cur with
  | Some _ => true
  | None => false
  end.

(** One turn of the loop over the lines. *)
Definition parseLine (lines : list str) (i : nat) (st : current * list block)
  : current * list block :=
  let '(currentBlock, blocks) := st in
  let line := lineAt lines i in
  let trimmedLine := trim line in
  if test f_i procedureStartRegex line && negb (isOpen currentBlock) then
    (Some (procedure, i, extractSignature lines i), blocks)
  else if test f_i functionStartRegex line && negb (isOpen currentBlock) then
    (Some (function, i, extractSignature lines i), blocks)
  else
    match currentBlock with
    | Some (procedure, s, sig) =>
      if test f_i procedureEndRegex trimmedLine
      then (None, blocks ++ [{| type := procedure; startLine := s;
                                endLine := i; signature := sig |}])
      else st
    | Some (function, s, sig) =>
      if test f_i functionEndRegex trimmedLine
      then (None, blocks ++ [{| type := function; startLine := s;
                                endLine := i; signature := sig |}])
      else st
    | None => st
    end.

(** [for (let i = 0; i < lines.length; i++)], with [n] lines left. *)
Fixpoint parseLines (lines : list str) (n i : nat) (st : current * list block)
  : current * list block :=
  match n with
  | O => st
  | S n' => parseLines lines n' (S i) (parseLine lines i st)
  end.

(** The blocks that are closed at the end of the loop. *)
Definition closedBlocks (lines : list str) : list block :=
  snd (parseLines lines (length lines) 0 (None, [])).

(** The filter of [validBlocks]. *)
Definition isValid (b : block) : bool :=
  negb ((endLine b =? 0) || (endLine b <=? startLine b))
  && truthy (signature b).

(** ** parseCommentBlocks *)

Record commentBlock : Type :=
  { commentStartLine : nat;
    commentEndLine : nat;
    relatedProcedureLine : nat;
    firstLineContent : str }.

(** [while (commentEndLine >= 0 && lines[commentEndLine].trim() === '')],
    with [k1] for [commentEndLine + 1]. *)
Fixpoint skipBlank (lines : list str) (k1 : nat) : nat :=
  match k1 with
  | O => O
  | S k => if truthy (trim (lineAt lines k)) then k1 else skipBlank lines k
  end.

(** [while (commentStartLine > 0)]: up over the comment lines. *)
Fixpoint commentTop (lines : list str) (s : nat) : nat :=
  match s with
  | O => O
  | S p => if test f_none commentRegex (lineAt lines p)
           then commentTop lines p else s
  end.

(** The comment block above one block, if there is one. *)
Definition commentAbove (lines : list str) (procBlock : block)
  : option commentBlock :=
  let procStartLine := startLine procBlock in
  if procStartLine =? 0 then None
  else
    match skipBlank lines procStartLine with
    | O => None
    | S e =>
      if negb (test f_none commentRegex (lineAt lines e)) then None
      else
        let s := commentTop lines e in
        if s <=? e then
          if s <? e then
            Some {| commentStartLine := s;
                    commentEndLine := e;
                    relatedProcedureLine := procStartLine;
                    firstLineContent := trim (lineAt lines s) |}
          else None
        else None
    end.

Definition parseCommentBlocks (lines : list str) (procedureBlocks : list block)
  : list commentBlock :=
  flat_map (fun b => match commentAbove lines b with
                     | Some c => [c]
                     | None => []
                     end) procedureBlocks.

(** An element of [foldableBlocks]. *)
Inductive foldable : Type :=
| Comment (c : commentBlock)
| Code (b : block).

(** [b.startLine] *)
Definition startOf (f : foldable) : nat :=
  match f with
  | Comment c => commentStartLine c
  | Code b => startLine b
  end.

Definition validBlocks (lines : list str) : list block :=
  filter isValid (closedBlocks lines).

(** [parseProceduresAndFunctions()] on a code element with the text
    [textContent]. *)
Definition parseProceduresAndFunctions (textContent : str) : list foldable :=
  if negb (truthy textContent) then []
  else
    let lines := split_char c_nl textContent in
    let validBlocks := validBlocks lines in
    let commentBlocks := parseCommentBlocks lines validBlocks in
    map Comment commentBlocks ++ map Code validBlocks.

(** ** Notions used to state the properties *)

(** The procedures and functions among the foldable blocks. *)
Definition codeBlocks (l : list foldable) : list block :=
  flat_map (fun f => match f with Code b => [b] | Comment _ => [] end) l.

(** The blocks follow one another from line [lo] on: each begins after
    the end of the one before it and ends after its own beginning. *)
Fixpoint ordered (lo : nat) (bs : list block) : bool :=
  match bs with
  | [] => true
  | b :: rest =>
    (lo <=? startLine b) && (startLine b <? endLine b)
    && ordered (S (endLine b)) rest
  end.

Definition isCommentLine (lines : list str) (k : nat) : bool :=
  test f_none commentRegex (lineAt lines k).

Definition isBlankLine (lines : list str) (k : nat) : bool :=
  negb (truthy (trim (lineAt lines k))).

Definition startRegex (k : kind) : regex :=
  match k with
  | procedure => procedureStartRegex
  | function => functionStartRegex
  end.

Definition endRegex (k : kind) : regex :=
  match k with
  | procedure => procedureEndRegex
  | function => functionEndRegex
  end.

(** The first and the last line of a block match the patterns of its
    type. *)
Definition delimited (lines : list str) (b : block) : bool :=
  test f_i (startRegex (type b)) (lineAt lines (startLine b))
  && test f_i (endRegex (type b)) (trim (lineAt lines (endLine b))).

(** What holds of the state of the loop before the turn of line [i]. *)
Definition parsed (lines : list str) (i : nat) (st : current * list block)
  : Prop :=
  ordered 0 (snd st) = true
  /\ (forall b, In b (snd st) ->
                endLine b < i /\ delimited lines b = true
                /\ signature b = extractSignature lines (startLine b))
  /\ match fst st with
     | Some (k, s, sig) =>
       s < i /\ (forall b, In b (snd st) -> endLine b < s)
       /\ sig = extractSignature lines s
       /\ test f_i (startRegex k) (lineAt lines s) = true
     | None => True
     end.

(** The shape of a comment block above the block that begins at line
    [p]: two lines or more, all of them comments, the line above them no
    comment, and blank lines only between the block and line [p]. *)
Definition commentShape (lines : list str) (p : nat) (c : commentBlock) : Prop :=
  relatedProcedureLine c = p
  /\ commentStartLine c < commentEndLine c
  /\ commentEndLine c < p
  /\ (forall k, commentStartLine c <= k <= commentEndLine c ->
                isCommentLine lines k = true)
  /\ (forall k, commentEndLine c < k < p -> isBlankLine lines k = true)
  /\ (forall k, commentStartLine c = S k -> isCommentLine lines k = false)
  /\ firstLineContent c = trim (lineAt lines (commentStartLine c)).

(** A sample module: a comment of two lines, a procedure, a function. *)
Definition sample : str :=
  u "// Считает сумму" ++ [c_nl] ++ u "// двух чисел" ++ [c_nl]
  ++ u "Процедура Сумма(А, Б) Экспорт" ++ [c_nl] ++ u "  В = А + Б;" ++ [c_nl]
  ++ u "КонецПроцедуры" ++ [c_nl] ++ [c_nl]
  ++ u "Function F()" ++ [c_nl] ++ u "  Return 1;" ++ [c_nl]
  ++ u "EndFunction".

End Folding.

(* ================================================================== *)
(** * The search in the messages (app.js)

    [highlightInHTML] walks the nodes of a message; on a text node it
    cuts the text at the occurrences of the query, upper and lower case
    taken as equal, and puts each occurrence into a [span] of class
    [highlight]. *)
(* ================================================================== *)

Module Search.

(** A node of the fragment that replaces the text node. *)
Inductive piece : Type :=
| TextNode (s : str)    (* [document.createTextNode(s)] *)
| Mark (s : str).       (* the [span] of class [highlight], with its text *)

Definition pieceText (p : piece) : str :=
  match p with
  | TextNode s => s
  | Mark s => s
  end.

(** [while (index !== -1)]; [None] for [index] is [-1]. The result is the
    fragment and [lastIndex], or [None] when [fuel] turns are not
    enough. *)
Fixpoint markLoop (fuel : nat) (text lowerText lowerQuery : str)
         (queryLength : nat) (fragment : list piece) (lastIndex : nat)
         (index : option nat) : option (list piece * nat) :=
  match fuel with
  | O => None
  | S fuel' =>
    match index with
    | None => Some (fragment, lastIndex)
    | Some i =>
      let fragment :=
        if lastIndex <? i
        then fragment ++ [TextNode (slice text lastIndex i)] else fragment in
      let fragment := fragment ++ [Mark (slice text i (i + queryLength))] in
      let lastIndex := i + queryLength in
      markLoop fuel' text lowerText lowerQuery queryLength fragment lastIndex
               (indexOf lowerText lowerQuery lastIndex)
    end
  end.

(** The text node branch of [processNode]: [Some None] when the node is
    left as it is, [Some (Some fragment)] when the fragment replaces
    it. *)
Definition markText (fuel : nat) (text query : str)
  : option (option (list piece)) :=
  let lowerText := toLowerCase text in
  let lowerQuery := toLowerCase query in
  if includes lowerQuery lowerText then
    match markLoop fuel text lowerText lowerQuery (length query) [] 0
                   (indexOf lowerText lowerQuery 0) with
    | Some (fragment, lastIndex) =>
      Some (Some (if lastIndex <? length text
                  then fragment ++ [TextNode (skipn lastIndex text)]
                  else fragment))
    | None => None
    end
  else Some None.

(** ** Notions used to state the properties *)

(** The code units on which [toLowerCase] of the engine is the one
    modelled here, one code unit for one: ASCII and the basic Cyrillic
    block. *)
Definition caseModelled (x : char) : bool :=
  (x <? 128)%N || in_range 1024 1119 x.

(** A piece of a fragment for the query: a marked piece is the query,
    upper and lower case taken as equal; a text between the marks is not
    empty and holds no occurrence of the query. *)
Definition piece_ok (query : str) (p : piece) : Prop :=
  match p with
  | Mark m => toLowerCase m = toLowerCase query
  | TextNode t =>
    t <> [] /\ includes (toLowerCase query) (toLowerCase t) = false
  end.

End Search.
(* ================================================================== *)
(** * Properties *)
(* ================================================================== *)

Unset Implicit Arguments.

(** ** Lists and slices *)

Lemma ceqb_eq (a b : char) : ceqb a b = true <-> a = b.
Proof. apply N.eqb_eq. Qed.

Lemma ceqb_refl (a : char) : ceqb a a = true.
Proof. apply N.eqb_refl. Qed.

Lemma str_eqb_eq (a b : str) : str_eqb a b = true <-> a = b.
Proof.
  revert b; induction a as [|x a IH]; intros [|y b]; simpl; split;
    try congruence; try reflexivity.
  - intros H; apply andb_true_iff in H as [H1 H2].
    apply ceqb_eq in H1; apply IH in H2; congruence.
  - intros H; inversion H; subst. rewrite ceqb_refl; simpl. now apply IH.
Qed.

Lemma idx_lt (s : str) (i : nat) (x : char) : idx s i = Some x -> i < length s.
Proof. intros H; apply nth_error_Some; unfold idx in H; congruence. Qed.

Lemma idx_none (s : str) (i : nat) : idx s i = None <-> length s <= i.
Proof. apply nth_error_None. Qed.

Lemma idx_is_lt (s : str) (i : nat) (x : char) : idx_is s i x = true -> i < length s.
Proof.
  unfold idx_is, opt_ceqb; destruct (idx s i) eqn:E; try discriminate.
  intros _; eapply idx_lt; eauto.
Qed.

Lemma slice_nil (s : str) (i : nat) : slice s i i = [].
Proof. unfold slice; now rewrite Nat.sub_diag. Qed.

Lemma slice_app (s : str) (i j k : nat) :
  i <= j -> j <= k -> slice s i j ++ slice s j k = slice s i k.
Proof.
  intros Hij Hjk; unfold slice.
  replace (k - i) with ((j - i) + (k - j)) by lia.
  rewrite <- (firstn_skipn (j - i) (firstn (j - i + (k - j)) (skipn i s))).
  f_equal.
  - rewrite firstn_firstn. f_equal; lia.
  - rewrite skipn_firstn_comm, skipn_skipn.
    f_equal; [lia | f_equal; lia].
Qed.

Lemma slice_0 (s : str) (j : nat) : slice s 0 j = firstn j s.
Proof. unfold slice; simpl; now rewrite Nat.sub_0_r. Qed.

Lemma slice_one (s : str) (i : nat) (x : char) :
  idx s i = Some x -> slice s i (S i) = [x].
Proof.
  unfold slice, idx; replace (S i - i) with 1 by lia.
  revert i; induction s as [|y s IH]; intros [|i]; simpl; try discriminate.
  - now intros [= ->].
  - apply IH.
Qed.

Lemma slice_all (s : str) : firstn (length s) s = s.
Proof. apply firstn_all. Qed.

Lemma span_len_le (p : char -> bool) (l : str) : span_len p l <= length l.
Proof. induction l as [|x l IH]; simpl; [lia|]. destruct (p x); simpl; lia. Qed.

Lemma scanWhile_bounds (p : char -> bool) (code : str) (j : nat) :
  j <= length code -> j <= scanWhile p code j <= length code.
Proof.
  intros H; unfold scanWhile.
  pose proof (span_len_le p (skipn j code)) as L.
  rewrite length_skipn in L. lia.
Qed.

Lemma spans_text_app (a b : list span) :
  spans_text (a ++ b) = spans_text a ++ spans_text b.
Proof. unfold spans_text; apply flat_map_app. Qed.

(** ** The BSL tokenizer covers its input and ends *)

Module BSLFacts.
Import BSL.

Lemma stringEnd_bounds_aux (quote : char) (n : nat) :
  forall (rest : str) (j : nat),
    length rest <= n -> j <= stringEnd quote rest j <= j + length rest.
Proof.
  induction n as [|n IH]; intros rest j Hn.
  - destruct rest; simpl in *; lia.
  - destruct rest as [|x [|y rest]]; simpl in *; try lia.
    + destruct (ceqb x quote); simpl; lia.
    + destruct (ceqb x quote).
      * destruct (ceqb y quote); [|lia].
        specialize (IH rest (j + 2) ltac:(lia)). lia.
      * specialize (IH (y :: rest) (j + 1) ltac:(simpl; lia)).
        simpl in IH. lia.
Qed.

Lemma stringEnd_bounds (quote : char) (rest : str) (j : nat) :
  j <= stringEnd quote rest j <= j + length rest.
Proof. eapply stringEnd_bounds_aux; eauto. Qed.

Lemma numberEnd_bounds (code : str) (i : nat) (x : char) :
  idx code i = Some x ->
  (isDigit x || (ceqb x (ch "-") && test_at isDigit code (i + 1))) = true ->
  i < numberEnd code i <= length code.
Proof.
  intros Hi Hstart. pose proof (idx_lt _ _ _ Hi) as Hlt.
  unfold numberEnd.
  (* after the sign *)
  set (j0 := if idx_is code i (ch "-") then i + 1 else i).
  assert (H0 : i <= j0 <= length code).
  { unfold j0; destruct (idx_is code i (ch "-")); lia. }
  set (j1 := scanWhile isDigit code j0).
  assert (H1 : j0 <= j1 <= length code) by (apply scanWhile_bounds; lia).
  assert (H1' : i < j1).
  { unfold j1, scanWhile. subst j0.
    destruct (idx_is code i (ch "-")) eqn:Ex; [lia|].
    unfold idx_is, opt_ceqb in Ex. rewrite Hi in Ex.
    rewrite Ex in Hstart. simpl in Hstart. rewrite orb_false_r in Hstart.
    assert (Hs : skipn i code = x :: skipn (S i) code).
    { clear - Hi. revert i Hi; induction code as [|y code IH]; intros [|i];
        simpl; try discriminate; [now intros [= ->] | apply IH]. }
    rewrite Hs; simpl. rewrite Hstart. lia. }
  set (j2 := if idx_is code j1 (ch ".") && test_at isDigit code (j1 + 1)
             then scanWhile isDigit code (j1 + 1) else j1).
  assert (H2 : j1 <= j2 <= length code).
  { unfold j2. destruct (idx_is code j1 (ch ".")) eqn:E; simpl; [|lia].
    apply idx_is_lt in E.
    destruct (test_at isDigit code (j1 + 1)); [|lia].
    pose proof (scanWhile_bounds isDigit code (j1 + 1) ltac:(lia)). lia. }
  destruct ((idx_is code j2 (ch "e") || idx_is code j2 (ch "E"))
            && test_at (fun c0 => isDigit c0 || ceqb c0 (ch "+") || ceqb c0 (ch "-"))
                       code (j2 + 1)) eqn:E; [|lia].
  apply andb_true_iff in E as [Ee Et].
  assert (Hj2 : j2 < length code).
  { apply orb_true_iff in Ee as [Ee|Ee]; eapply idx_is_lt; eauto. }
  assert (Hj3 : j2 + 1 < length code).
  { unfold test_at in Et. destruct (idx code (j2 + 1)) eqn:E3.
    - eapply idx_lt; eauto.
    - vm_compute in Et. discriminate. }
  set (j3 := if idx_is code (j2 + 1) (ch "+") || idx_is code (j2 + 1) (ch "-")
             then j2 + 1 + 1 else j2 + 1).
  assert (H3 : j2 + 1 <= j3 <= length code).
  { unfold j3.
    destruct (idx_is code (j2 + 1) (ch "+") || idx_is code (j2 + 1) (ch "-")); lia. }
  pose proof (scanWhile_bounds isDigit code j3 ltac:(lia)). lia.
Qed.

(** Every turn of the loop appends the slice it moves over. *)
Lemma step_slice (code : str) (i : nat) (x : char) :
  idx code i = Some x ->
  sp_text (fst (step code i x)) = slice code i (snd (step code i x))
  /\ i < snd (step code i x) <= length code.
Proof.
  intros Hi. pose proof (idx_lt _ _ _ Hi) as Hlt. unfold step.
  destruct (ceqb x c_dquote || ceqb x c_squote).
  { simpl. split; [reflexivity|].
    pose proof (stringEnd_bounds x (skipn (i + 1) code) (i + 1)) as B.
    rewrite length_skipn in B. lia. }
  destruct (ceqb x (ch "/") && idx_is code (i + 1) (ch "/")) eqn:Ec.
  { simpl. split; [reflexivity|].
    apply andb_true_iff in Ec as [_ Ec]. apply idx_is_lt in Ec.
    pose proof (scanWhile_bounds (fun x0 => negb (ceqb x0 c_nl)) code (i + 2)
                  ltac:(lia)). lia. }
  destruct (ceqb x (ch "#")).
  { simpl. split; [reflexivity|].
    pose proof (scanWhile_bounds isWordStart code (i + 1) ltac:(lia)). lia. }
  destruct (ceqb x (ch "&")).
  { simpl. split; [reflexivity|].
    pose proof (scanWhile_bounds isWordStart code (i + 1) ltac:(lia)). lia. }
  destruct (isNumberStart code i x) eqn:En.
  { simpl. split; [reflexivity|].
    unfold isNumberStart in En.
    apply andb_true_iff in En as [En _]. apply andb_true_iff in En as [En _].
    eapply numberEnd_bounds; eauto. }
  destruct (isWordStart x).
  { simpl. split; [reflexivity|].
    pose proof (scanWhile_bounds isWordChar code (i + 1) ltac:(lia)). lia. }
  destruct (isOperator x).
  { simpl. split; [reflexivity|].
    destruct ((ceqb x (ch "<") || ceqb x (ch ">")) && idx_is code (i + 1) (ch "=")) eqn:E1.
    - apply andb_true_iff in E1 as [_ E1]. apply idx_is_lt in E1. lia.
    - destruct (ceqb x (ch "<") && idx_is code (i + 1) (ch ">")) eqn:E2.
      + apply andb_true_iff in E2 as [_ E2]. apply idx_is_lt in E2. lia.
      + lia. }
  simpl. split; [|lia].
  replace (i + 1) with (S i) by lia. symmetry. now apply slice_one.
Qed.

(** What the loop has appended when it is at [i] is [code] up to [i]. *)
Lemma loop_covers (fuel : nat) (code : str) :
  forall (i : nat) (out l : list span),
    i <= length code ->
    spans_text out = firstn i code ->
    loop fuel code i out = Some l ->
    spans_text l = code.
Proof.
  induction fuel as [|fuel IH]; intros i out l Hi Hout; simpl; [discriminate|].
  destruct (idx code i) as [x|] eqn:E.
  - pose proof (step_slice code i x E) as [Ht Hj].
    destruct (step code i x) as [sp j] eqn:Es; simpl in *.
    apply IH; [lia|].
    rewrite spans_text_app, Hout. unfold spans_text at 1; simpl.
    rewrite app_nil_r, Ht, <- slice_0, slice_app, slice_0 by lia.
    reflexivity.
  - intros [= <-]. rewrite Hout. apply idx_none in E.
    apply firstn_all2; lia.
Qed.

Lemma loop_ends (fuel : nat) (code : str) :
  forall (i : nat) (out : list span),
    i <= length code -> length code - i < fuel ->
    exists l, loop fuel code i out = Some l.
Proof.
  induction fuel as [|fuel IH]; intros i out Hi Hf; [lia|]. simpl.
  destruct (idx code i) as [x|] eqn:E; [|eauto].
  pose proof (step_slice code i x E) as [_ Hj].
  destruct (step code i x) as [sp j]; simpl in *.
  apply IH; lia.
Qed.

Lemma tokenize_total (code : str) :
  exists l, tokenize (S (length code)) code = Some l.
Proof. apply loop_ends; lia. Qed.

Lemma spans_tokenize (code : str) :
  tokenize (S (length code)) code = Some (spans code).
Proof.
  unfold spans. destruct (tokenize_total code) as [l ->]. reflexivity.
Qed.

Lemma spans_cover (code : str) : spans_text (spans code) = code.
Proof.
  eapply loop_covers with (i := 0) (out := []); [lia|reflexivity|].
  apply spans_tokenize.
Qed.

(** More turns than needed change nothing. *)
Lemma loop_more (fuel : nat) (code : str) :
  forall (i : nat) (out l : list span) (fuel' : nat),
    loop fuel code i out = Some l -> fuel <= fuel' ->
    loop fuel' code i out = Some l.
Proof.
  induction fuel as [|fuel IH]; intros i out l fuel' H Hle; [discriminate|].
  destruct fuel' as [|fuel']; [lia|]. simpl in *.
  destruct (idx code i); [|assumption].
  destruct (step code i c0). apply IH; [assumption|lia].
Qed.

End BSLFacts.

(** ** A member-access name is a plain span *)

Module BSLClass.
Import BSL BSLFacts.

Lemma classify_after_dot (code : str) (i j : nat) :
  isAfterDot code i = true -> classify code i j = None.
Proof.
  intros H. unfold classify, prevWord. cbv zeta. rewrite H.
  change (negb true) with false.
  rewrite !andb_false_r, !andb_false_l. cbv iota.
  change (str_eqb [] s_new) with false.
  rewrite ?andb_false_r. reflexivity.
Qed.

Lemma step_after_dot (code : str) (i : nat) (x : char) :
  isAfterDot code i = true ->
  isVocabClass (sp_class (fst (step code i x))) = false.
Proof.
  intros H. unfold step.
  destruct (ceqb x c_dquote || ceqb x c_squote).
  { simpl. destruct (_ && _); reflexivity. }
  destruct (ceqb x (ch "/") && idx_is code (i + 1) (ch "/")); [reflexivity|].
  destruct (ceqb x (ch "#")); [reflexivity|].
  destruct (ceqb x (ch "&")); [reflexivity|].
  destruct (isNumberStart code i x); [reflexivity|].
  destruct (isWordStart x).
  { simpl. now rewrite classify_after_dot. }
  destruct (isOperator x); reflexivity.
Qed.

Lemma loop_extends (fuel : nat) (code : str) :
  forall (i : nat) (out l : list span),
    loop fuel code i out = Some l -> exists rest, l = out ++ rest.
Proof.
  induction fuel as [|fuel IH]; intros i out l; simpl; [discriminate|].
  destruct (idx code i) as [x|].
  - destruct (step code i x) as [sp j]. intros H.
    apply IH in H as [rest ->]. exists (sp :: rest).
    now rewrite <- app_assoc.
  - intros [= <-]. exists []. now rewrite app_nil_r.
Qed.

(** Every span the loop appends is the one [step] gives at the place
    where the text before it ends. *)
Lemma loop_emits (fuel : nat) (code : str) :
  forall (i : nat) (out l : list span),
    i <= length code ->
    spans_text out = firstn i code ->
    loop fuel code i out = Some l ->
    forall (pre post : list span) (sp : span),
      l = pre ++ sp :: post -> length out <= length pre ->
      exists x, idx code (length (spans_text pre)) = Some x
                /\ sp = fst (step code (length (spans_text pre)) x).
Proof.
  induction fuel as [|fuel IH]; intros i out l Hi Hout; simpl; [discriminate|].
  destruct (idx code i) as [x|] eqn:E.
  - pose proof (step_slice code i x E) as [Ht Hj].
    destruct (step code i x) as [sp0 j] eqn:Es; simpl in *.
    intros Hl pre post sp Hdec Hlen.
    assert (Hout' : spans_text (out ++ [sp0]) = firstn j code).
    { rewrite spans_text_app, Hout. unfold spans_text at 1; simpl.
      rewrite app_nil_r, Ht, <- slice_0, slice_app, slice_0 by lia.
      reflexivity. }
    destruct (Nat.eq_dec (length pre) (length out)) as [Heq|Hne].
    + destruct (loop_extends _ _ _ _ _ Hl) as [rest Hrest].
      rewrite Hrest, <- app_assoc in Hdec. simpl in Hdec.
      assert (Hpre : pre = out).
      { apply (f_equal (firstn (length out))) in Hdec.
        rewrite firstn_app, Nat.sub_diag, firstn_all in Hdec. simpl in Hdec.
        rewrite app_nil_r in Hdec.
        rewrite <- Heq, firstn_app, Nat.sub_diag, firstn_all in Hdec.
        simpl in Hdec. rewrite app_nil_r in Hdec. congruence. }
      subst pre. apply app_inv_head in Hdec. injection Hdec as <- _.
      rewrite Hout, length_firstn, Nat.min_l by lia.
      exists x. rewrite Es. auto.
    + eapply (IH j (out ++ [sp0]) l); eauto; [lia|].
      rewrite length_app; simpl; lia.
  - intros [= <-] pre post sp Hdec Hlen.
    apply (f_equal (@length span)) in Hdec.
    rewrite length_app in Hdec. simpl in Hdec. lia.
Qed.

Lemma last_dot_after (code t : str) (n : nat) :
  n <= length code ->
  firstn n code = t ++ [ch "."] -> isAfterDot code n = true.
Proof.
  intros Hn H. destruct n as [|k].
  - simpl in H. destruct t; discriminate.
  - simpl. unfold idx_is.
    assert (Hk : idx code k = Some (ch ".")).
    { assert (Hlen : length (firstn (S k) code) = S (length t)).
      { rewrite H, length_app; simpl; lia. }
      rewrite length_firstn in Hlen.
      assert (Hkt : k = length t) by lia.
      unfold idx. rewrite <- (firstn_skipn (S k) code), H.
      rewrite nth_error_app1 by (rewrite length_app; simpl; lia).
      rewrite nth_error_app2 by lia. rewrite Hkt, Nat.sub_diag. reflexivity. }
    rewrite Hk. reflexivity.
Qed.

End BSLClass.

(** ** The XML tokenizer does not end on a malformed tag interior *)

Module XMLFacts.
Import XML.

Lemma attrs_stuck (fuel : nat) (out : list span) :
  attrs fuel stuck_input 3 out = None.
Proof.
  revert out. induction fuel as [|fuel IH]; intros out; [reflexivity|].
  change (attrs (S fuel) stuck_input 3 out)
    with (attrs fuel stuck_input 3 (out ++ [])).
  apply IH.
Qed.

Lemma tag_stuck (fuel : nat) : tag fuel stuck_input 0 = None.
Proof.
  unfold tag.
  change (idx_is stuck_input (0 + 1) (ch "/")) with false. cbv iota.
  change (scanWhile isName stuck_input (0 + 1)) with 2.
  change (skipSpace stuck_input 2)
    with ([plain [ch " "]], 3).
  cbv iota beta. now rewrite attrs_stuck.
Qed.

Lemma step_stuck (fuel : nat) : step fuel stuck_input 0 (ch "<") = None.
Proof.
  unfold step.
  change (ceqb (ch "<") (ch "<")) with true.
  change (str_eqb (slice stuck_input 0 (0 + 4)) (u "<!--")) with false.
  change (str_eqb (slice stuck_input 0 (0 + 9)) (u "<![CDATA[")) with false.
  change (str_eqb (toUpperCase (slice stuck_input 0 (0 + 9))) (u "<!DOCTYPE"))
    with false.
  change (idx_is stuck_input (0 + 1) (ch "?")) with false.
  change (test_at isTagStart stuck_input (0 + 1)) with true.
  cbv iota beta. simpl andb. cbv iota. apply tag_stuck.
Qed.

Lemma tokenize_stuck (fuel : nat) : tokenize fuel stuck_input = None.
Proof.
  unfold tokenize. destruct fuel as [|n]; [reflexivity|].
  change (loop (S n) stuck_input 0 [] (S n))
    with (match step (S n) stuck_input 0 (ch "<") with
          | Some (sps, j) => loop (S n) stuck_input j ([] ++ sps) n
          | None => None
          end).
  now rewrite step_stuck.
Qed.

End XMLFacts.

(** ** The XML tokenizer covers its input whenever it returns *)

Module XMLCover.
Import XML.

Lemma starts_with_length (p s : str) :
  starts_with p s = true -> length p <= length s.
Proof.
  revert s; induction p as [|x p IH]; intros [|y s]; simpl; try lia;
    try discriminate.
  intros H; apply andb_true_iff in H as [_ H]. apply IH in H. lia.
Qed.

Lemma index_from_bounds (p rest : str) :
  forall (from k : nat),
    index_from p rest from = Some k ->
    from <= k /\ k + length p <= from + length rest.
Proof.
  induction rest as [|x rest IH]; intros from k; simpl.
  - destruct (starts_with p []) eqn:E; [|discriminate].
    intros [= <-]. apply starts_with_length in E. simpl in E. lia.
  - destruct (starts_with p (x :: rest)) eqn:E.
    + intros [= <-]. apply starts_with_length in E. simpl in E. lia.
    + intros H. apply IH in H. lia.
Qed.

Lemma closeAt_bounds (code term : str) (from : nat) :
  from <= length code ->
  from <= closeAt code term from <= length code.
Proof.
  intros H. unfold closeAt, indexOf.
  destruct (index_from term (skipn from code) from) as [k|] eqn:E; [|lia].
  apply index_from_bounds in E. rewrite length_skipn in E. lia.
Qed.

Lemma doctypeEnd_bounds (rest : str) :
  forall (depth j : nat), j <= doctypeEnd rest depth j <= j + length rest.
Proof.
  induction rest as [|x rest IH]; intros depth j; simpl; [lia|].
  destruct (depth =? 0); [lia|].
  destruct (ceqb x (ch "<")); [specialize (IH (S depth) (S j)); lia|].
  destruct (ceqb x (ch ">")); [specialize (IH (pred depth) (S j)); lia|].
  specialize (IH depth (S j)); lia.
Qed.

Lemma slice_length_le (s : str) (i j : nat) (n : nat) :
  length (slice s i j) = n -> 0 < n -> i + n <= length s.
Proof.
  unfold slice. rewrite length_firstn, length_skipn.
  destruct (Nat.min_spec (j - i) (length s - i)) as [[? ->]|[? ->]]; lia.
Qed.

Lemma str_eqb_length (a b : str) : str_eqb a b = true -> length a = length b.
Proof. intros H; apply str_eqb_eq in H; now subst. Qed.

Lemma spans_text_plain (l : str) :
  spans_text (map (fun x => plain [x]) l) = l.
Proof. induction l as [|x l IH]; simpl; [reflexivity|]. now rewrite IH. Qed.

Lemma spans_text_cons (sp : span) (l : list span) :
  spans_text (sp :: l) = sp_text sp ++ spans_text l.
Proof. reflexivity. Qed.

Lemma spans_text_tail (h t : span) (w a : list span) :
  spans_text (h :: w ++ a ++ [t]) = spans_text (h :: w ++ a) ++ sp_text t.
Proof.
  rewrite !spans_text_cons, !spans_text_app, <- !app_assoc.
  unfold spans_text at 3; simpl. now rewrite app_nil_r.
Qed.

Lemma idx_is_slice (code : str) (j : nat) (x : char) :
  idx_is code j x = true -> slice code j (j + 1) = [x].
Proof.
  unfold idx_is, opt_ceqb. destruct (idx code j) as [y|] eqn:E; [|discriminate].
  intros H; apply ceqb_eq in H; subst y.
  replace (j + 1) with (S j) by lia. now apply slice_one.
Qed.

Lemma skipSpace_spec (code : str) (j : nat) :
  j <= length code ->
  spans_text (fst (skipSpace code j)) = slice code j (snd (skipSpace code j))
  /\ j <= snd (skipSpace code j) <= length code.
Proof.
  intros H. unfold skipSpace; simpl. rewrite spans_text_plain.
  split; [reflexivity|]. now apply scanWhile_bounds.
Qed.

Lemma attrValue_spec (code : str) (j : nat) :
  j <= length code ->
  spans_text (fst (attrValue code j)) = slice code j (snd (attrValue code j))
  /\ j <= snd (attrValue code j) <= length code.
Proof.
  intros H. unfold attrValue.
  destruct (idx_is code j (ch "=")) eqn:Eq.
  2:{ simpl. rewrite slice_nil. split; [reflexivity|lia]. }
  pose proof (idx_is_lt _ _ _ Eq) as Hlt.
  pose proof (idx_is_slice _ _ _ Eq) as Hs.
  destruct (skipSpace_spec code (j + 1) ltac:(lia)) as [Hw Hb].
  destruct (skipSpace code (j + 1)) as [ws j2]; simpl in Hw, Hb.
  assert (Hplain : spans_text (plain (u "=") :: ws) = slice code j j2).
  { rewrite spans_text_cons, Hw. unfold plain. cbn [sp_text].
    change (u "=") with [ch "="]. rewrite <- Hs. apply slice_app; lia. }
  destruct (idx code j2) as [quote|] eqn:Eq2.
  2:{ simpl fst; simpl snd. split; [exact Hplain|lia]. }
  pose proof (idx_lt _ _ _ Eq2) as Hlt2.
  destruct (ceqb quote c_dquote || ceqb quote c_squote).
  2:{ simpl fst; simpl snd. split; [exact Hplain|lia]. }
  set (k := scanWhile (fun c0 => negb (ceqb c0 quote)) code (j2 + 1)).
  assert (Hk : j2 + 1 <= k <= length code) by (apply scanWhile_bounds; lia).
  set (k' := if k <? length code then k + 1 else k).
  assert (Hk' : k <= k' <= length code).
  { unfold k'. destruct (k <? length code) eqn:El; [|lia].
    apply Nat.ltb_lt in El. lia. }
  simpl fst; simpl snd. split; [|lia].
  change (plain (u "=") :: ws ++ [tok "tok-xml-val" (slice code j2 k')])
    with ((plain (u "=") :: ws) ++ [tok "tok-xml-val" (slice code j2 k')]).
  rewrite spans_text_app, Hplain. unfold spans_text at 1. simpl.
  rewrite app_nil_r. apply slice_app; lia.
Qed.

Lemma attrStep_spec (code : str) (j : nat) :
  j <= length code ->
  spans_text (fst (attrStep code j)) = slice code j (snd (attrStep code j))
  /\ j <= snd (attrStep code j) <= length code.
Proof.
  intros H. unfold attrStep.
  set (j1 := scanWhile isName code j).
  assert (H1 : j <= j1 <= length code) by (apply scanWhile_bounds; lia).
  destruct (skipSpace_spec code j1 ltac:(lia)) as [Hw1 Hb1].
  destruct (skipSpace code j1) as [ws1 j2]; simpl in Hw1, Hb1.
  destruct (attrValue_spec code j2 ltac:(lia)) as [Hv Hbv].
  destruct (attrValue code j2) as [val j3]; simpl in Hv, Hbv.
  destruct (skipSpace_spec code j3 ltac:(lia)) as [Hw2 Hb2].
  destruct (skipSpace code j3) as [ws2 j4]; simpl in Hw2, Hb2.
  simpl fst; simpl snd. split; [|lia].
  rewrite !spans_text_app, Hw1, Hv, Hw2.
  assert (Hn : spans_text (if j <? j1 then [tok "tok-xml-attr" (slice code j j1)]
                           else []) = slice code j j1).
  { destruct (j <? j1) eqn:E.
    - unfold spans_text; simpl. now rewrite app_nil_r.
    - apply Nat.ltb_ge in E. replace j1 with j by lia.
      now rewrite slice_nil. }
  rewrite Hn, !slice_app by lia. reflexivity.
Qed.

Lemma attrs_spec (fuel : nat) (code : str) :
  forall (j : nat) (out out' : list span) (j' : nat),
    j <= length code ->
    attrs fuel code j out = Some (out', j') ->
    exists o, out' = out ++ o /\ spans_text o = slice code j j'
              /\ j <= j' <= length code.
Proof.
  induction fuel as [|fuel IH]; intros j out out' j' Hj; simpl; [discriminate|].
  destruct (inAttrs code j).
  - destruct (attrStep_spec code j Hj) as [Ht Hb].
    destruct (attrStep code j) as [o j1]; simpl in Ht, Hb.
    intros H. apply IH in H as (o' & -> & Ht' & Hb'); [|lia].
    exists (o ++ o'). rewrite <- app_assoc. split; [reflexivity|].
    rewrite spans_text_app, Ht, Ht', slice_app by lia. split; [reflexivity|lia].
  - intros [= <- <-]. exists []. rewrite app_nil_r, slice_nil.
    repeat split; lia.
Qed.

Lemma tag_spec (fuel : nat) (code : str) (i : nat) (sps : list span) (j : nat) :
  idx code i = Some (ch "<") ->
  tag fuel code i = Some (sps, j) ->
  spans_text sps = slice code i j /\ i <= j <= length code.
Proof.
  intros Hi. pose proof (idx_lt _ _ _ Hi) as Hlt.
  pose proof (slice_one _ _ _ Hi) as Hone.
  unfold tag.
  set (j0 := if idx_is code (i + 1) (ch "/") then i + 1 + 1 else i + 1).
  assert (H0 : i + 1 <= j0 <= length code).
  { unfold j0. destruct (idx_is code (i + 1) (ch "/")) eqn:E; [|lia].
    apply idx_is_lt in E. lia. }
  set (j1 := scanWhile isName code j0).
  assert (H1 : j0 <= j1 <= length code) by (apply scanWhile_bounds; lia).
  assert (Hhead : u "<" ++ (if idx_is code (i + 1) (ch "/") then u "/" else [])
                  ++ slice code j0 j1 = slice code i j1).
  { change (u "<") with [ch "<"]. rewrite <- Hone.
    unfold j0 in *. destruct (idx_is code (i + 1) (ch "/")) eqn:E.
    - change (u "/") with [ch "/"].
      rewrite <- (idx_is_slice _ _ _ E).
      replace (S i) with (i + 1) by lia.
      rewrite !slice_app by lia. reflexivity.
    - simpl app at 2. replace (S i) with (i + 1) by lia.
      rewrite slice_app by lia. reflexivity. }
  set (head := tok "tok-xml-tag"
                  (u "<" ++ (if idx_is code (i + 1) (ch "/") then u "/" else [])
                   ++ slice code j0 j1)).
  assert (Hhd : sp_text head = slice code i j1) by exact Hhead.
  clearbody head.
  destruct (skipSpace_spec code j1 ltac:(lia)) as [Hw Hb].
  destruct (skipSpace code j1) as [ws j2]; simpl in Hw, Hb.
  assert (Hats : forall ats j3,
             (if idx_is code (i + 1) (ch "/") then Some ([], j2)
              else attrs fuel code j2 []) = Some (ats, j3) ->
             spans_text ats = slice code j2 j3 /\ j2 <= j3 <= length code).
  { intros ats j3. destruct (idx_is code (i + 1) (ch "/")).
    - intros [= <- <-]. rewrite slice_nil. split; [reflexivity|lia].
    - intros H. apply attrs_spec in H as (o & -> & Ht & Hb'); [|lia].
      simpl. auto. }
  destruct (if idx_is code (i + 1) (ch "/") then Some ([], j2)
            else attrs fuel code j2 []) as [[ats j3]|]; [|discriminate].
  destruct (Hats ats j3 eq_refl) as [Ha Hb3].
  assert (Hbody : spans_text (head :: ws ++ ats) = slice code i j3).
  { rewrite spans_text_cons, spans_text_app, Hw, Ha, Hhd, !slice_app by lia.
    reflexivity. }
  destruct (idx_is code j3 (ch "/") && idx_is code (j3 + 1) (ch ">")) eqn:Esc.
  { apply andb_true_iff in Esc as [E1 E2].
    pose proof (idx_is_lt _ _ _ E2).
    intros [= <- <-]. split; [|lia].
    rewrite spans_text_tail, Hbody. unfold tok; cbn [sp_text].
    change (u "/>") with ([ch "/"] ++ [ch ">"]).
    rewrite <- (idx_is_slice _ _ _ E1), <- (idx_is_slice _ _ _ E2).
    replace (j3 + 2) with (j3 + 1 + 1) by lia.
    rewrite !slice_app by lia. reflexivity. }
  destruct (idx_is code j3 (ch ">")) eqn:Egt.
  { pose proof (idx_is_lt _ _ _ Egt).
    intros [= <- <-]. split; [|lia].
    rewrite spans_text_tail, Hbody. unfold tok; cbn [sp_text].
    change (u ">") with [ch ">"].
    rewrite <- (idx_is_slice _ _ _ Egt).
    rewrite !slice_app by lia. reflexivity. }
  intros [= <- <-]. split; [exact Hbody|lia].
Qed.

Lemma entityEnd_bounds (code : str) (i j : nat) :
  entityEnd code i = Some j -> i < j <= length code.
Proof.
  unfold entityEnd.
  set (j' := if idx_is code (i + 1) (ch "#")
             then (if idx_is code (i + 1 + 1) (ch "x")
                      || idx_is code (i + 1 + 1) (ch "X")
                   then scanWhile isHex code (i + 1 + 1 + 1)
                   else scanWhile isDigit code (i + 1 + 1))
             else scanWhile isAlnum code (i + 1)).
  assert (H : i + 1 <= j').
  { unfold j', scanWhile.
    destruct (idx_is code (i + 1) (ch "#")); [|lia].
    destruct (_ || _); lia. }
  destruct (idx_is code j' (ch ";")) eqn:E; [|discriminate].
  apply idx_is_lt in E. intros [= <-]. lia.
Qed.

Lemma step_spec (fuel : nat) (code : str) (i : nat) (x : char)
      (sps : list span) (j : nat) :
  idx code i = Some x ->
  step fuel code i x = Some (sps, j) ->
  spans_text sps = slice code i j /\ i <= j <= length code.
Proof.
  intros Hi. pose proof (idx_lt _ _ _ Hi) as Hlt. unfold step.
  destruct (ceqb x (ch "<") && str_eqb (slice code i (i + 4)) (u "<!--")) eqn:E1.
  { apply andb_true_iff in E1 as [_ E1]. apply str_eqb_length in E1.
    apply slice_length_le in E1; [|simpl; lia].
    change (length (u "<!--")) with 4 in E1.
    pose proof (closeAt_bounds code (u "-->") (i + 4) E1).
    intros [= <- <-]. unfold spans_text; simpl. rewrite app_nil_r.
    split; [reflexivity|lia]. }
  destruct (ceqb x (ch "<") && str_eqb (slice code i (i + 9)) (u "<![CDATA["))
    eqn:E2.
  { apply andb_true_iff in E2 as [_ E2]. apply str_eqb_length in E2.
    apply slice_length_le in E2; [|simpl; lia].
    change (length (u "<![CDATA[")) with 9 in E2.
    pose proof (closeAt_bounds code (u "]]>") (i + 9) E2).
    intros [= <- <-]. unfold spans_text; simpl. rewrite app_nil_r.
    split; [reflexivity|lia]. }
  destruct (ceqb x (ch "<")
            && str_eqb (toUpperCase (slice code i (i + 9))) (u "<!DOCTYPE"))
    eqn:E3.
  { apply andb_true_iff in E3 as [_ E3]. apply str_eqb_length in E3.
    unfold toUpperCase in E3. rewrite length_map in E3.
    apply slice_length_le in E3; [|simpl; lia].
    change (length (u "<!DOCTYPE")) with 9 in E3.
    pose proof (doctypeEnd_bounds (skipn (i + 9) code) 1 (i + 9)) as B.
    rewrite length_skipn in B.
    intros [= <- <-]. unfold spans_text; simpl. rewrite app_nil_r.
    split; [reflexivity|lia]. }
  destruct (ceqb x (ch "<") && idx_is code (i + 1) (ch "?")) eqn:E4.
  { apply andb_true_iff in E4 as [_ E4]. apply idx_is_lt in E4.
    pose proof (closeAt_bounds code (u "?>") (i + 2) ltac:(lia)).
    intros [= <- <-]. unfold spans_text; simpl. rewrite app_nil_r.
    split; [reflexivity|lia]. }
  destruct (ceqb x (ch "<") && test_at isTagStart code (i + 1)) eqn:E5.
  { apply andb_true_iff in E5 as [E5 _]. apply ceqb_eq in E5. subst x.
    now apply tag_spec. }
  destruct (if ceqb x (ch "&") then entityEnd code i else None) as [j'|] eqn:E6.
  { destruct (ceqb x (ch "&")); [|discriminate].
    apply entityEnd_bounds in E6.
    intros [= <- <-]. unfold spans_text; simpl. rewrite app_nil_r.
    split; [reflexivity|lia]. }
  intros [= <- <-]. unfold spans_text; simpl.
  replace (i + 1) with (S i) by lia. rewrite (slice_one _ _ _ Hi).
  split; [reflexivity|lia].
Qed.

Lemma xml_loop_covers (fuel : nat) (code : str) (n : nat) :
  forall (i : nat) (out l : list span),
    i <= length code ->
    spans_text out = firstn i code ->
    loop fuel code i out n = Some l ->
    spans_text l = code.
Proof.
  induction n as [|n IH]; intros i out l Hi Hout; simpl; [discriminate|].
  destruct (idx code i) as [x|] eqn:E.
  - destruct (step fuel code i x) as [[sps j]|] eqn:Es; [|discriminate].
    destruct (step_spec _ _ _ _ _ _ E Es) as [Ht Hb].
    apply IH; [lia|].
    rewrite spans_text_app, Hout, Ht, <- slice_0, slice_app, slice_0 by lia.
    reflexivity.
  - intros [= <-]. rewrite Hout. apply idx_none in E.
    apply firstn_all2; lia.
Qed.

Lemma tokenize_covers (fuel : nat) (code : str) (l : list span) :
  tokenize fuel code = Some l -> spans_text l = code.
Proof.
  apply xml_loop_covers with (i := 0) (out := []); [lia|reflexivity].
Qed.

End XMLCover.

(** ** The forced language tag *)

Module LangFacts.
Import BSL.

Ltac split_ranges :=
  repeat match goal with
         | |- context [N.leb ?a ?b] =>
           destruct (N.leb_spec a b); simpl; try (exfalso; lia)
         | |- context [N.eqb ?a ?b] =>
           destruct (N.eqb_spec a b); simpl; try (exfalso; lia)
         end.

(** Under the [i] flag a small Latin letter of the pattern matches the
    code units that [toLowerCase] sends to it. *)
Lemma char_match_letter (x y : char) :
  (97 <= x <= 122)%N ->
  char_match f_i x y = true <-> toLower1 y = x.
Proof.
  intros Hx. unfold char_match; simpl icase. cbv iota.
  unfold ceqb. rewrite N.eqb_eq.
  unfold toUpper1, toLower1, in_range, ceqb.
  split_ranges; split; intros; lia.
Qed.

Lemma char_match_digit (x y : char) :
  (48 <= x <= 57)%N ->
  char_match f_i x y = true <-> toLower1 y = x.
Proof.
  intros Hx. unfold char_match; simpl icase. cbv iota.
  unfold ceqb. rewrite N.eqb_eq.
  unfold toUpper1, toLower1, in_range, ceqb.
  split_ranges; split; intros; lia.
Qed.

Lemma search_after_start (l : str) (fuel i : nat) :
  search f_i l re_lang fuel (S i) = None.
Proof.
  revert i. induction fuel as [|fuel IH]; intros i; [reflexivity|].
  simpl. apply IH.
Qed.

Lemma test_lang (l : str) :
  test f_i re_lang l
  = match match_at f_i l re_lang 0 with Some _ => true | None => false end.
Proof.
  unfold test, exec. rewrite Nat.sub_0_r. cbn [search].
  destruct (match_at f_i l re_lang 0) as [[j c0]|]; [reflexivity|].
  now rewrite search_after_start.
Qed.

Local Arguments char_match : simpl never.

Lemma lower_bsl (a b d : char) :
  toLowerCase [a; b; d] = u "bsl"
  <-> char_match f_i (ch "b") a = true /\ char_match f_i (ch "s") b = true
      /\ char_match f_i (ch "l") d = true.
Proof.
  rewrite !char_match_letter by (vm_compute; split; discriminate).
  change (u "bsl") with [ch "b"; ch "s"; ch "l"]. simpl.
  split; [intros [= -> -> ->]; auto | intros (-> & -> & ->); reflexivity].
Qed.

Lemma lower_1c (a b : char) :
  toLowerCase [a; b] = u "1c"
  <-> char_match f_i (ch "1") a = true /\ char_match f_i (ch "c") b = true.
Proof.
  rewrite char_match_digit by (vm_compute; split; discriminate).
  rewrite char_match_letter by (vm_compute; split; discriminate).
  change (u "1c") with [ch "1"; ch "c"]. simpl.
  split; [intros [= -> ->]; auto | intros (-> & ->); reflexivity].
Qed.

Ltac lang_cases :=
  repeat match goal with
         | |- context [ch ?a] =>
           let v := eval vm_compute in (ch a) in change (ch a) with v
         end;
  repeat match goal with
         | |- context [char_match f_i ?x ?y] => destruct (char_match f_i x y)
         end;
  cbn; intuition (auto; try discriminate).

Lemma test_lang_iff (l : str) :
  test f_i re_lang l = true
  <-> toLowerCase l = u "bsl" \/ toLowerCase l = u "1c".
Proof.
  rewrite test_lang.
  destruct l as [|a [|b [|d [|e l]]]].
  - vm_compute. intuition discriminate.
  - cbn. lang_cases.
  - rewrite lower_1c. cbn. lang_cases.
  - rewrite lower_bsl. cbn. lang_cases.
  - cbn. lang_cases.
Qed.

Lemma force_iff (lang : option str) : force lang = true <-> lang_is_bsl lang.
Proof.
  unfold force, lang_is_bsl. destruct lang as [l|].
  - rewrite andb_true_iff, test_lang_iff. split.
    + intros [_ H]. eauto.
    + intros (l' & [= <-] & H). split; [|exact H].
      destruct l; [destruct H; discriminate|reflexivity].
  - split; [discriminate|intros (l & H & _); discriminate].
Qed.

End LangFacts.

(* ================================================================== *)
(** * The tokenizers *)
(* ================================================================== *)

(** The BSL tokenizer returns for every input, within one turn of its loop
    per code unit, and its spans cover the input: their texts, put
    together, are the input. *)
Lemma bsl_spans_cover (code : str) :
  exists l, BSL.tokenize (S (length code)) code = Some l /\ spans_text l = code.
Proof.
  exists (BSL.spans code). split.
  - apply BSLFacts.spans_tokenize.
  - apply BSLFacts.spans_cover.
Qed.

(** The XML tokenizer covers the input whenever it returns. *)
Lemma xml_spans_cover (fuel : nat) (code : str) (l : list span) :
  XML.tokenize fuel code = Some l -> spans_text l = code.
Proof. apply XMLCover.tokenize_covers. Qed.

(** C2 (code defect). The spans of [highlightXML] do not cover the input
    [<a !>]: whatever the number of turns allowed, the scan of that input
    yields no list of spans. (For [highlightBSL] the coverage holds on
    every input, [bsl_spans_cover]; for [highlightXML] it holds on every
    input on which the scan returns, [xml_spans_cover].) *)
Theorem xml_spans_missing :
  forall fuel : nat, XML.tokenize fuel (u "<a !>") = None.
Proof. exact XMLFacts.tokenize_stuck. Qed.

(** C3 (code defect). [highlightXML] is not total: on the malformed tag
    interior [<a !>] the attribute loop makes no progress, so no number of
    turns lets the function return. *)
Theorem highlightXML_diverges :
  forall fuel : nat, XML.highlightXML fuel (u "<a !>") = None.
Proof.
  intros fuel. unfold XML.highlightXML.
  now rewrite XMLFacts.tokenize_stuck.
Qed.

(** C6. In the output of the BSL tokenizer, a span that comes right after
    a dot (the text of the spans before it ends with [.]) never has the
    keyword, type or builtin class. *)
Theorem member_access_is_plain (code : str) (pre post : list span) (sp : span)
        (t : str) :
  BSL.spans code = pre ++ sp :: post ->
  spans_text pre = t ++ [ch "."] ->
  BSL.isVocabClass (sp_class sp) = false.
Proof.
  intros Hdec Hdot.
  pose proof (BSLFacts.spans_tokenize code) as Htok.
  pose proof (BSLFacts.spans_cover code) as Hcov.
  destruct (BSLClass.loop_emits (S (length code)) code 0 [] (BSL.spans code)
              ltac:(lia) eq_refl Htok pre post sp Hdec ltac:(simpl; lia))
    as (x & Hx & ->).
  apply BSLClass.step_after_dot.
  apply BSLClass.last_dot_after with (t := t).
  - apply idx_lt in Hx. lia.
  - rewrite <- Hdot. rewrite Hdec, spans_text_app in Hcov.
    rewrite <- Hcov. rewrite firstn_app, Nat.sub_diag, firstn_all.
    simpl. now rewrite app_nil_r.
Qed.

(** The theorem at [Таблица.Количество()]: [Количество] is in the keyword
    vocabulary and comes after the dot. *)
Lemma member_access_is_plain_witness :
  let code := u "Таблица.Количество()" in
  BSL.spans code
  = [plain (u "Таблица"); plain (u ".")] ++ plain (u "Количество")
      :: [plain (u "("); plain (u ")")]
  /\ BSL.isVocabClass (sp_class (plain (u "Количество"))) = false.
Proof.
  split; [vm_compute; reflexivity|].
  apply (member_access_is_plain (u "Таблица.Количество()")
           [plain (u "Таблица"); plain (u ".")]
           [plain (u "("); plain (u ")")] (plain (u "Количество")) (u "Таблица"));
    vm_compute; reflexivity.
Defined.

(** Without the dot the same word is a keyword. *)
Lemma keyword_without_dot :
  BSL.spans (u "Количество()")
  = [tok "tok-k" (u "Количество"); plain (u "("); plain (u ")")].
Proof. vm_compute. reflexivity. Qed.

(** C7 (code defect). A text with the declaration keywords [Процедура] and
    [КонецПроцедуры] as standalone words scores 0, and [likelyBSL] is
    negative on it: [\b] is a boundary of Latin word characters only. *)
Theorem likelyBSL_misses_cyrillic :
  let text := u "Процедура Тест()
КонецПроцедуры" in
  BSL.score text = 0 /\ BSL.likelyBSL text = false.
Proof. vm_compute. auto. Qed.

(** The Latin spelling of the same keywords is found. *)
Lemma likelyBSL_latin :
  BSL.likelyBSL (u "Procedure Test()
EndProcedure") = true.
Proof. vm_compute. reflexivity. Qed.

(** C10. [BSL.highlight] returns [null] exactly when [lang] is not [bsl]
    or [1c] (letter case ignored) and [likelyBSL] is negative; with such a
    [lang] it returns the markup of the spans, for every [code]. *)
Theorem highlight_null_iff (code : str) (lang : option str) :
  (BSL.highlight code lang = None
   <-> ~ BSL.lang_is_bsl lang /\ BSL.likelyBSL code = false)
  /\ (BSL.lang_is_bsl lang ->
      exists l, BSL.tokenize (S (length code)) code = Some l
                /\ BSL.highlight code lang = Some (render_spans l)).
Proof.
  unfold BSL.highlight. rewrite <- LangFacts.force_iff.
  destruct (BSL.force lang), (BSL.likelyBSL code); simpl; split;
    try (split; [intros; discriminate | intros [H1 H2]; congruence]);
    try (split; [intros _; split; congruence | reflexivity]);
    try discriminate;
    intros _; exists (BSL.spans code);
    (split; [apply BSLFacts.spans_tokenize | reflexivity]).
Qed.

(** The theorem at the empty code with the tag [BSL]. *)
Lemma highlight_null_iff_witness :
  BSL.lang_is_bsl (Some (u "BSL"))
  /\ exists l, BSL.tokenize 1 [] = Some l
               /\ BSL.highlight [] (Some (u "BSL")) = Some (render_spans l).
Proof.
  assert (H : BSL.lang_is_bsl (Some (u "BSL"))).
  { exists (u "BSL"). split; [reflexivity|left; reflexivity]. }
  split; [exact H|].
  exact (proj2 (highlight_null_iff [] (Some (u "BSL"))) H).
Defined.

(* ================================================================== *)
(** * Diagram source *)
(* ================================================================== *)

(** C8. On the line [A[Массив(i)] --> B{x<=5}] the first stage puts the
    lookalikes of the parentheses inside the square node, the second
    stage the lookalike of [<=] inside the brace node; the outer brackets,
    the braces and the arrow stay. *)
Theorem diagram_scenario :
  let line := u "A[Массив(i)] --> B{x<=5}" in
  Markdown.fixMermaid line = u "A[Массив⦅i⦆] --> B{x<=5}"
  /\ App.sanitizeChain line = u "A[Массив⦅i⦆] --> B{x ≤ 5}".
Proof. vm_compute. auto. Qed.

(* ================================================================== *)
(** * Placeholders *)
(* ================================================================== *)

(** C5 (code defect). Restoration is not character for character: the
    stored markup is used as a replacement template, so [$$] in an inline
    code span comes back as one [$]. *)
Theorem restore_rewrites_dollar :
  let md := u "`a$$b`" in
  Markdown.inlineCodes (snd (Markdown.render_st md)) = [u "<code>a$$b</code>"]
  /\ Markdown.render md = u "<p><code>a$b</code></p>".
Proof. vm_compute. auto. Qed.

(** ** The markers of one call are pairwise distinct *)

Module MarkerFacts.
Import Markdown.

Lemma chars_of_uint_inj (d e : Decimal.uint) :
  chars_of_uint d = chars_of_uint e -> d = e.
Proof.
  revert e. induction d; intros e; destruct e; simpl; try discriminate;
    try reflexivity; intros [= H]; f_equal; auto.
Qed.

Lemma string_of_nat_inj (i j : nat) : string_of_nat i = string_of_nat j -> i = j.
Proof.
  intros H. apply chars_of_uint_inj in H.
  now apply DecimalNat.Unsigned.to_uint_inj.
Qed.

Lemma marker_inj (kind : string) (i j : nat) :
  marker kind i = marker kind j -> i = j.
Proof.
  unfold marker. intros H.
  apply app_inv_head in H. apply app_inv_head in H.
  apply app_inv_tail in H. now apply string_of_nat_inj.
Qed.

Lemma marker_mermaid_code (i j : nat) : marker "MERMAID" i <> marker "CODEBLOCK" j.
Proof. unfold marker. intros H. vm_compute in H. discriminate. Qed.

Lemma marker_mermaid_inline (i j : nat) :
  marker "MERMAID" i <> marker "INLINECODE" j.
Proof. unfold marker. intros H. vm_compute in H. discriminate. Qed.

Lemma marker_code_inline (i j : nat) :
  marker "CODEBLOCK" i <> marker "INLINECODE" j.
Proof. unfold marker. intros H. vm_compute in H. discriminate. Qed.

Lemma NoDup_snoc (A : Type) (l : list A) (x : A) :
  NoDup l -> ~ In x l -> NoDup (l ++ [x]).
Proof.
  intros Hl Hx. induction Hl as [|y l Hy Hl IH]; simpl.
  - constructor; [auto|constructor].
  - constructor.
    + rewrite in_app_iff. simpl. intros [H|[H|[]]]; [auto|].
      subst. apply Hx. now left.
    + apply IH. intros H. apply Hx. now right.
Qed.

Lemma empty_ok : minted_ok empty_store.
Proof. split; [constructor|intros m []]. Qed.

Lemma processMermaidBlock_ok (st : store) (code : str) :
  minted_ok st -> minted_ok (snd (processMermaidBlock st code)).
Proof.
  intros [Hnd Hin]. unfold processMermaidBlock; simpl. split; simpl.
  - apply NoDup_snoc; [assumption|]. intros H. apply Hin in H.
    destruct H as [(i & Hi & H)|[(i & Hi & H)|(i & Hi & H)]].
    + apply marker_inj in H. lia.
    + now apply marker_mermaid_code in H.
    + now apply marker_mermaid_inline in H.
  - intros m. rewrite in_app_iff, length_app. simpl.
    intros [H|[<-|[]]].
    + apply Hin in H.
      destruct H as [(i & Hi & H)|[H|H]]; [left; exists i; split; [lia|auto]|auto..].
    + left. exists (length (mermaidBlocks st)). split; [lia|reflexivity].
Qed.

Lemma pushCode_ok (st : store) (lang code : str) :
  minted_ok st -> minted_ok (snd (pushCode st lang code)).
Proof.
  intros [Hnd Hin]. unfold pushCode; simpl. split; simpl.
  - apply NoDup_snoc; [assumption|]. intros H. apply Hin in H.
    destruct H as [(i & Hi & H)|[(i & Hi & H)|(i & Hi & H)]].
    + symmetry in H. now apply marker_mermaid_code in H.
    + apply marker_inj in H. lia.
    + now apply marker_code_inline in H.
  - intros m. rewrite in_app_iff, length_app. simpl.
    intros [H|[<-|[]]].
    + apply Hin in H.
      destruct H as [H|[(i & Hi & H)|H]];
        [auto|right; left; exists i; split; [lia|auto]|auto].
    + right; left. exists (length (codeBlocks st)). split; [lia|reflexivity].
Qed.

Lemma pushInline_ok (st : store) (code : str) :
  minted_ok st -> minted_ok (snd (pushInline st code)).
Proof.
  intros [Hnd Hin]. unfold pushInline; simpl. split; simpl.
  - apply NoDup_snoc; [assumption|]. intros H. apply Hin in H.
    destruct H as [(i & Hi & H)|[(i & Hi & H)|(i & Hi & H)]].
    + symmetry in H. now apply marker_mermaid_inline in H.
    + symmetry in H. now apply marker_code_inline in H.
    + apply marker_inj in H. lia.
  - intros m. rewrite in_app_iff, length_app. simpl.
    intros [H|[<-|[]]].
    + apply Hin in H.
      destruct H as [H|[H|(i & Hi & H)]];
        [auto|auto|right; right; exists i; split; [lia|auto]].
    + right; right. exists (length (inlineCodes st)). split; [lia|reflexivity].
Qed.

(** A replacement function that keeps a property of the store keeps it
    over all the matches of a [replace]. *)
Lemma build_keeps (St : Type) (P : St -> Prop)
      (f : St -> rmatch_info -> str * St) (s : str) :
  (forall st mi, P st -> P (snd (f st mi))) ->
  forall (ms : list rmatch_info) (pos : nat) (st : St),
    P st -> P (snd (build f s pos ms st)).
Proof.
  intros Hf. induction ms as [|mi ms IH]; intros pos st Hst; simpl; [assumption|].
  specialize (Hf st mi Hst). destruct (f st mi) as [r st1]. simpl in Hf.
  specialize (IH (m_end mi) st1 Hf).
  destruct (build f s (m_end mi) ms st1) as [rest st2]. exact IH.
Qed.

Lemma replace_st_keeps (St : Type) (P : St -> Prop) (fl : flags) (r : regex)
      (f : St -> rmatch_info -> str * St) (s : str) (st : St) :
  (forall st mi, P st -> P (snd (f st mi))) ->
  P st -> P (snd (replace_st fl r f s st)).
Proof. intros Hf Hst. unfold replace_st. now apply build_keeps. Qed.

Lemma extract_ok (md : str) : minted_ok (snd (extract md)).
Proof.
  unfold extract.
  pose proof (replace_st_keeps store minted_ok f_none re_mermaid1
                (fun st m => processMermaidBlock st (trim (group_str m 1)))
                md empty_store
                (fun st mi => processMermaidBlock_ok st _) empty_ok) as H1.
  destruct (replace_st f_none re_mermaid1 _ md empty_store) as [md1 st1].
  simpl in H1.
  pose proof (replace_st_keeps store minted_ok f_none re_mermaid2
                (fun st m => processMermaidBlock st (trim (group_str m 1)))
                md1 st1
                (fun st mi => processMermaidBlock_ok st _) H1) as H2.
  destruct (replace_st f_none re_mermaid2 _ md1 st1) as [md2 st2].
  simpl in H2.
  pose proof (replace_st_keeps store minted_ok f_none re_fence
                (fun st m => pushCode st (group_str m 1) (group_str m 2))
                md2 st2
                (fun st mi => pushCode_ok st _ _) H2) as H3.
  destruct (replace_st f_none re_fence _ md2 st2) as [md3 st3].
  simpl in H3.
  apply replace_st_keeps; [|assumption].
  intros st mi. apply pushInline_ok.
Qed.

End MarkerFacts.

(** The markers minted by one call of [render] are pairwise distinct: a
    marker holds its kind and the length of the array of its kind at the
    time it is minted. *)
Theorem markers_distinct (md : str) : NoDup (Markdown.markers md).
Proof.
  unfold Markdown.markers, Markdown.render_st.
  destruct (negb (truthy md)); [constructor|].
  pose proof (MarkerFacts.extract_ok (Markdown.normalize md)) as [H _].
  destruct (Markdown.extract (Markdown.normalize md)) as [md' st].
  exact H.
Qed.

(** C4. The markers of a call are not kept apart from the input. The
    text below already holds the marker that the call mints for its inline
    code span; [render] puts the code span where the text of the user had
    the marker (the first occurrence, which the restoration replaces) and
    leaves the raw marker where the code span was. *)
Theorem restore_takes_input_marker :
  let md := u "§§INLINECODE0§§ `x`" in
  Markdown.normalize md = md
  /\ Markdown.markers md = [u "§§INLINECODE0§§"]
  /\ includes (u "§§INLINECODE0§§") md = true
  /\ Markdown.render md = u "<p><code>x</code> §§INLINECODE0§§</p>"
  /\ Markdown.render md <> u "<p>§§INLINECODE0§§ <code>x</code></p>".
Proof.
  vm_compute. repeat split; try reflexivity. discriminate.
Qed.

(* ================================================================== *)
(** * The matcher and [matches] *)
(* ================================================================== *)

Module Sem.

Section Sound.
Variable fl : flags.
Variable s : str.

Definition sound_body (body : nat -> caps -> kont -> mres) (R : step_rel) : Prop :=
  forall i c k res, body i c k = Some res ->
                    exists j c', R i c j c' /\ k j c' = Some res.

Lemma iter_app (R : step_rel) (n m : nat) :
  forall i c j c' l c'',
    iter n R i c j c' -> iter m R j c' l c'' -> iter (n + m) R i c l c''.
Proof.
  induction n as [|n IH]; intros i c j c' l c''; simpl.
  - intros [-> ->]. auto.
  - intros (p & c1 & H1 & H2) H3. exists p, c1. split; [assumption|].
    eapply IH; eauto.
Qed.

Lemma minRep_sound (body : nat -> caps -> kont -> mres) (R : step_rel) :
  sound_body body R ->
  forall min i c k res,
    minRep body min i c k = Some res ->
    exists j c', iter min R i c j c' /\ k j c' = Some res.
Proof.
  intros Hb. induction min as [|min IH]; intros i c k res; simpl.
  - intros H. exists i, c. auto.
  - intros H. apply Hb in H as (m & c1 & H1 & H2).
    apply IH in H2 as (j & c' & H2 & H3).
    exists j, c'. split; [|assumption]. exists m, c1. auto.
Qed.

Lemma loopRep_sound (body : nat -> caps -> kont -> mres) (R : step_rel)
      (greedy : bool) :
  sound_body body R ->
  forall fuel max i c k res,
    loopRep body greedy fuel max i c k = Some res ->
    exists n j c', iter n R i c j c' /\ k j c' = Some res.
Proof.
  intros Hb. induction fuel as [|fuel IH]; intros max i c k res; simpl.
  - intros H. exists 0, i, c. simpl. auto.
  - assert (Hstop : k i c = Some res ->
                    exists n j c', iter n R i c j c' /\ k j c' = Some res).
    { intros H. exists 0, i, c. simpl. auto. }
    assert (Hagain : forall max',
               body i c (fun j c' => if j <=? i then None
                                     else loopRep body greedy fuel max' j c' k)
               = Some res ->
               exists n j c', iter n R i c j c' /\ k j c' = Some res).
    { intros max' H. apply Hb in H as (m & c1 & H1 & H2).
      destruct (m <=? i); [discriminate|].
      apply IH in H2 as (n & j & c' & H2 & H3).
      exists (S n), j, c'. split; [|assumption]. exists m, c1. auto. }
    destruct max as [[|mx]|]; [exact Hstop| |].
    + destruct greedy.
      * destruct (body i c _) eqn:E.
        -- intros [= <-]. eapply Hagain; eauto.
        -- exact Hstop.
      * destruct (k i c) eqn:E.
        -- intros [= <-]. now apply Hstop.
        -- apply Hagain.
    + destruct greedy.
      * destruct (body i c _) eqn:E.
        -- intros [= <-]. eapply Hagain; eauto.
        -- exact Hstop.
      * destruct (k i c) eqn:E.
        -- intros [= <-]. now apply Hstop.
        -- apply Hagain.
Qed.

(** Every successful run of the matcher is a run of [matches]. *)
Lemma rmatch_sound (r : regex) : sound_body (rmatch fl s r) (matches fl s r).
Proof.
  induction r as [|x|neg rs| |a IHa b IHb|a IHa b IHb|g mn mx a IHa|n a IHa
                  | | | |neg a IHa|neg rs];
    intros i c k res; cbn [rmatch matches].
  - intros H. exists i, c. auto.
  - destruct (idx s i) as [y|] eqn:E; [|discriminate].
    destruct (char_match fl x y) eqn:Ec; [|discriminate].
    intros H. exists (S i), c. split; [|assumption]. exists y. auto.
  - destruct (idx s i) as [y|] eqn:E; [|discriminate].
    destruct (set_match fl neg rs y) eqn:Ec; [|discriminate].
    intros H. exists (S i), c. split; [|assumption]. exists y. auto.
  - destruct (idx s i) as [y|] eqn:E; [|discriminate].
    destruct (isLineTerminator y) eqn:Ec; [discriminate|].
    intros H. exists (S i), c. split; [|assumption]. exists y. auto.
  - intros H. apply IHa in H as (m & c1 & H1 & H2).
    apply IHb in H2 as (j & c' & H2 & H3).
    exists j, c'. split; [|assumption]. exists m, c1. auto.
  - destruct (rmatch fl s a i c k) eqn:E.
    + intros [= <-]. apply IHa in E as (j & c' & H1 & H2).
      exists j, c'. auto.
    + intros H. apply IHb in H as (j & c' & H1 & H2).
      exists j, c'. auto.
  - intros H.
    apply (minRep_sound _ _ IHa) in H as (m & c1 & H1 & H2).
    apply (loopRep_sound _ _ _ IHa) in H2 as (n & j & c' & H2 & H3).
    exists j, c'. split; [|assumption].
    exists (mn + n). split; [lia|]. eapply iter_app; eauto.
  - intros H. apply IHa in H as (j & c1 & H1 & H2).
    exists j, ((n, (i, j)) :: c1). split; [|assumption].
    exists c1. auto.
  - destruct (atBol fl s i) eqn:E; [|discriminate].
    intros H. exists i, c. auto.
  - destruct (atEol fl s i) eqn:E; [|discriminate].
    intros H. exists i, c. auto.
  - destruct (xorb _ _); [|discriminate].
    intros H. exists i, c. auto.
  - destruct (rmatch fl s a i c (fun j c' => Some (j, c'))) as [[m c1]|] eqn:E.
    + destruct neg; [discriminate|].
      intros H. exists i, c1. split; [|assumption]. split; [reflexivity|].
      apply IHa in E as (j & c' & H1 & [= -> ->]). eauto.
    + destruct neg; [|discriminate].
      intros H. exists i, c. auto.
  - destruct (behind fl s neg rs i) eqn:E; [|discriminate].
    intros H. exists i, c. auto.
Qed.

Lemma match_at_sound (r : regex) (i j : nat) (c' : caps) :
  match_at fl s r i = Some (j, c') -> matches fl s r i [] j c'.
Proof.
  unfold match_at. intros H.
  apply rmatch_sound in H as (j' & c1 & H1 & [= -> ->]). exact H1.
Qed.

(** A match lies inside the input. *)
Lemma iter_bounds (R : step_rel) :
  (forall i c j c', R i c j c' -> i <= j /\ (i <= length s -> j <= length s)) ->
  forall n i c j c',
    iter n R i c j c' -> i <= j /\ (i <= length s -> j <= length s).
Proof.
  intros HR. induction n as [|n IH]; intros i c j c'; simpl.
  - intros [-> _]. auto.
  - intros (m & c1 & H1 & H2). apply HR in H1. apply IH in H2. lia.
Qed.

Lemma matches_bounds (r : regex) :
  forall i c j c',
    matches fl s r i c j c' -> i <= j /\ (i <= length s -> j <= length s).
Proof.
  induction r as [|x|neg rs| |a IHa b IHb|a IHa b IHb|g mn mx a IHa|n a IHa
                  | | | |neg a IHa|neg rs];
    intros i c j c'; simpl;
    try (intros (y & Hy & _ & -> & _); apply idx_lt in Hy; lia);
    try (intros (_ & -> & _); lia);
    try (intros (-> & _); lia).
  - intros (m & c1 & H1 & H2). apply IHa in H1. apply IHb in H2. lia.
  - intros [H|H]; [now apply IHa in H|now apply IHb in H].
  - intros (n & _ & H). eapply iter_bounds; eauto.
  - intros (c1 & H & _). now apply IHa in H.
Qed.

(** No match anywhere: the scan finds nothing. *)
Lemma scan_none (r : regex) :
  (forall i, match_at fl s r i = None) ->
  forall fuel i, scan fl s r fuel i = [].
Proof.
  intros H. induction fuel as [|fuel IH]; intros i; simpl; [reflexivity|].
  destruct (length s <? i); [reflexivity|]. rewrite H. apply IH.
Qed.

Lemma search_none (r : regex) :
  (forall i, match_at fl s r i = None) ->
  forall fuel i, search fl s r fuel i = None.
Proof.
  intros H. induction fuel as [|fuel IH]; intros i; simpl; [reflexivity|].
  rewrite H. apply IH.
Qed.

End Sound.

(** A regular expression without a match in [s] leaves [s] as it is. *)
Section NoMatch.
Variable fl : flags.
Variable s : str.
Variable r : regex.
Hypothesis none : forall i j c', ~ matches fl s r i [] j c'.

Lemma match_at_none (i : nat) : match_at fl s r i = None.
Proof.
  destruct (match_at fl s r i) as [[j c']|] eqn:E; [|reflexivity].
  apply match_at_sound in E. now apply none in E.
Qed.

Lemma all_matches_none : all_matches fl r s = [].
Proof.
  unfold all_matches, scan_all. rewrite scan_none; [reflexivity|].
  apply match_at_none.
Qed.

Lemma replace_st_none (St : Type) (f : St -> rmatch_info -> str * St) (st : St) :
  replace_st fl r f s st = (s, st).
Proof. unfold replace_st. rewrite all_matches_none. reflexivity. Qed.

Lemma replace_fn_none (f : rmatch_info -> str) : replace_fn fl r f s = s.
Proof. unfold replace_fn. now rewrite replace_st_none. Qed.

Lemma replace_tpl_none (tpl : str) : replace_tpl fl r tpl s = s.
Proof. unfold replace_tpl. apply replace_fn_none. Qed.

Lemma test_none : test fl r s = false.
Proof.
  unfold test, exec. rewrite search_none; [reflexivity|]. apply match_at_none.
Qed.

Lemma split_loop_none (fuel p q : nat) :
  split_loop fl r s fuel p q = [skipn p s].
Proof.
  revert p q. induction fuel as [|fuel IH]; intros p q; simpl; [reflexivity|].
  destruct (length s <=? q); [reflexivity|].
  rewrite match_at_none. apply IH.
Qed.

End NoMatch.

Lemma split_re_none (fl : flags) (s : str) (r : regex) :
  (forall i j c', ~ matches fl s r i [] j c') ->
  s <> [] -> split_re fl r s = [s].
Proof.
  intros Hn Hs. unfold split_re.
  rewrite (split_loop_none fl s r Hn). destruct s; [congruence|reflexivity].
Qed.

(** ** Code units that a match must hold *)

Section Needs.
Variable s : str.
Variable ps : str.

Lemma iter_needs (R : step_rel) :
  (forall i c j c', R i c j c' ->
                    exists k y, idx s k = Some y /\ one_of ps y = true) ->
  forall n i c j c', 0 < n -> iter n R i c j c' ->
                     exists k y, idx s k = Some y /\ one_of ps y = true.
Proof.
  intros HR n i c j c' Hn. destruct n as [|n]; [lia|]. simpl.
  intros (m & c1 & H & _). eauto.
Qed.

Lemma set_singletons (rs : ranges) (y : char) :
  forallb (fun lh => ceqb (fst lh) (snd lh) && one_of ps (fst lh)) rs = true ->
  in_ranges rs y = true -> one_of ps y = true.
Proof.
  unfold in_ranges. induction rs as [|[lo hi] rs IH]; simpl; [discriminate|].
  intros H. apply andb_true_iff in H as [H1 H2].
  apply andb_true_iff in H1 as [He Hp]. apply ceqb_eq in He. subst hi.
  intros H. apply orb_true_iff in H as [H|H]; [|auto].
  unfold in_range in H. apply andb_true_iff in H as [Ha Hb].
  apply N.leb_le in Ha, Hb. assert (y = lo) by lia. now subst.
Qed.

Variable fl : flags.
Hypothesis no_icase : icase fl = false.

Lemma needs_sound (r : regex) :
  needs ps r = true ->
  forall i c j c',
    matches fl s r i c j c' ->
    exists k y, idx s k = Some y /\ one_of ps y = true.
Proof.
  induction r as [|x|neg rs| |a IHa b IHb|a IHa b IHb|g mn mx a IHa|n a IHa
                  | | | |neg a IHa|neg rs];
    simpl; try discriminate; intros Hn i c j c'.
  - intros (y & Hy & Hm & _). unfold char_match in Hm. rewrite no_icase in Hm.
    apply ceqb_eq in Hm. subst y. eauto.
  - destruct neg; [discriminate|].
    apply andb_true_iff in Hn as [Hn _].
    intros (y & Hy & Hm & _). unfold set_match in Hm. rewrite no_icase in Hm.
    simpl in Hm.
    exists i, y. split; [assumption|]. eapply set_singletons; eauto.
  - intros (m & c1 & H1 & H2).
    apply orb_true_iff in Hn as [Hn|Hn]; [eapply IHa|eapply IHb]; eauto.
  - apply andb_true_iff in Hn as [Ha Hb].
    intros [H|H]; [eapply IHa|eapply IHb]; eauto.
  - apply andb_true_iff in Hn as [Hmin Ha]. apply Nat.ltb_lt in Hmin.
    intros (n & Hle & H). eapply iter_needs; [| |exact H]; [|lia].
    intros. eapply IHa; eauto.
  - intros (c1 & H & _). eapply IHa; eauto.
Qed.

Lemma has_char_idx (k : nat) (y : char) :
  idx s k = Some y -> one_of ps y = true -> has_char ps s = true.
Proof.
  intros Hk Hy. unfold has_char. apply existsb_exists. exists y.
  split; [|assumption]. eapply nth_error_In; eauto.
Qed.

(** The building block of the round trip: a pattern that needs a code
    unit the text does not hold has no match in it. *)
Lemma needs_none (r : regex) :
  needs ps r = true -> has_char ps s = false ->
  forall i j c', ~ matches fl s r i [] j c'.
Proof.
  intros Hn Hs i j c' H. apply (needs_sound r Hn) in H as (k & y & Hk & Hy).
  rewrite (has_char_idx k y Hk Hy) in Hs. discriminate.
Qed.

End Needs.

End Sem.

(* ================================================================== *)
(** * Plain text goes through [render] untouched *)
(* ================================================================== *)

Module PlainFacts.
Import Markdown Sem.

Ltac break :=
  repeat match goal with
         | H : exists _, _ |- _ => destruct H
         | H : _ /\ _ |- _ => destruct H
         | H : _ \/ _ |- _ => destruct H
         end.

(** ** [escapeHTML], code unit by code unit *)

Lemma escapeHTML_cons (x : char) (s : str) :
  escapeHTML (x :: s) = esc1 x ++ escapeHTML s.
Proof.
  unfold escapeHTML, replace_char, esc1. simpl flat_map at 5.
  destruct (ceqb x (ch "&")) eqn:E1.
  { apply ceqb_eq in E1. subst x. rewrite !flat_map_app. reflexivity. }
  rewrite flat_map_app. simpl flat_map at 4.
  destruct (ceqb x (ch "<")) eqn:E2.
  { apply ceqb_eq in E2. subst x. rewrite !flat_map_app. reflexivity. }
  rewrite app_nil_r.
  rewrite flat_map_app. simpl flat_map at 3.
  destruct (ceqb x (ch ">")) eqn:E3.
  { apply ceqb_eq in E3. subst x. rewrite !flat_map_app. reflexivity. }
  rewrite app_nil_r.
  rewrite flat_map_app. simpl flat_map at 2.
  destruct (ceqb x c_dquote) eqn:E4.
  { apply ceqb_eq in E4. subst x. rewrite !flat_map_app. reflexivity. }
  rewrite app_nil_r.
  rewrite flat_map_app. simpl flat_map at 1.
  destruct (ceqb x c_squote) eqn:E5; reflexivity.
Qed.

Lemma escapeHTML_flat (s : str) : escapeHTML s = flat_map esc1 s.
Proof.
  induction s as [|x s IH]; [reflexivity|].
  rewrite escapeHTML_cons, IH. reflexivity.
Qed.

Lemma esc1_plain (x : char) : isSpecial x = false -> esc1 x = [x].
Proof.
  unfold isSpecial, esc1. intros H.
  repeat (apply orb_false_iff in H as [H ?]).
  now rewrite H, H0, H1, H2, H3.
Qed.

Lemma esc1_special (x : char) :
  isSpecial x = true ->
  esc1 x = u "&amp;" \/ esc1 x = u "&lt;" \/ esc1 x = u "&gt;"
  \/ esc1 x = u "&quot;" \/ esc1 x = u "&#39;".
Proof.
  unfold isSpecial, esc1. intros H.
  destruct (ceqb x (ch "&")); [auto|].
  destruct (ceqb x (ch "<")); [auto|].
  destruct (ceqb x (ch ">")); [auto|].
  destruct (ceqb x c_dquote); [auto|].
  destruct (ceqb x c_squote); [auto 6|discriminate].
Qed.

Lemma has_char_app (ps a b : str) :
  has_char ps (a ++ b) = has_char ps a || has_char ps b.
Proof. apply existsb_app. Qed.

(** The escaped text holds a code unit of [ps] only if the text holds it
    outside of the five special characters, or an entity does. *)
Lemma escape_has_char (ps s : str) :
  (forall x, In x s -> isSpecial x = false -> one_of ps x = false) ->
  has_char ps entity_chars = false ->
  has_char ps (escapeHTML s) = false.
Proof.
  intros Hs He. rewrite escapeHTML_flat.
  induction s as [|x s IH]; [reflexivity|]. simpl.
  rewrite has_char_app, IH by (intros; apply Hs; simpl; auto).
  rewrite orb_false_r.
  destruct (isSpecial x) eqn:E.
  - change entity_chars
      with (u "&amp;" ++ u "&lt;" ++ u "&gt;" ++ u "&quot;" ++ u "&#39;") in He.
    rewrite !has_char_app in He.
    do 4 (apply orb_false_iff in He as [? He]).
    destruct (esc1_special x E) as [->|[->|[->|[->| ->]]]]; assumption.
  - rewrite (esc1_plain x E). unfold has_char; simpl.
    rewrite (Hs x) by (simpl; auto). reflexivity.
Qed.

Lemma has_char_in (ps s : str) (x : char) :
  has_char ps s = false -> In x s -> one_of ps x = false.
Proof.
  intros H Hx. destruct (one_of ps x) eqn:E; [|reflexivity].
  assert (has_char ps s = true); [|congruence].
  apply existsb_exists. eauto.
Qed.

(** ** Adjacent code units *)

Lemma adjacent_idx (P Q : char -> bool) (s : str) (k : nat) (x y : char) :
  idx s k = Some x -> idx s (S k) = Some y -> P x = true -> Q y = true ->
  adjacent P Q s = true.
Proof.
  unfold idx. revert k. induction s as [|a s IH]; intros k; [destruct k; discriminate|].
  destruct k as [|k]; simpl.
  - intros [= ->]. destruct s as [|b s]; [discriminate|]. simpl.
    intros [= ->] -> ->. reflexivity.
  - intros H1 H2 HP HQ. destruct s as [|b s]; [destruct k; discriminate|].
    rewrite (IH k H1 H2 HP HQ). apply orb_true_r.
Qed.

Lemma adjacent_cons (P Q : char -> bool) (x : char) (s : str) :
  adjacent P Q (x :: s)
  = (P x && match s with y :: _ => Q y | [] => false end) || adjacent P Q s.
Proof.
  destruct s as [|y s]; simpl; [now rewrite andb_false_r|reflexivity].
Qed.

Lemma adjacent_snoc_app (P Q : char -> bool) (a : str) (l : char) (b : str) :
  adjacent P Q (a ++ l :: b) = adjacent P Q (a ++ [l]) || adjacent P Q (l :: b).
Proof.
  induction a as [|x a IH]; [reflexivity|].
  simpl app.
  rewrite (adjacent_cons P Q x (a ++ l :: b)), (adjacent_cons P Q x (a ++ [l])).
  rewrite IH, orb_assoc. destruct a; reflexivity.
Qed.

(** Through [escapeHTML]: an entity begins with [&] and ends with [;]. *)
Lemma adjacent_escape (P Q : char -> bool) (s : str) :
  P (ch ";") = false -> Q (ch "&") = false ->
  adjacent P Q (u "&amp;") = false -> adjacent P Q (u "&lt;") = false ->
  adjacent P Q (u "&gt;") = false -> adjacent P Q (u "&quot;") = false ->
  adjacent P Q (u "&#39;") = false ->
  adjacent P Q s = false ->
  adjacent P Q (escapeHTML s) = false.
Proof.
  intros HP HQ H1 H2 H3 H4 H5. rewrite escapeHTML_flat.
  assert (Hhd : forall t, match flat_map esc1 t with
                          | y :: _ => Q y = true ->
                                      match t with z :: _ => y = z | [] => False end
                          | [] => True
                          end).
  { intros [|z t]; simpl; [exact I|].
    destruct (isSpecial z) eqn:E.
    - destruct (esc1_special z E) as [->|[->|[->|[->| ->]]]]; simpl;
        intros HQ'; change 38%N with (ch "&") in HQ'; congruence.
    - rewrite (esc1_plain z E). simpl. reflexivity. }
  induction s as [|x s IH]; [reflexivity|].
  rewrite adjacent_cons. intros H. apply orb_false_iff in H as [Hx Hs].
  specialize (IH Hs). simpl flat_map.
  specialize (Hhd s).
  destruct (isSpecial x) eqn:E.
  - assert (Htail : adjacent P Q (ch ";" :: flat_map esc1 s) = false).
    { rewrite adjacent_cons, HP, IH. reflexivity. }
    assert (Hent : forall body, adjacent P Q (body ++ [ch ";"]) = false ->
                     adjacent P Q ((body ++ [ch ";"]) ++ flat_map esc1 s) = false).
    { intros body Hb. rewrite <- app_assoc. simpl app.
      rewrite adjacent_snoc_app, Hb, Htail. reflexivity. }
    destruct (esc1_special x E) as [->|[->|[->|[->| ->]]]].
    + apply (Hent (u "&amp")), H1.
    + apply (Hent (u "&lt")), H2.
    + apply (Hent (u "&gt")), H3.
    + apply (Hent (u "&quot")), H4.
    + apply (Hent (u "&#39")), H5.
  - rewrite (esc1_plain x E). simpl app. rewrite adjacent_cons, IH, orb_false_r.
    destruct (flat_map esc1 s) as [|y e] eqn:Ee; [apply andb_false_r|].
    destruct (Q y) eqn:Ey; [|apply andb_false_r].
    specialize (Hhd eq_refl). destruct s as [|z s]; [contradiction|]. subst z.
    rewrite Ey in Hx. exact Hx.
Qed.

(** ** [trim] and [escapeHTML] commute *)

Lemma special_not_space (x : char) : isSpecial x = true -> isSpace x = false.
Proof.
  unfold isSpecial. intros H.
  repeat (apply orb_true_iff in H as [H|H]);
    apply ceqb_eq in H; subst x; reflexivity.
Qed.

Lemma trimStart_flat_map (f : char -> str) (s : str) :
  (forall x, isSpace x = true -> f x = [x]) ->
  (forall x, isSpace x = false ->
             exists y t, f x = y :: t /\ isSpace y = false) ->
  trimStart (flat_map f s) = flat_map f (trimStart s).
Proof.
  intros Hs Hn. induction s as [|x s IH]; [reflexivity|]. simpl.
  destruct (isSpace x) eqn:E.
  - rewrite (Hs x E). simpl. now rewrite E.
  - destruct (Hn x E) as (y & t & Hfx & Hy). simpl. rewrite Hfx. simpl.
    now rewrite Hy.
Qed.

Lemma rev_flat_map (f : char -> str) (s : str) :
  rev (flat_map f s) = flat_map (fun x => rev (f x)) (rev s).
Proof.
  induction s as [|x s IH]; [reflexivity|]. simpl.
  rewrite rev_app_distr, IH, flat_map_app. simpl. now rewrite app_nil_r.
Qed.

Lemma trim_escape (s : str) : trim (escapeHTML s) = escapeHTML (trim s).
Proof.
  rewrite !escapeHTML_flat. unfold trim, trimEnd.
  assert (H1 : forall x, isSpace x = true -> esc1 x = [x]).
  { intros x Hx. apply esc1_plain. destruct (isSpecial x) eqn:E; [|reflexivity].
    apply special_not_space in E. congruence. }
  assert (Hfront : forall t, trimStart (flat_map esc1 t) = flat_map esc1 (trimStart t)).
  { intros t. apply trimStart_flat_map; [exact H1|].
    intros x Hx. destruct (isSpecial x) eqn:E.
    - destruct (esc1_special x E) as [->|[->|[->|[->| ->]]]];
        eexists; eexists; split; reflexivity.
    - rewrite (esc1_plain x E). eauto. }
  assert (Hback : forall t, trimStart (flat_map (fun x => rev (esc1 x)) t)
                            = flat_map (fun x => rev (esc1 x)) (trimStart t)).
  { intros t. apply trimStart_flat_map.
    - intros x Hx. now rewrite (H1 x Hx).
    - intros x Hx. destruct (isSpecial x) eqn:E.
      + destruct (esc1_special x E) as [->|[->|[->|[->| ->]]]];
          eexists; eexists; split; reflexivity.
      + rewrite (esc1_plain x E). simpl. eauto. }
  rewrite Hfront, rev_flat_map, Hback, rev_flat_map.
  apply flat_map_ext. intros x. apply rev_involutive.
Qed.

(** ** The patterns that need more than one code unit *)

Ltac unfold_match H :=
  simpl in H; unfold char_match, set_match in H; simpl in H.

Ltac char_eqs :=
  repeat match goal with
         | H : ceqb _ _ = true |- _ => apply ceqb_eq in H
         end.

Lemma iter_first (R : step_rel) (n : nat) i c j c' :
  0 < n -> iter n R i c j c' -> exists m c1, R i c m c1.
Proof.
  destruct n as [|n]; [lia|]. simpl. intros _ (m & c1 & H & _). eauto.
Qed.

(** A run of one-character steps ends one step after a character of the
    class. *)
Lemma iter_last (s : str) (P : char -> bool) (n : nat) :
  forall i c j c',
    0 < n ->
    iter n (fun i c j c' => exists y, idx s i = Some y /\ P y = true
                                      /\ j = S i /\ c' = c) i c j c' ->
    exists k y, j = S k /\ idx s k = Some y /\ P y = true.
Proof.
  induction n as [|n IH]; intros i c j c' Hn; [lia|]. simpl.
  intros (m & c1 & (y & Hy & HP & -> & ->) & H).
  destruct n as [|n].
  - simpl in H. destruct H as [-> _]. eauto.
  - apply IH in H; [assumption|lia].
Qed.

Ltac adj_contra Ha P Q :=
  match goal with
  | H1 : idx ?s ?k = Some ?x, H2 : idx ?s (S ?k) = Some ?y |- _ =>
    rewrite (adjacent_idx P Q s k x y H1 H2 eq_refl eq_refl) in Ha; discriminate
  end.

Ltac char_contra Hc ps :=
  match goal with
  | H1 : idx ?s ?k = Some ?x |- _ =>
    rewrite (has_char_idx s ps k x H1 eq_refl) in Hc; discriminate
  end.

(** ** Places in a line *)

Lemma firstn_snoc (s : str) (k : nat) (x : char) :
  idx s k = Some x -> firstn (S k) s = firstn k s ++ [x].
Proof.
  unfold idx. revert k. induction s as [|a s IH]; intros [|k] H; try discriminate.
  - injection H as ->. reflexivity.
  - cbn [nth_error] in H. change (firstn (S (S k)) (a :: s)) with (a :: firstn (S k) s).
    rewrite (IH k H). reflexivity.
Qed.

Lemma place_at_S (s : str) (k : nat) (x : char) :
  idx s k = Some x -> place_at s (S k) = next_place (place_at s k) x.
Proof.
  intros H. unfold place_at. rewrite (firstn_snoc s k x H), fold_left_app.
  reflexivity.
Qed.

Lemma block_start_from (s : str) :
  forall (p : place) (k : nat) (x : char),
    idx s k = Some x ->
    opens_block (fold_left next_place (firstn k s) p) x = true ->
    block_start p s = true.
Proof.
  unfold idx. induction s as [|a s IH]; intros p [|k] x H Ho; try discriminate.
  - injection H as ->. cbn [firstn fold_left] in Ho. cbn [block_start].
    now rewrite Ho.
  - cbn [nth_error] in H. cbn [firstn fold_left] in Ho. cbn [block_start].
    rewrite (IH _ k x H Ho). apply orb_true_r.
Qed.

Lemma block_start_at (s : str) (k : nat) (x : char) :
  idx s k = Some x -> opens_block (place_at s k) x = true ->
  block_start Indent s = true.
Proof. apply block_start_from. Qed.

Lemma next_place_lt (p : place) (y : char) :
  isLineTerminator y = true -> next_place p y = Indent.
Proof. unfold next_place. now intros ->. Qed.

(** A line starts where [^] matches. *)
Lemma place_bol (fl : flags) (s : str) (i : nat) :
  atBol fl s i = true -> place_at s i = Indent.
Proof.
  destruct i as [|p]; [reflexivity|]. unfold atBol. intros H.
  apply andb_true_iff in H as [_ H].
  destruct (idx s p) as [y|] eqn:E; [|discriminate].
  rewrite (place_at_S s p y E). now apply next_place_lt.
Qed.

Lemma place_bol_or_nl (fl : flags) (s : str) (i : nat) (c : caps)
      (j : nat) (c' : caps) :
  icase fl = false -> matches fl s bol_or_nl i c j c' -> place_at s j = Indent.
Proof.
  intros Hf [H|H].
  - destruct H as (H & -> & _). now apply (place_bol fl).
  - destruct H as (y & Hy & Hc & -> & _). unfold char_match in Hc.
    rewrite Hf in Hc. apply ceqb_eq in Hc. subst y.
    rewrite (place_at_S s i c_nl Hy). now apply next_place_lt.
Qed.

(** A run of one-character steps over a class that keeps a property of
    the place. *)
Lemma iter_place (s : str) (P : char -> bool) (I : place -> Prop) :
  (forall p x, I p -> P x = true -> I (next_place p x)) ->
  forall n i c j c',
    iter n (fun i c j c' => exists y, idx s i = Some y /\ P y = true
                                      /\ j = S i /\ c' = c) i c j c' ->
    I (place_at s i) -> I (place_at s j).
Proof.
  intros HI. induction n as [|n IH]; intros i c j c'; simpl.
  - intros [-> _] H. exact H.
  - intros (m & c1 & (y & Hy & HP & -> & ->) & H) Hi.
    apply (IH _ _ _ _ H). rewrite (place_at_S s i y Hy). now apply HI.
Qed.

Lemma iter_len (s : str) (P : char -> bool) (n : nat) :
  forall i c j c',
    iter n (fun i c j c' => exists y, idx s i = Some y /\ P y = true
                                      /\ j = S i /\ c' = c) i c j c' ->
    j = i + n.
Proof.
  induction n as [|n IH]; intros i c j c'; simpl.
  - intros [-> _]. lia.
  - intros (m & c1 & (y & _ & _ & -> & _) & H). apply IH in H. lia.
Qed.

Ltac split_cmp :=
  repeat match goal with
         | |- context [N.leb ?a ?b] =>
           destruct (N.leb_spec a b); simpl; try (exfalso; lia)
         | |- context [N.eqb ?a ?b] =>
           destruct (N.eqb_spec a b); simpl; try (exfalso; lia)
         end.

Lemma in_space (y : char) : in_ranges r_space y = true -> isSpace y = true.
Proof.
  unfold in_ranges, r_space, isSpace, in_range, ceqb. simpl.
  split_cmp; auto.
Qed.

Lemma in_bullet (y : char) :
  in_ranges (chars (u "*-")) y = true -> y = ch "*" \/ y = ch "-".
Proof.
  unfold in_ranges, in_range. simpl.
  change (ch "*") with 42%N. change (ch "-") with 45%N.
  split_cmp; intros; try discriminate; auto; lia.
Qed.

Lemma in_digit (y : char) : in_ranges r_digit y = isDigit y.
Proof. unfold in_ranges, r_digit, isDigit. simpl. apply orb_false_r. Qed.

Lemma in_blank (y : char) :
  in_ranges r_blank y = true -> y = ch " " \/ y = c_tab.
Proof.
  unfold in_ranges, r_blank, in_range, c_tab. simpl.
  change (ch " ") with 32%N.
  split_cmp; intros; try discriminate; auto; lia.
Qed.

Lemma next_blank (y : char) :
  in_ranges r_blank y = true -> next_place Indent y = Indent.
Proof. intros H. destruct (in_blank y H) as [-> | ->]; reflexivity. Qed.

Lemma next_digit (p : place) (y : char) :
  in_ranges r_digit y = true -> p <> Inside -> next_place p y = Number.
Proof.
  rewrite in_digit. intros H Hp.
  assert (Hl : isLineTerminator y = false /\ isTabOrSpace y = false).
  { revert H. unfold isDigit, isLineTerminator, isTabOrSpace, in_range, ceqb, c_tab.
    change (ch " ") with 32%N.
    split_cmp; intros; try discriminate; auto. }
  destruct Hl as [Hl Hb]. unfold next_place. rewrite Hl, H.
  destruct p; [now rewrite Hb|reflexivity|contradiction].
Qed.

(** ** Counting *)

Lemma count_one (P : char -> bool) (s : str) (j : nat) (y : char) :
  idx s j = Some y -> P y = true -> 1 <= length (filter P s).
Proof.
  unfold idx. revert j. induction s as [|a s IH]; intros [|j] H Hy;
    try discriminate; cbn [nth_error] in H; cbn [filter].
  - injection H as ->. rewrite Hy. simpl. lia.
  - specialize (IH j H Hy). destruct (P a); simpl; lia.
Qed.

Lemma count_two (P : char -> bool) (s : str) (i j : nat) (x y : char) :
  i < j -> idx s i = Some x -> idx s j = Some y ->
  P x = true -> P y = true -> 2 <= length (filter P s).
Proof.
  unfold idx. revert i j. induction s as [|a s IH]; intros i j Hij Hi Hj Hx Hy.
  - destruct i; discriminate.
  - destruct j as [|j]; [lia|]. cbn [nth_error] in Hj. cbn [filter].
    destruct i as [|i]; cbn [nth_error] in Hi.
    + injection Hi as ->. rewrite Hx. pose proof (count_one P s j y Hj Hy).
      simpl. lia.
    + assert (Hlt : i < j) by lia.
      specialize (IH i j Hlt Hi Hj Hx Hy). destruct (P a); simpl; lia.
Qed.

(** ** The patterns of the blocks and of the emphasis *)

Ltac mark_contra Hb :=
  match goal with
  | Hp : place_at ?s ?k = Indent, H1 : idx ?s ?k = Some ?x |- _ =>
    rewrite (block_start_at s k x H1) in Hb;
    [discriminate|rewrite Hp; reflexivity]
  end.

Ltac two_contra Hu :=
  match goal with
  | H1 : idx ?s ?k = Some ?x, H2 : idx ?s (S ?k) = Some ?y |- _ =>
    pose proof (count_two isUnderscore s k (S k) x y (Nat.lt_succ_diag_r k)
                          H1 H2 eq_refl eq_refl);
    lia
  end.

Section Custom.
Variable s : str.

Lemma hr_none :
  block_start Indent s = false ->
  length (filter isUnderscore s) <= 1 ->
  forall i j c', ~ matches f_m s re_hr i [] j c'.
Proof.
  intros Hb Hu i j c' H. destruct H as (m & c1 & (Hbol & -> & ->) & H).
  apply place_bol in Hbol.
  unfold_match H. break; subst; char_eqs; subst.
  - mark_contra Hb.
  - mark_contra Hb.
  - two_contra Hu.
Qed.

Lemma heading_none (n : nat) :
  block_start Indent s = false ->
  1 <= n <= 6 ->
  forall i j c', ~ matches f_m s (re_heading n) i [] j c'.
Proof.
  intros Hb Hn i j c' H. destruct H as (m & c1 & (Hbol & -> & ->) & H).
  apply place_bol in Hbol.
  assert (Hcase : n = 1 \/ n = 2 \/ n = 3 \/ n = 4 \/ n = 5 \/ n = 6) by lia.
  destruct Hcase as [->|[->|[->|[->|[->| ->]]]]];
    unfold_match H; break; subst; char_eqs; subst;
    mark_contra Hb.
Qed.

Lemma table_none :
  block_start Indent s = false ->
  forall i j c', ~ matches f_m s re_table i [] j c'.
Proof.
  intros Hb i j c' H. destruct H as (m & c1 & Hbol & H).
  apply (place_bol_or_nl f_m) in Hbol; [|reflexivity].
  unfold_match H. break; subst; char_eqs; subst.
  mark_contra Hb.
Qed.

Lemma link_none :
  adjacent isSlash isSlash s = false ->
  forall i j c', ~ matches f_none s re_link i [] j c'.
Proof.
  intros Ha i j c' H. unfold_match H. break; subst; char_eqs; subst.
  adj_contra Ha isSlash isSlash.
Qed.

Lemma autolink_none :
  adjacent isSlash isSlash s = false ->
  forall i j c', ~ matches f_none s re_autolink i [] j c'.
Proof.
  intros Ha i j c' H. unfold_match H. break; subst; char_eqs; subst.
  adj_contra Ha isSlash isSlash.
Qed.

Lemma del_none :
  adjacent isTilde isTilde s = false ->
  forall i j c', ~ matches f_none s (re_pair2 "~") i [] j c'.
Proof.
  intros Ha i j c' H. unfold_match H. break; subst; char_eqs; subst.
  adj_contra Ha isTilde isTilde.
Qed.

Lemma strong_none :
  adjacent isStar isStar s = false ->
  forall i j c', ~ matches f_none s (re_pair2 "*") i [] j c'.
Proof.
  intros Ha i j c' H. unfold_match H. break; subst; char_eqs; subst.
  adj_contra Ha isStar isStar.
Qed.

Lemma strong2_none :
  length (filter isUnderscore s) <= 1 ->
  forall i j c', ~ matches f_none s (re_pair2 "_") i [] j c'.
Proof.
  intros Hu i j c' H. unfold_match H. break; subst; char_eqs; subst.
  two_contra Hu.
Qed.

Lemma em_none :
  length (filter isUnderscore s) <= 1 ->
  forall i j c', ~ matches f_none s re_em i [] j c'.
Proof.
  intros Hu i j c' H. unfold_match H.
  destruct H as (m & c1 & (y & Hy & Ey & -> & ->) & m0 & c2
                 & (c3 & (n & Hn & H) & _) & (z & Hz & Ez & _)).
  apply iter_len in H. char_eqs. subst y z.
  assert (Hlt : i < m0) by lia.
  pose proof (count_two isUnderscore s i m0 _ _ Hlt Hy Hz eq_refl eq_refl).
  lia.
Qed.

Lemma blank_lines_none :
  adjacent isNl isNl s = false ->
  forall i j c', ~ matches f_none s re_blank_lines i [] j c'.
Proof.
  intros Ha i j c' H. unfold_match H. destruct H as (n & Hn & H).
  destruct n as [|[|n]]; try lia. simpl in H. break; subst; char_eqs; subst.
  adj_contra Ha isNl isNl.
Qed.

Lemma ul_none :
  block_start Indent s = false ->
  forall i j c', ~ matches f_none s (re_list r_bullet) i [] j c'.
Proof.
  intros Hb i j c' H. destruct H as (m & c1 & Hbol & H).
  apply (place_bol_or_nl f_none) in Hbol; [|reflexivity].
  unfold_match H.
  destruct H as (c2 & (n & Hn & H) & _).
  apply iter_first in H; [|lia].
  destruct H as (m' & c3 & m0 & c4 & (nb & _ & Hbl) & m1 & c5
                 & (y & Hy & Hmark & _) & _).
  apply (iter_place s _ (fun p => p = Indent)) in Hbl;
    [|intros p x -> Hx; now apply next_blank|exact Hbol].
  assert (Hm : one_of line_marks y = true).
  { destruct (in_bullet y Hmark) as [-> | ->]; reflexivity. }
  rewrite (block_start_at s m0 y Hy) in Hb; [discriminate|].
  rewrite Hbl. exact Hm.
Qed.

Lemma ol_none :
  block_start Indent s = false ->
  forall i j c', ~ matches f_none s (re_list r_number_dot) i [] j c'.
Proof.
  intros Hb i j c' H. destruct H as (m & c1 & Hbol & H).
  apply (place_bol_or_nl f_none) in Hbol; [|reflexivity].
  unfold_match H.
  destruct H as (c2 & (n & Hn & H) & _).
  apply iter_first in H; [|lia].
  destruct H as (m' & c3 & m0 & c4 & (nb & _ & Hbl) & m1 & c5
                 & (m2 & c6 & (nd & Hnd & Hd) & (y & Hy & Hdot & _)) & _).
  apply (iter_place s _ (fun p => p = Indent)) in Hbl;
    [|intros p x -> Hx; now apply next_blank|exact Hbol].
  destruct nd as [|nd]; [lia|].
  destruct Hd as (m3 & c7 & (d & Hd0 & Hdig & -> & ->) & Hd).
  apply (iter_place s _ (fun p => p = Number)) in Hd.
  - apply ceqb_eq in Hdot. subst y.
    rewrite (block_start_at s m2 _ Hy) in Hb; [discriminate|].
    rewrite Hd. reflexivity.
  - intros p x -> Hx. now apply next_digit.
  - rewrite (place_at_S s m0 d Hd0), Hbl. now apply next_digit.
Qed.

End Custom.

(** ** The test for a block-level start *)

Lemma upper_is_lt (y : char) : toUpper1 y = ch "<" -> y = ch "<".
Proof.
  change (ch "<") with 60%N. unfold toUpper1, in_range, ceqb.
  split_cmp; intros; lia.
Qed.

Lemma upper_is_sect (y : char) : toUpper1 y = c_sect -> y = c_sect.
Proof.
  unfold c_sect, toUpper1, in_range, ceqb.
  split_cmp; intros; lia.
Qed.

Lemma bol_start (s : str) (i : nat) : atBol f_i s i = true -> i = 0.
Proof. destruct i; [reflexivity|discriminate]. Qed.

Lemma block_none (s : str) :
  has_char (u "<") s = false ->
  starts_with [c_sect] s = false ->
  forall i j c', ~ matches f_i s re_block i [] j c'.
Proof.
  intros Hc Hs i j c' H. simpl in H. unfold char_match in H. simpl icase in H.
  cbv iota in H.
  assert (Hbad : forall k y x, atBol f_i s k = true -> idx s k = Some y ->
                               ceqb x (toUpper1 y) = true ->
                               x = ch "<" \/ x = c_sect -> False).
  { intros k y x Hbol Hk He Hx. apply bol_start in Hbol. subst k.
    apply ceqb_eq in He. symmetry in He.
    assert (y = ch "<" \/ y = c_sect) as [-> | ->].
    { destruct Hx as [-> | ->];
        [left; now apply upper_is_lt|right; now apply upper_is_sect]. }
    - rewrite (has_char_idx s (u "<") _ _ Hk eq_refl) in Hc. discriminate.
    - destruct s as [|z t]; [discriminate|]. injection Hk as ->.
      cbn [starts_with] in Hs. rewrite ceqb_refl in Hs. discriminate. }
  break; subst;
    match goal with
    | Hbol : atBol f_i s ?k = true, Hk : idx s ?k = Some ?y,
      He : ceqb ?x (toUpper1 ?y) = true |- _ =>
      apply (Hbad k y x Hbol Hk He);
        first [left; reflexivity | right; reflexivity]
    end.
Qed.

(** ** The text after [escapeHTML] *)

Lemma one_of_in (ps : str) (x : char) : one_of ps x = true <-> In x ps.
Proof.
  unfold one_of. rewrite existsb_exists. split.
  - intros (y & Hy & He). apply ceqb_eq in He. now subst.
  - intros H. exists x. split; [assumption|apply ceqb_refl].
Qed.

Lemma has_char_sub (ps' ps s : str) :
  (forall x, In x ps' -> In x ps) ->
  has_char ps s = false -> has_char ps' s = false.
Proof.
  intros Hsub H. destruct (has_char ps' s) eqn:E; [|reflexivity].
  apply existsb_exists in E as (y & Hy & Ho).
  apply one_of_in, Hsub, one_of_in in Ho.
  assert (has_char ps s = true); [|congruence].
  apply existsb_exists. eauto.
Qed.

Lemma adjacent_no_first (P Q : char -> bool) (ps s : str) :
  (forall x, P x = true -> one_of ps x = true) ->
  has_char ps s = false -> adjacent P Q s = false.
Proof.
  intros HP Hs. induction s as [|x s IH]; [reflexivity|].
  rewrite adjacent_cons. unfold has_char in Hs. simpl in Hs.
  apply orb_false_iff in Hs as [Hx Hs]. rewrite (IH Hs), orb_false_r.
  destruct (P x) eqn:E; [|reflexivity].
  apply HP in E. congruence.
Qed.

Lemma truthy_trim (s : str) : truthy (trim s) = true -> truthy s = true.
Proof. destruct s; [discriminate|reflexivity]. Qed.

Lemma special_cases (x : char) :
  isSpecial x = true ->
  x = ch "&" \/ x = ch "<" \/ x = ch ">" \/ x = c_dquote \/ x = c_squote.
Proof.
  unfold isSpecial. intros H.
  repeat (apply orb_true_iff in H as [H|H]); apply ceqb_eq in H; auto 6.
Qed.

Lemma not_special_lt (x : char) :
  isSpecial x = false -> one_of (u "<") x = false.
Proof.
  unfold isSpecial. intros H. repeat (apply orb_false_iff in H as [H ?]).
  unfold one_of. change (u "<") with [ch "<"]. cbn [existsb].
  rewrite orb_false_r. assumption.
Qed.

Lemma not_special_gt (x : char) :
  isSpecial x = false -> one_of (u ">") x = false.
Proof.
  unfold isSpecial. intros H. repeat (apply orb_false_iff in H as [H ?]).
  unfold one_of. change (u ">") with [ch ">"]. cbn [existsb].
  rewrite orb_false_r. assumption.
Qed.

(** An entity is one code unit of the text as far as the underscores and
    the starts of blocks go. *)
Lemma filter_escape (s : str) :
  filter isUnderscore (escapeHTML s) = filter isUnderscore s.
Proof.
  rewrite escapeHTML_flat. induction s as [|x s IH]; [reflexivity|].
  cbn [flat_map filter]. rewrite filter_app, IH.
  destruct (isSpecial x) eqn:E.
  - destruct (special_cases x E) as [->|[->|[->|[->| ->]]]]; reflexivity.
  - rewrite (esc1_plain x E). cbn [filter app].
    destruct (isUnderscore x); reflexivity.
Qed.

Lemma block_start_cons (p : place) (x : char) (t : str) :
  block_start p (x :: t) = opens_block p x || block_start (next_place p x) t.
Proof. reflexivity. Qed.

Lemma block_start_inside (t r : str) :
  forallb (fun y => negb (isLineTerminator y)) t = true ->
  block_start Inside (t ++ r) = block_start Inside r.
Proof.
  induction t as [|y t IH]; [reflexivity|]. cbn [forallb]. intros H.
  apply andb_true_iff in H as [Hy Ht]. apply negb_true_iff in Hy.
  cbn [app]. rewrite block_start_cons. cbn [opens_block orb].
  unfold next_place. rewrite Hy. now apply IH.
Qed.

Lemma block_start_special (p : place) (x : char) (t : str) :
  isSpecial x = true ->
  block_start p (x :: t) = block_start Inside t
  /\ exists e, esc1 x = ch "&" :: e
               /\ forallb (fun y => negb (isLineTerminator y)) e = true.
Proof.
  intros E.
  destruct (special_cases x E) as [->|[->|[->|[->| ->]]]];
    (split; [destruct p; reflexivity|eexists; split; reflexivity]).
Qed.

Lemma block_escape (s : str) :
  forall p, block_start p (escapeHTML s) = block_start p s.
Proof.
  rewrite escapeHTML_flat. induction s as [|x s IH]; intros p; [reflexivity|].
  cbn [flat_map]. destruct (isSpecial x) eqn:E.
  - destruct (block_start_special p x s E) as (-> & e & -> & He).
    cbn [app]. rewrite block_start_cons.
    replace (opens_block p (ch "&")) with false by (destruct p; reflexivity).
    replace (next_place p (ch "&")) with Inside by (destruct p; reflexivity).
    cbn [orb]. rewrite (block_start_inside e _ He). apply IH.
  - rewrite (esc1_plain x E). cbn [app]. rewrite !block_start_cons.
    now rewrite IH.
Qed.

Lemma sect_escape (s : str) :
  starts_with [c_sect] s = false ->
  starts_with [c_sect] (escapeHTML s) = false.
Proof.
  rewrite escapeHTML_flat. destruct s as [|x s]; [reflexivity|].
  cbn [flat_map]. intros H. destruct (isSpecial x) eqn:E.
  - destruct (special_cases x E) as [->|[->|[->|[->| ->]]]]; reflexivity.
  - rewrite (esc1_plain x E). exact H.
Qed.

(** ** The stages on a plain text *)

Section Stages.
Variable md : str.
Hypothesis Hplain : plain_text md = true.

Let e : str := escapeHTML md.

Lemma plain_parts :
  has_char (u "`<") md = false
  /\ adjacent isSlash isSlash md = false
  /\ adjacent isTilde isTilde md = false
  /\ adjacent isStar isStar md = false
  /\ length (filter isUnderscore md) <= 1
  /\ adjacent isNl isNl md = false
  /\ block_start Indent md = false
  /\ truthy (trim md) = true
  /\ starts_with [c_sect] (trim md) = false.
Proof.
  unfold plain_text in Hplain.
  repeat (apply andb_true_iff in Hplain as [Hplain ?]).
  repeat match goal with
         | H : negb _ = true |- _ => apply negb_true_iff in H
         | H : (_ <=? _) = true |- _ => apply Nat.leb_le in H
         end.
  auto 10.
Qed.

Lemma md_fence : has_char fence_chars md = false.
Proof. destruct plain_parts as (H & _). exact H. Qed.

Lemma e_gt : has_char (u ">") e = false.
Proof.
  apply escape_has_char; [|reflexivity].
  intros x _ Hsp. now apply not_special_gt.
Qed.

Lemma e_slash : adjacent isSlash isSlash e = false.
Proof.
  destruct plain_parts as (_ & H & _). apply adjacent_escape; auto.
Qed.

Lemma e_tilde : adjacent isTilde isTilde e = false.
Proof.
  destruct plain_parts as (_ & _ & H & _). apply adjacent_escape; auto.
Qed.

Lemma e_star : adjacent isStar isStar e = false.
Proof.
  destruct plain_parts as (_ & _ & _ & H & _). apply adjacent_escape; auto.
Qed.

Lemma e_underscore : length (filter isUnderscore e) <= 1.
Proof.
  destruct plain_parts as (_ & _ & _ & _ & H & _).
  unfold e. now rewrite filter_escape.
Qed.

Lemma e_nl : adjacent isNl isNl e = false.
Proof.
  destruct plain_parts as (_ & _ & _ & _ & _ & H & _).
  apply adjacent_escape; auto.
Qed.

Lemma e_block : block_start Indent e = false.
Proof.
  destruct plain_parts as (_ & _ & _ & _ & _ & _ & H & _).
  unfold e. now rewrite block_escape.
Qed.

Lemma md_none (r : regex) :
  needs fence_chars r = true -> forall i j c', ~ matches f_none md r i [] j c'.
Proof. intros H. apply (needs_none md fence_chars f_none eq_refl r H md_fence). Qed.

Lemma normalize_plain : normalize md = md.
Proof.
  unfold normalize.
  rewrite (replace_tpl_none f_none md re_empty_fence (md_none re_empty_fence eq_refl)).
  rewrite (replace_tpl_none f_none md re_1c (md_none re_1c eq_refl)).
  rewrite (replace_tpl_none f_none md re_v1 (md_none re_v1 eq_refl)).
  rewrite (replace_tpl_none f_none md re_v2a (md_none re_v2a eq_refl)).
  rewrite (replace_fn_none f_none md re_v2b (md_none re_v2b eq_refl)).
  rewrite (replace_fn_none f_none md re_v2c (md_none re_v2c eq_refl)).
  rewrite (replace_tpl_none f_none md re_v3 (md_none re_v3 eq_refl)).
  rewrite (replace_fn_none f_none md re_v4a (md_none re_v4a eq_refl)).
  rewrite (replace_fn_none f_none md re_v4b (md_none re_v4b eq_refl)).
  rewrite (replace_tpl_none f_none md re_two_ticks (md_none re_two_ticks eq_refl)).
  reflexivity.
Qed.

Lemma extract_plain : extract md = (md, empty_store).
Proof.
  unfold extract.
  rewrite (replace_st_none f_none md re_mermaid1 (md_none re_mermaid1 eq_refl)).
  rewrite (replace_st_none f_none md re_mermaid2 (md_none re_mermaid2 eq_refl)).
  rewrite (replace_st_none f_none md re_fence (md_none re_fence eq_refl)).
  rewrite (replace_st_none f_none md re_inline (md_none re_inline eq_refl)).
  reflexivity.
Qed.

Lemma blocks_plain : blocks e = e.
Proof.
  unfold blocks.
  rewrite (replace_tpl_none f_m e re_hr (hr_none e e_block e_underscore)).
  rewrite (replace_fn_none f_m e re_quote
             (needs_none e (u ">") f_m eq_refl re_quote eq_refl e_gt)).
  rewrite (replace_tpl_none f_m e (re_heading 6)
             (heading_none e 6 e_block ltac:(lia))).
  rewrite (replace_tpl_none f_m e (re_heading 5)
             (heading_none e 5 e_block ltac:(lia))).
  rewrite (replace_tpl_none f_m e (re_heading 4)
             (heading_none e 4 e_block ltac:(lia))).
  rewrite (replace_tpl_none f_m e (re_heading 3)
             (heading_none e 3 e_block ltac:(lia))).
  rewrite (replace_tpl_none f_m e (re_heading 2)
             (heading_none e 2 e_block ltac:(lia))).
  rewrite (replace_tpl_none f_m e (re_heading 1)
             (heading_none e 1 e_block ltac:(lia))).
  rewrite (replace_tpl_none f_none e re_link (link_none e e_slash)).
  rewrite (replace_tpl_none f_none e re_autolink (autolink_none e e_slash)).
  rewrite (replace_tpl_none f_none e (re_pair2 "~") (del_none e e_tilde)).
  rewrite (replace_tpl_none f_none e (re_pair2 "*") (strong_none e e_star)).
  rewrite (replace_tpl_none f_none e (re_pair2 "_") (strong2_none e e_underscore)).
  rewrite (replace_tpl_none f_none e re_em (em_none e e_underscore)).
  rewrite (replace_fn_none f_none e (re_list r_bullet) (ul_none e e_block)).
  rewrite (replace_fn_none f_none e (re_list r_number_dot) (ol_none e e_block)).
  rewrite (replace_fn_none f_m e re_table (table_none e e_block)).
  reflexivity.
Qed.

Lemma paragraphs_plain :
  paragraphs e
  = u "<p>" ++ replace_char c_nl (u "<br>") (escapeHTML (trim md)) ++ u "</p>".
Proof.
  destruct plain_parts as (_ & _ & _ & _ & _ & _ & _ & Ht & Hs).
  assert (Hne : truthy (trim e) = true).
  { unfold e. now rewrite trim_escape, escapeHTML_flat;
      destruct (trim md) as [|x t];
      [discriminate|simpl; destruct (isSpecial x) eqn:E;
                    [destruct (esc1_special x E) as [->|[->|[->|[->| ->]]]]
                    |rewrite (esc1_plain x E)]; reflexivity]. }
  assert (He : e <> []).
  { intros H0. rewrite H0 in Hne. discriminate. }
  unfold paragraphs.
  rewrite (split_re_none f_none e re_blank_lines (blank_lines_none e e_nl) He).
  simpl map. simpl join. unfold paragraph. rewrite Hne. simpl negb. cbv iota.
  assert (Hb : has_char (u "<") (trim e) = false).
  { unfold e. rewrite trim_escape. apply escape_has_char; [|reflexivity].
    intros x _ Hsp. now apply not_special_lt. }
  assert (Hs' : starts_with [c_sect] (trim e) = false).
  { unfold e. rewrite trim_escape. now apply sect_escape. }
  rewrite (test_none f_i (trim e) re_block (block_none (trim e) Hb Hs')).
  unfold e. now rewrite trim_escape.
Qed.

End Stages.

End PlainFacts.




(* ================================================================== *)
(** * Every [<] of the output opens a tag of the renderer *)
(* ================================================================== *)

Module TagFacts.
Import Markdown Sem PlainFacts.

(** ** [tags_ok] and concatenation *)

Lemma opens_tag_app (t b : str) :
  opens_tag t = true -> opens_tag (t ++ b) = true.
Proof.
  destruct t as [|x [|y t]]; cbn [opens_tag app]; try discriminate; [|auto].
  rewrite !andb_false_r, !orb_false_r. intros ->. reflexivity.
Qed.

Lemma tags_ok_app (a b : str) :
  tags_ok a = true -> tags_ok b = true -> tags_ok (a ++ b) = true.
Proof.
  induction a as [|x a IH]; cbn [tags_ok app]; [auto|].
  intros H Hb. apply andb_true_iff in H as [H1 H2].
  rewrite (IH H2 Hb), andb_true_r.
  destruct (ceqb x c_lt); [|reflexivity]. now apply opens_tag_app.
Qed.

Lemma tags_ok_suffix (a b : str) : tags_ok (a ++ b) = true -> tags_ok b = true.
Proof.
  induction a as [|x a IH]; cbn [tags_ok app]; [auto|].
  intros H. apply andb_true_iff in H as [_ H]. auto.
Qed.

Lemma tags_ok_skipn (n : nat) (s : str) :
  tags_ok s = true -> tags_ok (skipn n s) = true.
Proof.
  intros H. rewrite <- (firstn_skipn n s) in H. eapply tags_ok_suffix; eauto.
Qed.

Lemma opens_tag_cut (a b : str) :
  opens_tag (a ++ b) = true -> closed b = true -> opens_tag a = true.
Proof.
  unfold closed. intros H Hb. apply andb_true_iff in Hb as [Hb1 Hb2].
  apply negb_true_iff in Hb1.
  destruct a as [|x [|y a]]; cbn [app] in H.
  - congruence.
  - cbn [opens_tag] in *. destruct b as [|z b].
    + exact H.
    + apply negb_true_iff, orb_false_iff in Hb2 as [Hz1 Hz2].
      rewrite Hz1, Hz2 in H. exact H.
  - exact H.
Qed.

Lemma tags_ok_prefix (a b : str) :
  tags_ok (a ++ b) = true -> closed b = true -> tags_ok a = true.
Proof.
  intros H Hb. induction a as [|x a IH]; [reflexivity|].
  cbn [tags_ok app] in *. apply andb_true_iff in H as [H1 H2].
  rewrite (IH H2), andb_true_r.
  destruct (ceqb x c_lt); [|reflexivity]. eapply opens_tag_cut; eauto.
Qed.

Lemma opens_tag_settled (a : str) (x : char) (b : str) :
  opens_tag ((a ++ [x]) ++ b) = true -> settled x = true ->
  opens_tag (a ++ [x]) = true.
Proof.
  unfold settled. intros H Hx.
  apply negb_true_iff in Hx. apply orb_false_iff in Hx as [Hx Hs].
  apply orb_false_iff in Hx as [Hlt Hh].
  destruct a as [|y [|z a]]; cbn [app opens_tag] in *.
  - rewrite Hh, Hs in H. rewrite Hh, Hs. exact H.
  - exact H.
  - exact H.
Qed.

Lemma tags_ok_settled (a : str) (x : char) (b : str) :
  tags_ok ((a ++ [x]) ++ b) = true -> settled x = true ->
  tags_ok (a ++ [x]) = true.
Proof.
  intros H Hx. induction a as [|y a IH].
  - cbn [app tags_ok]. unfold settled in Hx.
    apply negb_true_iff in Hx. apply orb_false_iff in Hx as [Hx _].
    apply orb_false_iff in Hx as [Hlt _]. now rewrite Hlt.
  - cbn [tags_ok app] in *. apply andb_true_iff in H as [H1 H2].
    rewrite (IH H2), andb_true_r.
    destruct (ceqb y c_lt); [|reflexivity]. eapply opens_tag_settled; eauto.
Qed.

Lemma no_lt_ok (s : str) : has_char [c_lt] s = false -> tags_ok s = true.
Proof.
  induction s as [|x s IH]; [reflexivity|].
  unfold has_char. cbn [existsb tags_ok]. intros H.
  apply orb_false_iff in H as [H1 H2]. unfold one_of in H1. cbn [existsb] in H1.
  rewrite orb_false_r in H1. rewrite H1. now apply IH.
Qed.

(** ** Cutting a text at a position *)

Lemma idx_skipn (s : str) (p : nat) (y : char) :
  idx s p = Some y -> skipn p s = y :: skipn (S p) s.
Proof.
  unfold idx. revert p. induction s as [|x s IH]; intros [|p]; simpl;
    try discriminate.
  - now intros [= ->].
  - intros H. now apply IH.
Qed.

Lemma firstn_S_idx (s : str) (p : nat) (y : char) :
  idx s p = Some y -> firstn (S p) s = firstn p s ++ [y].
Proof.
  unfold idx. revert p. induction s as [|x s IH]; intros [|p]; simpl;
    try discriminate.
  - now intros [= ->].
  - intros H. now rewrite <- (IH p H).
Qed.

Lemma cut_at (s : str) (p : nat) :
  tags_ok s = true -> closed (skipn p s) = true -> tags_ok (firstn p s) = true.
Proof.
  intros H Hc. rewrite <- (firstn_skipn p s) in H. eapply tags_ok_prefix; eauto.
Qed.

Lemma clean_closed (y : char) (t : str) : clean y = true -> closed (y :: t) = true.
Proof.
  unfold clean, closed. intros H. apply negb_true_iff in H.
  apply orb_false_iff in H as [H H5]. apply orb_false_iff in H as [H H4].
  apply orb_false_iff in H as [H H3]. apply orb_false_iff in H as [H H2].
  cbn [opens_tag]. now rewrite H, H2, H3, H4, H5.
Qed.

Lemma cut_at_char (s : str) (p : nat) (y : char) :
  tags_ok s = true -> idx s p = Some y -> clean y = true ->
  tags_ok (firstn p s) = true.
Proof.
  intros H Hy Hc. apply cut_at; [assumption|].
  rewrite (idx_skipn _ _ _ Hy). now apply clean_closed.
Qed.

Lemma cut_at_end (s : str) (p : nat) :
  tags_ok s = true -> idx s p = None -> tags_ok (firstn p s) = true.
Proof.
  intros H Hn. apply nth_error_None in Hn. now rewrite firstn_all2.
Qed.

Lemma cut_after (s : str) (p : nat) (y : char) :
  tags_ok s = true -> idx s p = Some y -> settled y = true ->
  tags_ok (firstn (S p) s) = true.
Proof.
  intros H Hy Hs. rewrite (firstn_S_idx _ _ _ Hy).
  rewrite <- (firstn_skipn (S p) s), (firstn_S_idx _ _ _ Hy) in H.
  eapply tags_ok_settled; eauto.
Qed.

Lemma terminator_clean (y : char) : isLineTerminator y = true -> clean y = true.
Proof.
  unfold isLineTerminator. intros H.
  repeat (apply orb_true_iff in H as [H|H]); apply ceqb_eq in H; subst y;
    reflexivity.
Qed.

Lemma terminator_settled (y : char) :
  isLineTerminator y = true -> settled y = true.
Proof.
  unfold isLineTerminator. intros H.
  repeat (apply orb_true_iff in H as [H|H]); apply ceqb_eq in H; subst y;
    reflexivity.
Qed.

Lemma cut_bol (fl : flags) (s : str) (p : nat) :
  tags_ok s = true -> atBol fl s p = true -> tags_ok (firstn p s) = true.
Proof.
  intros H. destruct p as [|p]; [reflexivity|]. cbn [atBol].
  destruct (idx s p) as [y|] eqn:E; [|now rewrite andb_false_r].
  intros Hb. apply andb_true_iff in Hb as [_ Hb].
  eapply cut_after; eauto using terminator_settled.
Qed.

Lemma cut_eol (fl : flags) (s : str) (p : nat) :
  tags_ok s = true -> atEol fl s p = true -> tags_ok (firstn p s) = true.
Proof.
  intros H. unfold atEol. destruct (idx s p) as [y|] eqn:E.
  - intros Hb. apply andb_true_iff in Hb as [_ Hb].
    eapply cut_at_char; eauto using terminator_clean.
  - intros _. now apply cut_at_end.
Qed.

Lemma slice_ok (s : str) (a b : nat) :
  tags_ok (firstn b s) = true -> tags_ok (slice s a b) = true.
Proof.
  intros H. unfold slice. rewrite <- skipn_firstn_comm. now apply tags_ok_skipn.
Qed.

Lemma firstn_plus (s : str) (a k : nat) :
  firstn (a + k) s = firstn a s ++ firstn k (skipn a s).
Proof.
  revert s. induction a as [|a IH]; intros [|x s]; simpl;
    try reflexivity.
  - now rewrite firstn_nil.
  - now rewrite IH.
Qed.

Lemma firstn_slice (s : str) (a b : nat) :
  a <= b -> firstn b s = firstn a s ++ slice s a b.
Proof.
  intros Hab. unfold slice.
  replace b with (a + (b - a)) at 1 by lia. apply firstn_plus.
Qed.

(** A text that goes on over code units other than [<]. *)
Lemma cut_later (s : str) (a b : nat) :
  a <= b ->
  tags_ok (firstn a s) = true -> has_char [c_lt] (slice s a b) = false ->
  tags_ok (firstn b s) = true.
Proof.
  intros Hab Ha Hs. rewrite (firstn_slice s a b Hab).
  apply tags_ok_app; [assumption|]. now apply no_lt_ok.
Qed.


(** ** String functions *)

Lemma clean_range (x : char) : (x < 47 \/ 117 < x)%N -> clean x = true.
Proof.
  intros H. unfold clean, one_of, tag_initials, isHeadingTail, in_range, ceqb.
  cbn [existsb]. change (ch "h") with 104%N. change (ch "s") with 115%N.
  change (ch "t") with 116%N. change (ch "r") with 114%N.
  split_cmp; reflexivity.
Qed.

Lemma space_range (x : char) : isSpace x = true -> (x < 47 \/ 117 < x)%N.
Proof.
  unfold isSpace, in_range, ceqb. intros H.
  repeat (apply orb_true_iff in H as [H|H]);
    try (apply andb_true_iff in H as [H1 H2]; apply N.leb_le in H1, H2; lia);
    apply N.eqb_eq in H; lia.
Qed.

Lemma space_clean (x : char) : isSpace x = true -> clean x = true.
Proof. intros H. apply clean_range, space_range, H. Qed.

Lemma trimStart_suffix (s : str) : exists a, s = a ++ trimStart s.
Proof.
  induction s as [|x s [a IH]]; [now exists []|]. simpl.
  destruct (isSpace x).
  - exists (x :: a). simpl. now rewrite <- IH.
  - now exists [].
Qed.

Lemma trimStart_spaces (s : str) :
  exists a, s = a ++ trimStart s /\ Forall (fun x => isSpace x = true) a.
Proof.
  induction s as [|x s (a & IH & Ha)]; [now exists []|]. simpl.
  destruct (isSpace x) eqn:E.
  - exists (x :: a). simpl. split; [now rewrite <- IH|]. now constructor.
  - now exists [].
Qed.

Lemma trimEnd_spaces (s : str) :
  exists b, s = trimEnd s ++ b
            /\ match b with x :: _ => isSpace x = true | [] => True end.
Proof.
  unfold trimEnd. destruct (trimStart_spaces (rev s)) as (a & Hs & Ha).
  exists (rev a). split.
  - rewrite <- rev_app_distr, <- Hs. symmetry. apply rev_involutive.
  - destruct (rev a) as [|x b] eqn:E; [exact I|].
    rewrite Forall_forall in Ha. apply Ha. apply in_rev. rewrite E. now left.
Qed.

Lemma trimStart_ok (s : str) : tags_ok s = true -> tags_ok (trimStart s) = true.
Proof.
  intros H. destruct (trimStart_suffix s) as [a Ha]. rewrite Ha in H.
  eapply tags_ok_suffix; eauto.
Qed.

Lemma trimEnd_ok (s : str) : tags_ok s = true -> tags_ok (trimEnd s) = true.
Proof.
  intros H. destruct (trimEnd_spaces s) as (b & Hs & Hb). rewrite Hs in H.
  eapply tags_ok_prefix; eauto.
  destruct b as [|x b]; [reflexivity|]. now apply clean_closed, space_clean.
Qed.

Lemma trim_ok (s : str) : tags_ok s = true -> tags_ok (trim s) = true.
Proof. intros H. unfold trim. now apply trimEnd_ok, trimStart_ok. Qed.

Lemma join_ok (sep : str) (parts : list str) :
  tags_ok sep = true -> Forall (fun p => tags_ok p = true) parts ->
  tags_ok (join sep parts) = true.
Proof.
  intros Hsep. induction parts as [|p parts IH]; [reflexivity|].
  intros H. inversion H as [|? ? Hp Hr]; subst. specialize (IH Hr).
  cbn [join]. destruct parts as [|p' parts]; [assumption|].
  apply tags_ok_app; [assumption|]. now apply tags_ok_app.
Qed.

Lemma opens_tag_replace (c : char) (r t : str) :
  clean c = true -> opens_tag t = true -> opens_tag (replace_char c r t) = true.
Proof.
  unfold clean. intros Hc. apply negb_true_iff in Hc.
  apply orb_false_iff in Hc as [Hc Hc5]. apply orb_false_iff in Hc as [Hc Hc4].
  apply orb_false_iff in Hc as [Hc Hc3]. apply orb_false_iff in Hc as [Hc Hc2].
  assert (Hne : forall x P, P x = true -> P c = false -> ceqb x c = false).
  { intros x P Hx Hc'. destruct (ceqb x c) eqn:E; [|reflexivity].
    apply ceqb_eq in E. subst x. congruence. }
  destruct t as [|x t]; [discriminate|]. cbn [opens_tag]. intros Ht.
  unfold replace_char. cbn [flat_map].
  apply orb_true_iff in Ht as [Ht|Ht]; [apply orb_true_iff in Ht as [Ht|Ht]|].
  - rewrite (Hne x (one_of tag_initials) Ht Hc). cbn [app opens_tag].
    now rewrite Ht.
  - apply andb_true_iff in Ht as [Hx Ht].
    rewrite (Hne x (fun x => ceqb x (ch "h")) Hx Hc2). cbn [app opens_tag].
    destruct t as [|y t]; [discriminate|]. cbn [flat_map].
    rewrite (Hne y isHeadingTail Ht Hc5). cbn [app].
    rewrite Hx, Ht. cbn [andb]. now rewrite orb_true_r.
  - apply andb_true_iff in Ht as [Hx Ht].
    rewrite (Hne x (fun x => ceqb x (ch "s")) Hx Hc3). cbn [app opens_tag].
    destruct t as [|y t]; [discriminate|]. cbn [flat_map].
    rewrite (Hne y (fun x => ceqb x (ch "t")) Ht Hc4). cbn [app].
    rewrite Hx, Ht. apply orb_true_r.
Qed.

Lemma replace_char_ok (c : char) (r s : str) :
  clean c = true -> tags_ok r = true -> tags_ok s = true ->
  tags_ok (replace_char c r s) = true.
Proof.
  intros Hc Hr. induction s as [|x s IH]; [reflexivity|].
  cbn [tags_ok]. intros H. apply andb_true_iff in H as [H1 H2].
  specialize (IH H2). change (replace_char c r (x :: s))
    with ((if ceqb x c then r else [x]) ++ replace_char c r s).
  destruct (ceqb x c) eqn:E; [now apply tags_ok_app|].
  cbn [app tags_ok]. rewrite IH, andb_true_r.
  destruct (ceqb x c_lt); [|reflexivity]. now apply opens_tag_replace.
Qed.

Lemma has_char_replace (ps : str) (c : char) (r s : str) :
  has_char ps r = false ->
  (forall x, In x s -> ceqb x c = false -> one_of ps x = false) ->
  has_char ps (replace_char c r s) = false.
Proof.
  intros Hr. induction s as [|x s IH]; [reflexivity|]. intros Hs.
  change (replace_char c r (x :: s))
    with ((if ceqb x c then r else [x]) ++ replace_char c r s).
  rewrite has_char_app, IH by (intros; apply Hs; simpl; auto).
  rewrite orb_false_r. destruct (ceqb x c) eqn:E; [assumption|].
  unfold has_char. cbn [existsb]. rewrite (Hs x) by (simpl; auto). reflexivity.
Qed.

Lemma split_char_aux_ok (c : char) (s cur : str) :
  clean c = true -> tags_ok (rev cur ++ s) = true ->
  Forall (fun p => tags_ok p = true) (split_char_aux c cur s).
Proof.
  intros Hc. revert cur. induction s as [|x s IH]; intros cur H; cbn [split_char_aux].
  - constructor; [|constructor]. now rewrite app_nil_r in H.
  - destruct (ceqb x c) eqn:E.
    + apply ceqb_eq in E. subst x. constructor.
      * eapply tags_ok_prefix; eauto. now apply clean_closed.
      * apply IH. simpl. apply (tags_ok_suffix (rev cur ++ [c])).
        now rewrite <- app_assoc.
    + apply IH. cbn [rev]. now rewrite <- app_assoc.
Qed.

Lemma split_char_ok (c : char) (s : str) :
  clean c = true -> tags_ok s = true ->
  Forall (fun p => tags_ok p = true) (split_char c s).
Proof. intros Hc H. now apply split_char_aux_ok. Qed.

Lemma Forall_removelast (A : Type) (P : A -> Prop) (l : list A) :
  Forall P l -> Forall P (removelast l).
Proof.
  induction l as [|x l IH]; [auto|]. intros H. inversion H; subst.
  cbn [removelast]. destruct l; [constructor|]. constructor; auto.
Qed.

Lemma cells_ok (line : str) :
  tags_ok line = true -> Forall (fun p => tags_ok p = true) (cells line).
Proof.
  intros H. unfold cells.
  pose proof (split_char_ok (ch "|") line eq_refl H) as Hs.
  destruct (split_char (ch "|") line) as [|p t]; [constructor|].
  inversion Hs; subst. now apply Forall_removelast.
Qed.

(** ** The text searched for is not in a text with these tags only *)

Lemma tags_ok_no_script (s : str) :
  tags_ok s = true -> includes (u "<script") s = false.
Proof.
  induction s as [|x s IH]; [reflexivity|].
  cbn [tags_ok]. intros H. apply andb_true_iff in H as [H1 H2].
  cbn [includes]. rewrite (IH H2), orb_false_r.
  change (u "<script") with (c_lt :: ch "s" :: ch "c" :: u "ript").
  cbn [starts_with]. destruct (ceqb c_lt x) eqn:Ex; [|reflexivity].
  apply ceqb_eq in Ex. subst x. cbn [andb].
  change (ceqb c_lt c_lt) with true in H1. cbn iota in H1.
  destruct s as [|y [|z s]]; try reflexivity.
  - now rewrite andb_false_r.
  - destruct (ceqb (ch "s") y) eqn:Ey; [|reflexivity].
    destruct (ceqb (ch "c") z) eqn:Ez; [|reflexivity].
    apply ceqb_eq in Ey, Ez. subst y z. discriminate.
Qed.

(** ** The [$] patterns of a replacement string *)

Section Expand.
Variables mt before after : str.
Variable grp : list (option str).
Hypothesis mt_ok : tags_ok mt = true.
Hypothesis before_ok : tags_ok before = true.
Hypothesis after_ok : tags_ok after = true.
Hypothesis grp_ok : forallb group_ok grp = true.

Lemma expand_lit (x : char) (t : str) :
  ceqb x c_dollar = false ->
  expand (x :: t) mt before after grp = x :: expand t mt before after grp.
Proof. intros H. cbn [expand]. now rewrite H. Qed.

Lemma initial_not_dollar (x : char) :
  one_of tag_initials x = true -> ceqb x c_dollar = false.
Proof.
  intros H. destruct (ceqb x c_dollar) eqn:E; [|reflexivity].
  apply ceqb_eq in E. subst x. discriminate.
Qed.

Lemma eq_not_dollar (x y : char) :
  ceqb x y = true -> ceqb y c_dollar = false -> ceqb x c_dollar = false.
Proof. intros H. apply ceqb_eq in H. now subst. Qed.

Lemma tail_not_dollar (x : char) :
  isHeadingTail x = true -> ceqb x c_dollar = false.
Proof.
  intros H. destruct (ceqb x c_dollar) eqn:E; [|reflexivity].
  apply ceqb_eq in E. subst x. discriminate.
Qed.

Lemma opens_tag_expand (t : str) :
  opens_tag t = true -> opens_tag (expand t mt before after grp) = true.
Proof.
  destruct t as [|x t]; [discriminate|]. cbn [opens_tag]. intros H.
  apply orb_true_iff in H as [H|H]; [apply orb_true_iff in H as [H|H]|].
  - rewrite (expand_lit x t (initial_not_dollar x H)). cbn [opens_tag].
    now rewrite H.
  - apply andb_true_iff in H as [Hx Ht].
    rewrite (expand_lit x t (eq_not_dollar _ _ Hx eq_refl)).
    destruct t as [|y t]; [discriminate|].
    rewrite (expand_lit y t (tail_not_dollar y Ht)). cbn [opens_tag].
    rewrite Hx, Ht. cbn [andb]. now rewrite orb_true_r.
  - apply andb_true_iff in H as [Hx Ht].
    rewrite (expand_lit x t (eq_not_dollar _ _ Hx eq_refl)).
    destruct t as [|y t]; [discriminate|].
    rewrite (expand_lit y t (eq_not_dollar _ _ Ht eq_refl)). cbn [opens_tag].
    rewrite Hx, Ht. cbn [andb]. now rewrite orb_true_r.
Qed.

Lemma tags_ok_skip (x : char) (t : str) :
  ceqb x c_lt = false -> tags_ok (x :: t) = tags_ok t.
Proof. intros H. cbn [tags_ok]. now rewrite H. Qed.

Lemma digit_not_lt (d : char) : isDigit d = true -> ceqb d c_lt = false.
Proof.
  unfold isDigit, in_range, ceqb, c_lt. intros H.
  apply andb_true_iff in H as [H1 H2]. apply N.leb_le in H1, H2.
  apply N.eqb_neq. lia.
Qed.

Lemma nth_group_ok (p : nat) (g : str) :
  nth_error grp p = Some (Some g) -> tags_ok g = true.
Proof.
  intros H. apply nth_error_In in H.
  rewrite forallb_forall in grp_ok. apply (grp_ok _ H).
Qed.

Ltac capture_cases :=
  repeat match goal with
         | |- context [match ?n with O => None | S _ => _ end] => destruct n
         | |- context [nth_error grp ?p] =>
           let E := fresh "E" in destruct (nth_error grp p) as [[?|]|] eqn:E
         end.

Ltac capture_done :=
  first [ assumption
        | apply tags_ok_app; [eapply nth_group_ok; eassumption|assumption]
        | rewrite tags_ok_skip by reflexivity;
          rewrite tags_ok_skip by (apply digit_not_lt; assumption);
          assumption ].

Lemma expand_ok_n (n : nat) :
  forall tpl, length tpl <= n -> tags_ok tpl = true ->
              tags_ok (expand tpl mt before after grp) = true.
Proof.
  induction n as [|n IH]; intros [|x t] Hn Ht; try reflexivity;
    [simpl in Hn; lia|].
  simpl in Hn. pose proof Ht as Hxt.
  cbn [tags_ok] in Ht. apply andb_true_iff in Ht as [Hx Ht].
  assert (IHt : tags_ok (expand t mt before after grp) = true)
    by (apply IH; [lia|assumption]).
  destruct (ceqb x c_dollar) eqn:Ed.
  - apply ceqb_eq in Ed. subst x. cbn [expand].
    change (ceqb c_dollar c_dollar) with true. cbn [negb].
    destruct t as [|d t']; [reflexivity|].
    cbn [tags_ok] in Ht. apply andb_true_iff in Ht as [Hd Ht'].
    simpl in Hn.
    assert (IH' : tags_ok (expand t' mt before after grp) = true)
      by (apply IH; [lia|assumption]).
    destruct (ceqb d c_dollar); [now rewrite tags_ok_skip by reflexivity|].
    destruct (ceqb d (ch "&")); [now apply tags_ok_app|].
    destruct (ceqb d (ch "`")); [now apply tags_ok_app|].
    destruct (ceqb d c_squote); [now apply tags_ok_app|].
    destruct (isDigit d) eqn:Edig;
      [|now rewrite tags_ok_skip by reflexivity].
    destruct t' as [|d2 t''].
    + capture_cases; capture_done.
    + cbn [tags_ok] in Ht'. apply andb_true_iff in Ht' as [Hd2 Ht''].
      simpl in Hn.
      assert (IH'' : tags_ok (expand t'' mt before after grp) = true)
        by (apply IH; [lia|assumption]).
      destruct (isDigit d2); capture_cases; capture_done.
  - rewrite (expand_lit x t Ed). cbn [tags_ok]. rewrite IHt, andb_true_r.
    destruct (ceqb x c_lt); [|reflexivity]. now apply opens_tag_expand.
Qed.

Lemma expand_ok (tpl : str) :
  tags_ok tpl = true -> tags_ok (expand tpl mt before after grp) = true.
Proof. apply (expand_ok_n (length tpl)). lia. Qed.

End Expand.

(** ** The matches of a scan, and what is built from them *)

Lemma scan_in (fl : flags) (s : str) (r : regex) :
  forall fuel i m,
    In m (scan fl s r fuel i) ->
    exists a j c, m = (a, j, c) /\ match_at fl s r a = Some (j, c).
Proof.
  induction fuel as [|fuel IH]; intros i m; cbn [scan]; [contradiction|].
  destruct (length s <? i); [contradiction|].
  destruct (match_at fl s r i) as [[j c]|] eqn:E.
  - intros [<-|H]; eauto.
  - eauto.
Qed.

Lemma all_matches_in (fl : flags) (r : regex) (s : str) (mi : rmatch_info) :
  In mi (all_matches fl r s) ->
  exists i j c, mi = info_of s r (i, j, c) /\ matches fl s r i [] j c.
Proof.
  unfold all_matches, scan_all. intros H.
  apply in_map_iff in H as (m & <- & H).
  apply scan_in in H as (a & j & c & -> & H).
  exists a, j, c. split; [reflexivity|]. now apply match_at_sound.
Qed.

Lemma search_some (fl : flags) (s : str) (r : regex) :
  forall fuel i a j c,
    search fl s r fuel i = Some (a, j, c) -> match_at fl s r a = Some (j, c).
Proof.
  induction fuel as [|fuel IH]; intros i a j c; cbn [search]; [discriminate|].
  destruct (match_at fl s r i) as [[j' c']|] eqn:E.
  - now intros [= <- <- <-].
  - apply IH.
Qed.

Lemma match_first_some (fl : flags) (r : regex) (s : str) (mi : rmatch_info) :
  match_first fl r s = Some mi ->
  exists i j c, mi = info_of s r (i, j, c) /\ matches fl s r i [] j c.
Proof.
  unfold match_first, exec.
  destruct (search fl s r _ 0) as [[[a j] c]|] eqn:E; [|discriminate].
  intros [= <-]. apply search_some in E.
  exists a, j, c. split; [reflexivity|]. now apply match_at_sound.
Qed.

Lemma cap_lookup_in (c : caps) (k a b : nat) :
  cap_lookup c k = Some (a, b) -> exists g, In (g, (a, b)) c.
Proof.
  induction c as [|[g se] c IH]; cbn [cap_lookup]; [discriminate|].
  destruct (g =? k).
  - intros [= ->]. exists g. now left.
  - intros H. destruct (IH H) as [g' Hg]. exists g'. now right.
Qed.

Lemma groups_of_ok (s : str) (n : nat) (c : caps) :
  caps_ok s c = true -> forallb group_ok (groups_of s n c) = true.
Proof.
  unfold caps_ok, groups_of. intros H. apply forallb_forall. intros g Hg.
  apply in_map_iff in Hg as (k & <- & _).
  destruct (cap_lookup c k) as [[a b]|] eqn:E; [|reflexivity].
  apply cap_lookup_in in E as [g E]. rewrite forallb_forall in H.
  apply (H _ E).
Qed.

Lemma group_str_ok (s : str) (r : regex) (i j : nat) (c : caps) (n : nat) :
  caps_ok s c = true -> tags_ok (group_str (info_of s r (i, j, c)) n) = true.
Proof.
  intros H. unfold group_str, group. destruct n as [|p]; [reflexivity|].
  cbn [info_of m_groups].
  pose proof (groups_of_ok s (group_count r) c H) as Hg.
  rewrite forallb_forall in Hg.
  destruct (nth_in_or_default p (groups_of s (group_count r) c) None) as [Hin| ->];
    [|reflexivity].
  specialize (Hg _ Hin).
  destruct (nth p (groups_of s (group_count r) c) None); [exact Hg|reflexivity].
Qed.

Section Build.
Variable St : Type.
Variable f : St -> rmatch_info -> str * St.
Variable s : str.
Hypothesis s_ok : tags_ok s = true.

Lemma build_ok (ms : list rmatch_info) :
  (forall st mi, In mi ms ->
                 tags_ok (firstn (m_start mi) s) = true
                 /\ tags_ok (fst (f st mi)) = true) ->
  forall pos st, tags_ok (fst (build f s pos ms st)) = true.
Proof.
  induction ms as [|mi ms IH]; intros H pos st; cbn [build].
  - now apply tags_ok_skipn.
  - destruct (H st mi (or_introl eq_refl)) as [H1 H2].
    destruct (f st mi) as [r st1].
    specialize (IH (fun st' m Hm => H st' m (or_intror Hm)) (m_end mi) st1).
    destruct (build f s (m_end mi) ms st1) as [rest st2]. cbn [fst] in *.
    apply tags_ok_app; [now apply slice_ok|]. now apply tags_ok_app.
Qed.

Lemma build_inv (P : St -> Prop) (ms : list rmatch_info) :
  (forall st mi, In mi ms -> P st -> P (snd (f st mi))) ->
  forall pos st, P st -> P (snd (build f s pos ms st)).
Proof.
  induction ms as [|mi ms IH]; intros H pos st Hst; cbn [build]; [exact Hst|].
  pose proof (H st mi (or_introl eq_refl) Hst) as H1.
  destruct (f st mi) as [r st1].
  specialize (IH (fun st' m Hm => H st' m (or_intror Hm)) (m_end mi) st1 H1).
  destruct (build f s (m_end mi) ms st1) as [rest st2]. exact IH.
Qed.

Variable fl : flags.
Variable r : regex.

Lemma replace_st_ok (st : St) :
  (forall st i j c, matches fl s r i [] j c ->
                    tags_ok (firstn i s) = true
                    /\ tags_ok (fst (f st (info_of s r (i, j, c)))) = true) ->
  tags_ok (fst (replace_st fl r f s st)) = true.
Proof.
  intros H. unfold replace_st. apply build_ok. intros st' mi Hmi.
  apply all_matches_in in Hmi as (i & j & c & -> & Hm). now apply H.
Qed.

Lemma replace_st_inv (P : St -> Prop) (st : St) :
  (forall st i j c, matches fl s r i [] j c -> P st ->
                    P (snd (f st (info_of s r (i, j, c))))) ->
  P st -> P (snd (replace_st fl r f s st)).
Proof.
  intros H. unfold replace_st. apply build_inv. intros st' mi Hmi.
  apply all_matches_in in Hmi as (i & j & c & -> & Hm). now apply H.
Qed.

End Build.

Section Replace.
Variable fl : flags.
Variable r : regex.
Variable s : str.
Hypothesis s_ok : tags_ok s = true.

Lemma replace_fn_ok (f : rmatch_info -> str) :
  (forall i j c, matches fl s r i [] j c ->
                 tags_ok (firstn i s) = true
                 /\ tags_ok (f (info_of s r (i, j, c))) = true) ->
  tags_ok (replace_fn fl r f s) = true.
Proof.
  intros H. unfold replace_fn. apply replace_st_ok; [assumption|].
  intros _ i j c Hm. now apply H.
Qed.

Lemma replace_tpl_ok (tpl : str) :
  tags_ok tpl = true -> sites_ok fl r s ->
  tags_ok (replace_tpl fl r tpl s) = true.
Proof.
  intros Ht H. unfold replace_tpl. apply replace_fn_ok.
  intros i j c Hm. destruct (H i j c Hm) as (H1 & H2 & H3).
  split; [assumption|]. cbn [info_of m_start m_end m_groups matched].
  apply expand_ok; try assumption.
  - now apply tags_ok_skipn.
  - now apply groups_of_ok.
Qed.

Lemma replace_first_tpl_ok (tpl : str) :
  tags_ok tpl = true -> sites_ok fl r s ->
  tags_ok (replace_first_tpl fl r tpl s) = true.
Proof.
  intros Ht H. unfold replace_first_tpl.
  destruct (match_first fl r s) as [mi|] eqn:E; [|assumption].
  apply match_first_some in E as (i & j & c & -> & Hm).
  destruct (H i j c Hm) as (H1 & H2 & H3).
  cbn [info_of m_start m_end m_groups matched].
  apply tags_ok_app; [assumption|]. apply tags_ok_app.
  - apply expand_ok; try assumption.
    + now apply tags_ok_skipn.
    + now apply groups_of_ok.
  - now apply tags_ok_skipn.
Qed.

Lemma split_loop_ok :
  (forall q e c, matches fl s r q [] e c -> tags_ok (firstn q s) = true) ->
  forall fuel p q,
    Forall (fun t => tags_ok t = true) (split_loop fl r s fuel p q).
Proof.
  intros H. induction fuel as [|fuel IH]; intros p q; cbn [split_loop].
  - constructor; [|constructor]. now apply tags_ok_skipn.
  - destruct (length s <=? q).
    { constructor; [|constructor]. now apply tags_ok_skipn. }
    destruct (match_at fl s r q) as [[e c]|] eqn:E; [|apply IH].
    apply match_at_sound in E.
    destruct (Nat.min e (length s) =? p); [apply IH|].
    constructor; [|apply IH]. apply slice_ok. eapply H; eauto.
Qed.

End Replace.

Lemma split_re_ok (fl : flags) (r : regex) (s : str) :
  tags_ok s = true ->
  (forall q e c, matches fl s r q [] e c -> tags_ok (firstn q s) = true) ->
  Forall (fun t => tags_ok t = true) (split_re fl r s).
Proof.
  intros Hs H. unfold split_re.
  pose proof (split_loop_ok fl r s Hs H (S (length s)) 0 0) as Hl.
  destruct s as [|x t]; [|exact Hl].
  destruct (match_at fl [] r 0); constructor; [reflexivity|constructor].
Qed.

(** ** The matches of the stages *)

#[local] Arguments atBol : simpl never.
#[local] Arguments atEol : simpl never.
#[local] Arguments behind : simpl never.

Lemma iter_final (R : step_rel) (n : nat) :
  forall i c j c', 0 < n -> iter n R i c j c' -> exists m c1, R m c1 j c'.
Proof.
  induction n as [|n IH]; intros i c j c' Hn; [lia|]. cbn [iter].
  intros (m & c1 & H1 & H2). destruct n as [|n].
  - cbn [iter] in H2. destruct H2 as [-> ->]. eauto.
  - eapply IH; [lia|eauto].
Qed.

Lemma iter_keeps (R : step_rel) (n : nat) :
  (forall i c j c', R i c j c' -> c' = c) ->
  forall i c j c', iter n R i c j c' -> c' = c.
Proof.
  intros HR. induction n as [|n IH]; intros i c j c'; cbn [iter].
  - now intros [_ ->].
  - intros (m & c1 & H1 & H2). apply HR in H1. apply IH in H2. congruence.
Qed.

Ltac keeps H :=
  apply iter_keeps in H; [|clear H; intros; break; subst; reflexivity].

Lemma hr_sites (s : str) : tags_ok s = true -> sites_ok f_m re_hr s.
Proof.
  intros Hs i j c H. unfold_match H. break; subst;
    match goal with Hi : iter _ _ _ _ _ _ |- _ => keeps Hi end; subst;
    (split; [eapply cut_bol; eauto|]);
    (split; [apply slice_ok; eapply cut_eol; eauto|reflexivity]).
Qed.

Lemma heading_sites (s : str) (n : nat) :
  tags_ok s = true -> 1 <= n <= 6 -> sites_ok f_m (re_heading n) s.
Proof.
  intros Hs Hn i j c H.
  assert (Hcase : n = 1 \/ n = 2 \/ n = 3 \/ n = 4 \/ n = 5 \/ n = 6) by lia.
  destruct Hcase as [->|[->|[->|[->|[->| ->]]]]];
    unfold_match H; break; subst;
    match goal with Hi : iter _ _ _ _ _ _ |- _ => keeps Hi end; subst;
    (split; [eapply cut_bol; eauto|]);
    (split; [apply slice_ok; eapply cut_eol; eauto|]);
    cbn [caps_ok forallb fst snd]; rewrite andb_true_r;
    apply slice_ok; eapply cut_eol; eauto.
Qed.

Lemma caps_ok_cons (s : str) (g a b : nat) (c : caps) :
  tags_ok (firstn b s) = true -> caps_ok s c = true ->
  caps_ok s ((g, (a, b)) :: c) = true.
Proof.
  intros H1 H2. unfold caps_ok in *. cbn [forallb fst snd].
  now rewrite (slice_ok s a b H1), H2.
Qed.

Ltac all_keeps :=
  repeat match goal with Hi : iter _ _ _ _ _ _ |- _ => keeps Hi end.

Ltac at_char :=
  eapply cut_at_char; [eassumption|eassumption|reflexivity].
Ltac after_char :=
  eapply cut_after; [eassumption|eassumption|reflexivity].
Ltac caps_by tac :=
  repeat (apply caps_ok_cons; [tac|]); reflexivity.

Lemma link_sites (s : str) : tags_ok s = true -> sites_ok f_none re_link s.
Proof.
  intros Hs i j c H. unfold_match H. break; subst. all_keeps. subst.
  char_eqs. subst.
  split; [at_char|]. split; [apply slice_ok; after_char|]. caps_by at_char.
Qed.

Lemma pair2_sites (s : str) (a : ascii) :
  tags_ok s = true -> clean (ch a) = true -> settled (ch a) = true ->
  sites_ok f_none (re_pair2 a) s.
Proof.
  intros Hs Hc Hd i j c H. unfold_match H. break; subst. all_keeps. subst.
  char_eqs. subst.
  split; [eapply cut_at_char; eauto|].
  split; [apply slice_ok; eapply cut_after; eauto|].
  caps_by ltac:(eapply cut_at_char; eauto).
Qed.

Lemma em_sites (s : str) : tags_ok s = true -> sites_ok f_none re_em s.
Proof.
  intros Hs i j c H. unfold_match H. break; subst. all_keeps. subst.
  char_eqs. subst.
  split; [at_char|]. split; [apply slice_ok; after_char|]. caps_by at_char.
Qed.

(** *** Runs without [<] *)

Lemma lt_free_refl (s : str) (a : nat) : lt_free s a a.
Proof. split; [lia|]. intros k y Hk. lia. Qed.

Lemma lt_free_step (s : str) (k : nat) (y : char) :
  idx s k = Some y -> ceqb y c_lt = false -> lt_free s k (S k).
Proof.
  intros Hy Hn. split; [lia|]. intros k' y' Hk Hy'.
  assert (k' = k) by lia. subst k'. congruence.
Qed.

Lemma lt_free_trans (s : str) (a b c : nat) :
  lt_free s a b -> lt_free s b c -> lt_free s a c.
Proof.
  intros [H1 H2] [H3 H4]. split; [lia|]. intros k y Hk Hy.
  destruct (Nat.lt_ge_cases k b); [eapply H2|eapply H4]; eauto; lia.
Qed.

Lemma iter_free (s : str) (P : char -> bool) (n : nat) :
  (forall y, P y = true -> ceqb y c_lt = false) ->
  forall i c j c',
    iter n (fun i c j c' => exists y, idx s i = Some y /\ P y = true
                                      /\ j = S i /\ c' = c) i c j c' ->
    lt_free s i j.
Proof.
  intros HP. induction n as [|n IH]; intros i c j c'; cbn [iter].
  - intros [-> _]. apply lt_free_refl.
  - intros (m & c1 & (y & Hy & Hp & -> & ->) & H).
    eapply lt_free_trans; [|eapply IH; eauto].
    eapply lt_free_step; eauto.
Qed.

Lemma lt_free_slice (s : str) (a b : nat) :
  lt_free s a b -> has_char [c_lt] (slice s a b) = false.
Proof.
  intros [Hab H]. destruct (has_char [c_lt] (slice s a b)) eqn:E; [|reflexivity].
  unfold has_char in E. apply existsb_exists in E as (x & Hx & Hc).
  unfold slice in Hx. apply In_nth_error in Hx as [k Hk].
  rewrite nth_error_firstn in Hk.
  destruct (k <? b - a) eqn:Ek; [|discriminate]. apply Nat.ltb_lt in Ek.
  rewrite nth_error_skipn in Hk.
  assert (Hn : ceqb x c_lt = false) by (apply (H (a + k) x); [lia|exact Hk]).
  unfold one_of in Hc. cbn [existsb] in Hc. rewrite orb_false_r in Hc. congruence.
Qed.

Lemma lt_free_cut (s : str) (a b : nat) :
  tags_ok (firstn a s) = true -> lt_free s a b -> tags_ok (firstn b s) = true.
Proof.
  intros Ha Hf. apply (cut_later s a b); [apply Hf|assumption|].
  now apply lt_free_slice.
Qed.

Ltac not_lt :=
  let y := fresh "y" in
  let Hy := fresh "Hy" in
  let E := fresh "E" in
  intros y Hy; destruct (ceqb y c_lt) eqn:E; [|reflexivity];
  apply ceqb_eq in E; subst y; vm_compute in Hy; discriminate Hy.

Ltac free_of H :=
  apply iter_free in H; [|not_lt].

Ltac keeps_and_free :=
  repeat match goal with
         | Hi : iter _ _ _ ?c0 _ ?c1 |- _ =>
           assert (c1 = c0) by (eapply iter_keeps; [|exact Hi];
                                intros; cbv beta in *; break; subst; reflexivity);
           free_of Hi
         end.

Ltac chain :=
  repeat first
         [ apply lt_free_refl
         | eassumption
         | eapply lt_free_trans;
           [eapply lt_free_step; [eassumption|first [reflexivity|assumption]]|]
         | eapply lt_free_trans; [eassumption|] ].

Lemma autolink_sites (s : str) : tags_ok s = true -> sites_ok f_none re_autolink s.
Proof.
  intros Hs i j c H. unfold_match H. break; subst.
  keeps_and_free. subst. char_eqs. subst.
  match goal with
  | Hy : idx s ?k = Some ?y, Hset : (if in_ranges _ ?y then false else true) = true
    |- _ =>
    assert (Hlast : ceqb y c_lt = false)
      by (destruct (ceqb y c_lt) eqn:E; [|reflexivity];
          apply ceqb_eq in E; subst y; vm_compute in Hset; discriminate Hset)
  end.
  match goal with
  | |- _ /\ tags_ok (slice s ?a ?b) = true /\ _ =>
    assert (Hf : lt_free s a b) by chain
  end.
  assert (Hi : tags_ok (firstn i s) = true).
  { apply cut_at; [assumption|].
    match goal with
    | H1 : idx s i = Some _, H2 : idx s (S i) = Some _ |- _ =>
      rewrite (idx_skipn _ _ _ H1), (idx_skipn _ _ _ H2)
    end.
    reflexivity. }
  split; [assumption|]. split; [now apply no_lt_ok, lt_free_slice|].
  caps_by ltac:(eapply lt_free_cut; eassumption).
Qed.

Ltac deep_keeps :=
  idtac; intros; cbv beta in *; cbn [matches set] in *; break; subst;
  repeat match goal with
         | Hm : matches _ _ ?r _ _ _ _,
           Hk : forall i c j c', matches _ _ ?r i c j c' -> c' = c |- _ =>
           apply Hk in Hm
         | Hi : iter _ _ _ _ _ _ |- _ =>
           apply iter_keeps in Hi; [|clear Hi; deep_keeps]
         end;
  subst; reflexivity.

(** The last round of a repetition, and the captures it leaves alone. *)
Ltac last_round :=
  match goal with
  | Hn : 1 <= ?n, Hi : iter ?n _ _ ?c0 _ ?c1 |- _ =>
    assert (c1 = c0) by (eapply iter_keeps; [|exact Hi]; clear Hi; deep_keeps);
    apply iter_final in Hi; [|lia]; cbv beta in Hi
  end.

Ltac end_cut :=
  first [ eapply cut_bol; eassumption
        | eapply cut_eol; eassumption
        | after_char
        | at_char ].

Lemma quote_sites (s : str) : tags_ok s = true -> sites_ok f_m re_quote s.
Proof.
  intros Hs i j c H. unfold_match H. break; subst;
    last_round; break; subst; char_eqs; subst;
    (split; [end_cut|]); (split; [apply slice_ok; end_cut|]);
    caps_by end_cut.
Qed.

Lemma list_sites (s : str) (mark : regex) :
  tags_ok s = true ->
  (forall i c j c', matches f_none s mark i c j c' -> c' = c) ->
  sites_ok f_none (re_list mark) s.
Proof.
  intros Hs Hmark i j c H. unfold re_list in H.
  cbn [seqs matches bol_or_nl nl_or_eol plus blanks star] in H.
  unfold char_match in H. cbn [icase f_none] in H.
  break; subst;
    last_round; break; subst; char_eqs; subst;
    (split; [end_cut|]); (split; [apply slice_ok; end_cut|]);
    caps_by end_cut.
Qed.

Lemma bullet_keeps (s : str) :
  forall i c j c', matches f_none s r_bullet i c j c' -> c' = c.
Proof. intros i c j c' H. unfold_match H. break. now subst. Qed.

Lemma number_dot_keeps (s : str) :
  forall i c j c', matches f_none s r_number_dot i c j c' -> c' = c.
Proof.
  intros i c j c' H. unfold_match H. break. subst. all_keeps. now subst.
Qed.

Ltac caps_all :=
  repeat match goal with
         | Hi : iter _ _ _ ?c0 _ ?c1 |- _ =>
           tryif constr_eq c0 c1 then fail
           else (assert (c1 = c0)
                  by (eapply iter_keeps; [|exact Hi]; clear Hi; deep_keeps);
                 subst c1)
         end.

(** The round of a repetition that ends where the match ends. *)
Ltac final_round :=
  match goal with
  | Hi : iter ?n _ _ _ ?j _ |- _ /\ tags_ok (slice _ _ ?j) = true /\ _ =>
    destruct n;
    [ cbn [iter] in Hi; destruct Hi; subst
    | apply iter_final in Hi; [|lia]; cbv beta in Hi; break; subst ]
  end.

Lemma table_sites (s : str) : tags_ok s = true -> sites_ok f_m re_table s.
Proof.
  intros Hs i j c H. unfold_match H. break; subst; caps_all;
    (final_round; [lia|]); final_round; char_eqs; subst;
    (split; [end_cut|]); (split; [apply slice_ok; end_cut|]);
    caps_by end_cut.
Qed.

(** ** The tags that the stages write *)

Lemma open_ok (tag rest : str) :
  opens_tag tag = true -> tags_ok (tag ++ rest) = true ->
  tags_ok (u "<" ++ tag ++ rest) = true.
Proof.
  intros Ht Hr. change (u "<") with [c_lt]. cbn [app tags_ok].
  change (ceqb c_lt c_lt) with true. cbn iota.
  now rewrite (opens_tag_app tag rest Ht), Hr.
Qed.

Lemma close_ok (rest : str) :
  tags_ok rest = true -> tags_ok (u "</" ++ rest) = true.
Proof. intros H. apply (tags_ok_app (u "</") rest); [reflexivity|exact H]. Qed.

Lemma wrap_ok (tag body rest : str) :
  opens_tag tag = true -> tags_ok tag = true -> tags_ok body = true ->
  tags_ok rest = true ->
  tags_ok (u "<" ++ tag ++ u ">" ++ body ++ u "</" ++ tag ++ u ">" ++ rest) = true.
Proof.
  intros Ho Ht Hb Hr. apply open_ok; [assumption|].
  apply tags_ok_app; [assumption|].
  apply (tags_ok_app (u ">")); [reflexivity|].
  apply tags_ok_app; [assumption|]. apply close_ok.
  apply tags_ok_app; [assumption|].
  apply (tags_ok_app (u ">")); [reflexivity|assumption].
Qed.

Lemma flat_map_ok (A : Type) (f : A -> str) (l : list A) :
  (forall x, In x l -> tags_ok (f x) = true) -> tags_ok (flat_map f l) = true.
Proof.
  induction l as [|x l IH]; intros H; [reflexivity|]. cbn [flat_map].
  apply tags_ok_app; [apply H; now left|]. apply IH. intros y Hy. apply H. now right.
Qed.

Lemma nth_ok (l : list str) (i : nat) :
  Forall (fun t => tags_ok t = true) l -> tags_ok (nth i l []) = true.
Proof.
  intros H. destruct (nth_in_or_default i l []) as [Hin| ->]; [|reflexivity].
  rewrite Forall_forall in H. now apply H.
Qed.

Lemma Forall_map_ok (f : str -> str) (l : list str) :
  (forall t, tags_ok t = true -> tags_ok (f t) = true) ->
  Forall (fun t => tags_ok t = true) l ->
  Forall (fun t => tags_ok t = true) (map f l).
Proof.
  intros Hf H. induction H; cbn [map]; constructor; auto.
Qed.

(** *** Line breaks and block quotes *)

Lemma nl_sites (s : str) :
  tags_ok s = true ->
  forall q e c, matches f_none s re_nl q [] e c -> tags_ok (firstn q s) = true.
Proof.
  intros Hs q e c H. unfold_match H. break; subst. char_eqs. subst. at_char.
Qed.

Lemma lines_ok (s : str) :
  tags_ok s = true ->
  Forall (fun t => tags_ok t = true) (split_re f_none re_nl s).
Proof. intros Hs. apply split_re_ok; [assumption|]. now apply nl_sites. Qed.

Lemma space_settled (y : char) : isSpace y = true -> settled y = true.
Proof.
  intros H. apply space_range in H. unfold settled, ceqb, c_lt.
  change (ch "h") with 104%N. change (ch "s") with 115%N.
  split_cmp; reflexivity.
Qed.

Lemma quote_mark_sites (s : str) :
  tags_ok s = true -> sites_ok f_none re_quote_mark s.
Proof.
  intros Hs i j c H. unfold_match H. break; subst. caps_all.
  final_round; char_eqs; subst;
    (split; [end_cut|]);
    (split; [|reflexivity]); apply slice_ok.
  - after_char.
  - eapply cut_after; [eassumption|eassumption|].
    apply space_settled, in_space. assumption.
Qed.

Lemma quoteHTML_ok (s : str) (r : regex) (i j : nat) (c : caps) :
  caps_ok s c = true -> tags_ok (quoteHTML (info_of s r (i, j, c))) = true.
Proof.
  intros Hc. unfold quoteHTML.
  apply (tags_ok_app [c_nl]); [reflexivity|].
  apply (tags_ok_app (u "<blockquote>")); [reflexivity|].
  apply tags_ok_app; [|reflexivity].
  apply join_ok; [reflexivity|].
  apply Forall_map_ok.
  - intros t Ht. apply replace_first_tpl_ok; [assumption|reflexivity|].
    now apply quote_mark_sites.
  - apply lines_ok, trim_ok. now apply group_str_ok.
Qed.

(** *** Lists *)

Lemma nestedLines_ok (P : str -> Prop) (k : nat) (lines : list str) :
  Forall P lines ->
  Forall P (fst (nestedLines k lines)) /\ Forall P (snd (nestedLines k lines)).
Proof.
  induction lines as [|l lines IH]; intros H; cbn [nestedLines].
  - split; constructor.
  - inversion H as [|? ? Hl Hr]; subst. specialize (IH Hr).
    destruct (match_first f_none re_item_head l) as [m|]; [|now split].
    destruct (length (group_str m 1) <=? k); [now split|].
    destruct (nestedLines k lines) as [n r]. cbn [fst snd] in *.
    destruct IH. split; [now constructor|assumption].
Qed.

Lemma item_content_ok (line : str) (m : rmatch_info) :
  tags_ok line = true -> match_first f_none re_item line = Some m ->
  tags_ok (group_str m 3) = true.
Proof.
  intros Hs Hm. apply match_first_some in Hm as (i & j & c & -> & H).
  unfold_match H. break; subst; caps_all; subst;
    cbn; apply slice_ok; end_cut.
Qed.

Lemma parseList_ok (fuel : nat) :
  forall lines, Forall (fun t => tags_ok t = true) lines ->
                tags_ok (parseList fuel lines) = true.
Proof.
  induction fuel as [|fuel IH]; intros lines H; cbn [parseList]; [reflexivity|].
  destruct lines as [|line rest]; [reflexivity|].
  inversion H as [|? ? Hl Hr]; subst.
  destruct (match_first f_none re_item line) as [m|] eqn:Em; [|reflexivity].
  pose proof (item_content_ok line m Hl Em) as Hc.
  pose proof (nestedLines_ok (fun t => tags_ok t = true)
                (length (group_str m 1)) rest Hr) as [Hn Hrest].
  destruct (nestedLines (length (group_str m 1)) rest) as [nested rest'].
  cbn [fst snd] in *.
  apply (tags_ok_app (u "<li>")); [reflexivity|].
  apply tags_ok_app; [|apply (tags_ok_app (u "</li>")); [reflexivity|now apply IH]].
  destruct nested as [|first nested']; [assumption|].
  apply tags_ok_app; [assumption|].
  match goal with
  | |- context [if ?b then u "ol" else u "ul"] => destruct b
  end;
    (rewrite <- (app_nil_r (u ">")) at 2; apply wrap_ok;
     [reflexivity|reflexivity|now apply IH|reflexivity]).
Qed.

Lemma listHTML_ok (tag : string) (s : str) (r : regex) (i j : nat) (c : caps) :
  opens_tag (u tag) = true -> tags_ok (u tag) = true ->
  caps_ok s c = true -> tags_ok (listHTML tag (info_of s r (i, j, c))) = true.
Proof.
  intros Ho Ht Hc. unfold listHTML.
  apply (tags_ok_app [c_nl]); [reflexivity|].
  apply wrap_ok; try assumption; [|reflexivity].
  apply parseList_ok, lines_ok, trim_ok. now apply group_str_ok.
Qed.

(** *** Tables *)

Lemma alignment_ok (cell : str) : tags_ok (alignment cell) = true.
Proof.
  unfold alignment.
  repeat match goal with |- context [if ?b then _ else _] => destruct b end;
    reflexivity.
Qed.

Lemma rowCells_ok (tag : str) (alignments : list str) :
  opens_tag tag = true -> tags_ok tag = true ->
  Forall (fun t => tags_ok t = true) alignments ->
  forall cs i, Forall (fun t => tags_ok t = true) cs ->
               tags_ok (rowCells tag alignments i cs) = true.
Proof.
  intros Ho Ht Ha. induction cs as [|cell cs IH]; intros i H; [reflexivity|].
  inversion H as [|? ? Hc Hr]; subst. cbn [rowCells].
  apply open_ok; [assumption|].
  apply tags_ok_app; [assumption|].
  apply tags_ok_app.
  { destruct (truthy (nth i alignments [])); [|reflexivity].
    apply (tags_ok_app (q " align='")); [reflexivity|].
    apply tags_ok_app; [now apply nth_ok|reflexivity]. }
  apply (tags_ok_app (u ">")); [reflexivity|].
  apply tags_ok_app; [assumption|]. apply close_ok.
  apply tags_ok_app; [assumption|].
  apply (tags_ok_app (u ">")); [reflexivity|]. now apply IH.
Qed.

Lemma tableHTML_ok (s : str) (r : regex) (i j : nat) (c : caps) :
  caps_ok s c = true -> tags_ok (tableHTML (info_of s r (i, j, c))) = true.
Proof.
  intros Hc. unfold tableHTML.
  pose proof (group_str_ok s r i j c 1 Hc) as Hg.
  set (g := group_str (info_of s r (i, j, c)) 1) in *.
  pose proof (lines_ok (trim g) (trim_ok g Hg)) as Hl.
  set (lines := split_re f_none re_nl (trim g)) in *.
  destruct (length lines <? 2); [assumption|].
  assert (Ha : Forall (fun t => tags_ok t = true)
                      (map alignment (cells (nth 1 lines [])))).
  { apply Forall_forall. intros t Ht. apply in_map_iff in Ht as (x & <- & _).
    apply alignment_ok. }
  assert (Hrow : forall line, tags_ok line = true ->
                   Forall (fun t => tags_ok t = true) (map trim (cells line))).
  { intros line Hline. apply Forall_map_ok; [apply trim_ok|now apply cells_ok]. }
  apply (tags_ok_app [c_nl]); [reflexivity|].
  apply (tags_ok_app (u "<table><thead><tr>")); [reflexivity|].
  apply tags_ok_app.
  { apply rowCells_ok; try reflexivity; [assumption|]. apply Hrow. now apply nth_ok. }
  apply (tags_ok_app (u "</tr></thead>")); [reflexivity|].
  apply (tags_ok_app (u "<tbody>")); [reflexivity|].
  apply tags_ok_app; [|reflexivity].
  apply flat_map_ok. intros line Hline.
  apply (tags_ok_app (u "<tr>")); [reflexivity|].
  apply tags_ok_app; [|reflexivity].
  apply rowCells_ok; try reflexivity; [assumption|]. apply Hrow.
  rewrite Forall_forall in Hl. apply Hl.
  rewrite <- (firstn_skipn 2 lines). apply in_or_app. now right.
Qed.

(** ** The stages on the escaped text *)

Lemma stage_tpl (fl : flags) (r : regex) (tpl s : str) :
  tags_ok tpl = true ->
  (forall t, tags_ok t = true -> sites_ok fl r t) ->
  tags_ok s = true -> tags_ok (replace_tpl fl r tpl s) = true.
Proof. intros Ht Hr Hs. apply replace_tpl_ok; auto. Qed.

Lemma stage_fn (fl : flags) (r : regex) (f : rmatch_info -> str) (s : str) :
  (forall t, tags_ok t = true -> sites_ok fl r t) ->
  (forall t i j c, caps_ok t c = true -> tags_ok (f (info_of t r (i, j, c))) = true) ->
  tags_ok s = true -> tags_ok (replace_fn fl r f s) = true.
Proof.
  intros Hr Hf Hs. apply replace_fn_ok; [assumption|].
  intros i j c Hm. destruct (Hr s Hs i j c Hm) as (H1 & _ & H3). auto.
Qed.

Lemma blocks_ok (md : str) : tags_ok md = true -> tags_ok (blocks md) = true.
Proof.
  intros H. unfold blocks.
  apply stage_fn;
    [exact table_sites|intros; now apply tableHTML_ok|].
  apply stage_fn;
    [intros; apply list_sites; [assumption|apply number_dot_keeps]
    |intros; now apply listHTML_ok|].
  apply stage_fn;
    [intros; apply list_sites; [assumption|apply bullet_keeps]
    |intros; now apply listHTML_ok|].
  apply stage_tpl; [reflexivity|exact em_sites|].
  apply stage_tpl; [reflexivity|intros; now apply pair2_sites|].
  apply stage_tpl; [reflexivity|intros; now apply pair2_sites|].
  apply stage_tpl; [reflexivity|intros; now apply pair2_sites|].
  apply stage_tpl; [reflexivity|exact autolink_sites|].
  apply stage_tpl; [reflexivity|exact link_sites|].
  apply stage_tpl; [reflexivity|intros; apply heading_sites; [assumption|lia]|].
  apply stage_tpl; [reflexivity|intros; apply heading_sites; [assumption|lia]|].
  apply stage_tpl; [reflexivity|intros; apply heading_sites; [assumption|lia]|].
  apply stage_tpl; [reflexivity|intros; apply heading_sites; [assumption|lia]|].
  apply stage_tpl; [reflexivity|intros; apply heading_sites; [assumption|lia]|].
  apply stage_tpl; [reflexivity|intros; apply heading_sites; [assumption|lia]|].
  apply stage_fn; [exact quote_sites|intros; now apply quoteHTML_ok|].
  apply stage_tpl; [reflexivity|exact hr_sites|].
  exact H.
Qed.

(** ** Paragraphs *)

Lemma blank_lines_sites (s : str) :
  tags_ok s = true ->
  forall q e c, matches f_none s re_blank_lines q [] e c ->
                tags_ok (firstn q s) = true.
Proof.
  intros Hs q e c H. unfold_match H. destruct H as (n & Hn & H).
  apply iter_first in H; [|lia]. break; subst. char_eqs. subst. at_char.
Qed.

Lemma paragraph_ok (block : str) :
  tags_ok block = true -> tags_ok (paragraph block) = true.
Proof.
  intros H. unfold paragraph. pose proof (trim_ok block H) as Ht.
  destruct (negb (truthy (trim block))); [reflexivity|].
  destruct (test f_i re_block (trim block)); [assumption|].
  apply (tags_ok_app (u "<p>")); [reflexivity|].
  apply tags_ok_app; [|reflexivity].
  now apply replace_char_ok.
Qed.

Lemma paragraphs_ok (md : str) :
  tags_ok md = true -> tags_ok (paragraphs md) = true.
Proof.
  intros H. unfold paragraphs. apply join_ok; [reflexivity|].
  apply Forall_map_ok; [exact paragraph_ok|].
  apply split_re_ok; [assumption|]. now apply blank_lines_sites.
Qed.

(** ** The restoration *)

Lemma index_from_starts (p : str) :
  forall rest from k,
    index_from p rest from = Some k ->
    from <= k /\ starts_with p (skipn (k - from) rest) = true.
Proof.
  induction rest as [|x rest IH]; intros from k; cbn [index_from].
  - destruct (starts_with p []) eqn:E; [|discriminate].
    intros [= <-]. rewrite Nat.sub_diag. now split.
  - destruct (starts_with p (x :: rest)) eqn:E.
    + intros [= <-]. rewrite Nat.sub_diag. now split.
    + intros H. apply IH in H as [H1 H2]. split; [lia|].
      replace (k - from) with (S (k - S from)) by lia. exact H2.
Qed.

Lemma replace_string_ok (pat html s : str) :
  tags_ok s = true -> tags_ok html = true -> tags_ok pat = true ->
  match pat with x :: _ => clean x = true | [] => True end ->
  tags_ok (replace_string pat html s) = true.
Proof.
  intros Hs Hh Hp Hx. unfold replace_string.
  destruct (indexOf s pat 0) as [p|] eqn:E; [|assumption].
  assert (Hb : tags_ok (firstn p s) = true).
  { unfold indexOf in E. cbn [skipn] in E.
    destruct pat as [|x pat].
    - destruct s; cbn in E; injection E as <-; reflexivity.
    - apply index_from_starts in E as [_ E]. rewrite Nat.sub_0_r in E.
      apply cut_at; [assumption|].
      destruct (skipn p s) as [|y t]; [discriminate|]. cbn [starts_with] in E.
      apply andb_true_iff in E as [E _]. apply ceqb_eq in E. subst y.
      now apply clean_closed. }
  apply tags_ok_app; [assumption|].
  apply tags_ok_app; [|now apply tags_ok_skipn].
  apply expand_ok; try assumption; [now apply tags_ok_skipn|reflexivity].
Qed.

Lemma digits_free (d : Decimal.uint) : has_char [c_lt] (chars_of_uint d) = false.
Proof. induction d; cbn [chars_of_uint]; try reflexivity; exact IHd. Qed.

Lemma marker_tags_ok (kind : string) (i : nat) :
  tags_ok (u kind) = true -> tags_ok (marker kind i) = true.
Proof.
  intros H. unfold marker.
  apply (tags_ok_app s_sect2); [reflexivity|].
  apply tags_ok_app; [assumption|].
  apply tags_ok_app; [|reflexivity].
  apply no_lt_ok, digits_free.
Qed.

Lemma restore_ok (kind : string) (htmls : list str) :
  tags_ok (u kind) = true ->
  Forall (fun t => tags_ok t = true) htmls ->
  forall i md, tags_ok md = true -> tags_ok (restore kind i htmls md) = true.
Proof.
  intros Hk H. induction H as [|html htmls Hh Hr IH]; intros i md Hmd;
    cbn [restore]; [assumption|].
  apply IH. apply replace_string_ok; try assumption.
  - now apply marker_tags_ok.
  - reflexivity.
Qed.

Lemma restoreAll_ok (st : store) (md : str) :
  store_ok st -> tags_ok md = true -> tags_ok (restoreAll st md) = true.
Proof.
  intros (H1 & H2 & H3) Hmd. unfold restoreAll.
  apply restore_ok; [reflexivity|assumption|].
  apply restore_ok; [reflexivity|assumption|].
  apply restore_ok; [reflexivity|assumption|assumption].
Qed.

(** ** The blocks that go to the store *)

Lemma escapeHTML_free (s : str) : has_char [c_lt] (escapeHTML s) = false.
Proof.
  apply escape_has_char; [|reflexivity].
  intros x _ Hx. unfold isSpecial in Hx.
  apply orb_false_iff in Hx as [Hx _]. apply orb_false_iff in Hx as [Hx _].
  apply orb_false_iff in Hx as [Hx _]. apply orb_false_iff in Hx as [_ Hx].
  change (ch "<") with c_lt in Hx.
  unfold one_of. cbn [existsb]. now rewrite Hx.
Qed.

Lemma mermaidAttr_free (code : str) : has_char [c_lt] (mermaidAttr code) = false.
Proof.
  unfold mermaidAttr.
  apply has_char_replace; [reflexivity|]. intros x Hx _.
  eapply has_char_in; [|exact Hx]. clear x Hx.
  apply has_char_replace; [reflexivity|]. intros x Hx _.
  eapply has_char_in; [|exact Hx]. clear x Hx.
  apply has_char_replace; [reflexivity|]. intros x _ Hx.
  change (ch "<") with c_lt in Hx.
  unfold one_of. cbn [existsb]. now rewrite Hx.
Qed.

Lemma mermaidHTML_ok (code : str) : tags_ok (mermaidHTML code) = true.
Proof.
  unfold mermaidHTML.
  apply tags_ok_app; [reflexivity|].
  apply tags_ok_app; [|reflexivity].
  apply no_lt_ok, mermaidAttr_free.
Qed.

Lemma toLower1_lt (y : char) :
  ceqb y c_lt = false -> ceqb (toLower1 y) c_lt = false.
Proof.
  unfold toLower1, in_range, ceqb, c_lt. intros H. apply N.eqb_neq in H.
  split_cmp; try reflexivity; exfalso; lia.
Qed.

Lemma toLowerCase_free (t : str) :
  has_char [c_lt] t = false -> has_char [c_lt] (toLowerCase t) = false.
Proof.
  unfold has_char, toLowerCase, one_of.
  induction t as [|y t IH]; [reflexivity|]. cbn [existsb map].
  rewrite !orb_false_r. intros H. apply orb_false_iff in H as [H1 H2].
  rewrite (toLower1_lt y H1). now apply IH.
Qed.

Lemma codeHTML_ok (lang code : str) :
  has_char [c_lt] lang = false -> tags_ok (codeHTML lang code) = true.
Proof.
  intros Hl. unfold codeHTML.
  apply tags_ok_app; [reflexivity|].
  apply (tags_ok_app (u "<code")); [reflexivity|].
  apply tags_ok_app.
  { destruct (truthy lang); [|reflexivity].
    apply (tags_ok_app (q " class='lang-")); [reflexivity|].
    apply tags_ok_app; [|reflexivity].
    now apply no_lt_ok, toLowerCase_free. }
  apply (tags_ok_app (u ">")); [reflexivity|].
  apply tags_ok_app; [|reflexivity].
  apply no_lt_ok, escapeHTML_free.
Qed.

Lemma inline_ok (code : str) :
  tags_ok (u "<code>" ++ escapeHTML code ++ u "</code>") = true.
Proof.
  apply (tags_ok_app (u "<code>")); [reflexivity|].
  apply tags_ok_app; [|reflexivity]. apply no_lt_ok, escapeHTML_free.
Qed.

Lemma Forall_snoc (A : Type) (P : A -> Prop) (l : list A) (x : A) :
  Forall P l -> P x -> Forall P (l ++ [x]).
Proof. intros Hl Hx. apply Forall_app. split; [assumption|now constructor]. Qed.

Lemma fence_lang_free (s : str) (i j : nat) (c : caps) :
  matches f_none s re_fence i [] j c ->
  has_char [c_lt] (group_str (info_of s re_fence (i, j, c)) 1) = false.
Proof.
  intros H. unfold_match H. break; subst. caps_all.
  match goal with
  | Hi : iter _ _ ?a [] ?b [] |- _ =>
    change (has_char [c_lt] (slice s a b) = false);
    apply lt_free_slice; free_of Hi; exact Hi
  end.
Qed.

Lemma store_empty_ok : store_ok empty_store.
Proof. repeat split; constructor. Qed.

Lemma processMermaidBlock_store (st : store) (code : str) :
  store_ok st -> store_ok (snd (processMermaidBlock st code)).
Proof.
  intros (H1 & H2 & H3). repeat split; cbn; try assumption.
  apply Forall_snoc; [assumption|apply mermaidHTML_ok].
Qed.

Lemma pushCode_store (st : store) (lang code : str) :
  has_char [c_lt] lang = false ->
  store_ok st -> store_ok (snd (pushCode st lang code)).
Proof.
  intros Hl (H1 & H2 & H3). repeat split; cbn; try assumption.
  apply Forall_snoc; [assumption|now apply codeHTML_ok].
Qed.

Lemma pushInline_store (st : store) (code : str) :
  store_ok st -> store_ok (snd (pushInline st code)).
Proof.
  intros (H1 & H2 & H3). repeat split; cbn; try assumption.
  apply Forall_snoc; [assumption|apply inline_ok].
Qed.

Lemma extract_store_ok (md : str) : store_ok (snd (extract md)).
Proof.
  unfold extract.
  pose proof (replace_st_inv store
                (fun st m => processMermaidBlock st (trim (group_str m 1)))
                md f_none re_mermaid1 store_ok empty_store
                (fun st i j c _ => processMermaidBlock_store st _)
                store_empty_ok) as H1.
  destruct (replace_st f_none re_mermaid1 _ md empty_store) as [md1 st1].
  cbn [snd] in H1.
  pose proof (replace_st_inv store
                (fun st m => processMermaidBlock st (trim (group_str m 1)))
                md1 f_none re_mermaid2 store_ok st1
                (fun st i j c _ => processMermaidBlock_store st _) H1) as H2.
  destruct (replace_st f_none re_mermaid2 _ md1 st1) as [md2 st2].
  cbn [snd] in H2.
  pose proof (replace_st_inv store
                (fun st m => pushCode st (group_str m 1) (group_str m 2))
                md2 f_none re_fence store_ok st2
                (fun st i j c Hm =>
                   pushCode_store st _ _ (fence_lang_free md2 i j c Hm)) H2) as H3.
  destruct (replace_st f_none re_fence _ md2 st2) as [md3 st3].
  cbn [snd] in H3.
  exact (replace_st_inv store
           (fun st m => pushInline st (group_str m 1))
           md3 f_none re_inline store_ok st3
           (fun st i j c _ => pushInline_store st _) H3).
Qed.

(** ** [render] *)

Lemma render_tags_ok (md : str) : tags_ok (render md) = true.
Proof.
  unfold render, render_st. destruct (negb (truthy md)); [reflexivity|].
  pose proof (extract_store_ok (normalize md)) as Hst.
  destruct (extract (normalize md)) as [md' st]. cbn [fst snd] in *.
  apply restoreAll_ok; [assumption|].
  apply paragraphs_ok, blocks_ok, no_lt_ok, escapeHTML_free.
Qed.

End TagFacts.

(* ================================================================== *)
(** * What reaches the page as markup *)
(* ================================================================== *)

(** Whatever the input, every [<] of the output of [render] opens or
    closes a tag of the renderer; the text [<script] is never in it. *)
Lemma render_no_script (md : str) :
  includes (u "<script") (Markdown.render md) = false.
Proof. apply TagFacts.tags_ok_no_script, TagFacts.render_tags_ok. Qed.

(** C1 (code defect). Text of the input can take the place of markup all
    the same. The restoration uses the stored markup of the diagram as a
    replacement template: the [$'] of the label [A[$']] brings in the
    rest of the document, and the double quote of the anchor written for
    the bare link closes the [data-mermaid-code] attribute. The page then
    reads [A[], a newline and [<a href=] as the diagram source, and the
    text [onmouseover=alert(1)//] of the input stands in the [div] tag
    of the diagram, after a closed attribute value. *)
Theorem render_attribute_injection :
  Markdown.render injection_input
  = Markdown.mermaid_head ++ u "A[" ++ injection_anchor ++ u "]"
      ++ Markdown.mermaid_tail ++ injection_anchor
  /\ App.getMermaidCode (Markdown.render injection_input)
     = u "A[" ++ [c_nl] ++ u "<a href=".
Proof. split; vm_compute; reflexivity. Qed.

(* ================================================================== *)
(** * The XML tokenizer returns soon or never *)
(* ================================================================== *)

Module XMLTotal.
Import XML XMLCover.

(** A turn of the attribute loop that does not move on repeats forever. *)
Lemma attrs_no_progress (code : str) (j : nat) :
  inAttrs code j = true -> snd (attrStep code j) = j ->
  forall fuel out, attrs fuel code j out = None.
Proof.
  intros Hin Hj. induction fuel as [|fuel IH]; intros out; [reflexivity|].
  cbn [attrs]. rewrite Hin. destruct (attrStep code j) as [o j'].
  cbn [snd] in Hj. subst j'. apply IH.
Qed.

Lemma attrs_mono (code : str) :
  forall fuel fuel' j out r,
    attrs fuel code j out = Some r -> fuel <= fuel' ->
    attrs fuel' code j out = Some r.
Proof.
  induction fuel as [|fuel IH]; intros fuel' j out r; [discriminate|].
  intros H Hle. destruct fuel' as [|fuel']; [lia|]. cbn [attrs] in *.
  destruct (inAttrs code j); [|assumption].
  destruct (attrStep code j) as [o j']. apply (IH fuel'); [assumption|lia].
Qed.

Lemma inAttrs_lt (code : str) (j : nat) : inAttrs code j = true -> j < length code.
Proof.
  unfold inAttrs. intros H. apply andb_true_iff in H as [H _].
  apply andb_true_iff in H as [H _]. now apply Nat.ltb_lt.
Qed.

Lemma attrs_returns_or_hangs (code : str) :
  forall d j out,
    length code - j <= d -> j <= length code ->
    (exists r, forall fuel, d < fuel -> attrs fuel code j out = Some r)
    \/ (forall fuel, attrs fuel code j out = None).
Proof.
  induction d as [|d IH]; intros j out Hd Hj.
  - left. exists (out, j). intros [|fuel] Hf; [lia|]. cbn [attrs].
    destruct (inAttrs code j) eqn:E; [|reflexivity].
    apply inAttrs_lt in E. lia.
  - destruct (inAttrs code j) eqn:E.
    2:{ left. exists (out, j). intros [|fuel] Hf; [lia|]. cbn [attrs].
        now rewrite E. }
    pose proof (inAttrs_lt code j E) as Hlt.
    destruct (attrStep_spec code j Hj) as [_ Hb].
    destruct (Nat.eq_dec (snd (attrStep code j)) j) as [Heq|Hne].
    { right. intros fuel. now apply attrs_no_progress. }
    destruct (attrStep code j) as [o j'] eqn:Es. cbn [snd] in *.
    destruct (IH j' (out ++ o) ltac:(lia) ltac:(lia)) as [[r Hr]|Hn].
    + left. exists r. intros [|fuel] Hf; [lia|]. cbn [attrs].
      rewrite E, Es. apply Hr. lia.
    + right. intros [|fuel]; [reflexivity|]. cbn [attrs]. rewrite E, Es.
      apply Hn.
Qed.

Lemma tag_mono (code : str) (i : nat) :
  forall fuel fuel' r,
    tag fuel code i = Some r -> fuel <= fuel' -> tag fuel' code i = Some r.
Proof.
  intros fuel fuel' r. unfold tag.
  destruct (skipSpace code _) as [ws j2].
  destruct (idx_is code (i + 1) (ch "/")); [auto|].
  destruct (attrs fuel code j2 []) as [[ats j3]|] eqn:E; [|discriminate].
  intros H Hle. now rewrite (attrs_mono code fuel fuel' j2 [] (ats, j3) E Hle).
Qed.

Lemma tag_returns_or_hangs (code : str) (i : nat) :
  i < length code ->
  (exists r, forall fuel, length code < fuel -> tag fuel code i = Some r)
  \/ (forall fuel, tag fuel code i = None).
Proof.
  intros Hi. unfold tag.
  set (j0 := if idx_is code (i + 1) (ch "/") then i + 1 + 1 else i + 1).
  assert (H0 : j0 <= length code).
  { unfold j0. destruct (idx_is code (i + 1) (ch "/")) eqn:E; [|lia].
    apply idx_is_lt in E. lia. }
  pose proof (scanWhile_bounds isName code j0 H0) as H1.
  destruct (skipSpace_spec code (scanWhile isName code j0) ltac:(lia)) as [_ H2].
  destruct (skipSpace code (scanWhile isName code j0)) as [ws j2].
  cbn [snd] in H2.
  destruct (idx_is code (i + 1) (ch "/")).
  { left.
    destruct (idx_is code j2 (ch "/") && idx_is code (j2 + 1) (ch ">"));
      [|destruct (idx_is code j2 (ch ">"))];
      eexists; intros fuel _; reflexivity. }
  destruct (attrs_returns_or_hangs code (length code) j2 [] ltac:(lia) ltac:(lia))
    as [[[ats j3] Hr]|Hn].
  - left.
    destruct (idx_is code j3 (ch "/") && idx_is code (j3 + 1) (ch ">")) eqn:E1;
      [|destruct (idx_is code j3 (ch ">")) eqn:E2];
      eexists; intros fuel Hf; rewrite (Hr fuel Hf), E1; try rewrite E2;
      reflexivity.
  - right. intros fuel. now rewrite Hn.
Qed.

Lemma step_mono (code : str) (i : nat) (x : char) :
  forall fuel fuel' r,
    step fuel code i x = Some r -> fuel <= fuel' -> step fuel' code i x = Some r.
Proof.
  intros fuel fuel' r. unfold step.
  repeat match goal with
         | |- context [if ?b then _ else _] =>
           lazymatch b with
           | context [attrs] => fail
           | _ => destruct b; [auto|]
           end
         end;
    try (intros; eapply tag_mono; eassumption); auto.
Qed.

Lemma step_returns_or_hangs (code : str) (i : nat) (x : char) :
  i < length code ->
  (exists r, forall fuel, length code < fuel -> step fuel code i x = Some r)
  \/ (forall fuel, step fuel code i x = None).
Proof.
  intros Hi. unfold step.
  repeat match goal with
         | |- context [if ?b then _ else _] =>
           destruct b; [try (left; eexists; intros; reflexivity)|]
         end;
    try (now apply tag_returns_or_hangs);
    destruct (entityEnd code i); left; eexists; intros; reflexivity.
Qed.

(** Every turn of the main loop moves on. *)
Lemma step_progress (fuel : nat) (code : str) (i : nat) (x : char)
      (sps : list span) (j : nat) :
  idx code i = Some x -> step fuel code i x = Some (sps, j) ->
  i < j <= length code.
Proof.
  intros Hi Hs. destruct (step_spec _ _ _ _ _ _ Hi Hs) as [Ht Hb].
  split; [|lia]. pose proof (idx_lt _ _ _ Hi) as Hlt.
  revert Hs. unfold step.
  destruct (ceqb x (ch "<") && str_eqb (slice code i (i + 4)) (u "<!--")).
  { intros [= <- <-]. pose proof (closeAt_bounds code (u "-->") (i + 4)).
    unfold closeAt in *. destruct (indexOf code (u "-->") (i + 4)) as [k|] eqn:E.
    - apply index_from_bounds in E. lia.
    - lia. }
  destruct (ceqb x (ch "<") && str_eqb (slice code i (i + 9)) (u "<![CDATA[")).
  { intros [= <- <-]. unfold closeAt.
    destruct (indexOf code (u "]]>") (i + 9)) as [k|] eqn:E.
    - apply index_from_bounds in E. lia.
    - lia. }
  destruct (ceqb x (ch "<")
            && str_eqb (toUpperCase (slice code i (i + 9))) (u "<!DOCTYPE")).
  { intros [= <- <-].
    assert (forall rest d k, k <= doctypeEnd rest d k) as Hd.
    { induction rest as [|y rest IH]; intros d k; cbn [doctypeEnd]; [lia|].
      destruct (d =? 0); [lia|].
      destruct (ceqb y (ch "<")); [specialize (IH (S d) (S k)); lia|].
      destruct (ceqb y (ch ">")); [specialize (IH (pred d) (S k)); lia|].
      specialize (IH d (S k)); lia. }
    specialize (Hd (skipn (i + 9) code) 1 (i + 9)). lia. }
  destruct (ceqb x (ch "<") && idx_is code (i + 1) (ch "?")).
  { intros [= <- <-]. unfold closeAt.
    destruct (indexOf code (u "?>") (i + 2)) as [k|] eqn:E.
    - apply index_from_bounds in E. lia.
    - lia. }
  destruct (ceqb x (ch "<") && test_at isTagStart code (i + 1)).
  { unfold tag.
    set (j0 := if idx_is code (i + 1) (ch "/") then i + 1 + 1 else i + 1).
    assert (H0 : i + 1 <= j0 <= length code).
    { unfold j0. destruct (idx_is code (i + 1) (ch "/")) eqn:E; [|lia].
      apply idx_is_lt in E. lia. }
    pose proof (scanWhile_bounds isName code j0 ltac:(lia)) as H1.
    destruct (skipSpace_spec code (scanWhile isName code j0) ltac:(lia)) as [_ H2].
    destruct (skipSpace code (scanWhile isName code j0)) as [ws j2].
    cbn [snd] in H2.
    assert (Hats : forall ats j3,
               (if idx_is code (i + 1) (ch "/") then Some ([], j2)
                else attrs fuel code j2 []) = Some (ats, j3) -> j2 <= j3).
    { intros ats j3. destruct (idx_is code (i + 1) (ch "/")).
      - intros [= <- <-]. lia.
      - intros H. apply attrs_spec in H as (o & _ & _ & Hb'); lia. }
    destruct (if idx_is code (i + 1) (ch "/") then Some ([], j2)
              else attrs fuel code j2 []) as [[ats j3]|]; [|discriminate].
    specialize (Hats ats j3 eq_refl).
    destruct (idx_is code j3 (ch "/") && idx_is code (j3 + 1) (ch ">"));
      [intros [= <- <-]; lia|].
    destruct (idx_is code j3 (ch ">")); intros [= <- <-]; lia. }
  destruct (if ceqb x (ch "&") then entityEnd code i else None) as [j'|] eqn:E6.
  { destruct (ceqb x (ch "&")); [|discriminate].
    apply entityEnd_bounds in E6. intros [= <- <-]. lia. }
  intros [= <- <-]. lia.
Qed.

Lemma loop_returns_or_hangs (code : str) :
  forall d i out,
    length code - i <= d -> i <= length code ->
    (exists l, forall fuel n, length code < fuel -> d < n ->
                              loop fuel code i out n = Some l)
    \/ (forall fuel n, loop fuel code i out n = None).
Proof.
  induction d as [|d IH]; intros i out Hd Hi.
  - left. exists out. intros fuel [|n] _ Hn; [lia|]. cbn [loop].
    destruct (idx code i) eqn:E; [|reflexivity]. apply idx_lt in E. lia.
  - destruct (idx code i) as [x|] eqn:E.
    2:{ left. exists out. intros fuel [|n] _ Hn; [lia|]. cbn [loop].
        now rewrite E. }
    pose proof (idx_lt _ _ _ E) as Hlt.
    destruct (step_returns_or_hangs code i x Hlt) as [[[sps j] Hr]|Hn].
    + pose proof (step_progress _ _ _ _ _ _ E (Hr (S (length code)) ltac:(lia)))
        as Hp.
      destruct (IH j (out ++ sps) ltac:(lia) ltac:(lia)) as [[l Hl]|Hh].
      * left. exists l. intros fuel [|n] Hf Hn'; [lia|]. cbn [loop].
        rewrite E, (Hr fuel Hf). apply Hl; [assumption|lia].
      * right. intros fuel [|n]; [reflexivity|]. cbn [loop]. rewrite E.
        destruct (step fuel code i x) as [[sps' j']|] eqn:Es; [|reflexivity].
        assert (Hsame : Some (sps', j') = Some (sps, j)).
        { rewrite <- (Hr (S (fuel + length code)) ltac:(lia)).
          symmetry. eapply step_mono; [exact Es|lia]. }
        injection Hsame as -> ->. apply Hh.
    + right. intros fuel [|n]; [reflexivity|]. cbn [loop].
      now rewrite E, Hn.
Qed.

(** Without an opening tag every turn of the main loop returns. *)
Lemma step_returns (code : str) (i : nat) (x : char) :
  adjacent isLt isAsciiLetter code = false ->
  idx code i = Some x ->
  exists r, forall fuel, length code < fuel -> step fuel code i x = Some r.
Proof.
  intros Hadj Hi. pose proof (idx_lt _ _ _ Hi) as Hlt.
  destruct (step_returns_or_hangs code i x Hlt) as [H|Hn]; [exact H|].
  exfalso. specialize (Hn 1). revert Hn. unfold step.
  repeat match goal with
         | |- context [if ?b then _ else _] =>
           lazymatch b with
           | ceqb x (ch "<") && test_at isTagStart code (i + 1) => fail
           | _ => destruct b; [discriminate|]
           end
         end.
  destruct (ceqb x (ch "<") && test_at isTagStart code (i + 1)) eqn:E.
  2:{ destruct (ceqb x (ch "&")); [destruct (entityEnd code i)|]; discriminate. }
  apply andb_true_iff in E as [Ex Et]. unfold tag.
  destruct (idx_is code (i + 1) (ch "/")) eqn:Ec.
  { destruct (skipSpace code _) as [ws j2].
    destruct (idx_is code j2 (ch "/") && idx_is code (j2 + 1) (ch ">"));
      [|destruct (idx_is code j2 (ch ">"))]; discriminate. }
  assert (Hend : idx code (i + 1) = None).
  { destruct (idx code (i + 1)) as [y|] eqn:Ey; [|reflexivity]. exfalso.
    unfold test_at in Et. rewrite Ey in Et. unfold isTagStart in Et.
    unfold idx_is in Ec. rewrite Ey in Ec. cbn [opt_ceqb] in Ec.
    rewrite Ec, orb_false_r in Et.
    replace (i + 1) with (S i) in Ey by lia.
    rewrite (PlainFacts.adjacent_idx isLt isAsciiLetter code i x y Hi Ey Ex Et)
      in Hadj.
    discriminate. }
  apply idx_none in Hend.
  pose proof (scanWhile_bounds isName code (i + 1) ltac:(lia)) as H1.
  destruct (skipSpace_spec code (scanWhile isName code (i + 1)) ltac:(lia))
    as [_ H2].
  destruct (skipSpace code (scanWhile isName code (i + 1))) as [ws j2].
  cbn [snd] in H2. cbn [attrs].
  assert (Hin : inAttrs code j2 = false).
  { unfold inAttrs. replace (j2 <? length code) with false; [reflexivity|].
    symmetry. apply Nat.ltb_ge. lia. }
  rewrite Hin.
  destruct (idx_is code j2 (ch "/") && idx_is code (j2 + 1) (ch ">"));
    [|destruct (idx_is code j2 (ch ">"))]; discriminate.
Qed.

Lemma loop_mono (code : str) (fuel fuel' : nat) :
  fuel <= fuel' ->
  forall n j o l, loop fuel code j o n = Some l -> loop fuel' code j o n = Some l.
Proof.
  intros Hle. induction n as [|n IHn]; intros j o l; cbn [loop]; [discriminate|].
  destruct (idx code j) as [y|]; [|auto].
  destruct (step fuel code j y) as [[sps' j']|] eqn:Es; [|discriminate].
  rewrite (step_mono code j y fuel fuel' _ Es Hle). apply IHn.
Qed.

Lemma loop_returns (code : str) :
  adjacent isLt isAsciiLetter code = false ->
  forall d i out,
    length code - i <= d -> i <= length code ->
    exists l, forall fuel n, length code < fuel -> d < n ->
                             loop fuel code i out n = Some l.
Proof.
  intros Hadj d i out Hd Hi.
  destruct (loop_returns_or_hangs code d i out Hd Hi) as [H|Hn]; [exact H|].
  exfalso. revert i out Hd Hi Hn.
  induction d as [|d IH]; intros i out Hd Hi Hn.
  - specialize (Hn 1 1). cbn [loop] in Hn.
    destruct (idx code i) eqn:E; [|discriminate]. apply idx_lt in E. lia.
  - destruct (idx code i) as [x|] eqn:E.
    2:{ specialize (Hn 1 1). cbn [loop] in Hn. rewrite E in Hn. discriminate. }
    destruct (step_returns code i x Hadj E) as [[sps j] Hr].
    pose proof (step_progress _ _ _ _ _ _ E (Hr (S (length code)) ltac:(lia)))
      as Hp.
    apply (IH j (out ++ sps)); [lia|lia|].
    intros fuel n.
    specialize (Hn (S (fuel + length code)) (S n)). cbn [loop] in Hn.
    rewrite E, (Hr (S (fuel + length code)) ltac:(lia)) in Hn.
    destruct (loop fuel code j (out ++ sps) n) as [l|] eqn:El; [|reflexivity].
    exfalso.
    assert (Hm : loop (S (fuel + length code)) code j (out ++ sps) n = Some l)
      by (eapply loop_mono; [|exact El]; lia).
    congruence.
Qed.

End XMLTotal.

(** X1. [highlightXML] returns within [length code + 1] turns of each of
    its loops, or it never returns: a scan that no such number of turns
    ends is not ended by any number. *)
Theorem highlightXML_returns_or_hangs (code : str) :
  (exists html, forall fuel, length code < fuel ->
                             XML.highlightXML fuel code = Some html)
  \/ (forall fuel, XML.highlightXML fuel code = None).
Proof.
  unfold XML.highlightXML, XML.tokenize.
  destruct (XMLTotal.loop_returns_or_hangs code (length code) 0 []
              ltac:(lia) ltac:(lia)) as [[l Hl]|Hn].
  - left. exists (render_spans l). intros fuel Hf. now rewrite (Hl fuel fuel Hf Hf).
  - right. intros fuel. now rewrite Hn.
Qed.

(** X2. On a text in which no [<] is followed by a letter (no opening
    tag), [highlightXML] returns, and the spans it has put together cover
    the text: comments, CDATA sections, DOCTYPE declarations, processing
    instructions, closing tags and entities never keep it from
    returning. *)
Theorem highlightXML_without_opening_tag (code : str) :
  adjacent isLt isAsciiLetter code = false ->
  exists l, spans_text l = code
            /\ forall fuel, length code < fuel ->
                            XML.highlightXML fuel code = Some (render_spans l).
Proof.
  intros H.
  destruct (XMLTotal.loop_returns code H (length code) 0 []
              ltac:(lia) ltac:(lia)) as [l Hl].
  exists l. split.
  - apply (XMLCover.tokenize_covers (S (length code))). apply Hl; lia.
  - intros fuel Hf. unfold XML.highlightXML, XML.tokenize.
    now rewrite (Hl fuel fuel Hf Hf).
Qed.

(** The theorem at a closing tag, an entity and a comment. *)
Lemma highlightXML_without_opening_tag_witness :
  adjacent isLt isAsciiLetter (u "</a> &amp; <!-- c -->") = false
  /\ exists l, spans_text l = u "</a> &amp; <!-- c -->"
               /\ forall fuel, length (u "</a> &amp; <!-- c -->") < fuel ->
                               XML.highlightXML fuel (u "</a> &amp; <!-- c -->")
                               = Some (render_spans l).
Proof.
  split; [vm_compute; reflexivity|].
  apply (highlightXML_without_opening_tag (u "</a> &amp; <!-- c -->")).
  vm_compute. reflexivity.
Defined.

(* ================================================================== *)
(** * The markup that the highlighters write *)
(* ================================================================== *)

Module SpanMarkup.

Lemma starts_with_app (p t b : str) :
  starts_with p t = true -> starts_with p (t ++ b) = true.
Proof.
  revert t. induction p as [|x p IH]; intros [|y t]; cbn [starts_with app];
    try discriminate; [reflexivity|reflexivity|].
  intros H. apply andb_true_iff in H as [H1 H2]. now rewrite H1, (IH t H2).
Qed.

Lemma starts_with_split (p s : str) :
  starts_with p s = true -> exists rest, s = p ++ rest.
Proof.
  revert s. induction p as [|x p IH]; intros s; [now exists s|].
  destruct s as [|y s]; cbn [starts_with]; [discriminate|].
  intros H. apply andb_true_iff in H as [H1 H2]. apply ceqb_eq in H1. subst y.
  destruct (IH s H2) as [rest ->]. now exists rest.
Qed.

Lemma only_span_tags_app (a b : str) :
  only_span_tags a = true -> only_span_tags b = true ->
  only_span_tags (a ++ b) = true.
Proof.
  induction a as [|x a IH]; cbn [only_span_tags app]; [auto|].
  intros H Hb. apply andb_true_iff in H as [H1 H2].
  rewrite (IH H2 Hb), andb_true_r.
  destruct (isLt x); [|reflexivity].
  apply orb_true_iff in H1 as [H1|H1]; apply orb_true_iff; [left|right];
    now apply starts_with_app.
Qed.

Lemma no_lt_only_span_tags (s : str) :
  existsb isLt s = false -> only_span_tags s = true.
Proof.
  induction s as [|x s IH]; [reflexivity|]. cbn [existsb only_span_tags].
  intros H. apply orb_false_iff in H as [H1 H2]. now rewrite H1, (IH H2).
Qed.

Lemma existsb_replace_char (P : char -> bool) (c : char) (r s : str) :
  existsb P r = false ->
  (forall x, In x s -> ceqb x c = false -> P x = false) ->
  existsb P (replace_char c r s) = false.
Proof.
  intros Hr. induction s as [|x s IH]; [reflexivity|]. intros Hs.
  change (replace_char c r (x :: s))
    with ((if ceqb x c then r else [x]) ++ replace_char c r s).
  rewrite existsb_app, IH by (intros; apply Hs; simpl; auto).
  rewrite orb_false_r. destruct (ceqb x c) eqn:E; [assumption|].
  cbn [existsb]. rewrite (Hs x) by (simpl; auto). reflexivity.
Qed.

Lemma existsb_false_in (P : char -> bool) (s : str) (x : char) :
  existsb P s = false -> In x s -> P x = false.
Proof.
  intros H Hx. destruct (P x) eqn:E; [|reflexivity].
  assert (existsb P s = true); [|congruence].
  apply existsb_exists. eauto.
Qed.

(** [esc] leaves no [<]. *)
Lemma esc_no_lt (s : str) : existsb isLt (esc s) = false.
Proof.
  unfold esc.
  apply existsb_replace_char; [reflexivity|]. intros x Hx _.
  eapply existsb_false_in; [|exact Hx]. clear x Hx.
  apply existsb_replace_char; [reflexivity|]. intros x _ Hx. exact Hx.
Qed.

Lemma render_span_ok (sp : span) :
  class_ok (sp_class sp) = true -> only_span_tags (render_span sp) = true.
Proof.
  unfold render_span, class_ok. destruct (sp_class sp) as [cls|].
  2:{ intros _. apply no_lt_only_span_tags, esc_no_lt. }
  intros H. apply andb_true_iff in H as [Hp Hc]. apply negb_true_iff in Hc.
  assert (Hcls : exists rest, cls = u "tok-" ++ rest)
    by now apply starts_with_split.
  destruct Hcls as [rest ->].
  assert (Hrest : existsb isLt rest = false).
  { rewrite existsb_app in Hc. apply orb_false_iff in Hc as [_ Hc].
    induction rest as [|y rest IH]; [reflexivity|]. cbn [existsb] in *.
    apply orb_false_iff in Hc as [Hy Hc]. apply orb_false_iff in Hy as [Hy _].
    apply orb_false_iff in Hy as [Hy _]. now rewrite Hy, IH. }
  change (u "<span class=" ++ [c_dquote] ++ (u "tok-" ++ rest) ++ [c_dquote]
            ++ u ">" ++ esc (sp_text sp) ++ u "</span>")
    with ((c_lt :: span_open) ++ rest ++ [c_dquote]
            ++ u ">" ++ esc (sp_text sp) ++ u "</span>").
  cbn [app only_span_tags]. change (isLt c_lt) with true. cbv iota.
  apply andb_true_iff. split.
  - apply orb_true_iff. left. apply (starts_with_app span_open span_open).
    reflexivity.
  - apply (only_span_tags_app span_open); [reflexivity|].
    apply only_span_tags_app; [now apply no_lt_only_span_tags|].
    apply (only_span_tags_app [c_dquote]); [reflexivity|].
    apply (only_span_tags_app (u ">")); [reflexivity|].
    apply only_span_tags_app; [apply no_lt_only_span_tags, esc_no_lt|].
    reflexivity.
Qed.

Lemma render_spans_ok (l : list span) :
  Forall (fun sp => class_ok (sp_class sp) = true) l ->
  only_span_tags (render_spans l) = true.
Proof.
  induction 1 as [|sp l Hsp Hl IH]; [reflexivity|].
  unfold render_spans. cbn [flat_map].
  apply only_span_tags_app; [now apply render_span_ok|exact IH].
Qed.

(** ** The classes of the BSL tokenizer *)

Lemma classify_ok (code : str) (i j : nat) :
  class_ok (BSL.classify code i j) = true.
Proof.
  unfold BSL.classify.
  repeat match goal with
         | |- context [if ?b then _ else _] => destruct b
         end; reflexivity.
Qed.

Lemma bsl_step_ok (code : str) (i : nat) (x : char) :
  class_ok (sp_class (fst (BSL.step code i x))) = true.
Proof.
  unfold BSL.step.
  repeat match goal with
         | |- context [if ?b then _ else _] =>
           lazymatch b with
           | context [BSL.classify] => fail
           | _ => destruct b
           end
         end; try reflexivity; cbn [fst sp_class]; apply classify_ok.
Qed.

Lemma bsl_loop_ok (code : str) :
  forall fuel i out l,
    Forall (fun sp => class_ok (sp_class sp) = true) out ->
    BSL.loop fuel code i out = Some l ->
    Forall (fun sp => class_ok (sp_class sp) = true) l.
Proof.
  induction fuel as [|fuel IH]; intros i out l Hout; cbn [BSL.loop];
    [discriminate|].
  destruct (idx code i) as [x|]; [|now intros [= <-]].
  pose proof (bsl_step_ok code i x) as Hs.
  destruct (BSL.step code i x) as [sp j]. cbn [fst] in Hs.
  apply IH. apply Forall_app. split; [assumption|]. now constructor.
Qed.

(** ** The classes of the XML tokenizer *)

Ltac spans_ok :=
  repeat first
         [ assumption
         | apply Forall_nil
         | apply Forall_cons; [reflexivity|]
         | apply Forall_app; split ].

Lemma skipSpace_ok (code : str) (j : nat) :
  Forall (fun sp => class_ok (sp_class sp) = true) (fst (XML.skipSpace code j)).
Proof.
  unfold XML.skipSpace. cbn [fst]. apply Forall_forall. intros sp H.
  apply in_map_iff in H as (x & <- & _). reflexivity.
Qed.

Lemma attrValue_ok (code : str) (j : nat) :
  Forall (fun sp => class_ok (sp_class sp) = true) (fst (XML.attrValue code j)).
Proof.
  unfold XML.attrValue. destruct (idx_is code j (ch "=")); [|constructor].
  pose proof (skipSpace_ok code (j + 1)) as Hw.
  destruct (XML.skipSpace code (j + 1)) as [ws j2]. cbn [fst] in Hw.
  destruct (idx code j2) as [quote|]; [|cbn [fst]; spans_ok].
  destruct (ceqb quote c_dquote || ceqb quote c_squote); cbn [fst]; spans_ok.
Qed.

Lemma attrStep_ok (code : str) (j : nat) :
  Forall (fun sp => class_ok (sp_class sp) = true) (fst (XML.attrStep code j)).
Proof.
  unfold XML.attrStep.
  pose proof (skipSpace_ok code (scanWhile XML.isName code j)) as Hw1.
  destruct (XML.skipSpace code (scanWhile XML.isName code j)) as [ws1 j2].
  pose proof (attrValue_ok code j2) as Hv.
  destruct (XML.attrValue code j2) as [val j3].
  pose proof (skipSpace_ok code j3) as Hw2.
  destruct (XML.skipSpace code j3) as [ws2 j4]. cbn [fst] in *.
  destruct (j <? scanWhile XML.isName code j); spans_ok.
Qed.

Lemma attrs_ok (code : str) :
  forall fuel j out r,
    Forall (fun sp => class_ok (sp_class sp) = true) out ->
    XML.attrs fuel code j out = Some r ->
    Forall (fun sp => class_ok (sp_class sp) = true) (fst r).
Proof.
  induction fuel as [|fuel IH]; intros j out r Hout; cbn [XML.attrs];
    [discriminate|].
  destruct (XML.inAttrs code j); [|now intros [= <-]].
  pose proof (attrStep_ok code j) as Hs.
  destruct (XML.attrStep code j) as [o j']. cbn [fst] in Hs.
  apply IH. now apply Forall_app.
Qed.

Lemma tag_ok (fuel : nat) (code : str) (i : nat) (r : list span * nat) :
  XML.tag fuel code i = Some r ->
  Forall (fun sp => class_ok (sp_class sp) = true) (fst r).
Proof.
  unfold XML.tag.
  set (j0 := if idx_is code (i + 1) (ch "/") then i + 1 + 1 else i + 1).
  pose proof (skipSpace_ok code (scanWhile XML.isName code j0)) as Hw.
  destruct (XML.skipSpace code (scanWhile XML.isName code j0)) as [ws j2].
  cbn [fst] in Hw.
  assert (Hats : forall ats j3,
             (if idx_is code (i + 1) (ch "/") then Some ([], j2)
              else XML.attrs fuel code j2 []) = Some (ats, j3) ->
             Forall (fun sp => class_ok (sp_class sp) = true) ats).
  { intros ats j3. destruct (idx_is code (i + 1) (ch "/")).
    - intros [= <- <-]. constructor.
    - intros H. apply attrs_ok in H; [exact H|constructor]. }
  destruct (if idx_is code (i + 1) (ch "/") then Some ([], j2)
            else XML.attrs fuel code j2 []) as [[ats j3]|]; [|discriminate].
  specialize (Hats ats j3 eq_refl).
  destruct (idx_is code j3 (ch "/") && idx_is code (j3 + 1) (ch ">"));
    [|destruct (idx_is code j3 (ch ">"))];
    intros [= <-]; cbn [fst]; spans_ok.
Qed.

Lemma xml_step_ok (fuel : nat) (code : str) (i : nat) (x : char)
      (r : list span * nat) :
  XML.step fuel code i x = Some r ->
  Forall (fun sp => class_ok (sp_class sp) = true) (fst r).
Proof.
  unfold XML.step.
  destruct (_ && str_eqb (slice code i (i + 4)) _);
    [intros [= <-]; cbn [fst]; spans_ok|].
  destruct (_ && str_eqb (slice code i (i + 9)) _);
    [intros [= <-]; cbn [fst]; spans_ok|].
  destruct (_ && str_eqb (toUpperCase _) _);
    [intros [= <-]; cbn [fst]; spans_ok|].
  destruct (_ && idx_is code (i + 1) (ch "?")).
  { destruct (test f_i XML.re_xml_decl _); intros [= <-]; cbn [fst]; spans_ok. }
  destruct (_ && test_at XML.isTagStart code (i + 1)); [apply tag_ok|].
  destruct (if ceqb x (ch "&") then XML.entityEnd code i else None);
    intros [= <-]; cbn [fst]; spans_ok.
Qed.

Lemma xml_loop_ok (fuel : nat) (code : str) :
  forall n i out l,
    Forall (fun sp => class_ok (sp_class sp) = true) out ->
    XML.loop fuel code i out n = Some l ->
    Forall (fun sp => class_ok (sp_class sp) = true) l.
Proof.
  induction n as [|n IH]; intros i out l Hout; cbn [XML.loop]; [discriminate|].
  destruct (idx code i) as [x|]; [|now intros [= <-]].
  destruct (XML.step fuel code i x) as [[sps j]|] eqn:Es; [|discriminate].
  apply xml_step_ok in Es. cbn [fst] in Es.
  apply IH. now apply Forall_app.
Qed.

End SpanMarkup.

(** X3. The markup that [highlightBSL] returns holds no tag but the
    [span] elements of the tokens: every [<] in it opens a [span] with a
    [tok-] class or closes a [span]; whatever the code holds is escaped. *)
Theorem highlightBSL_only_span_tags (code : str) :
  only_span_tags (BSL.highlightBSL code) = true.
Proof.
  unfold BSL.highlightBSL. apply SpanMarkup.render_spans_ok.
  apply (SpanMarkup.bsl_loop_ok code (S (length code)) 0 []); [constructor|].
  apply BSLFacts.spans_tokenize.
Qed.

(** X4. The same for [highlightXML], whenever it returns. *)
Theorem highlightXML_only_span_tags (fuel : nat) (code html : str) :
  XML.highlightXML fuel code = Some html -> only_span_tags html = true.
Proof.
  unfold XML.highlightXML, XML.tokenize.
  destruct (XML.loop fuel code 0 [] fuel) as [l|] eqn:E; [|discriminate].
  intros [= <-]. apply SpanMarkup.render_spans_ok.
  apply (SpanMarkup.xml_loop_ok fuel code fuel 0 [] l); [constructor|exact E].
Qed.

(** The theorem at a tag with a value that holds markup. *)
Lemma highlightXML_only_span_tags_witness :
  XML.highlightXML 9 (q "<a b='<i>'/>")
  = Some (q "<span class='tok-xml-tag'>&lt;a</span> <span class='tok-xml-attr'>b</span>=<span class='tok-xml-val'>'&lt;i&gt;'</span><span class='tok-xml-tag'>/&gt;</span>")
  /\ only_span_tags (q "<span class='tok-xml-tag'>&lt;a</span> <span class='tok-xml-attr'>b</span>=<span class='tok-xml-val'>'&lt;i&gt;'</span><span class='tok-xml-tag'>/&gt;</span>") = true.
Proof.
  split; [vm_compute; reflexivity|].
  apply (highlightXML_only_span_tags 9 (q "<a b='<i>'/>")).
  vm_compute. reflexivity.
Defined.

(* ================================================================== *)
(** * Replacements invent no code unit *)
(* ================================================================== *)

Module CharFacts.
Import Sem PlainFacts.

Section Every.
Variable P : char -> bool.

Lemma every_in (s : str) (x : char) :
  forallb P s = true -> In x s -> P x = true.
Proof. intros H. rewrite forallb_forall in H. apply H. Qed.

Lemma every_firstn (n : nat) (s : str) :
  forallb P s = true -> forallb P (firstn n s) = true.
Proof.
  intros H. rewrite <- (firstn_skipn n s), forallb_app in H.
  now apply andb_true_iff in H as [H _].
Qed.

Lemma every_skipn (n : nat) (s : str) :
  forallb P s = true -> forallb P (skipn n s) = true.
Proof.
  intros H. rewrite <- (firstn_skipn n s), forallb_app in H.
  now apply andb_true_iff in H as [_ H].
Qed.

Lemma every_slice (s : str) (a b : nat) :
  forallb P s = true -> forallb P (slice s a b) = true.
Proof. intros H. unfold slice. now apply every_firstn, every_skipn. Qed.

Lemma every_rev (s : str) : forallb P s = true -> forallb P (rev s) = true.
Proof.
  intros H. apply forallb_forall. intros x Hx. apply in_rev in Hx.
  now apply (every_in s x H).
Qed.

Lemma every_trimStart (s : str) :
  forallb P s = true -> forallb P (trimStart s) = true.
Proof.
  induction s as [|x s IH]; [reflexivity|]. cbn [trimStart forallb].
  intros H. destruct (isSpace x); [|exact H].
  apply andb_true_iff in H as [_ H]. now apply IH.
Qed.

Lemma every_trim (s : str) : forallb P s = true -> forallb P (trim s) = true.
Proof.
  intros H. unfold trim, trimEnd.
  now apply every_rev, every_trimStart, every_rev, every_trimStart.
Qed.

Lemma every_join (sep : str) (parts : list str) :
  forallb P sep = true -> Forall (fun t => forallb P t = true) parts ->
  forallb P (join sep parts) = true.
Proof.
  intros Hs H. induction H as [|p parts Hp Hr IH]; [reflexivity|].
  cbn [join]. destruct parts as [|p' parts]; [exact Hp|].
  rewrite !forallb_app, Hp, Hs. exact IH.
Qed.

Lemma every_split_aux (c : char) (s : str) :
  forall cur, forallb P cur = true -> forallb P s = true ->
              Forall (fun t => forallb P t = true) (split_char_aux c cur s).
Proof.
  induction s as [|x s IH]; intros cur Hc Hs; cbn [split_char_aux].
  - constructor; [now apply every_rev|constructor].
  - cbn [forallb] in Hs. apply andb_true_iff in Hs as [Hx Hs].
    destruct (ceqb x c).
    + constructor; [now apply every_rev|]. now apply IH.
    + apply IH; [|assumption]. cbn [forallb]. now rewrite Hx.
Qed.

Lemma every_split_char (c : char) (s : str) :
  forallb P s = true -> Forall (fun t => forallb P t = true) (split_char c s).
Proof. intros H. now apply every_split_aux. Qed.

Lemma every_replace_char (c : char) (r s : str) :
  forallb P r = true ->
  (forall x, In x s -> ceqb x c = false -> P x = true) ->
  forallb P (replace_char c r s) = true.
Proof.
  intros Hr. induction s as [|x s IH]; [reflexivity|]. intros Hs.
  change (replace_char c r (x :: s))
    with ((if ceqb x c then r else [x]) ++ replace_char c r s).
  rewrite forallb_app, IH by (intros; apply Hs; simpl; auto).
  rewrite andb_true_r. destruct (ceqb x c) eqn:E; [exact Hr|].
  cbn [forallb]. rewrite (Hs x) by (simpl; auto). reflexivity.
Qed.

Lemma every_replace_char_keeps (c : char) (r s : str) :
  forallb P r = true -> forallb P s = true ->
  forallb P (replace_char c r s) = true.
Proof.
  intros Hr Hs. apply every_replace_char; [assumption|].
  intros x Hx _. now apply (every_in s x Hs).
Qed.

(** The [$] patterns of a replacement string bring in the match, the
    text around it and the captures, and nothing else. *)
Section Expand.
Variables mt before after : str.
Variable grp : list (option str).
Hypothesis mt_ok : forallb P mt = true.
Hypothesis before_ok : forallb P before = true.
Hypothesis after_ok : forallb P after = true.
Hypothesis grp_ok :
  forall p g, nth_error grp p = Some (Some g) -> forallb P g = true.

Ltac capture_cases :=
  repeat match goal with
         | |- context [match ?n with O => None | S _ => _ end] => destruct n
         | |- context [nth_error grp ?p] =>
           let E := fresh "E" in destruct (nth_error grp p) as [[?|]|] eqn:E
         end.

Ltac capture_done :=
  cbn [app forallb];
  repeat match goal with
         | H : ?a = true |- context [?a] => rewrite H
         end;
  first [ reflexivity
        | assumption
        | rewrite forallb_app;
          apply andb_true_iff; split; [eapply grp_ok; eassumption|assumption] ].

Lemma every_expand_n (n : nat) :
  forall tpl, length tpl <= n -> forallb P tpl = true ->
              forallb P (expand tpl mt before after grp) = true.
Proof.
  induction n as [|n IH]; intros [|x t] Hn Ht; try reflexivity;
    [simpl in Hn; lia|].
  simpl in Hn. cbn [forallb] in Ht. apply andb_true_iff in Ht as [Hx Ht].
  assert (IHt : forallb P (expand t mt before after grp) = true)
    by (apply IH; [lia|assumption]).
  cbn [expand]. destruct (ceqb x c_dollar) eqn:Ed; cbn [negb];
    [|cbn [forallb]; now rewrite Hx].
  destruct t as [|d t']; [cbn [forallb]; now rewrite Hx|].
  cbn [forallb] in Ht. apply andb_true_iff in Ht as [Hd Ht'].
  simpl in Hn.
  assert (IH' : forallb P (expand t' mt before after grp) = true)
    by (apply IH; [lia|assumption]).
  destruct (ceqb d c_dollar) eqn:Edd.
  { apply ceqb_eq in Edd. subst d. cbn [forallb]. now rewrite Hd. }
  destruct (ceqb d (ch "&")); [rewrite forallb_app; now rewrite mt_ok|].
  destruct (ceqb d (ch "`")); [rewrite forallb_app; now rewrite before_ok|].
  destruct (ceqb d c_squote); [rewrite forallb_app; now rewrite after_ok|].
  destruct (isDigit d) eqn:Edig;
    [|cbn [forallb]; now rewrite Hx].
  destruct t' as [|d2 t''].
  - capture_cases; capture_done.
  - cbn [forallb] in Ht'. apply andb_true_iff in Ht' as [Hd2 Ht''].
    simpl in Hn.
    assert (IH'' : forallb P (expand t'' mt before after grp) = true)
      by (apply IH; [lia|assumption]).
    destruct (isDigit d2); capture_cases; capture_done.
Qed.

Lemma every_expand (tpl : str) :
  forallb P tpl = true -> forallb P (expand tpl mt before after grp) = true.
Proof. apply (every_expand_n (length tpl)). lia. Qed.

End Expand.

Lemma every_groups (s : str) (n : nat) (c : caps) (p : nat) (g : str) :
  forallb P s = true ->
  nth_error (groups_of s n c) p = Some (Some g) -> forallb P g = true.
Proof.
  intros Hs H. apply nth_error_In in H. unfold groups_of in H.
  apply in_map_iff in H as (k & H & _).
  destruct (cap_lookup c k) as [[a b]|]; [|discriminate].
  injection H as <-. now apply every_slice.
Qed.

Lemma every_group_str (s : str) (r : regex) (m : nat * nat * caps) (n : nat) :
  forallb P s = true -> forallb P (group_str (info_of s r m) n) = true.
Proof.
  intros Hs. destruct m as [[i j] c]. unfold group_str, group.
  destruct n as [|p]; [reflexivity|]. cbn [info_of m_groups].
  destruct (nth_in_or_default p (groups_of s (group_count r) c) None) as [Hin|E].
  - destruct (nth p (groups_of s (group_count r) c) None) as [g|] eqn:Eg;
      [|reflexivity].
    apply In_nth_error in Hin as [k Hk]. eapply every_groups; eauto.
  - now rewrite E.
Qed.

Section Build.
Variable St : Type.
Variable f : St -> rmatch_info -> str * St.
Variable s : str.
Hypothesis s_ok : forallb P s = true.

Lemma every_build (ms : list rmatch_info) :
  (forall st mi, In mi ms -> forallb P (fst (f st mi)) = true) ->
  forall pos st, forallb P (fst (build f s pos ms st)) = true.
Proof.
  induction ms as [|mi ms IH]; intros H pos st; cbn [build].
  - now apply every_skipn.
  - pose proof (H st mi (or_introl eq_refl)) as H1.
    destruct (f st mi) as [r st1].
    specialize (IH (fun st' m Hm => H st' m (or_intror Hm)) (m_end mi) st1).
    destruct (build f s (m_end mi) ms st1) as [rest st2]. cbn [fst] in *.
    rewrite !forallb_app, H1, IH, every_slice by assumption. reflexivity.
Qed.

End Build.

Lemma every_replace_fn (fl : flags) (r : regex) (f : rmatch_info -> str)
      (s : str) :
  forallb P s = true ->
  (forall m, forallb P (f (info_of s r m)) = true) ->
  forallb P (replace_fn fl r f s) = true.
Proof.
  intros Hs H. unfold replace_fn, replace_st. apply every_build; [assumption|].
  intros _ mi Hmi. unfold all_matches in Hmi.
  apply in_map_iff in Hmi as (m & <- & _). apply H.
Qed.

Lemma every_replace_tpl (fl : flags) (r : regex) (tpl s : str) :
  forallb P tpl = true -> forallb P s = true ->
  forallb P (replace_tpl fl r tpl s) = true.
Proof.
  intros Ht Hs. unfold replace_tpl. apply every_replace_fn; [assumption|].
  intros [[i j] c]. cbn [info_of m_start m_end m_groups matched].
  apply every_expand; try assumption.
  - now apply every_slice.
  - now apply every_firstn.
  - now apply every_skipn.
  - intros p g. now apply every_groups.
Qed.

(** ** What a global replacement leaves of the text

    The code units that a global replacement keeps lie where the pattern
    has no match or an empty one: when every code unit outside of [P]
    starts a match that is not empty, the result is made of code units
    of [P] and of what the replacements bring in. *)
Section Gap.
Variable fl : flags.
Variable r : regex.
Variable s : str.
Variable St : Type.
Variable f : St -> rmatch_info -> str * St.
Hypothesis taken :
  forall k x, idx s k = Some x -> P x = false ->
              exists j c, match_at fl s r k = Some (j, c) /\ k < j.
Hypothesis f_ok : forall st m, forallb P (fst (f st (info_of s r m))) = true.

Lemma every_between (a b : nat) :
  (forall k x, a <= k < b -> idx s k = Some x -> P x = true) ->
  forallb P (slice s a b) = true.
Proof.
  intros H. apply forallb_forall. intros x Hx.
  unfold slice in Hx. apply In_nth_error in Hx as [k Hk].
  rewrite nth_error_firstn in Hk.
  destruct (k <? b - a) eqn:Ek; [|discriminate]. apply Nat.ltb_lt in Ek.
  rewrite nth_error_skipn in Hk. apply (H (a + k) x); [lia|exact Hk].
Qed.

Lemma every_from (a : nat) :
  (forall k x, a <= k -> idx s k = Some x -> P x = true) ->
  forallb P (skipn a s) = true.
Proof.
  intros H. apply forallb_forall. intros x Hx.
  apply In_nth_error in Hx as [k Hk]. rewrite nth_error_skipn in Hk.
  apply (H (a + k) x); [lia|exact Hk].
Qed.

Lemma every_scan :
  forall fuel i pos st,
    pos <= i -> length s < fuel + i ->
    (forall k x, pos <= k < i -> idx s k = Some x -> P x = true) ->
    forallb P (fst (build f s pos (map (info_of s r) (scan fl s r fuel i)) st))
    = true.
Proof.
  assert (Hend : forall i pos,
             length s < i ->
             (forall k x, pos <= k < i -> idx s k = Some x -> P x = true) ->
             forallb P (skipn pos s) = true).
  { intros i pos Hi H. apply every_from. intros k x Hk Hx.
    apply (H k x); [|exact Hx]. apply idx_lt in Hx. lia. }
  induction fuel as [|fuel IH]; intros i pos st Hpos Hfuel Hfree;
    cbn [scan map build fst].
  - apply (Hend i); [lia|assumption].
  - destruct (length s <? i) eqn:El.
    { apply Nat.ltb_lt in El. cbn [map build fst]. now apply (Hend i). }
    apply Nat.ltb_ge in El.
    destruct (match_at fl s r i) as [[j c]|] eqn:E.
    + cbn [map build]. pose proof (f_ok st (i, j, c)) as Hf.
      destruct (f st (info_of s r (i, j, c))) as [out st1]. cbn [fst] in Hf.
      cbn [info_of m_start m_end].
      pose proof (match_at_sound fl s r i j c E) as Hm.
      apply matches_bounds in Hm as [Hij _].
      assert (Hnext : forallb P
                (fst (build f s j
                        (map (info_of s r)
                             (scan fl s r fuel (if j =? i then S i else j)))
                        st1)) = true).
      { apply IH.
        - destruct (j =? i) eqn:Ej; [apply Nat.eqb_eq in Ej|]; lia.
        - destruct (j =? i) eqn:Ej;
            [apply Nat.eqb_eq in Ej|apply Nat.eqb_neq in Ej]; lia.
        - intros k x Hk Hx. destruct (j =? i) eqn:Ej;
            [apply Nat.eqb_eq in Ej|lia].
          assert (k = i) by lia. subst k j.
          destruct (P x) eqn:Ex; [reflexivity|].
          destruct (taken i x Hx Ex) as (j' & c' & E' & Hlt).
          rewrite E in E'. injection E' as <- _. lia. }
      destruct (build f s j _ st1) as [rest st2]. cbn [fst] in *.
      rewrite !forallb_app, Hf, Hnext, every_between by assumption.
      reflexivity.
    + apply IH; [lia|lia|]. intros k x Hk Hx.
      destruct (Nat.eq_dec k i) as [->|Hne]; [|apply (Hfree k x); [lia|exact Hx]].
      destruct (P x) eqn:Ex; [reflexivity|].
      destruct (taken i x Hx Ex) as (j' & c' & E' & _). congruence.
Qed.

Lemma every_replace_st (st : St) :
  forallb P (fst (replace_st fl r f s st)) = true.
Proof.
  unfold replace_st, all_matches, scan_all. apply every_scan; [lia|lia|].
  intros k x Hk. lia.
Qed.

End Gap.

End Every.

(** A text without [$] is a replacement string that stands for itself. *)
Lemma expand_plain (tpl mt before after : str) (grp : list (option str)) :
  has_char [c_dollar] tpl = false -> expand tpl mt before after grp = tpl.
Proof.
  induction tpl as [|x t IH]; [reflexivity|]. intros H.
  unfold has_char in H. cbn [existsb] in H.
  apply orb_false_iff in H as [Hx Ht]. unfold one_of in Hx.
  cbn [existsb] in Hx. rewrite orb_false_r in Hx.
  cbn [expand]. rewrite Hx. cbn [negb]. f_equal. now apply IH.
Qed.

End CharFacts.

(* ================================================================== *)
(** * The renderer and the diagram code: further properties *)
(* ================================================================== *)

Module RenderFacts.
Import Markdown Sem PlainFacts CharFacts.

(** ** Tags *)

Lemma opens_tag_prefix (t s : str) :
  2 <= length t -> starts_with t s = true -> opens_tag s = opens_tag t.
Proof.
  destruct t as [|a [|b t]]; simpl; try lia. intros _.
  destruct s as [|a' [|b' s]]; cbn [starts_with]; try discriminate.
  - rewrite andb_false_r. discriminate.
  - intros H. apply andb_true_iff in H as [Ha H].
    apply andb_true_iff in H as [Hb _].
    apply ceqb_eq in Ha, Hb. now subst.
Qed.

Lemma tags_ok_includes (s t : str) :
  tags_ok s = true -> 2 <= length t -> opens_tag t = false ->
  includes (c_lt :: t) s = false.
Proof.
  intros Hs Ht Ho. induction s as [|x s IH]; [reflexivity|].
  cbn [tags_ok] in Hs. apply andb_true_iff in Hs as [H1 H2].
  cbn [includes]. rewrite (IH H2), orb_false_r.
  cbn [starts_with]. destruct (ceqb c_lt x) eqn:Ex; [|reflexivity].
  apply ceqb_eq in Ex. subst x. cbn [andb].
  change (ceqb c_lt c_lt) with true in H1. cbn iota in H1.
  destruct (starts_with t s) eqn:E; [|reflexivity].
  rewrite (opens_tag_prefix t s Ht E) in H1. congruence.
Qed.

(** ** The escapers and the decoding of the browser *)

Lemma starts_with_other (p : str) (x y : char) (s : str) :
  ceqb x y = false -> starts_with (x :: p) (y :: s) = false.
Proof. intros H. cbn [starts_with]. now rewrite H. Qed.

Lemma ceqb_sym (a b : char) : ceqb a b = ceqb b a.
Proof. unfold ceqb. apply N.eqb_sym. Qed.

Lemma decode_plain (x : char) (s : str) :
  ceqb x (ch "&") = false -> App.decode 0 (x :: s) = x :: App.decode 0 s.
Proof.
  intros H. rewrite ceqb_sym in H. cbn [App.decode].
  change (u "&amp;") with (ch "&" :: u "amp;").
  change (u "&lt;") with (ch "&" :: u "lt;").
  change (u "&gt;") with (ch "&" :: u "gt;").
  change (u "&quot;") with (ch "&" :: u "quot;").
  change (u "&#39;") with (ch "&" :: u "#39;").
  now rewrite !starts_with_other by exact H.
Qed.

Lemma decode_esc1 (x : char) (s : str) :
  App.decode 0 (esc1 x ++ s) = x :: App.decode 0 s.
Proof.
  unfold esc1.
  destruct (ceqb x (ch "&")) eqn:E1; [apply ceqb_eq in E1; now subst|].
  destruct (ceqb x (ch "<")) eqn:E2; [apply ceqb_eq in E2; now subst|].
  destruct (ceqb x (ch ">")) eqn:E3; [apply ceqb_eq in E3; now subst|].
  destruct (ceqb x c_dquote) eqn:E4; [apply ceqb_eq in E4; now subst|].
  destruct (ceqb x c_squote) eqn:E5; [apply ceqb_eq in E5; now subst|].
  now apply decode_plain.
Qed.

(** [mermaidAttr] on one code unit. *)
Lemma mermaidAttr_cons (x : char) (s : str) :
  mermaidAttr (x :: s)
  = (if ceqb x (ch "&") then u "&amp;"
     else if ceqb x (ch "<") then u "&lt;"
     else if ceqb x (ch ">") then u "&gt;"
     else if ceqb x c_dquote then u "&quot;"
     else [x]) ++ mermaidAttr s.
Proof.
  unfold mermaidAttr, replace_char. cbn [flat_map].
  destruct (ceqb x (ch "&")) eqn:E1.
  { rewrite !flat_map_app. reflexivity. }
  cbn [flat_map app]. destruct (ceqb x (ch "<")) eqn:E2.
  { rewrite !flat_map_app. reflexivity. }
  cbn [flat_map app]. destruct (ceqb x (ch ">")) eqn:E3.
  { rewrite !flat_map_app. reflexivity. }
  cbn [flat_map app]. destruct (ceqb x c_dquote) eqn:E4; reflexivity.
Qed.

Lemma decode_mermaidAttr (s : str) : App.decode 0 (mermaidAttr s) = s.
Proof.
  induction s as [|x s IH]; [reflexivity|]. rewrite mermaidAttr_cons.
  destruct (ceqb x (ch "&")) eqn:E1.
  { apply ceqb_eq in E1. subst x. cbn. now rewrite IH. }
  destruct (ceqb x (ch "<")) eqn:E2.
  { apply ceqb_eq in E2. subst x. cbn. now rewrite IH. }
  destruct (ceqb x (ch ">")) eqn:E3.
  { apply ceqb_eq in E3. subst x. cbn. now rewrite IH. }
  destruct (ceqb x c_dquote) eqn:E4.
  { apply ceqb_eq in E4. subst x. cbn. now rewrite IH. }
  cbn [app]. rewrite decode_plain by exact E1. now rewrite IH.
Qed.

Lemma mermaidAttr_no_quote (s : str) :
  forallb (fun x => negb (ceqb x c_dquote)) (mermaidAttr s) = true.
Proof.
  unfold mermaidAttr. apply every_replace_char; [reflexivity|].
  intros x _ ->. reflexivity.
Qed.

Lemma span_len_all (p : char -> bool) (a b : str) :
  forallb p a = true ->
  match b with y :: _ => p y = false | [] => True end ->
  span_len p (a ++ b) = length a.
Proof.
  intros Ha Hb. induction a as [|x a IH].
  - destruct b as [|y b]; [reflexivity|]. cbn [app span_len]. now rewrite Hb.
  - cbn [forallb] in Ha. apply andb_true_iff in Ha as [Hx Ha].
    cbn [app span_len length]. rewrite Hx. now rewrite IH.
Qed.

Lemma attribute_read_back (a : str) :
  forallb (fun x => negb (ceqb x c_dquote)) a = true ->
  App.getMermaidCode (mermaid_head ++ a ++ mermaid_tail) = App.decodeEntities a.
Proof.
  intros Ha. unfold App.getMermaidCode.
  set (r := a ++ mermaid_tail).
  assert (E : indexOf (mermaid_head ++ r) (q "data-mermaid-code='") 0
              = Some (length mermaid_head - 19)).
  { clearbody r. vm_compute. reflexivity. }
  rewrite E.
  assert (El : length mermaid_head - 19 + length (q "data-mermaid-code='")
               = length mermaid_head) by (vm_compute; reflexivity).
  rewrite El. unfold scanWhile, slice.
  rewrite skipn_app, Nat.sub_diag, skipn_all. cbn [app skipn].
  unfold r. rewrite span_len_all; [|exact Ha|reflexivity].
  replace (length mermaid_head + length a - length mermaid_head)
    with (length a) by lia.
  rewrite firstn_app, Nat.sub_diag, firstn_all. cbn [firstn].
  now rewrite app_nil_r.
Qed.

(** ** Operators of a condition *)

Section Star.
Variable fl : flags.
Variable s : str.
Variable neg : bool.
Variable rs : ranges.

(** [[...]*] at the end of a pattern always matches. *)
Lemma star_set_total :
  forall fuel i c,
    exists j, i <= j
              /\ loopRep (rmatch fl s (RSet neg rs)) true fuel None i c
                         (fun j c => Some (j, c)) = Some (j, c).
Proof.
  set (body := rmatch fl s (RSet neg rs)).
  assert (Hb : forall i c k,
             body i c k = match idx s i with
                          | Some y => if set_match fl neg rs y then k (S i) c
                                      else None
                          | None => None
                          end) by reflexivity.
  induction fuel as [|fuel IH]; intros i c; cbn [loopRep].
  - exists i. auto.
  - rewrite Hb. destruct (idx s i) as [y|]; [|exists i; auto].
    destruct (set_match fl neg rs y); [|exists i; auto].
    replace (S i <=? i) with false by (symmetry; apply Nat.leb_gt; lia).
    destruct (IH (S i) c) as (j & Hj & E). rewrite E.
    exists j. split; [lia|reflexivity].
Qed.

End Star.

(** Where the text holds the operator [x], the pattern [\s*x\s*] has a
    match that is not empty. *)
Lemma op_taken (x : char) (s : str) (k : nat) :
  set_match f_none false r_space x = false ->
  idx s k = Some x ->
  exists j c,
    match_at f_none s (seqs [star (set r_space); RChar x; star (set r_space)]) k
    = Some (j, c)
    /\ k < j.
Proof.
  intros Es Hk.
  pose (body := rmatch f_none s (RSet false r_space)).
  assert (Hb : forall i c k,
             body i c k = match idx s i with
                          | Some y => if set_match f_none false r_space y
                                      then k (S i) c else None
                          | None => None
                          end) by reflexivity.
  change (match_at f_none s
            (seqs [star (set r_space); RChar x; star (set r_space)]) k)
    with (loopRep body true (S (length s - k)) None k []
            (fun j c' =>
               match idx s j with
               | Some y =>
                 if char_match f_none x y
                 then loopRep body true (S (length s - S j)) None (S j) c'
                              (fun j c => Some (j, c))
                 else None
               | None => None
               end)).
  match goal with
  | |- context [loopRep body true _ None k [] ?K0] => set (K := K0)
  end.
  cbn [loopRep]. rewrite Hb, Hk, Es. unfold K. rewrite Hk.
  unfold char_match. cbn [icase f_none]. rewrite ceqb_refl.
  destruct (star_set_total f_none s false r_space
              (S (length s - S k)) (S k) []) as (j & Hj & E).
  fold body in E. rewrite E.
  exists j, []. split; [reflexivity|lia].
Qed.

(** The replacement of an operator leaves none of it. *)
Lemma op_replaced (x : char) (tpl s : str) :
  set_match f_none false r_space x = false ->
  has_char [c_dollar] tpl = false ->
  forallb (fun y => negb (ceqb y x)) tpl = true ->
  forallb (fun y => negb (ceqb y x))
          (replace_tpl f_none
             (seqs [star (set r_space); RChar x; star (set r_space)]) tpl s)
  = true.
Proof.
  intros Hx Hd Ht. unfold replace_tpl, replace_fn.
  apply (every_replace_st (fun y => negb (ceqb y x)) f_none
           (seqs [star (set r_space); RChar x; star (set r_space)]) s).
  - intros k y Hk Hy. apply negb_false_iff in Hy.
    apply ceqb_eq in Hy. subst y. now apply op_taken.
  - intros _ [[i j] c]. cbn [fst]. now rewrite expand_plain.
Qed.

End RenderFacts.

(** X5. Whatever the input, every [<] of the output of [render] opens or
    closes one of the tags that [render] writes: a text of two code units
    or more that does not begin like one of these tags ([img], [script],
    [iframe], [svg], ...) never follows a [<] in the output. *)
Theorem render_opens_known_tags (md t : str) :
  2 <= length t -> opens_tag t = false ->
  includes (c_lt :: t) (Markdown.render md) = false.
Proof.
  intros Ht Ho. apply RenderFacts.tags_ok_includes; try assumption.
  apply TagFacts.render_tags_ok.
Qed.

(** The theorem at an image tag with a handler. *)
Lemma render_opens_known_tags_witness :
  2 <= length (u "img")
  /\ includes (c_lt :: u "img")
              (Markdown.render (u "<img src=x onerror=alert(1)>")) = false.
Proof.
  split; [vm_compute; lia|].
  apply (render_opens_known_tags (u "<img src=x onerror=alert(1)>") (u "img"));
    [vm_compute; lia|reflexivity].
Defined.

(** X6. The output of [escapeHTML] holds none of [<], [>], the double
    quote and the single quote, and decoding its five entities gives the
    input back. *)
Theorem escapeHTML_round_trip (s : str) :
  has_char (u "<>" ++ [c_dquote; c_squote]) (Markdown.escapeHTML s) = false
  /\ App.decodeEntities (Markdown.escapeHTML s) = s.
Proof.
  split.
  - apply PlainFacts.escape_has_char; [|reflexivity].
    intros x _ Hx. unfold isSpecial in Hx.
    apply orb_false_iff in Hx as [Hx H5]. apply orb_false_iff in Hx as [Hx H4].
    apply orb_false_iff in Hx as [Hx H3]. apply orb_false_iff in Hx as [_ H2].
    unfold one_of. cbn [existsb app u].
    change (ceqb x (ch "<")) with (ceqb x 60%N) in H2.
    change (ceqb x (ch ">")) with (ceqb x 62%N) in H3.
    vm_compute u. cbn [existsb app].
    unfold c_dquote, c_squote in *.
    now rewrite H2, H3, H4, H5.
  - unfold App.decodeEntities. rewrite PlainFacts.escapeHTML_flat.
    induction s as [|x s IH]; [reflexivity|].
    cbn [flat_map]. rewrite RenderFacts.decode_esc1. now rewrite IH.
Qed.

(** ** The code of a diagram through [processMermaidBlock]

    The passes of [processMermaidBlock] bring in brackets, their
    look-alikes and line feeds, and nothing else: a property of code units
    that these have, and that the code has, is a property of the fixed
    code. *)
Module DiagramFacts.
Import Markdown Sem CharFacts.

Section Kept.
Variable P : char -> bool.
Hypothesis P_brought : forallb P (u "⦋⦌⦅⦆{}″$12-[]() ") = true.
Hypothesis P_nl : P c_nl = true.

Lemma brought (t : str) :
  (forall x, In x t -> In x (u "⦋⦌⦅⦆{}″$12-[]() ")) -> forallb P t = true.
Proof.
  intros H. apply forallb_forall. intros x Hx.
  exact (every_in P _ x P_brought (H x Hx)).
Qed.

Lemma innerScan_kept (o cl : char) (rest : str) :
  forallb P rest = true ->
  forall (depth i : nat) (content : str),
    forallb P content = true ->
    forallb P (fst (innerScan o cl rest depth i content)) = true.
Proof.
  induction rest as [|x rest IH]; intros Hr depth i content Hc; [exact Hc|].
  cbn [forallb] in Hr. apply andb_true_iff in Hr as [Hx Hr].
  cbn [innerScan]. destruct (depth =? 0); [exact Hc|].
  apply IH; [exact Hr|].
  match goal with
  | |- context [if ?b then content ++ [x] else content] => destruct b
  end; [|exact Hc].
  rewrite forallb_app, Hc. cbn [forallb]. now rewrite Hx.
Qed.

Lemma nodeScan_kept (line : str) (openChar closeChar : char) :
  forallb P line = true ->
  forall (fuel i : nat) (depth : Z) (nodeText : str),
    forallb P nodeText = true ->
    forallb P (fst (nodeScan fuel line openChar closeChar i depth nodeText))
    = true.
Proof.
  intros Hl.
  assert (Hadd : forall a b, forallb P a = true -> forallb P b = true ->
                             forallb P (a ++ b) = true).
  { intros a b Ha Hb. now rewrite forallb_app, Ha, Hb. }
  assert (Hc : forall t, In t [u "⦋"; u "⦌"; u "⦅"; u "⦆"; u "{"; u "}"] ->
                         forallb P t = true).
  { intros t Ht. apply brought. intros x Hx. vm_compute in Ht.
    repeat (destruct Ht as [<- | Ht];
            [vm_compute in Hx; vm_compute; intuition|]).
    contradiction. }
  induction fuel as [|fuel IH]; intros i depth nodeText Hn; [exact Hn|].
  cbn [nodeScan]. destruct (idx line i) as [x|] eqn:Ex; [|exact Hn].
  assert (Hx : forallb P [x] = true).
  { cbn [forallb]. rewrite (every_in P line x Hl); [reflexivity|].
    unfold idx in Ex. now apply nth_error_In in Ex. }
  destruct (ceqb x openChar).
  { apply IH. destruct (_ =? 1)%Z; apply Hadd; try assumption.
    destruct (ceqb openChar (ch "[")); [apply Hc; simpl; auto|].
    destruct (ceqb openChar (ch "{")); apply Hc; simpl; auto 7. }
  destruct (ceqb x closeChar).
  { destruct (_ =? 0)%Z; [cbn [fst]; now apply Hadd|].
    apply IH, Hadd; [assumption|].
    destruct (ceqb closeChar (ch "]")); [apply Hc; simpl; auto|].
    destruct (ceqb closeChar (ch "}")); apply Hc; simpl; auto 7. }
  destruct (ceqb openChar (ch "[") && ceqb x (ch "(")).
  { pose proof (innerScan_kept (ch "(") (ch ")") (skipn (S i) line)
                  (every_skipn P (S i) line Hl) 1 (S i) [] eq_refl) as Hi.
    destruct (innerScan (ch "(") (ch ")") (skipn (S i) line) 1 (S i) [])
      as [parenContent i'].
    cbn [fst] in Hi. apply IH. repeat apply Hadd; try assumption;
      apply Hc; simpl; auto 7. }
  destruct (ceqb openChar (ch "{") && (ceqb x (ch "[") || ceqb x (ch "("))).
  { match goal with
    | |- context [innerScan ?o ?c (skipn (S i) line) 1 (S i) []] =>
      pose proof (innerScan_kept o c (skipn (S i) line)
                    (every_skipn P (S i) line Hl) 1 (S i) [] eq_refl) as Hi;
        destruct (innerScan o c (skipn (S i) line) 1 (S i) [])
        as [innerContent i']
    end.
    cbn [fst] in Hi. apply IH. repeat apply Hadd; try assumption.
    - destruct (ceqb x (ch "[")); apply Hc; simpl; auto 7.
    - destruct (ceqb _ (ch "]")); apply Hc; simpl; auto 7. }
  apply IH. now apply Hadd.
Qed.

Lemma fixLine_kept (line : str) :
  forallb P line = true ->
  forall (fuel i : nat) (result : str),
    forallb P result = true ->
    forallb P (fixLine fuel line i result) = true.
Proof.
  intros Hl. induction fuel as [|fuel IH]; intros i result Hr; [exact Hr|].
  cbn [fixLine]. destruct (idx line i) as [x|] eqn:Ex; [|exact Hr].
  unfold match_first.
  destruct (exec f_none (skipn i line) re_node 0) as [m|].
  - pose proof (every_group_str P (skipn i line) re_node m 1
                  (every_skipn P i line Hl)) as Hid.
    set (mi := info_of (skipn i line) re_node m) in *.
    pose proof (nodeScan_kept line (hd 0%N (group_str mi 2))
                  (closerOf (hd 0%N (group_str mi 2))) Hl (length line)
                  (i + length (group_str mi 1)) 0%Z [] eq_refl) as Hn.
    destruct (nodeScan (length line) line (hd 0%N (group_str mi 2))
                       (closerOf (hd 0%N (group_str mi 2)))
                       (i + length (group_str mi 1)) 0%Z []) as [nodeText i'].
    cbn [fst] in Hn. apply IH.
    rewrite !forallb_app, Hr, Hid. cbn [andb].
    apply every_replace_char_keeps; [|exact Hn].
    apply brought. intros y Hy. vm_compute in Hy. vm_compute. intuition.
  - apply IH. rewrite forallb_app, Hr. cbn [forallb andb].
    rewrite (every_in P line x Hl); [reflexivity|].
    unfold idx in Ex. now apply nth_error_In in Ex.
Qed.

Lemma fixMermaid_kept (code : str) :
  forallb P code = true -> forallb P (fixMermaid code) = true.
Proof.
  intros Hc. unfold fixMermaid.
  assert (Ht : forall t, In t [u "$1{$2}"; u "$1[$2]"; u "$1($2)"; u "$1- $2"] ->
                         forallb P t = true).
  { intros t Ht. apply brought. intros x Hx. vm_compute in Ht.
    repeat (destruct Ht as [<- | Ht];
            [vm_compute in Hx; vm_compute; intuition|]).
    contradiction. }
  apply every_join; [cbn [forallb]; now rewrite P_nl|].
  apply Forall_map.
  eapply Forall_impl;
    [|apply every_split_char;
      repeat (apply every_replace_tpl; [apply Ht; simpl; auto 7|]);
      apply every_trim; exact Hc].
  intros line Hl. cbn beta. now apply fixLine_kept.
Qed.

End Kept.

(** The escaping of the attribute brings in the four references. *)
Lemma mermaidAttr_kept (P : char -> bool) (s : str) :
  forallb P (u "&amp;&lt;&gt;&quot;") = true ->
  forallb P s = true -> forallb P (mermaidAttr s) = true.
Proof.
  intros He Hs. unfold mermaidAttr.
  assert (Hr : forall t, In t [u "&amp;"; u "&lt;"; u "&gt;"; u "&quot;"] ->
                         forallb P t = true).
  { intros t Ht. apply forallb_forall. intros x Hx.
    apply (every_in P _ x He). vm_compute in Ht.
    repeat (destruct Ht as [<- | Ht];
            [vm_compute in Hx; vm_compute; intuition|]).
    contradiction. }
  repeat (apply every_replace_char_keeps; [apply Hr; simpl; auto 7|]).
  exact Hs.
Qed.

End DiagramFacts.

(** X7. For a diagram code without carriage return and without NUL, the
    markup that [processMermaidBlock] builds holds neither, so that the
    HTML parser reads the attribute [data-mermaid-code] as it is written;
    and the code that [app.js] reads back from it, the attribute once
    decoded, is the fixed code: every [&] of the attribute begins one of
    the four references that the escaping wrote, and no double quote ends
    the attribute early. *)
Theorem mermaid_code_round_trip (code : str) :
  forallb keptByParser code = true ->
  forallb keptByParser (Markdown.mermaidHTML code) = true
  /\ App.getMermaidCode (Markdown.mermaidHTML code) = Markdown.fixMermaid code.
Proof.
  intros Hc. split.
  - unfold Markdown.mermaidHTML. rewrite !forallb_app.
    rewrite DiagramFacts.mermaidAttr_kept;
      [reflexivity|reflexivity
       |now apply DiagramFacts.fixMermaid_kept].
  - unfold Markdown.mermaidHTML.
    rewrite RenderFacts.attribute_read_back
      by apply RenderFacts.mermaidAttr_no_quote.
    apply RenderFacts.decode_mermaidAttr.
Qed.

(** The theorem at a diagram of two lines with a bracket inside a node
    and an ampersand. *)
Lemma mermaid_code_round_trip_witness :
  forallb keptByParser (u "A[x[1] & y] --> B
B --> C") = true
  /\ App.getMermaidCode
       (Markdown.mermaidHTML (u "A[x[1] & y] --> B
B --> C"))
     = u "A[x⦋1⦌ & y] --> B
B --> C".
Proof.
  split; [reflexivity|].
  rewrite (proj2 (mermaid_code_round_trip (u "A[x[1] & y] --> B
B --> C") eq_refl)).
  vm_compute. reflexivity.
Defined.

(** X8. A stored block without [$] is put back as it is: the first
    occurrence of the marker is replaced by the block, code unit for
    code unit. *)
Theorem replace_string_plain (pat html s : str) (p : nat) :
  has_char [c_dollar] html = false ->
  indexOf s pat 0 = Some p ->
  replace_string pat html s = firstn p s ++ html ++ skipn (p + length pat) s.
Proof.
  intros Hd Hp. unfold replace_string. rewrite Hp.
  now rewrite CharFacts.expand_plain.
Qed.

(** The theorem at a marker between two words. *)
Lemma replace_string_plain_witness :
  replace_string (Markdown.marker "CODEBLOCK" 0) (u "<pre>x</pre>")
                 (u "a " ++ Markdown.marker "CODEBLOCK" 0 ++ u " b")
  = u "a <pre>x</pre> b".
Proof.
  rewrite (replace_string_plain (Markdown.marker "CODEBLOCK" 0)
             (u "<pre>x</pre>")
             (u "a " ++ Markdown.marker "CODEBLOCK" 0 ++ u " b") 2);
    vm_compute; reflexivity.
Defined.

(** X9. The code that [sanitizeMermaidCode] returns holds no [;]. *)
Theorem sanitizeMermaidCode_no_semicolon (code : str) :
  has_char [ch ";"] (App.sanitizeMermaidCode code) = false.
Proof.
  set (P := fun x : char => negb (ceqb x (ch ";"))).
  assert (H : forallb P (App.sanitizeMermaidCode code) = true).
  { unfold App.sanitizeMermaidCode. apply CharFacts.every_trim.
    apply CharFacts.every_replace_tpl; [reflexivity|].
    apply CharFacts.every_replace_tpl; [reflexivity|].
    apply CharFacts.every_replace_char; [reflexivity|].
    intros x _ Hx. unfold P. now rewrite Hx. }
  destruct (has_char [ch ";"] (App.sanitizeMermaidCode code)) eqn:E;
    [|reflexivity].
  unfold has_char in E. apply existsb_exists in E as (x & Hx & Hc).
  pose proof (CharFacts.every_in P _ x H Hx) as Hp.
  unfold P in Hp. unfold one_of in Hc. cbn [existsb] in Hc.
  rewrite orb_false_r in Hc. rewrite Hc in Hp. discriminate.
Qed.


Module ConditionFacts.

Lemma no_lt (conditionText : str) :
  forallb (fun y => negb (ceqb y (ch "<"))) (App.cleanCondition conditionText)
  = true.
Proof.
  unfold App.cleanCondition. apply CharFacts.every_trim.
  do 4 (apply CharFacts.every_replace_tpl; [reflexivity|]).
  apply (RenderFacts.op_replaced (ch "<")); reflexivity.
Qed.

Lemma no_gt (conditionText : str) :
  forallb (fun y => negb (ceqb y (ch ">"))) (App.cleanCondition conditionText)
  = true.
Proof.
  unfold App.cleanCondition. apply CharFacts.every_trim.
  do 3 (apply CharFacts.every_replace_tpl; [reflexivity|]).
  apply (RenderFacts.op_replaced (ch ">")); reflexivity.
Qed.

End ConditionFacts.

(** X10. The text of a condition, once cleaned, holds no [<] and no [>]:
    every comparison operator is replaced by a sign of its own. *)
Theorem cleanCondition_no_angle (conditionText : str) :
  has_char (u "<>") (App.cleanCondition conditionText) = false.
Proof.
  pose proof (ConditionFacts.no_lt conditionText) as H1.
  pose proof (ConditionFacts.no_gt conditionText) as H2.
  generalize dependent (App.cleanCondition conditionText). intros s H1 H2.
  destruct (has_char (u "<>") s) eqn:E; [|reflexivity].
  unfold has_char in E. apply existsb_exists in E as (x & Hx & Hc).
  pose proof (CharFacts.every_in _ _ x H1 Hx) as Hp1.
  pose proof (CharFacts.every_in _ _ x H2 Hx) as Hp2.
  cbv beta in Hp1, Hp2. unfold one_of in Hc.
  change (u "<>") with [ch "<"; ch ">"] in Hc. cbn [existsb] in Hc.
  rewrite orb_false_r in Hc.
  apply negb_true_iff in Hp1, Hp2. rewrite Hp1, Hp2 in Hc. discriminate.
Qed.

(* ================================================================== *)
(** * The text under the markup of the highlighters *)
(* ================================================================== *)

Module TextFacts.
Import SpanMarkup.

Lemma strip_text (s rest : str) :
  existsb isLt s = false ->
  strip_tags false (s ++ rest) = s ++ strip_tags false rest.
Proof.
  induction s as [|x s IH]; [reflexivity|]. cbn [existsb app strip_tags].
  intros H. apply orb_false_iff in H as [Hx Hs]. rewrite Hx.
  now rewrite IH.
Qed.

Lemma strip_tag (a rest : str) :
  existsb (fun x => ceqb x (ch ">")) a = false ->
  strip_tags true (a ++ ch ">" :: rest) = strip_tags false rest.
Proof.
  induction a as [|x a IH]; [reflexivity|]. cbn [existsb app strip_tags].
  intros H. apply orb_false_iff in H as [Hx Ha]. rewrite Hx. cbn [negb].
  now apply IH.
Qed.

Lemma strip_open (a rest : str) :
  existsb (fun x => ceqb x (ch ">")) a = false ->
  strip_tags false (ch "<" :: a ++ ch ">" :: rest) = strip_tags false rest.
Proof.
  intros Ha. cbn [strip_tags]. change (isLt (ch "<")) with true. cbv iota.
  now apply strip_tag.
Qed.

Lemma strip_render_span (sp : span) (rest : str) :
  class_ok (sp_class sp) = true ->
  strip_tags false (render_span sp ++ rest)
  = esc (sp_text sp) ++ strip_tags false rest.
Proof.
  unfold render_span, class_ok. destruct (sp_class sp) as [cls|].
  2:{ intros _. apply strip_text, esc_no_lt. }
  intros H. apply andb_true_iff in H as [_ Hc]. apply negb_true_iff in Hc.
  assert (Hgt : existsb (fun x => ceqb x (ch ">")) cls = false).
  { induction cls as [|y cls IH]; [reflexivity|]. cbn [existsb] in *.
    apply orb_false_iff in Hc as [Hy Hc]. apply orb_false_iff in Hy as [Hy _].
    apply orb_false_iff in Hy as [_ Hy]. now rewrite Hy, IH. }
  assert (Ha : existsb (fun x => ceqb x (ch ">"))
                       (u "span class=" ++ [c_dquote] ++ cls ++ [c_dquote])
               = false).
  { rewrite !existsb_app, Hgt. reflexivity. }
  transitivity
    (strip_tags false
       (ch "<" :: (u "span class=" ++ [c_dquote] ++ cls ++ [c_dquote])
          ++ ch ">" :: esc (sp_text sp) ++ u "</span>" ++ rest)).
  { f_equal. change (u "<span class=") with (ch "<" :: u "span class=").
    change (u ">") with [ch ">"].
    repeat rewrite <- app_assoc. reflexivity. }
  rewrite (strip_open _ _ Ha).
  rewrite strip_text by apply esc_no_lt. f_equal.
Qed.

Lemma esc_app (a b : str) : esc (a ++ b) = esc a ++ esc b.
Proof. unfold esc, replace_char. now rewrite !flat_map_app. Qed.

Lemma strip_render_spans (l : list span) :
  Forall (fun sp => class_ok (sp_class sp) = true) l ->
  strip_tags false (render_spans l) = esc (spans_text l).
Proof.
  induction 1 as [|sp l Hsp Hl IH]; [reflexivity|].
  unfold render_spans, spans_text in *. cbn [flat_map].
  rewrite strip_render_span by assumption. now rewrite IH, esc_app.
Qed.

Lemma esc_cons (x : char) (s : str) :
  esc (x :: s)
  = (if ceqb x (ch "&") then u "&amp;"
     else if ceqb x (ch "<") then u "&lt;"
     else if ceqb x (ch ">") then u "&gt;"
     else [x]) ++ esc s.
Proof.
  unfold esc, replace_char. cbn [flat_map].
  destruct (ceqb x (ch "&")) eqn:E1.
  { rewrite !flat_map_app. reflexivity. }
  cbn [flat_map app]. destruct (ceqb x (ch "<")) eqn:E2.
  { rewrite !flat_map_app. reflexivity. }
  cbn [flat_map app]. destruct (ceqb x (ch ">")) eqn:E3; reflexivity.
Qed.

Lemma decode_esc (s : str) : App.decode 0 (esc s) = s.
Proof.
  induction s as [|x s IH]; [reflexivity|]. rewrite esc_cons.
  destruct (ceqb x (ch "&")) eqn:E1.
  { apply ceqb_eq in E1. subst x. cbn. now rewrite IH. }
  destruct (ceqb x (ch "<")) eqn:E2.
  { apply ceqb_eq in E2. subst x. cbn. now rewrite IH. }
  destruct (ceqb x (ch ">")) eqn:E3.
  { apply ceqb_eq in E3. subst x. cbn. now rewrite IH. }
  cbn [app]. rewrite RenderFacts.decode_plain by exact E1. now rewrite IH.
Qed.

Lemma text_of_spans (l : list span) :
  Forall (fun sp => class_ok (sp_class sp) = true) l ->
  textContent (render_spans l) = spans_text l.
Proof.
  intros H. unfold textContent, App.decodeEntities.
  rewrite strip_render_spans by assumption. apply decode_esc.
Qed.

End TextFacts.

(** X11. Highlighting changes no character of the code: the text that
    the browser shows for the markup of [highlightBSL] is the code. *)
Theorem highlightBSL_keeps_text (code : str) :
  textContent (BSL.highlightBSL code) = code.
Proof.
  unfold BSL.highlightBSL. rewrite TextFacts.text_of_spans.
  - apply BSLFacts.spans_cover.
  - apply (SpanMarkup.bsl_loop_ok code (S (length code)) 0 []); [constructor|].
    apply BSLFacts.spans_tokenize.
Qed.

(** X12. The same for [highlightXML], whenever it returns. *)
Theorem highlightXML_keeps_text (fuel : nat) (code html : str) :
  XML.highlightXML fuel code = Some html -> textContent html = code.
Proof.
  unfold XML.highlightXML, XML.tokenize.
  destruct (XML.loop fuel code 0 [] fuel) as [l|] eqn:E; [|discriminate].
  intros [= <-]. rewrite TextFacts.text_of_spans.
  - now apply (XMLCover.tokenize_covers fuel).
  - apply (SpanMarkup.xml_loop_ok fuel code fuel 0 [] l); [constructor|exact E].
Qed.

(** The theorem at a tag with a value that holds markup. *)
Lemma highlightXML_keeps_text_witness :
  XML.highlightXML 9 (q "<a b='<i>'/>")
  = Some (q "<span class='tok-xml-tag'>&lt;a</span> <span class='tok-xml-attr'>b</span>=<span class='tok-xml-val'>'&lt;i&gt;'</span><span class='tok-xml-tag'>/&gt;</span>")
  /\ textContent (q "<span class='tok-xml-tag'>&lt;a</span> <span class='tok-xml-attr'>b</span>=<span class='tok-xml-val'>'&lt;i&gt;'</span><span class='tok-xml-tag'>/&gt;</span>")
     = q "<a b='<i>'/>".
Proof.
  split; [vm_compute; reflexivity|].
  apply (highlightXML_keeps_text 9 (q "<a b='<i>'/>")).
  vm_compute. reflexivity.
Defined.

(* ================================================================== *)
(** * The detection of XML *)
(* ================================================================== *)

Module DetectFacts.
Import Sem XMLDetect.

Lemma upper_lt (y : char) : ceqb (toUpper1 (ch "<")) (toUpper1 y) = true -> y = ch "<".
Proof.
  intros H. apply ceqb_eq in H. change (toUpper1 (ch "<")) with 60%N in H.
  change (ch "<") with 60%N. unfold toUpper1, in_range, ceqb in H.
  repeat match type of H with
         | context [(?a <=? ?b)%N] => destruct (N.leb_spec a b)
         | context [(?a =? ?b)%N] => destruct (N.eqb_spec a b)
         end; cbn [andb] in H; lia.
Qed.

Section NoLt.
Variable s : str.
Hypothesis no_lt : has_char (u "<") s = false.

Lemma lt_absent (k : nat) (y : char) :
  idx s k = Some y -> char_match f_i (ch "<") y = true -> False.
Proof.
  intros Hk Hy. unfold char_match in Hy. cbn [icase f_i] in Hy.
  apply upper_lt in Hy. subst y.
  rewrite (has_char_idx s (u "<") k (ch "<") Hk eq_refl) in no_lt.
  discriminate.
Qed.

Lemma decl_none : test f_i re_decl s = false.
Proof.
  apply test_none. intros i j c' H. unfold re_decl in H.
  cbn [seqs lit u matches] in H.
  destruct H as (m & c1 & _ & m2 & c2 & H & _).
  change (lit (u "<?xml")) with (RSeq (RChar (ch "<")) (lit (u "?xml"))) in H.
  cbn [matches] in H. destruct H as (m3 & c3 & (y & Hy & Hm & _) & _).
  eapply lt_absent; eauto.
Qed.

Lemma doctype_none : test f_i re_doctype s = false.
Proof.
  apply test_none. intros i j c' H. unfold re_doctype in H.
  cbn [seqs] in H.
  change (lit (u "<!DOCTYPE")) with (RSeq (RChar (ch "<")) (lit (u "!DOCTYPE")))
    in H.
  cbn [matches] in H.
  destruct H as (m & c1 & (m3 & c3 & (y & Hy & Hm & _) & _) & _).
  eapply lt_absent; eauto.
Qed.

Lemma plain_none (r : regex) :
  needs (u "<") r = true -> forall i j c', ~ matches f_none s r i [] j c'.
Proof. intros Hn. now apply (needs_none s (u "<") f_none eq_refl r Hn). Qed.

End NoLt.

Lemma has_char_among (ps qs s : str) :
  (forall x, one_of ps x = true -> one_of qs x = true) ->
  has_char qs s = false -> has_char ps s = false.
Proof.
  intros H Hq. destruct (has_char ps s) eqn:E; [|reflexivity].
  unfold has_char in E. apply existsb_exists in E as (x & Hx & Hp).
  assert (has_char qs s = true); [|congruence].
  apply existsb_exists. exists x. auto.
Qed.

Lemma trim_has_char (ps s : str) :
  has_char ps s = false -> has_char ps (trim s) = false.
Proof.
  intros H. destruct (has_char ps (trim s)) eqn:E; [|reflexivity].
  unfold has_char in E. apply existsb_exists in E as (x & Hx & Hp).
  assert (Hall : forallb (fun y => negb (one_of ps y)) (trim s) = true).
  { apply CharFacts.every_trim. apply forallb_forall. intros y Hy.
    apply negb_true_iff. eapply PlainFacts.has_char_in; eauto. }
  pose proof (CharFacts.every_in _ _ x Hall Hx) as Hn. cbv beta in Hn.
  rewrite Hp in Hn. discriminate.
Qed.

End DetectFacts.

(** X13. A text without [<] and without [=] is not taken for XML: the
    detection scores one point at most, and [highlight] without a forced
    language returns [null]. *)
Theorem likelyXML_needs_markup (text : str) :
  has_char (u "<=") text = false ->
  XMLDetect.likelyXML text = false
  /\ forall fuel, XMLDetect.highlight fuel text None = Some None.
Proof.
  intros H.
  assert (Hlt : has_char (u "<") text = false).
  { revert H. apply DetectFacts.has_char_among. intros x Hx.
    unfold one_of in *. change (u "<") with [ch "<"] in Hx.
    change (u "<=") with [ch "<"; ch "="]. cbn [existsb] in *.
    rewrite orb_false_r in Hx. now rewrite Hx. }
  assert (Heq : has_char (u "=") text = false).
  { revert H. apply DetectFacts.has_char_among. intros x Hx.
    unfold one_of in *. change (u "=") with [ch "="] in Hx.
    change (u "<=") with [ch "<"; ch "="]. cbn [existsb] in *.
    rewrite orb_false_r in Hx. rewrite Hx. apply orb_true_r. }
  assert (Hl : XMLDetect.likelyXML text = false).
  { unfold XMLDetect.likelyXML, XMLDetect.score, XMLDetect.hit, XMLDetect.found.
    rewrite (DetectFacts.decl_none (trim text))
      by now apply DetectFacts.trim_has_char.
    rewrite (DetectFacts.doctype_none text Hlt).
    rewrite (Sem.test_none f_none text XMLDetect.re_cdata)
      by now apply DetectFacts.plain_none.
    rewrite (Sem.all_matches_none f_none text XMLDetect.re_open)
      by now apply DetectFacts.plain_none.
    rewrite (Sem.test_none f_none text XMLDetect.re_selfclosing)
      by now apply DetectFacts.plain_none.
    rewrite (Sem.test_none f_none text XMLDetect.re_pi)
      by now apply DetectFacts.plain_none.
    rewrite (Sem.test_none f_none text XMLDetect.re_comment)
      by now apply DetectFacts.plain_none.
    rewrite (Sem.test_none f_none text XMLDetect.re_xmlns)
      by (apply (Sem.needs_none text (u "=") f_none eq_refl); [reflexivity|exact Heq]).
    rewrite (Sem.test_none f_none text XMLDetect.re_attribute)
      by (apply (Sem.needs_none text (u "=") f_none eq_refl); [reflexivity|exact Heq]).
    cbn [length Nat.ltb Nat.leb andb Nat.add].
    destruct (test f_none XMLDetect.re_entity text); reflexivity. }
  split; [exact Hl|]. intros fuel. unfold XMLDetect.highlight.
  now rewrite Hl.
Qed.

(** The theorem at a sentence with an entity. *)
Lemma likelyXML_needs_markup_witness :
  XMLDetect.likelyXML (u "Tom &amp; Jerry") = false
  /\ forall fuel, XMLDetect.highlight fuel (u "Tom &amp; Jerry") None = Some None.
Proof.
  apply (likelyXML_needs_markup (u "Tom &amp; Jerry")). vm_compute. reflexivity.
Defined.

(** X14. A text that begins, whitespace aside, with [<?xml] and a space
    is taken for XML, whatever follows: [highlight] never returns [null]
    for it. *)
Theorem xml_declaration_detected (text : str) (lang : option str) (fuel : nat) :
  starts_with (u "<?xml ") (trim text) = true ->
  XMLDetect.likelyXML text = true
  /\ XMLDetect.highlight fuel text lang <> Some None.
Proof.
  intros H.
  assert (Hl : XMLDetect.likelyXML text = true).
  { unfold XMLDetect.likelyXML, XMLDetect.score.
    assert (Ht : XMLDetect.hit f_i XMLDetect.re_decl (trim text) 3 = 3).
    { apply SpanMarkup.starts_with_split in H as [rest ->].
      unfold XMLDetect.hit. generalize rest. clear. intros rest.
      assert (E : test f_i XMLDetect.re_decl (u "<?xml " ++ rest) = true)
        by (vm_compute; reflexivity).
      now rewrite E. }
    rewrite Ht. reflexivity. }
  split; [exact Hl|]. unfold XMLDetect.highlight. rewrite Hl.
  rewrite andb_false_r. destruct (XML.highlightXML fuel text); discriminate.
Qed.

(** The theorem at a declaration after a line break. *)
Lemma xml_declaration_detected_witness :
  XMLDetect.likelyXML ([c_nl] ++ u "<?xml version=1?>") = true
  /\ XMLDetect.highlight 0 ([c_nl] ++ u "<?xml version=1?>") None <> Some None.
Proof.
  apply (xml_declaration_detected ([c_nl] ++ u "<?xml version=1?>") None 0).
  vm_compute. reflexivity.
Defined.

(* ================================================================== *)
(** * The conversations and their history *)
(* ================================================================== *)

Module ConvFacts.
Import Conversations.

Lemma str_eqb_refl (a : str) : str_eqb a a = true.
Proof. now apply str_eqb_eq. Qed.

Lemma generateId_truthy (now : nat) (rnd : str) : truthy (generateId now rnd) = true.
Proof. reflexivity. Qed.

Lemma find_some_cons (cid : str) (c : conversation) (l : list conversation) :
  (exists x, find (has_id cid) l = Some x) ->
  exists x, find (has_id cid) (c :: l) = Some x.
Proof. intros [x Hx]. cbn [find]. destruct (has_id cid c); eauto. Qed.

Lemma find_updateFirst (a cid : str) (f : conversation -> conversation)
      (l : list conversation) :
  (forall c, id (f c) = id c) ->
  (exists x, find (has_id a) l = Some x) ->
  exists x, find (has_id a) (updateFirst cid f l) = Some x.
Proof.
  intros Hf. induction l as [|c l IH]; cbn [find updateFirst]; [easy|].
  intros H. destruct (has_id cid c) eqn:Ec.
  - cbn [find]. unfold has_id at 1. rewrite Hf. fold (has_id a c).
    destruct (has_id a c); eauto.
  - cbn [find]. destruct (has_id a c); eauto.
Qed.

Lemma ids_ok_updateFirst (cid : str) (f : conversation -> conversation)
      (l : list conversation) :
  (forall c, id (f c) = id c) ->
  ids_ok l = true -> ids_ok (updateFirst cid f l) = true.
Proof.
  intros Hf. unfold ids_ok. induction l as [|c l IH]; [reflexivity|].
  cbn [forallb updateFirst]. intros H. apply andb_true_iff in H as [Hc Hl].
  destruct (has_id cid c); cbn [forallb].
  - now rewrite Hf, Hc, Hl.
  - now rewrite Hc, IH.
Qed.

Lemma removeFirst_ids (cid : str) (l rest : list conversation) :
  removeFirst cid l = Some rest -> ids_ok l = true -> ids_ok rest = true.
Proof.
  unfold ids_ok. revert rest. induction l as [|c l IH]; intros rest;
    cbn [removeFirst forallb]; [discriminate|].
  intros H Hl. apply andb_true_iff in Hl as [Hc Hl].
  destruct (has_id cid c); [now injection H as <-|].
  destruct (removeFirst cid l) as [r|]; [|discriminate].
  injection H as <-. cbn [forallb]. now rewrite Hc, (IH r).
Qed.

Lemma removeFirst_keeps (a cid : str) (l rest : list conversation) :
  str_eqb a cid = false ->
  removeFirst cid l = Some rest ->
  (exists x, find (has_id a) l = Some x) ->
  exists x, find (has_id a) rest = Some x.
Proof.
  intros Hne. revert rest. induction l as [|c l IH]; intros rest;
    cbn [removeFirst find]; [discriminate|].
  intros H Hf. destruct (has_id cid c) eqn:Ec.
  - injection H as <-. destruct (has_id a c) eqn:Ea; [|exact Hf].
    unfold has_id in Ec, Ea. apply str_eqb_eq in Ec, Ea.
    rewrite <- Ea, Ec, str_eqb_refl in Hne. discriminate.
  - destruct (removeFirst cid l) as [r|]; [|discriminate].
    injection H as <-. cbn [find]. destruct (has_id a c); eauto.
Qed.

Lemma firstId_found (l : list conversation) (a : str) :
  firstId l = Some a -> exists x, find (has_id a) l = Some x.
Proof.
  destruct l as [|c l]; cbn [firstId find]; [discriminate|].
  destruct (truthy (id c)); [|discriminate]. intros [= <-].
  unfold has_id. rewrite str_eqb_refl. eauto.
Qed.

Lemma firstId_ok (c : conversation) (l : list conversation) :
  ids_ok (c :: l) = true -> firstId (c :: l) = Some (id c).
Proof.
  unfold ids_ok. cbn [forallb firstId]. intros H.
  apply andb_true_iff in H as [-> _]. reflexivity.
Qed.

Lemma active_id (st : manager) (c : conversation) :
  getActive st = Some c -> activeId st = Some (id c).
Proof.
  unfold getActive, getById. destruct (activeId st) as [a|]; [|discriminate].
  intros H. apply find_some in H as [_ H]. unfold has_id in H.
  apply str_eqb_eq in H. now subst.
Qed.

Ltac same_ids := intros ?; reflexivity.

Lemma create_keeps (ttl : str) (fr : fresh) (st : manager) :
  well_formed st -> well_formed (snd (createConversation ttl fr st)).
Proof.
  intros [Hi [c Hc]]. unfold createConversation. cbn [snd]. split.
  - cbn [conversations]. unfold ids_ok. cbn [forallb id].
    now rewrite generateId_truthy.
  - unfold getActive, getById in *. cbn [activeId conversations].
    destruct (activeId st) as [a|]; [|discriminate].
    apply find_some_cons. eauto.
Qed.

Lemma saveHistory_keeps (cid : str) (history : list message) (now : nat)
      (ok : bool) (st : manager) :
  well_formed st -> well_formed (saveHistory cid history now ok st).
Proof.
  intros [Hi [c Hc]]. unfold saveHistory. destruct ok; cbn [negb].
  2:{ split; eauto. }
  split.
  - cbn [conversations]. apply ids_ok_updateFirst; [same_ids|exact Hi].
  - unfold getActive, getById in *. cbn [activeId conversations].
    destruct (activeId st) as [a|]; [|discriminate].
    apply find_updateFirst; [same_ids|eauto].
Qed.

Lemma delete_keeps (cid : str) (fr : fresh) (st : manager) :
  well_formed st -> well_formed (snd (deleteConversation cid fr st)).
Proof.
  intros [Hi [c Hc]]. unfold deleteConversation.
  destruct (removeFirst cid (conversations st)) as [rest|] eqn:Er.
  2:{ cbn [snd]. split; eauto. }
  pose proof (removeFirst_ids _ _ _ Er Hi) as Hrest.
  pose proof (active_id st c Hc) as Ha.
  destruct (same_id (activeId st) cid) eqn:Es.
  - destruct (firstId rest) as [a|] eqn:Ef; cbn [snd].
    + split; [exact Hrest|]. unfold getActive, getById.
      cbn [activeId conversations]. now apply firstId_found.
    + unfold createConversation. cbn [snd fst conversations activeId id].
      split.
      * unfold ids_ok. cbn [conversations forallb id].
        now rewrite generateId_truthy.
      * unfold getActive, getById. cbn [activeId conversations find].
        unfold has_id at 1. cbn [id]. rewrite str_eqb_refl. eauto.
  - cbn [snd]. split; [exact Hrest|].
    unfold getActive, getById in *. cbn [activeId conversations].
    rewrite Ha in *. cbn [same_id] in Es.
    eapply removeFirst_keeps; eauto.
Qed.

Lemma perform_keeps (st : manager) (k : call) :
  well_formed st -> well_formed (perform st k).
Proof.
  intros H. destruct k; cbn [perform].
  - now apply create_keeps.
  - now apply delete_keeps.
  - destruct H as [Hi [c Hc]]. unfold setActive.
    destruct (getById cid st) as [x|] eqn:E; cbn [snd]; [|split; eauto].
    split; [exact Hi|]. unfold getActive. cbn [activeId].
    unfold getById in *. cbn [conversations]. eauto.
  - destruct H as [Hi [c Hc]]. unfold renameConversation.
    destruct (getById cid st) as [x|] eqn:E; cbn [snd]; [|split; eauto].
    split.
    + cbn [conversations]. apply ids_ok_updateFirst; [same_ids|exact Hi].
    + unfold getActive, getById in *. cbn [activeId conversations].
      destruct (activeId st) as [a|]; [|discriminate].
      apply find_updateFirst; [same_ids|eauto].
  - destruct H as [Hi [c Hc]]. unfold updateApiConversationId. split.
    + cbn [conversations]. apply ids_ok_updateFirst; [same_ids|exact Hi].
    + unfold getActive, getById in *. cbn [activeId conversations].
      destruct (activeId st) as [a|]; [|discriminate].
      apply find_updateFirst; [same_ids|eauto].
  - now apply saveHistory_keeps.
  - unfold saveMessageToHistory, saveActiveHistory.
    destruct (getActive st); [now apply saveHistory_keeps|exact H].
  - unfold clearAll, createConversation.
    cbn [snd fst conversations activeId id histories]. split.
    + unfold ids_ok. cbn [conversations forallb id].
      now rewrite generateId_truthy.
    + unfold getActive, getById. cbn [activeId conversations find].
      unfold has_id at 1. cbn [id]. rewrite str_eqb_refl. eauto.
Qed.

Lemma construct_well_formed (loaded : list conversation) (stored : option str)
      (h : list (str * list message)) (fr : fresh) :
  ids_ok loaded = true -> well_formed (construct loaded stored h fr).
Proof.
  intros Hi. unfold construct. destruct loaded as [|c l].
  - unfold createConversation. cbn [activeId conversations histories id].
    rewrite generateId_truthy. unfold getById. cbn [conversations find].
    unfold has_id at 1. cbn [id]. rewrite str_eqb_refl. cbn [andb].
    split.
    + unfold ids_ok. cbn [conversations forallb id].
      now rewrite generateId_truthy.
    + unfold getActive, getById. cbn [activeId conversations find].
      unfold has_id at 1. cbn [id]. rewrite str_eqb_refl. eauto.
  - cbn [activeId conversations histories].
    destruct stored as [a|].
    + destruct (truthy a && _) eqn:E.
      * apply andb_true_iff in E as [_ E]. split; [exact Hi|].
        unfold getActive. cbn [activeId].
        destruct (getById a _) as [x|]; [eauto|discriminate].
      * split; [exact Hi|]. unfold getActive. cbn [activeId conversations].
        rewrite (firstId_ok c l Hi). unfold getById. cbn [conversations].
        apply firstId_found. now apply firstId_ok.
    + split; [exact Hi|]. unfold getActive. cbn [activeId conversations].
      rewrite (firstId_ok c l Hi). unfold getById. cbn [conversations].
      apply firstId_found. now apply firstId_ok.
Qed.

Lemma run_keeps (calls : list call) :
  forall st, well_formed st -> well_formed (fold_left perform calls st).
Proof.
  induction calls as [|k calls IH]; intros st H; [exact H|].
  cbn [fold_left]. apply IH. now apply perform_keeps.
Qed.

Lemma find_updateFirst_same (a : str) (f : conversation -> conversation)
      (l : list conversation) (c : conversation) :
  (forall c, id (f c) = id c) ->
  find (has_id a) l = Some c ->
  find (has_id a) (updateFirst a f l) = Some (f c).
Proof.
  intros Hf. induction l as [|x l IH]; cbn [find updateFirst]; [discriminate|].
  destruct (has_id a x) eqn:E.
  - intros [= <-]. cbn [find]. unfold has_id at 1. rewrite Hf.
    fold (has_id a x). now rewrite E.
  - intros H. cbn [find]. rewrite E. now apply IH.
Qed.

End ConvFacts.

(** X15. A title made from a message has 50 code units at most. *)
Theorem generateTitle_length (firstMessage : str) :
  length (Conversations.generateTitle firstMessage) <= 50.
Proof.
  unfold Conversations.generateTitle.
  destruct (truthy firstMessage); cbn [negb]; [|vm_compute; lia].
  destruct (length (trim firstMessage) <=? 50) eqn:E.
  - now apply Nat.leb_le in E.
  - rewrite length_app, length_firstn. change (length (u "...")) with 3. lia.
Qed.

(** X16. A message that is not empty and holds whitespace only gives the
    empty title, not the default one. *)
Theorem generateTitle_blank (firstMessage : str) :
  firstMessage <> [] -> forallb isSpace firstMessage = true ->
  Conversations.generateTitle firstMessage = [].
Proof.
  intros Hne Hs. unfold Conversations.generateTitle.
  destruct firstMessage as [|x s]; [congruence|]. cbn [truthy negb].
  assert (Ht : trim (x :: s) = []).
  { unfold trim. assert (E : trimStart (x :: s) = []).
    { clear Hne. induction (x :: s) as [|y t IH]; [reflexivity|].
      cbn [forallb] in Hs. apply andb_true_iff in Hs as [Hy Ht].
      cbn [trimStart]. rewrite Hy. now apply IH. }
    now rewrite E. }
  now rewrite Ht.
Qed.

(** The theorem at a message of two spaces. *)
Lemma generateTitle_blank_witness :
  Conversations.generateTitle (u "  ") = [].
Proof.
  apply (generateTitle_blank (u "  ")); [discriminate|reflexivity].
Defined.

(** X17. There is always an active conversation: when the identifiers
    read from the storage are not empty, [getActive()] finds a
    conversation after the construction and after every sequence of
    calls that follows, deletions of the active or of the last
    conversation included. *)
Theorem active_conversation_exists
        (loaded : list Conversations.conversation) (stored : option str)
        (h : list (str * list Conversations.message))
        (fr : Conversations.fresh) (calls : list Conversations.call) :
  Conversations.ids_ok loaded = true ->
  exists c,
    Conversations.getActive
      (fold_left Conversations.perform calls
                 (Conversations.construct loaded stored h fr))
    = Some c.
Proof.
  intros Hi.
  apply (ConvFacts.run_keeps calls
           (Conversations.construct loaded stored h fr)).
  now apply ConvFacts.construct_well_formed.
Qed.

(** The theorem at a storage with one conversation, an active identifier
    that names none, and the deletion of that conversation. *)
Lemma active_conversation_exists_witness :
  exists c,
    Conversations.getActive
      (fold_left Conversations.perform
         [Conversations.Delete (u "conv_1_a") Conversations.example_fresh]
         (Conversations.construct [Conversations.example_conversation]
            (Some (u "gone")) [] Conversations.example_fresh))
    = Some c.
Proof.
  apply (active_conversation_exists
           [Conversations.example_conversation] (Some (u "gone")) []
           Conversations.example_fresh
           [Conversations.Delete (u "conv_1_a") Conversations.example_fresh]).
  reflexivity.
Defined.

(** X18. A message saved to the history of the active conversation is
    the last of that history, which holds the 500 newest messages at most,
    in their order; the conversation counts as many messages. When the
    browser refuses the write, nothing changes. *)
Theorem saveMessageToHistory_limit
        (st : Conversations.manager) (msg : Conversations.message) (now : nat)
        (c : Conversations.conversation) :
  Conversations.getActive st = Some c ->
  let old := Conversations.loadActiveHistory st in
  let st' := Conversations.saveMessageToHistory msg now true st in
  Conversations.loadActiveHistory st'
  = skipn (length old + 1 - 500) (old ++ [msg])
  /\ length (Conversations.loadActiveHistory st') <= 500
  /\ (exists older, Conversations.loadActiveHistory st' = older ++ [msg])
  /\ (exists c', Conversations.getActive st' = Some c'
                 /\ Conversations.id c' = Conversations.id c
                 /\ Conversations.message_count c'
                    = length (Conversations.loadActiveHistory st'))
  /\ Conversations.saveMessageToHistory msg now false st = st.
Proof.
  intros Hc old st'.
  pose proof (ConvFacts.active_id st c Hc) as Ha.
  set (arr := old ++ [msg]).
  set (kept := skipn (length old + 1 - 500) arr).
  assert (Hkept : (if Conversations.HISTORY_LIMIT <? length arr
                   then skipn (length arr - Conversations.HISTORY_LIMIT) arr
                   else arr) = kept).
  { unfold kept, Conversations.HISTORY_LIMIT.
    assert (Hl : length arr = length old + 1)
      by (unfold arr; rewrite length_app; reflexivity).
    rewrite Hl. destruct (500 <? length old + 1) eqn:E; [reflexivity|].
    apply Nat.ltb_ge in E.
    replace (length old + 1 - 500) with 0 by lia. reflexivity. }
  assert (Hst : st' = Conversations.saveHistory (Conversations.id c) kept now
                                                true st).
  { unfold st', Conversations.saveMessageToHistory.
    fold old. fold arr. rewrite Hkept.
    unfold Conversations.saveActiveHistory. now rewrite Hc. }
  assert (Hact : exists c', Conversations.getActive st' = Some c'
                            /\ Conversations.id c' = Conversations.id c
                            /\ Conversations.message_count c' = length kept).
  { rewrite Hst. unfold Conversations.saveHistory. cbn [negb].
    unfold Conversations.getActive, Conversations.getById in *.
    cbn [Conversations.activeId Conversations.conversations].
    rewrite Ha in *.
    erewrite ConvFacts.find_updateFirst_same; [|intros ?; reflexivity|exact Hc].
    eexists. split; [reflexivity|]. split; reflexivity. }
  assert (Hload : Conversations.loadActiveHistory st' = kept).
  { destruct Hact as (c' & Hc' & Hid & _).
    unfold Conversations.loadActiveHistory. rewrite Hc', Hid, Hst.
    unfold Conversations.loadHistory, Conversations.saveHistory.
    cbn [negb Conversations.histories find fst snd].
    now rewrite ConvFacts.str_eqb_refl. }
  assert (Hlen : length kept <= 500).
  { unfold kept. rewrite length_skipn. unfold arr. rewrite length_app.
    cbn [length]. lia. }
  rewrite Hload. split; [reflexivity|]. split; [exact Hlen|]. split.
  - unfold kept, arr.
    destruct (Nat.le_gt_cases (length old + 1 - 500) (length old)) as [Hle|Hgt].
    + exists (skipn (length old + 1 - 500) old).
      rewrite skipn_app. f_equal.
      replace (length old + 1 - 500 - length old) with 0 by lia. reflexivity.
    + lia.
  - split; [exact Hact|].
    unfold Conversations.saveMessageToHistory, Conversations.saveActiveHistory.
    now rewrite Hc.
Qed.

(** The theorem at a manager with one conversation and one message. *)
Lemma saveMessageToHistory_limit_witness :
  Conversations.loadActiveHistory
    (Conversations.saveMessageToHistory
       Conversations.example_message 2 true Conversations.example_manager)
  = [Conversations.example_message; Conversations.example_message].
Proof.
  destruct (saveMessageToHistory_limit
              Conversations.example_manager Conversations.example_message 2
              Conversations.example_conversation eq_refl) as [H _].
  rewrite H. reflexivity.
Defined.

(* ================================================================== *)
(** * The foldable blocks *)
(* ================================================================== *)

Module FoldFacts.
Import Folding Sem.

(** ** What a match of the patterns tells about a line *)

Lemma test_matches (fl : flags) (r : regex) (s : str) :
  test fl r s = true -> exists i j c, matches fl s r i [] j c.
Proof.
  unfold test, exec.
  destruct (search fl s r _ 0) as [[[a j] c]|] eqn:E; [|discriminate].
  intros _. apply TagFacts.search_some in E. apply match_at_sound in E. eauto.
Qed.

Lemma at_start (fl : flags) (s : str) (i : nat) :
  multiline fl = false -> atBol fl s i = true -> i = 0.
Proof.
  intros Hm. destruct i as [|p]; [reflexivity|]. cbn [atBol].
  rewrite Hm. discriminate.
Qed.

Lemma space_set (y : char) : in_ranges r_space y = true -> isSpace y = true.
Proof.
  unfold in_ranges, r_space. cbn [existsb fst snd]. unfold isSpace. intros H.
  repeat (apply orb_true_iff in H as [H|H]); try discriminate;
    try (rewrite H; repeat rewrite ?orb_true_r, ?orb_true_l; reflexivity);
    unfold in_range in H; apply andb_true_iff in H as [H1 H2];
    apply N.leb_le in H1, H2;
    try (assert (y = 32%N) by lia; subst; reflexivity);
    try (assert (y = 160%N) by lia; subst; reflexivity);
    try (assert (y = 5760%N) by lia; subst; reflexivity);
    try (assert (y = 8239%N) by lia; subst; reflexivity);
    try (assert (y = 8287%N) by lia; subst; reflexivity);
    try (assert (y = 12288%N) by lia; subst; reflexivity);
    try (assert (y = 65279%N) by lia; subst; reflexivity);
    assert (Hy : y = 8232%N \/ y = 8233%N) by lia;
    destruct Hy; subst; reflexivity.
Qed.

(** The code units of [\s]. *)
Lemma space_cases (y : char) :
  isSpace y = true ->
  In y [9; 10; 11; 12; 13; 32; 160; 5760; 8192; 8193; 8194; 8195; 8196;
        8197; 8198; 8199; 8200; 8201; 8202; 8232; 8233; 8239; 8287; 12288;
        65279]%N.
Proof.
  unfold isSpace, in_range, ceqb. intros H.
  repeat (apply orb_true_iff in H as [H|H]);
    try (apply andb_true_iff in H as [H1 H2]; apply N.leb_le in H1, H2);
    try apply N.eqb_eq in H; cbn [In]; lia.
Qed.

Lemma ident_not_space (y : char) :
  set_match f_i false r_identStart y = true -> isSpace y = false.
Proof.
  intros H. destruct (isSpace y) eqn:E; [|reflexivity].
  apply space_cases in E. cbn [In] in E.
  repeat (destruct E as [<-|E]; [vm_compute in H; discriminate H|]).
  contradiction.
Qed.

(** A run of [\s*] goes over whitespace. *)
Lemma iter_spaces (fl : flags) (s : str) :
  forall n i c j c',
    iter n (matches fl s (RSet false r_space)) i c j c' ->
    j = i + n
    /\ forall k, i <= k < j ->
                 exists y, idx s k = Some y
                           /\ set_match fl false r_space y = true.
Proof.
  induction n as [|n IH]; intros i c j c'; cbn [iter].
  - intros [-> _]. split; [lia|]. intros k Hk. lia.
  - intros (m & c1 & (y & Hy & Hm & -> & _) & H).
    apply IH in H as [-> H]. split; [lia|]. intros k Hk.
    destruct (Nat.eq_dec k i) as [->|Hne]; [eauto|]. apply H. lia.
Qed.

(** ** Trimming *)

Lemma trimStart_skip (s : str) :
  forall p x,
    (forall k, k < p -> exists y, idx s k = Some y /\ isSpace y = true) ->
    idx s p = Some x -> isSpace x = false ->
    exists w, trimStart s = x :: w.
Proof.
  induction s as [|a s IH]; intros p x Hsp Hp Hx.
  - destruct p; discriminate.
  - destruct p as [|p].
    + injection Hp as ->. cbn [trimStart]. rewrite Hx. eauto.
    + destruct (Hsp 0) as (y & Hy & Hs); [lia|]. injection Hy as <-.
      cbn [trimStart]. rewrite Hs. apply (IH p x); try assumption.
      intros k Hk. apply (Hsp (S k)). lia.
Qed.

Lemma trimStart_snoc (z : str) (x : char) :
  isSpace x = false -> exists w, trimStart (z ++ [x]) = w ++ [x].
Proof.
  intros Hx. induction z as [|a z [w IH]]; cbn [app trimStart].
  - rewrite Hx. now exists [].
  - destruct (isSpace a); [eauto|]. now exists (a :: z).
Qed.

Lemma trimEnd_cons (x : char) (w : str) :
  isSpace x = false -> exists w', trimEnd (x :: w) = x :: w'.
Proof.
  intros Hx. unfold trimEnd. cbn [rev].
  destruct (trimStart_snoc (rev w) x Hx) as [z ->].
  rewrite rev_app_distr. cbn [rev app]. eauto.
Qed.

Lemma trim_first (s : str) (p : nat) (x : char) :
  (forall k, k < p -> exists y, idx s k = Some y /\ isSpace y = true) ->
  idx s p = Some x -> isSpace x = false ->
  exists w, trim s = x :: w.
Proof.
  intros Hsp Hp Hx. unfold trim.
  destruct (trimStart_skip s p x Hsp Hp Hx) as [w ->].
  now apply trimEnd_cons.
Qed.

Lemma trimStart_in (s : str) (x : char) :
  In x s -> isSpace x = false -> In x (trimStart s).
Proof.
  induction s as [|a s IH]; [contradiction|]. cbn [trimStart].
  intros [->|H] Hx.
  - rewrite Hx. now left.
  - destruct (isSpace a); [now apply IH|]. now right.
Qed.

Lemma trim_in (s : str) (x : char) :
  In x s -> isSpace x = false -> In x (trim s).
Proof.
  intros H Hx. unfold trim, trimEnd. apply -> in_rev.
  apply trimStart_in; [|exact Hx]. apply -> in_rev.
  now apply trimStart_in.
Qed.

(** ** The last line of a block *)

(** A line that the pattern of an end matches, once trimmed, is not
    blank and is no comment. *)
Lemma end_barrier (a b : char) (ra rb rest : regex) (line : str) :
  char_match f_i a (ch "/") = false -> char_match f_i b (ch "/") = false ->
  test f_i (RSeq RBol (RSeq (star (set r_space))
              (RSeq (RGroup 1 (RAlt (RSeq (RChar a) ra) (RSeq (RChar b) rb)))
                    rest))) (trim line) = true ->
  truthy (trim line) = true /\ test f_none commentRegex line = false.
Proof.
  intros Ha Hb H. apply test_matches in H as (i & j & c & H).
  cbn [matches star set] in H.
  destruct H as (m1 & c1 & (Hbol & -> & ->) & m2 & c2 & (n & _ & Hit)
                 & m3 & c3 & (c4 & Halt & _) & _).
  apply at_start in Hbol; [|reflexivity]. subst i.
  apply iter_spaces in Hit as [-> Hsp]. cbn [Nat.add] in *.
  assert (Hy : exists y, idx (trim line) n = Some y
                         /\ (char_match f_i a y = true
                             \/ char_match f_i b y = true)).
  { destruct Halt as [(m & c5 & (y & Hy & Hm & _) & _)
                     |(m & c5 & (y & Hy & Hm & _) & _)]; eauto. }
  destruct Hy as (y & Hy & Hm). split.
  { destruct (trim line); [destruct n; discriminate|reflexivity]. }
  destruct (test f_none commentRegex line) eqn:Ec; [|reflexivity]. exfalso.
  apply test_matches in Ec as (i & j' & c' & Hc).
  unfold commentRegex in Hc. cbn [seqs matches star set] in Hc.
  change (lit (u "//")) with (RSeq (RChar (ch "/")) (RChar (ch "/"))) in Hc.
  cbn [matches] in Hc.
  destruct Hc as (k1 & d1 & (Hbol & -> & ->) & k2 & d2 & (n' & _ & Hit)
                  & k3 & d3 & (x & Hx & Hxm & _) & _).
  apply at_start in Hbol; [|reflexivity]. subst i.
  apply iter_spaces in Hit as [-> Hsp']. cbn [Nat.add] in *.
  unfold char_match in Hxm. cbn [icase f_none] in Hxm.
  apply ceqb_eq in Hxm. subst x.
  destruct (trim_first line n' (ch "/")) as [w Hw]; [|exact Hx|reflexivity|].
  { intros k Hk. destruct (Hsp' k) as (z & Hz & Hzs); [lia|].
    exists z. split; [exact Hz|]. apply space_set.
    unfold set_match in Hzs. cbn [icase f_none xorb] in Hzs. exact Hzs. }
  rewrite Hw in *. destruct n as [|n].
  - injection Hy as <-. destruct Hm; congruence.
  - destruct (Hsp 0) as (z & Hz & Hzs); [lia|]. injection Hz as <-.
    vm_compute in Hzs. discriminate.
Qed.

Lemma procedure_end_barrier (line : str) :
  test f_i procedureEndRegex (trim line) = true ->
  truthy (trim line) = true /\ test f_none commentRegex line = false.
Proof.
  apply (end_barrier 1050 (ch "E") (lit (u "онецПроцедуры"))
                     (lit (u "ndProcedure"))); reflexivity.
Qed.

Lemma function_end_barrier (line : str) :
  test f_i functionEndRegex (trim line) = true ->
  truthy (trim line) = true /\ test f_none commentRegex line = false.
Proof.
  apply (end_barrier 1050 (ch "E") (lit (u "онецФункции"))
                     (lit (u "ndFunction"))); reflexivity.
Qed.

(** ** The first line of a block *)

(** A line that the pattern of a beginning matches holds the first
    code unit of a name, which is no whitespace. *)
Lemma start_has_name (ru en : string) (line : str) :
  test f_i (re_start ru en) line = true ->
  exists y, In y line /\ isSpace y = false.
Proof.
  intros H. apply test_matches in H as (i & j & c & H).
  unfold re_start in H. cbn [seqs matches] in H.
  destruct H as (m1 & c1 & _ & m2 & c2 & _ & m3 & c3 & _ & m4 & c4 & _
                 & c5 & (m5 & c6 & (y & Hy & Hm & _) & _) & _).
  exists y. split; [eapply nth_error_In; exact Hy|].
  now apply ident_not_space.
Qed.

End FoldFacts.

Module FoldLoop.
Import Folding Sem FoldFacts.

(** ** The loop over the lines *)

Lemma ordered_snoc (bs : list block) (b : block) :
  forall lo,
    ordered lo bs = true -> lo <= startLine b ->
    (forall b', In b' bs -> endLine b' < startLine b) ->
    startLine b < endLine b ->
    ordered lo (bs ++ [b]) = true.
Proof.
  induction bs as [|b1 bs IH]; intros lo Ho Hlo Hbs Hb; cbn [app ordered].
  - apply andb_true_iff. split; [|reflexivity]. apply andb_true_iff.
    split; [now apply Nat.leb_le|now apply Nat.ltb_lt].
  - cbn [ordered] in Ho. apply andb_true_iff in Ho as [Ho Hr]. rewrite Ho.
    cbn [andb]. apply IH; try assumption.
    + specialize (Hbs b1 (or_introl eq_refl)). lia.
    + intros b' Hb'. apply Hbs. now right.
Qed.

Lemma ordered_in (bs : list block) (b : block) :
  forall lo, ordered lo bs = true -> In b bs ->
             lo <= startLine b /\ startLine b < endLine b.
Proof.
  induction bs as [|b1 bs IH]; intros lo Ho Hb; [contradiction|].
  cbn [ordered] in Ho. apply andb_true_iff in Ho as [Ho Hr].
  apply andb_true_iff in Ho as [H1 H2].
  apply Nat.leb_le in H1. apply Nat.ltb_lt in H2.
  destruct Hb as [->|Hb]; [lia|]. destruct (IH _ Hr Hb). lia.
Qed.

Lemma parsed_later (lines : list str) (i : nat) (st : current * list block) :
  parsed lines i st -> parsed lines (S i) st.
Proof.
  intros (H1 & H2 & H3). split; [exact H1|]. split.
  - intros b Hb. destruct (H2 b Hb) as (Ha & Hb' & Hc). repeat split; auto.
  - destruct (fst st) as [[[k s] sig]|]; [|exact I].
    destruct H3 as (Ha & Hb & Hc & Hd). repeat split; auto.
Qed.

Lemma parsed_open (lines : list str) (i : nat) (k : kind) (blocks : list block) :
  parsed lines i (None, blocks) ->
  test f_i (startRegex k) (lineAt lines i) = true ->
  parsed lines (S i) (Some (k, i, extractSignature lines i), blocks).
Proof.
  intros (H1 & H2 & _) Ht. cbn [fst snd] in *. split; [exact H1|]. split.
  - intros b Hb. destruct (H2 b Hb) as (Ha & Hb' & Hc). repeat split; auto.
  - repeat split; auto. intros b Hb. now destruct (H2 b Hb).
Qed.

Lemma parsed_close (lines : list str) (i : nat) (k : kind) (s : nat) (sig : str)
      (blocks : list block) :
  parsed lines i (Some (k, s, sig), blocks) ->
  test f_i (endRegex k) (trim (lineAt lines i)) = true ->
  parsed lines (S i)
         (None, blocks ++ [{| type := k; startLine := s; endLine := i;
                              signature := sig |}]).
Proof.
  intros (H1 & H2 & Hs & Hb & Hsig & Hst) Ht. cbn [fst snd] in *.
  split; [|split; [|exact I]].
  - apply ordered_snoc; cbn [startLine endLine]; auto. lia.
  - intros b Hin. apply in_app_or in Hin as [Hin|[<-|[]]].
    + destruct (H2 b Hin) as (Ha & Hb' & Hc). repeat split; auto.
    + cbn [endLine startLine signature]. repeat split; auto.
      unfold delimited. cbn [type startLine endLine]. now rewrite Hst, Ht.
Qed.

Lemma parseLine_keeps (lines : list str) (i : nat) (st : current * list block) :
  parsed lines i st -> parsed lines (S i) (parseLine lines i st).
Proof.
  intros H. destruct st as [cur blocks]. unfold parseLine.
  destruct cur as [[[k s] sig]|]; cbn [isOpen negb].
  - rewrite !andb_false_r.
    destruct k.
    + destruct (test f_i procedureEndRegex _) eqn:E;
        [|now apply parsed_later]. now apply (parsed_close lines i procedure).
    + destruct (test f_i functionEndRegex _) eqn:E;
        [|now apply parsed_later]. now apply (parsed_close lines i function).
  - rewrite !andb_true_r.
    destruct (test f_i procedureStartRegex _) eqn:E1;
      [now apply (parsed_open lines i procedure)|].
    destruct (test f_i functionStartRegex _) eqn:E2;
      [now apply (parsed_open lines i function)|].
    now apply parsed_later.
Qed.

Lemma parseLines_keeps (lines : list str) :
  forall n i st, parsed lines i st -> parsed lines (i + n) (parseLines lines n i st).
Proof.
  induction n as [|n IH]; intros i st H; cbn [parseLines].
  - now rewrite Nat.add_0_r.
  - replace (i + S n) with (S i + n) by lia. apply IH.
    now apply parseLine_keeps.
Qed.

Lemma closed_parsed (lines : list str) :
  parsed lines (length lines) (parseLines lines (length lines) 0 (None, [])).
Proof.
  apply (parseLines_keeps lines (length lines) 0). split; [reflexivity|].
  split; [intros b []|exact I].
Qed.

Lemma closed_ordered (lines : list str) : ordered 0 (closedBlocks lines) = true.
Proof. apply closed_parsed. Qed.

Lemma closed_in (lines : list str) (b : block) :
  In b (closedBlocks lines) ->
  endLine b < length lines /\ delimited lines b = true
  /\ signature b = extractSignature lines (startLine b).
Proof. apply closed_parsed. Qed.

(** ** The signature of a block *)

Lemma declaration_keeps (lines : list str) (s : nat) :
  forall fuel cur acc,
    exists more, declaration fuel lines s cur acc = acc ++ more.
Proof.
  induction fuel as [|fuel IH]; intros cur acc; cbn [declaration].
  - exists []. now rewrite app_nil_r.
  - destruct (nth_error lines cur) as [line|];
      [|exists []; now rewrite app_nil_r].
    destruct (20 <? length (acc ++ [line])); [now exists [line]|].
    destruct (declarationComplete line (cur =? s)); [now exists [line]|].
    destruct (IH (S cur) (acc ++ [line])) as [more ->].
    exists (line :: more). now rewrite <- app_assoc.
Qed.

Lemma declaration_step (fuel : nat) (lines : list str) (s cur : nat)
      (acc : list str) :
  declaration (S fuel) lines s cur acc
  = match nth_error lines cur with
    | None => acc
    | Some line =>
      if 20 <? length (acc ++ [line]) then acc ++ [line]
      else if declarationComplete line (cur =? s) then acc ++ [line]
           else declaration fuel lines s (S cur) (acc ++ [line])
    end.
Proof. reflexivity. Qed.

Lemma join_first (sep p : str) (rest : list str) (x : char) :
  In x p -> In x (join sep (p :: rest)).
Proof.
  intros H. cbn [join]. destruct rest; [exact H|].
  apply in_or_app. now left.
Qed.

Lemma signature_truthy (lines : list str) (s : nat) :
  s < length lines ->
  (exists y, In y (lineAt lines s) /\ isSpace y = false) ->
  truthy (extractSignature lines s) = true.
Proof.
  intros Hs (y & Hy & Hsp). unfold extractSignature.
  replace (length lines <=? s) with false by (symmetry; apply Nat.leb_gt; lia).
  assert (Hd : exists more,
             declaration 21 lines s s [] = lineAt lines s :: more).
  { change 21 with (S 20). rewrite declaration_step. unfold lineAt.
    rewrite (nth_error_nth' lines [] Hs). cbn [app length Nat.ltb Nat.leb].
    destruct (declarationComplete _ _); [now exists []|].
    destruct (declaration_keeps lines s 20 (S s) [nth s lines []]) as [more ->].
    now exists more. }
  destruct Hd as [more ->].
  assert (Hin : In y (trim (join (u " ") (lineAt lines s :: more)))).
  { apply trim_in; [|exact Hsp]. now apply join_first. }
  destruct (trim _) as [|z w]; [contradiction|].
  destruct (match directivesAbove lines s [] with [] => [] | _ :: _ => _ end);
    reflexivity.
Qed.

Lemma closed_valid (lines : list str) (b : block) :
  In b (closedBlocks lines) -> isValid b = true.
Proof.
  intros Hb. destruct (closed_in lines b Hb) as (He & Hd & Hsig).
  destruct (ordered_in _ b 0 (closed_ordered lines) Hb) as [_ Hse].
  unfold isValid. apply andb_true_iff. split.
  - apply negb_true_iff, orb_false_iff. split.
    + apply Nat.eqb_neq. lia.
    + apply Nat.leb_gt. lia.
  - rewrite Hsig. apply signature_truthy; [lia|].
    unfold delimited in Hd. apply andb_true_iff in Hd as [Hd _].
    destruct (type b); cbn [startRegex] in Hd;
      eapply start_has_name; exact Hd.
Qed.

Lemma filter_all (A : Type) (f : A -> bool) (l : list A) :
  (forall x, In x l -> f x = true) -> filter f l = l.
Proof.
  induction l as [|x l IH]; [reflexivity|]. intros H. cbn [filter].
  rewrite (H x) by now left. f_equal. apply IH. intros y Hy. apply H.
  now right.
Qed.

Lemma valid_closed (lines : list str) : validBlocks lines = closedBlocks lines.
Proof. apply filter_all. apply closed_valid. Qed.

Lemma codeBlocks_parts (cs : list commentBlock) (bs : list block) :
  codeBlocks (map Comment cs ++ map Code bs) = bs.
Proof.
  unfold codeBlocks. rewrite flat_map_app.
  assert (H1 : flat_map (fun f => match f with Code b => [b] | Comment _ => [] end)
                        (map Comment cs) = []).
  { induction cs as [|c cs IH]; [reflexivity|]. exact IH. }
  rewrite H1. cbn [app]. induction bs as [|b bs IH]; [reflexivity|].
  cbn [map flat_map app]. now rewrite IH.
Qed.

(** ** The comments above a block *)

Lemma skipBlank_spec (lines : list str) :
  forall k1,
    skipBlank lines k1 <= k1
    /\ (forall k, skipBlank lines k1 <= k < k1 -> isBlankLine lines k = true)
    /\ (forall e, skipBlank lines k1 = S e ->
                  truthy (trim (lineAt lines e)) = true).
Proof.
  induction k1 as [|k IH]; cbn [skipBlank].
  - split; [lia|]. split; [intros k Hk; lia|discriminate].
  - destruct (truthy (trim (lineAt lines k))) eqn:E.
    + split; [lia|]. split; [intros k' Hk; lia|]. now intros e [= <-].
    + destruct IH as (H1 & H2 & H3). split; [lia|]. split; [|exact H3].
      intros k' Hk. destruct (Nat.eq_dec k' k) as [->|Hne].
      * unfold isBlankLine. now rewrite E.
      * apply H2. lia.
Qed.

Lemma commentTop_spec (lines : list str) :
  forall s,
    commentTop lines s <= s
    /\ (forall k, commentTop lines s <= k < s -> isCommentLine lines k = true)
    /\ (forall p, commentTop lines s = S p -> isCommentLine lines p = false).
Proof.
  induction s as [|p IH]; cbn [commentTop].
  - split; [lia|]. split; [intros k Hk; lia|discriminate].
  - destruct (test f_none commentRegex (lineAt lines p)) eqn:E.
    + destruct IH as (H1 & H2 & H3). split; [lia|]. split; [|exact H3].
      intros k Hk. destruct (Nat.eq_dec k p) as [->|Hne]; [exact E|].
      apply H2. lia.
    + split; [lia|]. split; [intros k Hk; lia|]. now intros p' [= <-].
Qed.

Lemma commentAbove_shape (lines : list str) (b : block) (c : commentBlock) :
  commentAbove lines b = Some c -> commentShape lines (startLine b) c.
Proof.
  unfold commentAbove. destruct (startLine b =? 0); [discriminate|].
  destruct (skipBlank_spec lines (startLine b)) as (Hb1 & Hb2 & _).
  destruct (skipBlank lines (startLine b)) as [|e] eqn:Ee; [discriminate|].
  destruct (test f_none commentRegex (lineAt lines e)) eqn:Ec;
    cbn [negb]; [|discriminate].
  destruct (commentTop_spec lines e) as (Ht1 & Ht2 & Ht3).
  destruct (commentTop lines e <=? e); [|discriminate].
  destruct (commentTop lines e <? e) eqn:El; [|discriminate].
  apply Nat.ltb_lt in El. intros [= <-].
  unfold commentShape.
  cbn [relatedProcedureLine commentStartLine commentEndLine firstLineContent].
  split; [reflexivity|]. split; [exact El|]. split; [lia|]. split.
  { intros k Hk. destruct (Nat.eq_dec k e) as [->|Hne]; [exact Ec|].
    apply Ht2. lia. }
  split; [intros k Hk; apply Hb2; lia|]. split; [exact Ht3|reflexivity].
Qed.

Lemma comments_in (lines : list str) (bs : list block) (c : commentBlock) :
  In c (parseCommentBlocks lines bs) ->
  exists b, In b bs /\ commentAbove lines b = Some c.
Proof.
  unfold parseCommentBlocks. intros H. apply in_flat_map in H as (b & Hb & H).
  exists b. split; [exact Hb|].
  destruct (commentAbove lines b) as [c'|]; [|contradiction].
  destruct H as [->|[]]. reflexivity.
Qed.

(** A comment block lies below a line that is not blank and is no
    comment. *)
Lemma comment_below (lines : list str) (b : block) (c : commentBlock) (e0 : nat) :
  truthy (trim (lineAt lines e0)) = true ->
  isCommentLine lines e0 = false ->
  e0 < startLine b ->
  commentAbove lines b = Some c -> e0 < commentStartLine c.
Proof.
  intros Hn Hc Hlt H. apply commentAbove_shape in H.
  destruct H as (_ & H1 & H2 & H3 & H4 & _).
  destruct (Nat.lt_ge_cases e0 (commentStartLine c)) as [|Hge]; [assumption|].
  exfalso. destruct (Nat.le_gt_cases e0 (commentEndLine c)) as [Hle|Hgt].
  - rewrite H3 in Hc by lia. discriminate.
  - specialize (H4 e0 (conj Hgt Hlt)). unfold isBlankLine in H4.
    rewrite Hn in H4. discriminate.
Qed.

Lemma delimited_barrier (lines : list str) (b : block) :
  delimited lines b = true ->
  truthy (trim (lineAt lines (endLine b))) = true
  /\ isCommentLine lines (endLine b) = false.
Proof.
  unfold delimited. intros H. apply andb_true_iff in H as [_ H].
  destruct (type b); cbn [endRegex] in H.
  - now apply procedure_end_barrier.
  - now apply function_end_barrier.
Qed.

(** The first lines of the comment blocks and of the blocks, from a
    line [lo] on that follows a line which is not blank and is no
    comment. *)
Lemma starts_distinct (lines : list str) :
  forall bs lo,
    ordered lo bs = true ->
    (forall b, In b bs -> delimited lines b = true) ->
    (forall e0, lo = S e0 ->
                truthy (trim (lineAt lines e0)) = true
                /\ isCommentLine lines e0 = false) ->
    NoDup (map commentStartLine (parseCommentBlocks lines bs))
    /\ NoDup (map startLine bs)
    /\ (forall x, In x (map commentStartLine (parseCommentBlocks lines bs)) ->
                  lo <= x /\ ~ In x (map startLine bs))
    /\ (forall x, In x (map startLine bs) -> lo <= x).
Proof.
  induction bs as [|b bs IH]; intros lo Ho Hd Hlo.
  { cbn. repeat split; try constructor; contradiction. }
  cbn [ordered] in Ho. apply andb_true_iff in Ho as [Ho Hr].
  apply andb_true_iff in Ho as [H1 H2].
  apply Nat.leb_le in H1. apply Nat.ltb_lt in H2.
  destruct (IH (S (endLine b)) Hr (fun x Hx => Hd x (or_intror Hx)))
    as (N1 & N2 & N3 & N4).
  { intros e0 [= <-]. apply delimited_barrier, Hd. now left. }
  assert (Hc : forall c, commentAbove lines b = Some c ->
                         lo <= commentStartLine c
                         /\ commentStartLine c < startLine b).
  { intros c Hc. split.
    - destruct lo as [|e0]; [lia|].
      destruct (Hlo e0 eq_refl) as [Ha Hb].
      pose proof (comment_below lines b c e0 Ha Hb H1 Hc). lia.
    - apply commentAbove_shape in Hc. destruct Hc as (_ & Ha & Hb & _). lia. }
  unfold parseCommentBlocks in *. cbn [flat_map map].
  rewrite map_app.
  split; [|split; [|split]].
  - destruct (commentAbove lines b) as [c|]; cbn [map app]; [|exact N1].
    constructor; [|exact N1]. intros Hin. destruct (Hc c eq_refl) as [_ Hlt].
    destruct (N3 _ Hin) as [Hge _]. lia.
  - constructor; [|exact N2]. intros Hin. specialize (N4 _ Hin). lia.
  - intros x Hx. apply in_app_or in Hx as [Hx|Hx].
    + destruct (commentAbove lines b) as [c|]; [|contradiction].
      destruct Hx as [<-|[]]. destruct (Hc c eq_refl) as [Hge Hlt].
      split; [exact Hge|]. intros [Heq|Hin]; [lia|].
      specialize (N4 _ Hin). lia.
    + destruct (N3 _ Hx) as [Hge Hn]. split; [lia|].
      intros [Heq|Hin]; [lia|contradiction].
  - intros x [<-|Hx]; [exact H1|]. specialize (N4 _ Hx). lia.
Qed.

End FoldLoop.

(** X19. The procedures and functions that [parseProceduresAndFunctions]
    returns follow one another without nesting or overlap: each begins
    after the end of the one before it, ends after its own beginning and
    inside the text; its first line matches the pattern of a beginning of
    its type and its last line, once trimmed, the pattern of an end. *)
Theorem code_blocks_ordered (textContent : str) :
  let lines := split_char c_nl textContent in
  let bs := Folding.codeBlocks
              (Folding.parseProceduresAndFunctions textContent) in
  Folding.ordered 0 bs = true
  /\ forall b, In b bs ->
               Folding.endLine b < length lines
               /\ Folding.delimited lines b = true.
Proof.
  intros lines bs. unfold bs, Folding.parseProceduresAndFunctions.
  destruct (truthy textContent); cbn [negb].
  2:{ split; [reflexivity|intros b []]. }
  rewrite FoldLoop.codeBlocks_parts, FoldLoop.valid_closed. fold lines. split.
  - apply FoldLoop.closed_ordered.
  - intros b Hb. destruct (FoldLoop.closed_in lines b Hb) as (H1 & H2 & _).
    now split.
Qed.

(** X20. The validation at the end of [parseProceduresAndFunctions]
    drops nothing: every block that the loop closes ends after its
    beginning and has a signature that is not empty. *)
Theorem validation_keeps_all (lines : list str) :
  Folding.validBlocks lines = Folding.closedBlocks lines.
Proof. apply FoldLoop.valid_closed. Qed.

(** X21. A comment block among the foldable blocks has two lines or
    more, all of them comment lines; the line above it is no comment;
    only blank lines lie between it and the first line of a procedure or
    function that is among the foldable blocks too. *)
Theorem comment_blocks_shape (textContent : str) (c : Folding.commentBlock) :
  In (Folding.Comment c) (Folding.parseProceduresAndFunctions textContent) ->
  Folding.commentShape (split_char c_nl textContent)
                       (Folding.relatedProcedureLine c) c
  /\ exists b,
       In (Folding.Code b) (Folding.parseProceduresAndFunctions textContent)
       /\ Folding.startLine b = Folding.relatedProcedureLine c.
Proof.
  unfold Folding.parseProceduresAndFunctions.
  destruct (truthy textContent); cbn [negb]; [|intros []].
  set (lines := split_char c_nl textContent). intros H.
  apply in_app_or in H as [H|H].
  2:{ apply in_map_iff in H as (b & Hb & _). discriminate. }
  apply in_map_iff in H as (c' & [= ->] & H).
  apply FoldLoop.comments_in in H as (b & Hb & Hc).
  pose proof (FoldLoop.commentAbove_shape lines b c Hc) as Hs.
  assert (Hr : Folding.relatedProcedureLine c = Folding.startLine b)
    by apply Hs.
  rewrite Hr. split; [exact Hs|]. exists b. split; [|reflexivity].
  apply in_or_app. right. now apply in_map.
Qed.

(** The theorem at the comment of the sample module. *)
Lemma comment_blocks_shape_witness :
  Folding.commentShape
    (split_char c_nl Folding.sample) 2
    {| Folding.commentStartLine := 0; Folding.commentEndLine := 1;
       Folding.relatedProcedureLine := 2;
       Folding.firstLineContent := u "// Считает сумму" |}.
Proof.
  apply (comment_blocks_shape Folding.sample
           {| Folding.commentStartLine := 0; Folding.commentEndLine := 1;
              Folding.relatedProcedureLine := 2;
              Folding.firstLineContent := u "// Считает сумму" |}).
  vm_compute. left. reflexivity.
Defined.

(** X22. No two foldable blocks begin on the same line, so that the
    block of a line, which the handlers look up by its first line, is
    the only one. *)
Theorem foldable_starts_distinct (textContent : str) :
  NoDup (map Folding.startOf
             (Folding.parseProceduresAndFunctions textContent)).
Proof.
  unfold Folding.parseProceduresAndFunctions.
  destruct (truthy textContent); cbn [negb]; [|constructor].
  set (lines := split_char c_nl textContent).
  rewrite FoldLoop.valid_closed, map_app, !map_map.
  cbn [Folding.startOf].
  destruct (FoldLoop.starts_distinct lines (Folding.closedBlocks lines) 0)
    as (N1 & N2 & N3 & _).
  - apply FoldLoop.closed_ordered.
  - intros b Hb. now destruct (FoldLoop.closed_in lines b Hb) as (_ & H & _).
  - discriminate.
  - apply NoDup_app; [exact N1|exact N2|].
    intros a Ha. now apply N3.
Qed.

(* ================================================================== *)
(** * A diagram without brackets; the age of a conversation *)
(* ================================================================== *)

Module PlainDiagram.
Import Markdown Sem.

Lemma has_char_skipn (ps s : str) (n : nat) :
  has_char ps s = false -> has_char ps (skipn n s) = false.
Proof.
  intros H. rewrite <- (firstn_skipn n s) in H. unfold has_char in *.
  rewrite existsb_app in H. now apply orb_false_iff in H as [_ H].
Qed.

Lemma match_first_none (fl : flags) (r : regex) (s : str) :
  (forall i j c', ~ matches fl s r i [] j c') -> match_first fl r s = None.
Proof.
  intros H. unfold match_first, exec.
  rewrite (search_none fl s r); [reflexivity|].
  intros i. now apply match_at_none.
Qed.

Lemma split_aux_cons (c : char) (s : str) :
  forall cur, exists p l, split_char_aux c cur s = p :: l.
Proof.
  induction s as [|x s IH]; intros cur; cbn [split_char_aux]; [eauto|].
  destruct (ceqb x c); eauto.
Qed.

Lemma join_split_aux (c : char) (s : str) :
  forall cur, join [c] (split_char_aux c cur s) = rev cur ++ s.
Proof.
  induction s as [|x s IH]; intros cur; cbn [split_char_aux].
  - cbn [join]. now rewrite app_nil_r.
  - destruct (ceqb x c) eqn:E.
    + apply ceqb_eq in E. subst x.
      destruct (split_aux_cons c s []) as (p & l & Hp).
      pose proof (IH []) as Hj. rewrite Hp in *.
      change (join [c] (rev cur :: p :: l))
        with (rev cur ++ [c] ++ join [c] (p :: l)).
      rewrite Hj. reflexivity.
    + rewrite IH. cbn [rev]. now rewrite <- app_assoc.
Qed.

Lemma join_split (c : char) (s : str) : join [c] (split_char c s) = s.
Proof. apply (join_split_aux c s []). Qed.

Lemma fixLine_plain (line : str) :
  has_char (u "[{(") line = false ->
  forall fuel i result,
    length line <= fuel + i ->
    fixLine fuel line i result = result ++ skipn i line.
Proof.
  intros H. induction fuel as [|fuel IH]; intros i result Hf; cbn [fixLine].
  - rewrite skipn_all2 by lia. now rewrite app_nil_r.
  - destruct (idx line i) as [x|] eqn:Ex.
    2:{ apply idx_none in Ex. rewrite skipn_all2 by lia.
        now rewrite app_nil_r. }
    rewrite match_first_none.
    2:{ apply (needs_none (skipn i line) (u "[{(") f_none eq_refl);
          [reflexivity|]. now apply has_char_skipn. }
    rewrite IH by lia. rewrite <- app_assoc. f_equal.
    clear - Ex. revert i Ex. induction line as [|y line IHl]; intros i Ex.
    + destruct i; discriminate.
    + destruct i as [|i]; [now injection Ex as ->|]. cbn [skipn].
      now apply IHl.
Qed.

End PlainDiagram.

(** X23. The code of a diagram that holds none of [[], [{] and [(] is
    written to the page as it is, trimmed: the repairs of
    [processMermaidBlock] change nothing in it. *)
Theorem fixMermaid_plain (code : str) :
  has_char (u "[{(") code = false -> Markdown.fixMermaid code = trim code.
Proof.
  intros H. apply DetectFacts.trim_has_char in H. revert H.
  unfold Markdown.fixMermaid. generalize (trim code). clear code. intros t H.
  assert (Hn : forall r, needs (u "[{(") r = true ->
                         forall tpl, replace_tpl f_none r tpl t = t).
  { intros r Hr tpl. apply Sem.replace_tpl_none.
    now apply (Sem.needs_none t (u "[{(") f_none eq_refl). }
  rewrite !Hn by reflexivity.
  assert (Hl : Forall (fun line => has_char (u "[{(") line = false)
                      (split_char c_nl t)).
  { pose proof (CharFacts.every_split_char
                  (fun x => negb (one_of (u "[{(") x)) c_nl t) as Hs.
    assert (Ht : forallb (fun x => negb (one_of (u "[{(") x)) t = true).
    { apply forallb_forall. intros x Hx. apply negb_true_iff.
      eapply PlainFacts.has_char_in; eauto. }
    specialize (Hs Ht). rewrite Forall_forall in *. intros line Hline.
    specialize (Hs line Hline). cbv beta in Hs.
    destruct (has_char (u "[{(") line) eqn:E; [|reflexivity].
    unfold has_char in E. apply existsb_exists in E as (x & Hx & Hp).
    rewrite forallb_forall in Hs. specialize (Hs x Hx).
    rewrite Hp in Hs. discriminate. }
  rewrite <- (PlainDiagram.join_split c_nl t) at 2. f_equal.
  rewrite <- (map_id (split_char c_nl t)) at 2.
  apply map_ext_in. intros line Hline. rewrite Forall_forall in Hl.
  rewrite (PlainDiagram.fixLine_plain line (Hl line Hline)) by lia.
  reflexivity.
Qed.

(** The theorem at a sequence diagram of two lines. *)
Lemma fixMermaid_plain_witness :
  Markdown.fixMermaid (u " sequenceDiagram" ++ [c_nl] ++ u "A->>B: hi ")
  = u "sequenceDiagram" ++ [c_nl] ++ u "A->>B: hi".
Proof.
  rewrite (fixMermaid_plain (u " sequenceDiagram" ++ [c_nl] ++ u "A->>B: hi "));
    vm_compute; reflexivity.
Defined.

Module AgeFacts.

Lemma div_lt_iff (a b c : Z) : (0 < b -> (a / b < c <-> a < b * c))%Z.
Proof.
  intros Hb. split; intros H.
  - apply Z.nle_gt. intros Hge.
    assert (c <= a / b)%Z by (apply Z.div_le_lower_bound; lia). lia.
  - apply Z.div_lt_upper_bound; lia.
Qed.

Lemma last_differs (a b c d : str) (x y : char) :
  a ++ b = c -> rev b = x :: d -> hd 0%N (rev c) = y -> ceqb x y = false ->
  False.
Proof.
  intros <- Hb Hc Hxy. rewrite rev_app_distr, Hb in Hc. cbn [app hd] in Hc.
  subst y. now rewrite ceqb_refl in Hxy.
Qed.

End AgeFacts.

(** X24. The age of a conversation reads [Только что] exactly when its
    time stamp lies less than a minute back, a time stamp in the future
    included, and it is a date exactly when the time stamp lies seven days
    back or more. *)
Theorem formatRelativeTime_bounds (now timestamp : Z) :
  (Conversations.formatRelativeTime now timestamp = Some (u "Только что")
   <-> (now - timestamp < 60000)%Z)
  /\ (Conversations.formatRelativeTime now timestamp = None
      <-> (604800000 <= now - timestamp)%Z).
Proof.
  unfold Conversations.formatRelativeTime.
  generalize (now - timestamp)%Z. intros d.
  rewrite !Z.div_div by lia.
  repeat match goal with
         | |- context [(d / (?a * ?b))%Z] =>
           let k := eval vm_compute in (a * b)%Z in
           change (a * b)%Z with k
         end.
  pose proof (AgeFacts.div_lt_iff d 1000 60 eq_refl) as H1.
  pose proof (AgeFacts.div_lt_iff d 60000 60 eq_refl) as H2.
  pose proof (AgeFacts.div_lt_iff d 3600000 24 eq_refl) as H3.
  pose proof (AgeFacts.div_lt_iff d 86400000 7 eq_refl) as H4.
  destruct (d / 1000 <? 60)%Z eqn:E1;
    [apply Z.ltb_lt in E1|apply Z.ltb_ge in E1].
  { split; split; intros; try reflexivity; try discriminate; lia. }
  destruct (d / 60000 <? 60)%Z eqn:E2;
    [apply Z.ltb_lt in E2|apply Z.ltb_ge in E2].
  { split; split; intros H; try discriminate; try lia. exfalso.
    injection H as H.
    eapply (AgeFacts.last_differs _ (u " мин назад") _ _ _ _ H); reflexivity. }
  destruct (d / 3600000 <? 24)%Z eqn:E3;
    [apply Z.ltb_lt in E3|apply Z.ltb_ge in E3].
  { split; split; intros H; try discriminate; try lia. exfalso.
    injection H as H.
    eapply (AgeFacts.last_differs _ (u " ч назад") _ _ _ _ H); reflexivity. }
  destruct (d / 86400000 =? 1)%Z eqn:E4;
    [apply Z.eqb_eq in E4|apply Z.eqb_neq in E4].
  { split; split; intros; try discriminate; lia. }
  destruct (d / 86400000 <? 7)%Z eqn:E5;
    [apply Z.ltb_lt in E5|apply Z.ltb_ge in E5].
  { split; split; intros H; try discriminate; try lia. exfalso.
    injection H as H.
    eapply (AgeFacts.last_differs _ (u " дн назад") _ _ _ _ H); reflexivity. }
  split; split; intros; try reflexivity; try discriminate; lia.
Qed.

(* ================================================================== *)
(** * The search in the messages *)
(* ================================================================== *)

Module SearchFacts.
Import Search.

Lemma starts_with_firstn (p s : str) (n : nat) :
  starts_with p (firstn n s) = true -> starts_with p s = true.
Proof.
  intros H. rewrite <- (firstn_skipn n s). now apply SpanMarkup.starts_with_app.
Qed.

Lemma starts_with_prefix (p s : str) :
  starts_with p s = true -> firstn (length p) s = p.
Proof.
  intros H. apply SpanMarkup.starts_with_split in H as [rest ->].
  rewrite firstn_app, Nat.sub_diag, firstn_all. cbn [firstn].
  apply app_nil_r.
Qed.

(** The first occurrence at or after a position. *)
Lemma index_from_first (p : str) :
  forall rest from k,
    index_from p rest from = Some k ->
    starts_with p (skipn (k - from) rest) = true
    /\ forall j, j < k - from -> starts_with p (skipn j rest) = false.
Proof.
  induction rest as [|x rest IH]; intros from k; cbn [index_from].
  - destruct (starts_with p []) eqn:E; [|discriminate].
    intros [= <-]. rewrite Nat.sub_diag. split; [exact E|]. intros j Hj. lia.
  - destruct (starts_with p (x :: rest)) eqn:E.
    + intros [= <-]. rewrite Nat.sub_diag. split; [exact E|]. intros j Hj. lia.
    + intros H. pose proof (XMLCover.index_from_bounds _ _ _ _ H) as [Hk _].
      apply IH in H as [H1 H2].
      replace (k - from) with (S (k - S from)) by lia. cbn [skipn].
      split; [exact H1|]. intros [|j] Hj; [exact E|]. cbn [skipn].
      apply H2. lia.
Qed.

Lemma index_from_none (p : str) :
  forall rest from,
    index_from p rest from = None ->
    forall j, starts_with p (skipn j rest) = false.
Proof.
  induction rest as [|x rest IH]; intros from; cbn [index_from].
  - destruct (starts_with p []) eqn:E; [discriminate|].
    intros _ j. now rewrite skipn_nil.
  - destruct (starts_with p (x :: rest)) eqn:E; [discriminate|].
    intros H [|j]; [exact E|]. cbn [skipn]. now apply (IH (S from)).
Qed.

Lemma indexOf_first (s p : str) (from k : nat) :
  indexOf s p from = Some k ->
  from <= k /\ k + length p <= from + length (skipn from s)
  /\ starts_with p (skipn k s) = true
  /\ forall j, from <= j < k -> starts_with p (skipn j s) = false.
Proof.
  unfold indexOf. intros H.
  pose proof (XMLCover.index_from_bounds _ _ _ _ H) as [H1 H2].
  apply index_from_first in H as [H3 H4].
  split; [exact H1|]. split; [exact H2|]. rewrite skipn_skipn in H3.
  replace (k - from + from) with k in H3 by lia. split; [exact H3|].
  intros j Hj. specialize (H4 (j - from)). rewrite skipn_skipn in H4.
  replace (j - from + from) with j in H4 by lia. apply H4. lia.
Qed.

Lemma indexOf_none (s p : str) (from : nat) :
  indexOf s p from = None ->
  forall j, from <= j -> starts_with p (skipn j s) = false.
Proof.
  unfold indexOf. intros H j Hj.
  pose proof (index_from_none _ _ _ H (j - from)) as H1.
  rewrite skipn_skipn in H1. now replace (j - from + from) with j in H1 by lia.
Qed.

Lemma includes_occurs (p s : str) :
  includes p s = true -> exists j, starts_with p (skipn j s) = true.
Proof.
  induction s as [|x s IH]; cbn [includes].
  - rewrite orb_false_r. intros H. now exists 0.
  - intros H. apply orb_true_iff in H as [H|H]; [now exists 0|].
    destruct (IH H) as [j Hj]. now exists (S j).
Qed.

(** A part of a text without an occurrence that begins in it. *)
Lemma no_occurrence (p s : str) (a b : nat) :
  p <> [] ->
  (forall j, a <= j < b -> starts_with p (skipn j s) = false) ->
  includes p (slice s a b) = false.
Proof.
  intros Hp H. destruct (includes p (slice s a b)) eqn:E; [|reflexivity].
  apply includes_occurs in E as [j Hj]. unfold slice in Hj.
  rewrite skipn_firstn_comm, skipn_skipn in Hj.
  assert (Hlt : j < b - a).
  { destruct (Nat.lt_ge_cases j (b - a)) as [|Hge]; [assumption|].
    replace (b - a - j) with 0 in Hj by lia. cbn [firstn] in Hj.
    destruct p; [congruence|discriminate]. }
  apply starts_with_firstn in Hj. rewrite (H (j + a)) in Hj by lia.
  discriminate.
Qed.

Lemma lower_slice (s : str) (a b : nat) :
  toLowerCase (slice s a b) = slice (toLowerCase s) a b.
Proof. unfold toLowerCase, slice. now rewrite skipn_map, firstn_map. Qed.

Lemma lower_skipn (s : str) (n : nat) :
  toLowerCase (skipn n s) = skipn n (toLowerCase s).
Proof. unfold toLowerCase. now rewrite skipn_map. Qed.

Lemma slice_nonempty (s : str) (a b : nat) :
  a < b -> a < length s -> slice s a b <> [].
Proof.
  intros Hab Ha E. apply (f_equal (@length char)) in E. unfold slice in E.
  rewrite length_firstn, length_skipn in E. cbn [length] in E. lia.
Qed.

Lemma firstn_then_slice (s : str) (a b : nat) :
  a <= b -> firstn a s ++ slice s a b = firstn b s.
Proof.
  intros H. unfold slice. replace b with (a + (b - a)) at 2 by lia.
  now rewrite TagFacts.firstn_plus.
Qed.

Section Loop.
Variables text query : str.
Hypothesis query_ok : query <> [].

Lemma lower_query_ok : toLowerCase query <> [].
Proof. unfold toLowerCase. destruct query; [congruence|discriminate]. Qed.

Lemma lower_lengths :
  length (toLowerCase text) = length text
  /\ length (toLowerCase query) = length query.
Proof. unfold toLowerCase. now rewrite !length_map. Qed.

Lemma markLoop_spec :
  forall fuel fragment lastIndex,
    length text - lastIndex < fuel ->
    lastIndex <= length text ->
    flat_map pieceText fragment = firstn lastIndex text ->
    Forall (piece_ok query) fragment ->
    exists fragment' last,
      markLoop fuel text (toLowerCase text) (toLowerCase query)
               (length query) fragment lastIndex
               (indexOf (toLowerCase text) (toLowerCase query) lastIndex)
      = Some (fragment', last)
      /\ last <= length text
      /\ flat_map pieceText fragment' = firstn last text
      /\ Forall (piece_ok query) fragment'
      /\ forall j, last <= j ->
                   starts_with (toLowerCase query) (skipn j (toLowerCase text)) = false.
Proof.
  destruct lower_lengths as [Hlt Hlq]. pose proof lower_query_ok as Hq.
  assert (Hqlen : 0 < length query) by (destruct query; [congruence|simpl; lia]).
  induction fuel as [|fuel IH]; intros fragment lastIndex Hfuel Hlast Hfr Hok;
    [lia|].
  cbn [markLoop].
  destruct (indexOf (toLowerCase text) (toLowerCase query) lastIndex) as [i|] eqn:Ei.
  2:{ exists fragment, lastIndex. repeat split; auto.
      now apply indexOf_none. }
  apply indexOf_first in Ei as (H1 & H2 & H3 & H4).
  rewrite length_skipn, Hlt, Hlq in H2.
  assert (Hend : i + length query <= length text) by lia.
  apply IH.
  - lia.
  - exact Hend.
  - rewrite flat_map_app. cbn [flat_map pieceText]. rewrite app_nil_r.
    rewrite <- (firstn_then_slice text i (i + length query)) by lia. f_equal.
    destruct (lastIndex <? i) eqn:El.
    + apply Nat.ltb_lt in El. rewrite flat_map_app. cbn [flat_map pieceText].
      rewrite app_nil_r, Hfr. apply firstn_then_slice. lia.
    + apply Nat.ltb_ge in El. assert (i = lastIndex) by lia. now subst.
  - apply Forall_app. split.
    + destruct (lastIndex <? i) eqn:El; [|exact Hok].
      apply Nat.ltb_lt in El. apply Forall_app. split; [exact Hok|].
      constructor; [|constructor]. split.
      * apply slice_nonempty; lia.
      * rewrite lower_slice. now apply no_occurrence.
    + constructor; [|constructor]. cbn [piece_ok]. rewrite lower_slice.
      unfold slice.
      replace (i + length query - i) with (length (toLowerCase query)) by lia.
      now apply starts_with_prefix.
Qed.

Lemma markText_spec :
  exists r,
    markText (S (length text)) text query = Some r
    /\ match r with
       | None => includes (toLowerCase query) (toLowerCase text) = false
       | Some fragment =>
         flat_map pieceText fragment = text
         /\ Forall (piece_ok query) fragment
       end.
Proof.
  unfold markText.
  destruct (includes (toLowerCase query) (toLowerCase text)) eqn:Ei; [|now exists None].
  destruct (markLoop_spec (S (length text)) [] 0)
    as (fragment & last & -> & Hl & Hfr & Hok & Hno);
    [lia|lia|reflexivity|constructor|].
  eexists. split; [reflexivity|]. cbv beta iota.
  destruct (last <? length text) eqn:El.
  - apply Nat.ltb_lt in El. split.
    + rewrite flat_map_app. cbn [flat_map pieceText].
      now rewrite app_nil_r, Hfr, firstn_skipn.
    + apply Forall_app. split; [exact Hok|]. constructor; [|constructor].
      split.
      * intros E. apply (f_equal (@length char)) in E.
        rewrite length_skipn in E. cbn [length] in E. lia.
      * pose proof (no_occurrence (toLowerCase query) (toLowerCase text)
                                  last (length text) lower_query_ok) as Hn.
        unfold slice in Hn. rewrite firstn_all2 in Hn
          by (rewrite length_skipn; destruct lower_lengths; lia).
        rewrite lower_skipn. apply Hn. intros j Hj. apply Hno. lia.
  - apply Nat.ltb_ge in El. assert (last = length text) by lia. subst last.
    rewrite firstn_all in Hfr. now split.
Qed.

End Loop.

End SearchFacts.

(** X25. On a text and a query of ASCII and basic Cyrillic code units,
    the query not empty, the loop that marks the occurrences in a text
    node returns within one turn per code unit of the text. When the text
    holds the query, upper and lower case taken as equal, the pieces of
    the fragment put together are the text itself; every marked piece is
    the query up to case; every text between the marks is not empty and
    holds no occurrence of the query. *)
Theorem markText_marks_occurrences (text query : str) :
  forallb Search.caseModelled text = true ->
  forallb Search.caseModelled query = true ->
  query <> [] ->
  exists r,
    Search.markText (S (length text)) text query = Some r
    /\ match r with
       | None => includes (toLowerCase query) (toLowerCase text) = false
       | Some fragment =>
         flat_map Search.pieceText fragment = text
         /\ Forall (Search.piece_ok query) fragment
       end.
Proof. intros _ _ H. now apply SearchFacts.markText_spec. Qed.

(** The theorem at a text with three occurrences in different cases. *)
Lemma markText_marks_occurrences_witness :
  exists r,
    Search.markText 11 (u "Ab xab AB.") (u "ab") = Some r
    /\ match r with
       | None => includes (toLowerCase (u "ab")) (toLowerCase (u "Ab xab AB."))
                 = false
       | Some fragment =>
         flat_map Search.pieceText fragment = u "Ab xab AB."
         /\ Forall (Search.piece_ok (u "ab")) fragment
       end.
Proof.
  apply (markText_marks_occurrences (u "Ab xab AB.") (u "ab"));
    [reflexivity|reflexivity|discriminate].
Defined.

(** X26. With the empty query the loop never ends: whatever the number
    of turns allowed, it does not return. (The handler of the search
    field does not call [highlightInHTML] with an empty query.) *)
Theorem markText_empty_query (text : str) (fuel : nat) :
  Search.markText fuel text [] = None.
Proof.
  unfold Search.markText. change (toLowerCase []) with (@nil char).
  assert (Hi : includes [] (toLowerCase text) = true)
    by (destruct (toLowerCase text); reflexivity).
  rewrite Hi.
  assert (H : forall fuel fragment,
             Search.markLoop fuel text (toLowerCase text) [] 0 fragment 0
                             (Some 0) = None).
  { clear. induction fuel as [|fuel IH]; intros fragment; [reflexivity|].
    cbn [Search.markLoop Nat.ltb Nat.leb Nat.add].
    assert (E : indexOf (toLowerCase text) [] 0 = Some 0)
      by (unfold indexOf; destruct (toLowerCase text); reflexivity).
    rewrite E. apply IH. }
  assert (E : indexOf (toLowerCase text) [] 0 = Some 0)
    by (unfold indexOf; destruct (toLowerCase text); reflexivity).
  cbn [length]. now rewrite E, H.
Qed.

(* ================================================================== *)
(** * Words and comments of the BSL tokenizer *)
(* ================================================================== *)

Module BSLWords.
Import BSL.

Lemma word_start_digit (x : char) : isWordStart x = true -> isDigit x = false.
Proof.
  intros H. destruct (isDigit x) eqn:E; [|reflexivity]. exfalso.
  unfold isDigit, in_range in E. apply andb_true_iff in E as [E1 E2].
  apply N.leb_le in E1, E2. unfold isWordStart, in_range, ceqb in H.
  repeat (apply orb_true_iff in H as [H|H]);
    try (apply andb_true_iff in H as [H1 H2]; apply N.leb_le in H1, H2; lia);
    apply N.eqb_eq in H; lia.
Qed.

Lemma word_start_not (x k : char) :
  isWordStart x = true -> isWordStart k = false -> ceqb x k = false.
Proof.
  intros Hx Hk. destruct (ceqb x k) eqn:E; [|reflexivity].
  apply ceqb_eq in E. subst. congruence.
Qed.

Lemma one_span (code : str) (sp : span) (fuel : nat) :
  step code 0 (hd 0%N code) = (sp, length code) ->
  code <> [] ->
  tokenize (S (S fuel)) code = Some [sp].
Proof.
  intros Hs Hc. destruct code as [|x t]; [congruence|].
  unfold tokenize. cbn [loop idx nth_error]. cbn [hd] in Hs. rewrite Hs.
  cbn [app loop].
  replace (idx (x :: t) (length (x :: t))) with (@None char)
    by (symmetry; apply idx_none; lia).
  reflexivity.
Qed.

Lemma spans_one (code : str) (sp : span) :
  step code 0 (hd 0%N code) = (sp, length code) -> code <> [] ->
  spans code = [sp].
Proof.
  intros Hs Hc. unfold spans. destruct code as [|x t]; [congruence|].
  cbn [length]. now rewrite (one_span (x :: t) sp (length t) Hs Hc).
Qed.

End BSLWords.

(** X27. A keyword is recognised in any letter case: a word that stands
    alone and whose lower case form is in the table of the keywords is
    one span of class [tok-k]. *)
Theorem keyword_any_case (x : char) (t : str) :
  BSL.isWordStart x = true -> forallb BSL.isWordChar t = true ->
  BSL.has BSL.KEYWORDS (toLowerCase (x :: t)) = true ->
  BSL.spans (x :: t) = [tok "tok-k" (x :: t)].
Proof.
  intros Hx Ht Hk. apply BSLWords.spans_one; [|discriminate]. cbn [hd].
  unfold BSL.step.
  rewrite (BSLWords.word_start_not x c_dquote Hx eq_refl).
  rewrite (BSLWords.word_start_not x c_squote Hx eq_refl).
  rewrite (BSLWords.word_start_not x (ch "/") Hx eq_refl).
  rewrite (BSLWords.word_start_not x (ch "#") Hx eq_refl).
  rewrite (BSLWords.word_start_not x (ch "&") Hx eq_refl).
  cbn [orb andb].
  assert (Hn : BSL.isNumberStart (x :: t) 0 x = false).
  { unfold BSL.isNumberStart.
    rewrite (BSLWords.word_start_digit x Hx).
    now rewrite (BSLWords.word_start_not x (ch "-") Hx eq_refl). }
  rewrite Hn, Hx.
  assert (Hj : scanWhile BSL.isWordChar (x :: t) (0 + 1) = length (x :: t)).
  { unfold scanWhile. cbn [Nat.add skipn length].
    rewrite <- (app_nil_r t) at 1.
    now rewrite (RenderFacts.span_len_all BSL.isWordChar t [] Ht I). }
  rewrite Hj. f_equal.
  assert (Hs : slice (x :: t) 0 (length (x :: t)) = x :: t)
    by (rewrite slice_0; apply firstn_all).
  unfold tok. rewrite Hs. f_equal.
  unfold BSL.classify. rewrite Hs, Hk. cbn [BSL.isAfterDot negb andb].
  rewrite andb_true_r.
  destruct (BSL.has BSL.UPPERCASE_ONLY_KEYWORDS _ && _); reflexivity.
Qed.

(** The theorem at a keyword in mixed case. *)
Lemma keyword_any_case_witness :
  BSL.spans (u "ВозВРАТ") = [tok "tok-k" (u "ВозВРАТ")].
Proof.
  apply (keyword_any_case 1042 (u "озВРАТ")); vm_compute; reflexivity.
Defined.


